(** * fsa-mock: the virtual file system, its permissions and its handles

    A shallow embedding of the core of the library: the path and buffer
    helpers of [utils], the [FileSystem] class, the [Permission] and
    [PermissionsManager] classes, [SyncAccessHandle] and
    [WritableFileStreamSink].

    Conventions of the embedding.
    - JavaScript numbers are integers ([Z]); the disk size may also be
      [Infinity].  Fractions and [NaN] sizes are outside the model, except
      for the numeric arguments of sink commands, which may be [NaN]: what
      is proved of [createFile] and of the states that programs reach is
      proved for sizes that are whole numbers.
    - An [ArrayBuffer] is the list of its bytes; a [BufferSource] is an
      [ArrayBuffer] or a view, which has an underlying buffer, an offset
      and a length.  A buffer is treated as a value.  The only modelled
      code that writes into an existing buffer is [SyncAccessHandle.read],
      which writes into the buffer of its caller and returns, in the
      model, the bytes which that buffer then holds.
    - Objects whose identity matters (file and directory descriptors,
      permissions) live in a heap addressed by references; a manager maps
      the paths it has registered to the references of their permissions.
    - A method that may throw returns an [Outcome] together with the state
      it leaves behind, so what a failing call has already mutated stays
      visible.
    - [Date.now()] is an explicit argument [now]. *)

From Stdlib Require Import ZArith Lia Ascii String.
From Stdlib.Strings Require Import Byte.
From stdpp Require Import base option list strings gmap pretty.

Local Open Scope Z_scope.
Local Open Scope string_scope.

(** ** Values shared by all components *)

Inductive PermissionState := granted | prompt | denied.

Inductive FileSystemPermissionMode := ModeRead | ModeReadwrite.

#[global] Instance PermissionState_eq_dec : EqDecision PermissionState.
Proof. solve_decision. Defined.

#[global] Instance FileSystemPermissionMode_eq_dec :
  EqDecision FileSystemPermissionMode.
Proof. solve_decision. Defined.

(** What a [throw] carries.  [Reason] is an arbitrary value handed to
    [WritableFileStreamSink.abort]. *)
Inductive Error :=
| TypeError (message : string)
| RangeError (message : string)
| PlainError (message : string)
| DOMException (message name : string)
| Reason (tag : string).

#[global] Instance Error_eq_dec : EqDecision Error.
Proof. solve_decision. Defined.

(** A JavaScript number as far as sizes go: an integer or [Infinity]. *)
Inductive num := Fin (z : Z) | Infinity.

Definition num_add (a : num) (z : Z) : num :=
  match a with Fin x => Fin (x + z) | Infinity => Infinity end.

(** [z > a] *)
Definition gt_num (z : Z) (a : num) : bool :=
  match a with Fin x => bool_decide (z > x) | Infinity => false end.

(** [z < a] *)
Definition lt_num (a : num) (z : Z) : bool :=
  match a with Fin x => bool_decide (x < z) | Infinity => false end.

Definition show_num (a : num) : string :=
  match a with Fin x => pretty x | Infinity => "Infinity" end.

(** A [BufferSource]: an [ArrayBuffer], given by its bytes, or a view on
    one (a typed array or a [DataView]) that shows [length] bytes of
    [buffer] from [offset] on. *)
Inductive BufferSource :=
| ArrayBuffer (bytes : list Byte.byte)
| ArrayBufferView (buffer : list Byte.byte) (offset length : Z).

(** A list of bytes where a [BufferSource] is expected is an
    [ArrayBuffer]. *)
#[warning="-uniform-inheritance"]
Coercion ArrayBuffer : list >-> BufferSource.

(** ["buffer" in source ? source.buffer : source]: the whole buffer that a
    view is a view on, not only the bytes it shows. *)
Definition bufferOf (source : BufferSource) : list Byte.byte :=
  match source with
  | ArrayBuffer bytes => bytes
  | ArrayBufferView buffer _ _ => buffer
  end.

(** The bytes that a source shows: all of an [ArrayBuffer], the window of
    a view. *)
Definition bytesOf (source : BufferSource) : list Byte.byte :=
  match source with
  | ArrayBuffer bytes => bytes
  | ArrayBufferView buffer offset length =>
      take (Z.to_nat length) (drop (Z.to_nat offset) buffer)
  end.

(** The result of a call: a value, a thrown error, or [Diverges] when the
    recursion of the model ran out of fuel (the call stack of the
    original is not bounded by the model). *)
Inductive Outcome (A : Type) :=
| Ok (a : A)
| Throw (e : Error)
| Diverges.
Arguments Ok {A} a.
Arguments Throw {A} e.
Arguments Diverges {A}.

(** A method over a state [S]: it returns its outcome and the state it
    leaves, whether it threw or not. *)
Definition M (S A : Type) : Type := S -> Outcome A * S.

Definition ret {S A} (a : A) : M S A := fun s => (Ok a, s).
Definition throw {S A} (e : Error) : M S A := fun s => (Throw e, s).
Definition diverge {S A} : M S A := fun s => (Diverges, s).
Definition bind {S A B} (m : M S A) (k : A -> M S B) : M S B :=
  fun s =>
    match m s with
    | (Ok a, s') => k a s'
    | (Throw e, s') => (Throw e, s')
    | (Diverges, s') => (Diverges, s')
    end.
Definition get {S} : M S S := fun s => (Ok s, s).
Definition gets {S A} (f : S -> A) : M S A := fun s => (Ok (f s), s).
Definition modify {S} (f : S -> S) : M S unit := fun s => (Ok tt, f s).

Declare Scope m_scope.
Delimit Scope m_scope with M.
Notation "x <- c1 ;; c2" := (bind c1 (fun x => c2))
  (at level 100, c1 at next level, right associativity) : m_scope.
Notation "c1 ;; c2" := (bind c1 (fun _ => c2))
  (at level 100, right associativity) : m_scope.

(** Pure helpers that may throw return [Error + A]. *)
Definition bindE {A B} (m : Error + A) (k : A -> Error + B) : Error + B :=
  match m with inl e => inl e | inr a => k a end.

Notation "'let*' x := m 'in' k" := (bindE m (fun x => k))
  (at level 10, x name, m at level 100, k at level 200).

Definition liftE {S A} (m : Error + A) : M S A :=
  match m with inl e => throw e | inr a => ret a end.

(** Run a method of a component [S] inside a larger state [T]. *)
Definition zoom {S T A} (proj : T -> S) (upd : S -> T -> T) (m : M S A)
  : M T A :=
  fun t => let '(o, s') := m (proj t) in (o, upd s' t).

(** [try { m } catch (e) { handler e }] *)
Definition tryCatch {S A} (m : M S A) (handler : Error -> M S A) : M S A :=
  fun s =>
    match m s with
    | (Throw e, s') => handler e s'
    | r => r
    end.

Definition when {S} (b : bool) (m : M S unit) : M S unit :=
  if b then m else ret tt.

(** [array.forEach(f)] for an effectful callback. *)
Fixpoint forEach {S A} (f : A -> M S unit) (l : list A) : M S unit :=
  match l with
  | [] => ret tt
  | x :: l' => (f x ;; forEach f l')%M
  end.

(** ** utils: paths *)

Module Utils.

Definition backslash : ascii := Ascii.ascii_of_nat 92.

(** The double quote, for messages. *)
Definition dq : string := String (Ascii.ascii_of_nat 34) EmptyString.

Definition isSeparator (c : ascii) : bool :=
  bool_decide (c = "/"%char) || bool_decide (c = backslash).

(** [path.split(separator)], the separator being a slash or a backslash *)
Fixpoint split (path : string) : list string :=
  match path with
  | EmptyString => [EmptyString]
  | String c rest =>
      if isSeparator c then EmptyString :: split rest
      else match split rest with
           | [] => [String c EmptyString]
           | seg :: segs => String c seg :: segs
           end
  end.

Definition nonEmpty (s : string) : bool :=
  negb (bool_decide (s = EmptyString)).

Definition pathSegments (path : string) : list string :=
  List.filter nonEmpty (split path).

(** [segments.join("/")] *)
Fixpoint join (segments : list string) : string :=
  match segments with
  | [] => EmptyString
  | [s] => s
  | s :: rest => s +:+ "/" +:+ join rest
  end.

(** [segments[segments.length - 1]] is [undefined], here [None], when
    the path has no segment. *)
Definition basename (path : string) : option string :=
  if bool_decide (path = EmptyString) then Some EmptyString
  else last (pathSegments path).

(** [null] is [None]. *)
Definition dirname (path : string) : option string :=
  let segments := pathSegments path in
  match segments with
  | [] => None
  | _ => Some (join (removelast segments))
  end.

(** [s.replace(re, empty)], [re] matching the slashes at the end *)
Fixpoint stripTrailingSlashes (s : string) : string :=
  match s with
  | EmptyString => EmptyString
  | String c rest =>
      match stripTrailingSlashes rest with
      | EmptyString =>
          if bool_decide (c = "/"%char) then EmptyString
          else String c EmptyString
      | rest' => String c rest'
      end
  end.

Definition isSubPath (subPath path : string) : bool :=
  let path :=
    if bool_decide (path <> EmptyString)
    then stripTrailingSlashes path +:+ "/" else path in
  String.prefix path subPath.

Definition relativePath (subPath path : string) : Error + string :=
  if negb (isSubPath subPath path) then
    inl (PlainError
           (dq +:+ subPath +:+ dq +:+ " is not sub-path of " +:+ dq +:+ path
            +:+ dq))
  else
    inr (join (drop (length (pathSegments path)) (pathSegments subPath))).

(** [s.indexOf("/") < 0] *)
Fixpoint hasNoSlash (s : string) : bool :=
  match s with
  | EmptyString => true
  | String c rest => negb (bool_decide (c = "/"%char)) && hasNoSlash rest
  end.

Definition isChildPath (childPath path : string) : bool :=
  if negb (isSubPath childPath path) then false
  else match relativePath childPath path with
       | inr rel => hasNoSlash rel
       | inl _ => false
       end.

(** ** utils: buffers *)

Abbreviation byte := Byte.byte.

Definition byteLength (b : list byte) : Z := Z.of_nat (length b).

(** [new ArrayBuffer(n)]: [n] zero bytes. *)
Definition newArrayBuffer (n : Z) : Error + list byte :=
  if bool_decide (n < 0) then inl (RangeError "Invalid array buffer length")
  else inr (replicate (Z.to_nat n) Byte.x00).

(** An index of [slice]: negative counts from the end, then clamp. *)
Definition relativeIndex (len i : Z) : Z :=
  if bool_decide (i < 0) then Z.max (len + i) 0 else Z.min i len.

(** [view.slice(start, end)] *)
Definition slice (b : list byte) (start stop : Z) : list byte :=
  let len := byteLength b in
  let k := relativeIndex len start in
  let final := relativeIndex len stop in
  take (Z.to_nat (final - k)) (drop (Z.to_nat k) b).

(** [destinationView.set(chunk, offset)] *)
Definition typedArraySet (destination chunk : list byte) (offset : Z)
  : Error + list byte :=
  if bool_decide (offset < 0) || bool_decide
       (byteLength chunk + offset > byteLength destination)
  then inl (RangeError "offset is out of bounds")
  else inr (take (Z.to_nat offset) destination ++ chunk
            ++ drop (Z.to_nat offset + length chunk) destination)%list.

Record CopyArrayBufferOptions := {
  sourceStartOffset : option Z;
  sourceEndOffset : option Z;
  destinationOffset : option Z;
}.

Definition noOptions : CopyArrayBufferOptions :=
  {| sourceStartOffset := None; sourceEndOffset := None;
     destinationOffset := None |}.

(** Returns the destination as the copy leaves it and the number of bytes
    copied. *)
Definition copyArrayBuffer (source destination : list byte)
    (options : CopyArrayBufferOptions) : Error + (list byte * Z) :=
  let sourceStartOffset := default 0 (sourceStartOffset options) in
  let sourceEndOffset :=
    default (byteLength source) (sourceEndOffset options) in
  let destinationOffset := default 0 (destinationOffset options) in
  if bool_decide (sourceStartOffset < 0)
     || bool_decide (sourceStartOffset > byteLength source) then
    inl (RangeError "Option 'sourceStartOffset' must be between 0 and source ArrayBuffer's byte length.")
  else if bool_decide (sourceEndOffset < sourceStartOffset) then
    inl (RangeError "Option 'sourceEndOffset' must be greater than of equal option 'sourceStartOffset'")
  else if bool_decide (destinationOffset < 0)
          || bool_decide (destinationOffset > byteLength destination) then
    inl (RangeError "Option 'destinationOffset' must be between 0 and destination ArrayBuffer's byte length.")
  else
    let bytesToWrite := sourceEndOffset - sourceStartOffset in
    let availableMemory := byteLength destination - destinationOffset in
    let sliceEnd :=
      if bool_decide (bytesToWrite > availableMemory)
      then sourceEndOffset - (bytesToWrite - availableMemory)
      else sourceEndOffset in
    let chunk :=
      if negb (bool_decide (sourceStartOffset = 0))
         || bool_decide (sliceEnd < byteLength source)
      then slice source sourceStartOffset sliceEnd
      else source in
    let* destination' := typedArraySet destination chunk destinationOffset in
    inr (destination', byteLength chunk).

(** [new Uint8Array(buffer)], and what [slice] and [fill] return: a view
    on all of a buffer. *)
Definition viewOfAll (buffer : list byte) : BufferSource :=
  ArrayBufferView buffer 0 (byteLength buffer).

(** One step of the [reduce] of [concatArrayBuffers]. *)
Definition concatStep (concatenated buffer : list byte) : Error + list byte :=
  let* targetBuffer :=
    newArrayBuffer (byteLength concatenated + byteLength buffer) in
  let* copied := copyArrayBuffer concatenated targetBuffer noOptions in
  let* copied :=
    copyArrayBuffer buffer (fst copied)
      {| sourceStartOffset := None; sourceEndOffset := None;
         destinationOffset := Some (byteLength concatenated) |} in
  inr (fst copied).

Fixpoint reduceE {A B} (f : B -> A -> Error + B) (l : list A) (acc : B)
  : Error + B :=
  match l with
  | [] => inr acc
  | x :: l' => let* acc' := f acc x in reduceE f l' acc'
  end.

Definition concatArrayBuffers (bufferSources : list BufferSource)
  : Error + list byte :=
  let buffers := List.map bufferOf bufferSources in
  let* empty := newArrayBuffer 0 in
  reduceE concatStep buffers empty.

(** [new Uint8Array(count).fill(0x00)] appended to [buffer]. *)
Definition appendNullBytes (buffer : list byte) (count : Z)
  : Error + list byte :=
  let* nullBytes := newArrayBuffer count in
  concatArrayBuffers [ArrayBuffer buffer; viewOfAll nullBytes].

End Utils.

(** ** FileSystem *)

Module FileSystem.
Import Utils.

(** A reference to a descriptor object.  Two descriptors are the same
    object exactly when their references are equal. *)
Abbreviation ref := nat.

Inductive Descriptor :=
| DirectoryDescriptor (fullPath : string)
| FileDescriptor (fullPath : string) (size : Z) (lastModified : option Z).

Definition fullPath (d : Descriptor) : string :=
  match d with
  | DirectoryDescriptor p => p
  | FileDescriptor p _ _ => p
  end.

Definition isFileDescriptor (d : Descriptor) : bool :=
  match d with FileDescriptor _ _ _ => true | _ => false end.

(** [registry] and [disk] are the two [Map]s of the class, [disk] keyed by
    descriptor identity.  [heap] holds the descriptor objects themselves
    (also those no longer registered, which callers may still hold) and
    [nextRef] is the next unused reference. *)
Record t := {
  registry : gmap string ref;
  disk : gmap ref (list byte);
  diskSize : num;
  heap : gmap ref Descriptor;
  nextRef : ref;
}.

Definition setRegistry (f : gmap string ref -> gmap string ref) (fs : t) : t :=
  {| registry := f (registry fs); disk := disk fs; diskSize := diskSize fs;
     heap := heap fs; nextRef := nextRef fs |}.

Definition setDisk (f : gmap ref (list byte) -> gmap ref (list byte))
    (fs : t) : t :=
  {| registry := registry fs; disk := f (disk fs); diskSize := diskSize fs;
     heap := heap fs; nextRef := nextRef fs |}.

Definition setHeap (f : gmap ref Descriptor -> gmap ref Descriptor)
    (fs : t) : t :=
  {| registry := registry fs; disk := disk fs; diskSize := diskSize fs;
     heap := f (heap fs); nextRef := nextRef fs |}.

(** An object literal: a new descriptor object. *)
Definition alloc (d : Descriptor) : M t ref :=
  fun fs =>
    (Ok (nextRef fs),
     {| registry := registry fs; disk := disk fs; diskSize := diskSize fs;
        heap := <[nextRef fs := d]> (heap fs); nextRef := S (nextRef fs) |}).

(** [descriptor.size], read through the reference. *)
Definition sizeOf (fs : t) (descriptor : ref) : Z :=
  match heap fs !! descriptor with
  | Some (FileDescriptor _ size _) => size
  | _ => 0
  end.

(** [descriptor.size = size] *)
Definition assignSize (size : Z) (d : Descriptor) : Descriptor :=
  match d with
  | FileDescriptor p _ m => FileDescriptor p size m
  | d => d
  end.

(** [descriptor.lastModified = now] *)
Definition assignLastModified (now : Z) (d : Descriptor) : Descriptor :=
  match d with
  | FileDescriptor p size _ => FileDescriptor p size (Some now)
  | d => d
  end.

(** [new FileSystem(diskSize)] *)
Definition new (diskSize : num) : t :=
  {| registry := {[ EmptyString := 0%nat ]}; disk := ∅; diskSize := diskSize;
     heap := {[ 0%nat := DirectoryDescriptor EmptyString ]};
     nextRef := 1%nat |}.

Definition exists_ (fs : t) (path : string) : bool :=
  bool_decide (is_Some (registry fs !! path)).

Definition getDescriptor (fs : t) (path : string) : option ref :=
  registry fs !! path.

Definition isDirectory (fs : t) (path : string) : bool :=
  match registry fs !! path with
  | None => false
  | Some descriptor =>
      match heap fs !! descriptor with
      | Some (DirectoryDescriptor _) => true
      | _ => false
      end
  end.

Definition isFile (fs : t) (path : string) : bool :=
  match registry fs !! path with
  | None => false
  | Some descriptor =>
      match heap fs !! descriptor with
      | Some (FileDescriptor _ _ _) => true
      | _ => false
      end
  end.

Definition getTotalDiskSpace (fs : t) : num := diskSize fs.

Definition getUsedDiskSpace (fs : t) : Z :=
  map_fold (fun _ buffer total => total + byteLength buffer) 0 (disk fs).

Definition getFreeDiskSpace (fs : t) : num :=
  match diskSize fs with
  | Fin size => Fin (size - getUsedDiskSpace fs)
  | Infinity => Infinity
  end.

Definition setTotalDiskSpace (size : num) : M t unit :=
  fun fs =>
    let usedSpace := getUsedDiskSpace fs in
    if lt_num size usedSpace then
      (Throw (RangeError
         ("Can't set disk space to " +:+ show_num size
          +:+ " bytes because used space size is " +:+ pretty usedSpace
          +:+ " bytes.")), fs)
    else
      (Ok tt,
       {| registry := registry fs; disk := disk fs; diskSize := size;
          heap := heap fs; nextRef := nextRef fs |}).

(** The recursion of [makeDirectory] walks up the path; [fuel] bounds its
    depth. *)
Fixpoint makeDirectoryRec (fuel : nat) (path : string) (recursive : bool)
  : M t ref :=
  match fuel with
  | O => diverge
  | S fuel =>
    (fs <- get ;;
     if exists_ fs path then
       throw (TypeError (dq +:+ path +:+ dq +:+ " already exist."))
     else
       (match dirname path with
        | Some dirName =>
            if nonEmpty dirName then
              if negb (exists_ fs dirName) then
                if negb recursive then
                  throw (TypeError "Set 'recursive' option to true for recursive directory creation.")
                else
                  (_ <- makeDirectoryRec fuel dirName recursive ;; ret tt)
              else if negb (isDirectory fs dirName) then
                throw (TypeError
                         (dq +:+ dirName +:+ dq +:+ " is not directory path."))
              else ret tt
            else ret tt
        | None => ret tt
        end) ;;
       descriptor <- alloc (DirectoryDescriptor path) ;;
       modify (setRegistry <[path := descriptor]>) ;;
       ret descriptor)%M
  end.

(** Each recursive call drops the last segment of the path, so one more
    than the number of segments is enough fuel ([makeDirectory_total]). *)
Definition makeDirectory (path : string) (recursive : bool) : M t ref :=
  makeDirectoryRec (S (length (pathSegments path))) path recursive.

Definition getDirectoryDescriptor (path : string) (create : bool)
  : M t (option ref) :=
  (fs <- get ;;
   (if exists_ fs path then
      if isDirectory fs path then ret (registry fs !! path)
      else throw (DOMException (dq +:+ path +:+ dq +:+ " is not directory.")
                               "TypeMismatchError")
    else
      if create then (d <- makeDirectory path true ;; ret (Some d))
      else ret None))%M.

(** [allocateFile]: the quota check of a new file. *)
Definition allocateFile (now : Z) (descriptor : ref) : M t unit :=
  (fs <- get ;;
   let freeSpace := getFreeDiskSpace fs in
   if gt_num (sizeOf fs descriptor) freeSpace then
     throw (RangeError
       ("Not enough free space. Requested file size: "
        +:+ pretty (sizeOf fs descriptor) +:+ " bytes; Free disk space: "
        +:+ show_num freeSpace +:+ " bytes."))
   else
     (buffer <- liftE (newArrayBuffer (sizeOf fs descriptor)) ;;
      modify (setDisk <[descriptor := buffer]>) ;;
      modify (setHeap (alter (assignLastModified now) descriptor))))%M.

(** [createFile(path, { size })]; [size = None] when the option is
    absent.  [size] is a whole number: with a fraction the code stores the
    fraction in the descriptor and allocates the whole bytes below it,
    which the model, whose sizes are integers, does not follow. *)
Definition createFile (now : Z) (path : string) (size : option Z) : M t ref :=
  (fs <- get ;;
   if exists_ fs path then
     throw (TypeError (dq +:+ path +:+ dq +:+ " already exists."))
   else
     (match dirname path with
      | Some dirName =>
          if nonEmpty dirName && negb (exists_ fs dirName)
          then (_ <- makeDirectory dirName true ;; ret tt)
          else ret tt
      | None => ret tt
      end) ;;
     let size := default 0 size in
     fileDescriptor <- alloc (FileDescriptor path size None) ;;
     allocateFile now fileDescriptor ;;
     modify (setRegistry <[path := fileDescriptor]>) ;;
     ret fileDescriptor)%M.

Definition getFileDescriptor (now : Z) (path : string) (create : bool)
  : M t (option ref) :=
  (fs <- get ;;
   (if exists_ fs path then
      if isFile fs path then ret (registry fs !! path)
      else throw (DOMException (dq +:+ path +:+ dq +:+ " is not a file.")
                               "TypeMismatchError")
    else
      if create then (d <- createFile now path None ;; ret (Some d))
      else ret None))%M.

Definition readFile (descriptor : ref) : M t (list byte) :=
  (fs <- get ;;
   match disk fs !! descriptor with
   | None => throw (DOMException "No file for given descriptor was found."
                                 "NotFoundError")
   | Some buffer => ret buffer
   end)%M.

Definition writeFile (now : Z) (descriptor : ref) (data : list byte)
  : M t unit :=
  (fs <- get ;;
   if negb (bool_decide (is_Some (disk fs !! descriptor))) then
     throw (DOMException "No allocated memory for given descriptor."
                         "NotFoundError")
   else
     let freeSpace := getFreeDiskSpace fs in
     let oldFileSize :=
       match disk fs !! descriptor with
       | Some buffer => byteLength buffer
       | None => 0
       end in
     if gt_num (byteLength data) (num_add freeSpace oldFileSize) then
       throw (RangeError
         ("Not enough free space to write file. File size: "
          +:+ pretty (byteLength data) +:+ " bytes; Free disk space: "
          +:+ show_num (num_add freeSpace oldFileSize) +:+ " bytes."))
     else
       (modify (setDisk <[descriptor := data]>) ;;
        modify (setHeap (alter (assignSize (byteLength data)) descriptor)) ;;
        modify (setHeap (alter (assignLastModified now) descriptor))))%M.

(** [undefined] is [None]. *)
Definition getFileSize (fs : t) (path : string) : option Z :=
  match getDescriptor fs path with
  | Some descriptor =>
      match heap fs !! descriptor with
      | Some (FileDescriptor _ _ _) => byteLength <$> disk fs !! descriptor
      | _ => None
      end
  | None => None
  end.

(** The keys of the registry.  A [Map] lists them in insertion order; the
    model lists them in the order of the finite map. *)
Definition registryKeys (fs : t) : list string :=
  (map_to_list (registry fs)).*1.

Definition getDescendantPaths (fs : t) (path : string) : list string :=
  let allPaths := registryKeys fs in
  if bool_decide (path = EmptyString)
  then List.filter nonEmpty allPaths
  else List.filter (fun p => isSubPath p path) allPaths.

Definition getChildPaths (fs : t) (path : string) : list string :=
  List.filter (fun p => nonEmpty p && isChildPath p path) (registryKeys fs).

Definition getChildEntries (fs : t) (path : string)
  : list (string * option ref) :=
  List.map (fun childPath => (childPath, registry fs !! childPath))
           (getChildPaths fs path).

Definition isValidDescriptor (fs : t) (descriptor : ref) : bool :=
  match heap fs !! descriptor with
  | Some d => bool_decide (getDescriptor fs (fullPath d) = Some descriptor)
  | None => false
  end.

(** [remove] calls itself on every child path; [fuel] bounds the depth. *)
Fixpoint removeRec (fuel : nat) (path : string) (recursive : bool)
  : M t unit :=
  match fuel with
  | O => diverge
  | S fuel =>
    if bool_decide (path = EmptyString) then
      throw (TypeError "Root entry is not removable.")
    else
      (fs <- get ;;
       if isFile fs path then
         (descriptor <- getFileDescriptor 0 path false ;;
          match descriptor with
          | Some descriptor => modify (setDisk (delete descriptor))
          | None => ret tt
          end ;;
          modify (setRegistry (delete path)))
       else
         (let childPaths := getChildPaths fs path in
          match childPaths with
          | [] => ret tt
          | _ =>
              if negb recursive then
                throw (DOMException "Directory has children."
                                    "InvalidModificationError")
              else
                forEach (fun childPath => removeRec fuel childPath recursive)
                        childPaths
          end ;;
          modify (setRegistry (delete path))))%M
  end.

Definition purge : M t unit :=
  (modify (setDisk (fun _ => ∅)) ;;
   modify (setRegistry (fun _ => ∅)) ;;
   root <- alloc (DirectoryDescriptor EmptyString) ;;
   modify (setRegistry <[EmptyString := root]>))%M.

End FileSystem.

(** ** Permission *)

Module Permission.

Abbreviation ref := nat.

(** The callbacks that the library subscribes to a permission: the two
    closures of [PermissionsManager.findOrCreatePermission], which call a
    setter of another permission, and the closure of
    [FileSystemPermissionStatus], which dispatches a "change" event on the
    status object. *)
Inductive Callback :=
| CallSetRead (permission : ref)
| CallSetReadwrite (permission : ref)
| DispatchChange (status : nat).

(** [subscribers] is a [Map] from mode to an array of callbacks; a missing
    key and an empty array behave alike. *)
Record obj := {
  read : PermissionState;
  readwrite : PermissionState;
  subscribersRead : list Callback;
  subscribersReadwrite : list Callback;
}.

(** The permission objects, and the "change" events dispatched so far
    (latest first), each named by its status object. *)
Record heap := {
  objects : gmap ref obj;
  nextRef : ref;
  dispatched : list nat;
}.

Definition emptyHeap : heap :=
  {| objects := ∅; nextRef := 0%nat; dispatched := [] |}.

Definition setObjects (f : gmap ref obj -> gmap ref obj) (h : heap) : heap :=
  {| objects := f (objects h); nextRef := nextRef h;
     dispatched := dispatched h |}.

Definition dispatch (status : nat) (h : heap) : heap :=
  {| objects := objects h; nextRef := nextRef h;
     dispatched := status :: dispatched h |}.

(** [new Permission(read, readwrite)] *)
Definition new (read readwrite : PermissionState) : M heap ref :=
  fun h =>
    (Ok (nextRef h),
     {| objects :=
          <[nextRef h := {| read := read; readwrite := readwrite;
                            subscribersRead := [];
                            subscribersReadwrite := [] |}]> (objects h);
        nextRef := S (nextRef h); dispatched := dispatched h |}).

Definition deref (p : ref) : M heap obj :=
  fun h =>
    match objects h !! p with
    | Some o => (Ok o, h)
    | None => (Throw (TypeError "Cannot read properties of undefined"), h)
    end.

Definition getRead (p : ref) : M heap PermissionState :=
  (o <- deref p ;; ret (read o))%M.

Definition getReadwrite (p : ref) : M heap PermissionState :=
  (o <- deref p ;; ret (readwrite o))%M.

Definition get (p : ref) (mode : FileSystemPermissionMode)
  : M heap PermissionState :=
  match mode with
  | ModeReadwrite => getReadwrite p
  | ModeRead => getRead p
  end.

Definition assignRead (state : PermissionState) (o : obj) : obj :=
  {| read := state; readwrite := readwrite o;
     subscribersRead := subscribersRead o;
     subscribersReadwrite := subscribersReadwrite o |}.

Definition assignReadwrite (state : PermissionState) (o : obj) : obj :=
  {| read := read o; readwrite := state;
     subscribersRead := subscribersRead o;
     subscribersReadwrite := subscribersReadwrite o |}.

Definition subscribers (mode : FileSystemPermissionMode) (o : obj)
  : list Callback :=
  match mode with
  | ModeRead => subscribersRead o
  | ModeReadwrite => subscribersReadwrite o
  end.

Definition pushSubscriber (mode : FileSystemPermissionMode)
    (callback : Callback) (o : obj) : obj :=
  match mode with
  | ModeRead =>
      {| read := read o; readwrite := readwrite o;
         subscribersRead := subscribersRead o ++ [callback];
         subscribersReadwrite := subscribersReadwrite o |}
  | ModeReadwrite =>
      {| read := read o; readwrite := readwrite o;
         subscribersRead := subscribersRead o;
         subscribersReadwrite := subscribersReadwrite o ++ [callback] |}
  end.

Definition subscribe (p : ref) (mode : FileSystemPermissionMode)
    (callback : Callback) : M heap unit :=
  (_ <- deref p ;; modify (setObjects (alter (pushSubscriber mode callback) p)))%M.

(** The three methods that call each other: [setRead], [setReadwrite] and
    the private [notify], whose callbacks call setters of other
    permissions. *)
Inductive Call :=
| SetRead (p : ref) (state : PermissionState)
| SetReadwrite (p : ref) (state : PermissionState)
| Notify (p : ref) (mode : FileSystemPermissionMode)
         (newState : PermissionState).

(** [fuel] bounds the depth of the nested calls. *)
Fixpoint exec (fuel : nat) (c : Call) : M heap unit :=
  match fuel with
  | O => diverge
  | S fuel =>
    match c with
    | SetRead p state =>
        (oldState <- getRead p ;;
         modify (setObjects (alter (assignRead state) p)) ;;
         when (negb (bool_decide (oldState = state)))
              (exec fuel (Notify p ModeRead state)) ;;
         when (negb (bool_decide (state = granted)))
              (exec fuel (SetReadwrite p state)))%M
    | SetReadwrite p state =>
        (when (bool_decide (state = granted))
              (exec fuel (SetRead p state)) ;;
         oldState <- getReadwrite p ;;
         modify (setObjects (alter (assignReadwrite state) p)) ;;
         when (negb (bool_decide (oldState = state)))
              (exec fuel (Notify p ModeReadwrite state)))%M
    | Notify p mode newState =>
        (o <- deref p ;;
         forEach (fun cb =>
                    match cb with
                    | CallSetRead q => exec fuel (SetRead q newState)
                    | CallSetReadwrite q => exec fuel (SetReadwrite q newState)
                    | DispatchChange status => modify (dispatch status)
                    end)
                 (subscribers mode o))%M
    end
  end.

Definition setRead (fuel : nat) (p : ref) (state : PermissionState)
  : M heap unit :=
  exec fuel (SetRead p state).

Definition setReadwrite (fuel : nat) (p : ref) (state : PermissionState)
  : M heap unit :=
  exec fuel (SetReadwrite p state).

Definition set (fuel : nat) (p : ref) (mode : FileSystemPermissionMode)
    (state : PermissionState) : M heap unit :=
  match mode with
  | ModeReadwrite => setReadwrite fuel p state
  | ModeRead => setRead fuel p state
  end.

End Permission.

(** ** PermissionsManager and FileSystemPermissionStatus *)

Module PermissionsManager.
Import Utils.

Record PermissionsLiteral := {
  read : PermissionState;
  readwrite : PermissionState;
}.

(** The manager: its [permissions] map, the permission objects it created,
    the [initial] method of its [PermissionsProvider] and the number of
    status objects handed out so far. *)
Record t := {
  permissions : gmap string Permission.ref;
  store : Permission.heap;
  initial : FileSystem.t -> string -> PermissionsLiteral;
  nextStatus : nat;
}.

(** The file system and the manager that refers to it. *)
Record World := {
  fileSystem : FileSystem.t;
  manager : t;
}.

(** [new DefaultPermissionsProvider(read, readwrite).initial] *)
Definition defaultInitial (read readwrite : PermissionState)
  : FileSystem.t -> string -> PermissionsLiteral :=
  fun _ _ => {| read := read; readwrite := readwrite |}.

(** [new PermissionsManager(fileSystem, permissionsProvider)] *)
Definition new (initial : FileSystem.t -> string -> PermissionsLiteral) : t :=
  {| permissions := ∅; store := Permission.emptyHeap; initial := initial;
     nextStatus := 0%nat |}.

Definition onFileSystem {A} (m : M FileSystem.t A) : M World A :=
  zoom fileSystem
       (fun fs w => {| fileSystem := fs; manager := manager w |}) m.

Definition onStore {A} (m : M Permission.heap A) : M World A :=
  zoom (fun w => store (manager w))
       (fun h w =>
          {| fileSystem := fileSystem w;
             manager := {| permissions := permissions (manager w);
                           store := h; initial := initial (manager w);
                           nextStatus := nextStatus (manager w) |} |}) m.

Definition register (path : string) (permission : Permission.ref)
  : M World unit :=
  modify (fun w =>
    {| fileSystem := fileSystem w;
       manager := {| permissions := <[path := permission]>
                                      (permissions (manager w));
                     store := store (manager w);
                     initial := initial (manager w);
                     nextStatus := nextStatus (manager w) |} |}).

(** A setter called on a permission that nobody subscribed to nests at
    most three calls deep. *)
Definition leafDepth : nat := 3.

(** The recursion of [findOrCreatePermission] walks up the path; [fuel]
    bounds its depth. *)
Fixpoint findOrCreatePermissionRec (fuel : nat) (path : string)
  : M World Permission.ref :=
  match fuel with
  | O => diverge
  | S fuel =>
    (w <- get ;;
     match permissions (manager w) !! path with
     | Some permission => ret permission
     | None =>
         let literal := initial (manager w) (fileSystem w) path in
         permission <- onStore (Permission.new (read literal)
                                               (readwrite literal)) ;;
         (if nonEmpty path then
            match dirname path with
            | Some parentPath =>
                parentPermission <- findOrCreatePermissionRec fuel parentPath ;;
                parentRead <- onStore (Permission.getRead parentPermission) ;;
                onStore (Permission.setRead leafDepth permission parentRead) ;;
                parentReadwrite <-
                  onStore (Permission.getReadwrite parentPermission) ;;
                onStore (Permission.setReadwrite leafDepth permission
                                                 parentReadwrite) ;;
                onStore (Permission.subscribe parentPermission ModeRead
                           (Permission.CallSetRead permission)) ;;
                onStore (Permission.subscribe parentPermission ModeReadwrite
                           (Permission.CallSetReadwrite permission))
            | None => ret tt
            end
          else ret tt) ;;
         register path permission ;;
         ret permission
     end)%M
  end.

Definition findOrCreatePermission (path : string) : M World Permission.ref :=
  findOrCreatePermissionRec (S (length (pathSegments path))) path.

Definition ensureIsValidPath (path : string) : M World unit :=
  (w <- get ;;
   if negb (FileSystem.exists_ (fileSystem w) path) then
     throw (TypeError ("Path " +:+ dq +:+ path +:+ dq
                       +:+ " doesn't exist in file system"))
   else ret tt)%M.

Definition getPermission (path : string) : M World Permission.ref :=
  (ensureIsValidPath path ;; findOrCreatePermission path)%M.

(** A [FileSystemPermissionStatus]: the permission and the mode it is
    bound to. *)
Record Status := {
  statusId : nat;
  statusPermission : Permission.ref;
  statusMode : FileSystemPermissionMode;
}.

(** [new FileSystemPermissionStatus(permission, mode)] *)
Definition newStatus (permission : Permission.ref)
    (mode : FileSystemPermissionMode) : M World Status :=
  (w <- get ;;
   let id := nextStatus (manager w) in
   modify (fun w =>
     {| fileSystem := fileSystem w;
        manager := {| permissions := permissions (manager w);
                      store := store (manager w);
                      initial := initial (manager w);
                      nextStatus := S id |} |}) ;;
   onStore (Permission.subscribe permission mode
              (Permission.DispatchChange id)) ;;
   ret {| statusId := id; statusPermission := permission;
          statusMode := mode |})%M.

(** The [state] getter of a status. *)
Definition state (status : Status) : M World PermissionState :=
  match statusMode status with
  | ModeReadwrite =>
      onStore (Permission.getReadwrite (statusPermission status))
  | ModeRead => onStore (Permission.getRead (statusPermission status))
  end.

(** The mode is one of the two values of its type, so [ensureIsValidMode]
    has nothing to reject. *)
Definition getStatus (path : string) (mode : FileSystemPermissionMode)
  : M World Status :=
  (permission <- getPermission path ;; newStatus permission mode)%M.

Definition getState (path : string) (mode : FileSystemPermissionMode)
  : M World PermissionState :=
  (permission <- getPermission path ;;
   onStore (Permission.get permission mode))%M.

(** [fuel] bounds the depth of the cascade through the subscribers. *)
Definition setState (fuel : nat) (path : string)
    (mode : FileSystemPermissionMode) (state : PermissionState)
  : M World unit :=
  (permission <- getPermission path ;;
   onStore (Permission.set fuel permission mode state))%M.

Definition duplicate (fuel : nat) (from to : string) : M World unit :=
  (sourcePermission <- getPermission from ;;
   destinationPermission <- getPermission to ;;
   sourceRead <- onStore (Permission.getRead sourcePermission) ;;
   onStore (Permission.setRead fuel destinationPermission sourceRead) ;;
   sourceReadwrite <- onStore (Permission.getReadwrite sourcePermission) ;;
   onStore (Permission.setReadwrite fuel destinationPermission
                                    sourceReadwrite))%M.

(** [requestPermission(path, mode)].  [promptPermission] is the provider
    that the private [promptPermission] picks: the prompt permission
    provider if one was set, the [prompt] method of the permissions
    provider otherwise. *)
Definition requestPermission
    (promptPermission : FileSystemPermissionMode -> FileSystem.t -> string
                        -> PermissionState)
    (fuel : nat) (path : string) (mode : FileSystemPermissionMode)
  : M World PermissionState :=
  (permission <- getPermission path ;;
   current <- onStore (Permission.get permission mode) ;;
   if bool_decide (current = prompt) then
     (w <- get ;;
      let state := promptPermission mode (fileSystem w) path in
      onStore (Permission.set fuel permission mode state) ;;
      ret state)
   else onStore (Permission.get permission mode))%M.

End PermissionsManager.

(** ** SyncAccessHandle *)

Module SyncAccessHandle.
Import Utils.

Inductive State := open | closed.

(** The handle: its descriptor (a reference into the heap of the file
    system), its temp file, its state and its cursor.  Its methods run
    over the file system it was built on and the handle itself. *)
Record t := {
  fileDescriptor : FileSystem.ref;
  tempFile : list byte;
  state : State;
  cursor : Z;
}.

Definition setTempFile (b : list byte) (h : t) : t :=
  {| fileDescriptor := fileDescriptor h; tempFile := b; state := state h;
     cursor := cursor h |}.

Definition setCursor (c : Z) (h : t) : t :=
  {| fileDescriptor := fileDescriptor h; tempFile := tempFile h;
     state := state h; cursor := c |}.

Definition setState (st : State) (h : t) : t :=
  {| fileDescriptor := fileDescriptor h; tempFile := tempFile h;
     state := st; cursor := cursor h |}.

Abbreviation Self := (FileSystem.t * t)%type.

Definition this : M Self t := gets snd.
Definition fileSystem : M Self FileSystem.t := gets fst.
Definition update (f : t -> t) : M Self unit :=
  modify (fun s => (fst s, f (snd s))).
Definition onFileSystem {A} (m : M FileSystem.t A) : M Self A :=
  zoom fst (fun fs s => (fs, snd s)) m.

(** [new SyncAccessHandle(fileDescriptor, fileSystem, keepContent)] *)
Definition new (fileDescriptor : FileSystem.ref) (keepContent : bool)
  : M FileSystem.t t :=
  (fs <- get ;;
   tempFile <- liftE (newArrayBuffer
                        (if keepContent then FileSystem.sizeOf fs fileDescriptor
                         else 0)) ;;
   if keepContent then
     (content <- FileSystem.readFile fileDescriptor ;;
      copied <- liftE (copyArrayBuffer content tempFile noOptions) ;;
      ret {| fileDescriptor := fileDescriptor; tempFile := fst copied;
             state := open; cursor := 0 |})
   else
     ret {| fileDescriptor := fileDescriptor; tempFile := tempFile;
            state := open; cursor := 0 |})%M.

Definition ensureNotClosed : M Self unit :=
  (h <- this ;;
   match state h with
   | closed => throw (DOMException "FileSystemSyncAccessHandle is closed."
                                   "InvalidStateError")
   | open => ret tt
   end)%M.

Definition ensureHasFreeMemory (byteLength : Z) : M Self unit :=
  (h <- this ;;
   fs <- fileSystem ;;
   let oldFileSize := FileSystem.sizeOf fs (fileDescriptor h) in
   let freeSpace := num_add (FileSystem.getFreeDiskSpace fs) oldFileSize in
   if gt_num byteLength freeSpace then
     throw (DOMException "Not enough free space" "QuotaExceededError")
   else ret tt)%M.

Definition close : M Self unit :=
  (h <- this ;;
   match state h with
   | closed => ret tt
   | open => update (setState closed)
   end)%M.

Definition flush (now : Z) : M Self unit :=
  (ensureNotClosed ;;
   h <- this ;;
   onFileSystem (FileSystem.writeFile now (fileDescriptor h) (tempFile h)))%M.

Definition getSize : M Self Z :=
  (ensureNotClosed ;; h <- this ;; ret (byteLength (tempFile h)))%M.

(** [read(buffer, { at })].  The bytes go into the caller's buffer in
    place: into the [ArrayBuffer] given or, for a view, into the buffer it
    is a view on, from that buffer's start.  The model returns the bytes
    that this buffer holds afterwards and the number of bytes read.  It
    does not follow the write into other places that hold the very same
    [ArrayBuffer] object (the content store, for a buffer that [readFile]
    returned; the temp file itself, after a [flush]): of [read], only the
    outcome, the bytes of the target and the cursor are stated below. *)
Definition read (buffer : BufferSource) (at_ : option Z)
  : M Self (list byte * Z) :=
  (ensureNotClosed ;;
   h <- this ;;
   let readStart := default (cursor h) at_ in
   fileSize <- getSize ;;
   if bool_decide (readStart < 0) then
     throw (TypeError "Negative reading offset is not supported")
   else
     size <- getSize ;;
     if bool_decide (readStart > size) then
       (size <- getSize ;; update (setCursor size) ;;
        ret (bufferOf buffer, 0))
     else
       let targetBuffer := bufferOf buffer in
       let readEnd := readStart + byteLength targetBuffer in
       let readEnd := if bool_decide (readEnd > fileSize) then fileSize
                      else readEnd in
       copied <- liftE (copyArrayBuffer (tempFile h) targetBuffer
                   {| sourceStartOffset := Some readStart;
                      sourceEndOffset := Some readEnd;
                      destinationOffset := None |}) ;;
       update (setCursor (readStart + snd copied)) ;;
       ret copied)%M.

Definition truncate (bytesLength : Z) : M Self unit :=
  (ensureNotClosed ;;
   if bool_decide (bytesLength < 0) then
     throw (TypeError "Negative file size is not supported")
   else
     ensureHasFreeMemory bytesLength ;;
     oldSize <- getSize ;;
     h <- this ;;
     (if bool_decide (bytesLength > oldSize) then
        (grown <- liftE (appendNullBytes (tempFile h)
                                         (bytesLength - oldSize)) ;;
         update (setTempFile grown))
      else
        (newTempData <- liftE (newArrayBuffer bytesLength) ;;
         copied <- liftE (copyArrayBuffer (tempFile h) newTempData
                     {| sourceStartOffset := Some 0;
                        sourceEndOffset := Some bytesLength;
                        destinationOffset := None |}) ;;
         update (setTempFile (fst copied)))) ;;
     h <- this ;;
     when (bool_decide (cursor h > bytesLength))
          (update (setCursor bytesLength)))%M.

(** [write(buffer, { at })].  Of a view the whole underlying buffer is
    written, and its length is what the call returns. *)
Definition write (buffer : BufferSource) (at_ : option Z) : M Self Z :=
  (ensureNotClosed ;;
   h <- this ;;
   let writePosition := default (cursor h) at_ in
   if bool_decide (writePosition < 0) then
     throw (TypeError "Negative writing offset is not supported")
   else
     let sourceBuffer := bufferOf buffer in
     let oldSize := byteLength (tempFile h) in
     let bufferSize := byteLength sourceBuffer in
     fileContents <-
       (if bool_decide (writePosition > oldSize) then
          (grown <- liftE (appendNullBytes (tempFile h)
                                           (writePosition - oldSize)) ;;
           update (setTempFile grown) ;;
           ret grown)
        else ret (tempFile h)) ;;
     let head := slice fileContents 0 writePosition in
     let tail :=
       if bool_decide (writePosition + bufferSize < oldSize) then
         let lastCount := oldSize - (writePosition + bufferSize) in
         slice fileContents (byteLength fileContents - lastCount)
               (byteLength fileContents)
       else [] in
     let newSize := byteLength head + bufferSize + byteLength tail in
     ensureHasFreeMemory newSize ;;
     contents <- liftE (concatArrayBuffers
                          [viewOfAll head; ArrayBuffer sourceBuffer;
                           viewOfAll tail]) ;;
     update (setTempFile contents) ;;
     update (setCursor (writePosition + bufferSize)) ;;
     ret bufferSize)%M.

End SyncAccessHandle.

(** ** WritableFileStreamSink *)

Module WritableFileStreamSink.
Import Utils.

(** A value handed over where a number is expected ([position], [size]).
    Only what [Number(...)] and the [undefined]/[null] checks tell apart is
    kept. *)
Inductive Arg :=
| ArgUndefined
| ArgNull
| ArgNaN
| ArgNumber (z : Z).

(** The [data] of a write. *)
Inductive Data :=
| DataUndefined
| DataNull
| DataBufferSource (source : BufferSource)
| DataBlob (content : list byte)
| DataString (text : string)
| DataOther (shown : string).

(** A chunk: either an object with a [type] property, whose other
    properties may be absent ([None]), or anything else. *)
Inductive Chunk :=
| Command (type : string) (data : option Data) (position : option Arg)
          (size : option Arg)
| Bare (data : Data).

Record WriteParams := {
  type : string;
  data : option Data;
  position : option Arg;
  size : option Arg;
}.

Record t := {
  cursor : Z;
  fileSize : Z;
  isClosed : bool;
  error : option Error;
  syncAccessHandle : SyncAccessHandle.t;
  descriptor : FileSystem.ref;
}.

Definition setCursor (c : Z) (k : t) : t :=
  {| cursor := c; fileSize := fileSize k; isClosed := isClosed k;
     error := error k; syncAccessHandle := syncAccessHandle k;
     descriptor := descriptor k |}.

Definition setFileSize (n : Z) (k : t) : t :=
  {| cursor := cursor k; fileSize := n; isClosed := isClosed k;
     error := error k; syncAccessHandle := syncAccessHandle k;
     descriptor := descriptor k |}.

Definition setIsClosed (b : bool) (k : t) : t :=
  {| cursor := cursor k; fileSize := fileSize k; isClosed := b;
     error := error k; syncAccessHandle := syncAccessHandle k;
     descriptor := descriptor k |}.

Definition setError (e : option Error) (k : t) : t :=
  {| cursor := cursor k; fileSize := fileSize k; isClosed := isClosed k;
     error := e; syncAccessHandle := syncAccessHandle k;
     descriptor := descriptor k |}.

Definition setHandle (h : SyncAccessHandle.t) (k : t) : t :=
  {| cursor := cursor k; fileSize := fileSize k; isClosed := isClosed k;
     error := error k; syncAccessHandle := h; descriptor := descriptor k |}.

(** The sink runs over the file system, the permissions manager and
    itself. *)
Abbreviation Self := (PermissionsManager.World * t)%type.

Definition this : M Self t := gets snd.
Definition update (f : t -> t) : M Self unit :=
  modify (fun s => (fst s, f (snd s))).
Definition onWorld {A} (m : M PermissionsManager.World A) : M Self A :=
  zoom fst (fun w s => (w, snd s)) m.
Definition onHandle {A} (m : M SyncAccessHandle.Self A) : M Self A :=
  zoom (fun s => (PermissionsManager.fileSystem (fst s),
                  syncAccessHandle (snd s)))
       (fun r s =>
          ({| PermissionsManager.fileSystem := fst r;
              PermissionsManager.manager :=
                PermissionsManager.manager (fst s) |},
           setHandle (snd r) (snd s))) m.

(** [new WritableFileStreamSink(syncAccessHandle, descriptor,
    permissionsManager)] *)
Definition new (syncAccessHandle : SyncAccessHandle.t)
    (descriptor : FileSystem.ref) : M PermissionsManager.World t :=
  fun w =>
    match SyncAccessHandle.getSize
            (PermissionsManager.fileSystem w, syncAccessHandle) with
    | (Ok size, _) =>
        (Ok {| cursor := 0; fileSize := size; isClosed := false;
               error := None; syncAccessHandle := syncAccessHandle;
               descriptor := descriptor |}, w)
    | (Throw e, _) => (Throw e, w)
    | (Diverges, _) => (Diverges, w)
    end.

(** [new TextEncoder().encode(text)]; the characters of a [string] are
    taken as the bytes of its UTF-8 encoding. *)
Definition encode (text : string) : list byte :=
  List.map byte_of_ascii (list_ascii_of_string text).

Definition ensureNotInErrorState : M Self unit :=
  (k <- this ;;
   match error k with
   | Some e => throw e
   | None => ret tt
   end)%M.

Definition ensureNotClosed (message : string) : M Self unit :=
  (k <- this ;;
   if isClosed k then throw (TypeError message) else ret tt)%M.

Definition ensureHasWritePermission : M Self unit :=
  (k <- this ;;
   w <- gets fst ;;
   let path :=
     match FileSystem.heap (PermissionsManager.fileSystem w)
             !! descriptor k with
     | Some d => FileSystem.fullPath d
     | None => EmptyString
     end in
   status <- onWorld (PermissionsManager.getStatus path ModeReadwrite) ;;
   st <- onWorld (PermissionsManager.state status) ;;
   if negb (bool_decide (st = granted)) then
     throw (DOMException
       "The request is not allowed by the user agent or the platform in the current context."
       "NotAllowedError")
   else ret tt)%M.

Definition convertToWriteParams (chunk : Chunk) : Error + WriteParams :=
  match chunk with
  | Bare (DataBlob _ as d) | Bare (DataString _ as d) =>
      inr {| type := "write"; data := Some d; position := None;
             size := None |}
  | Command ty d p sz =>
      inr {| type := ty; data := d; position := p; size := sz |}
  | Bare DataNull =>
      inl (TypeError "Cannot use 'in' operator to search for 'type' in null")
  | Bare d =>
      inr {| type := "write"; data := Some d; position := None;
             size := None |}
  end.

Definition invalidParams (commandName argName : string) : Error :=
  TypeError ("Failed to execute 'write' on 'UnderlyingSinkBase': Invalid params passed. "
             +:+ commandName +:+ " requires a " +:+ argName +:+ " argument").

Definition isUndefinedOrNull (a : option Arg) : bool :=
  match a with
  | None | Some ArgUndefined | Some ArgNull => true
  | _ => false
  end.

Definition validateWriteCommand (command : WriteParams) : Error + unit :=
  if bool_decide (type command = "write") then
    match data command with
    | None | Some DataUndefined | Some DataNull =>
        inl (invalidParams "write" "data")
    | _ => inr tt
    end
  else if bool_decide (type command = "truncate") then
    if isUndefinedOrNull (size command)
    then inl (invalidParams "truncate" "size") else inr tt
  else if bool_decide (type command = "seek") then
    if isUndefinedOrNull (position command)
    then inl (invalidParams "seek" "position") else inr tt
  else
    inl (TypeError
      ("Failed to execute 'write' on 'FileSystemWritableFileStream': Failed to read the 'type' property from 'WriteParams': The provided value '"
       +:+ type command
       +:+ "' is not a valid enum value of type WriteCommandType.")).

(** [Number(size)], then [NaN] to 0, then [Math.max(0, numSize)].
    [Number(undefined)] is [NaN] and [Number(null)] is 0. *)
Definition prepareTruncateSize (size : Arg) : Z :=
  match size with
  | ArgUndefined | ArgNaN => 0
  | ArgNull => Z.max 0 0
  | ArgNumber numSize => Z.max 0 numSize
  end.

Definition prepareSeekPosition (position : Arg) : Z :=
  prepareTruncateSize position.

(** [convertToArrayBuffer(data)]; of a view it is the whole underlying
    buffer. *)
Definition convertToArrayBuffer (data : Data) : list byte :=
  match data with
  | DataBlob content => content
  | DataString text => encode text
  | DataBufferSource source => bufferOf source
  | DataUndefined => encode "undefined"
  | DataNull => encode "null"
  | DataOther shown => encode shown
  end.

Definition doTruncate (size : Z) : M Self unit :=
  (onHandle (SyncAccessHandle.truncate size) ;;
   k <- this ;;
   when (bool_decide (size < cursor k)) (update (setCursor size)) ;;
   update (setFileSize size))%M.

(** [position = None] is the default parameter, the cursor. *)
Definition doWrite (data : Data) (position : option Z) : M Self unit :=
  (k <- this ;;
   let position := default (cursor k) position in
   let buffer := convertToArrayBuffer data in
   when (bool_decide (byteLength buffer + position > fileSize k))
        (doTruncate (byteLength buffer + position)) ;;
   bytesWritten <- onHandle (SyncAccessHandle.write buffer (Some position)) ;;
   update (setCursor (position + bytesWritten)))%M.

Definition doSeek (position : Z) : M Self unit :=
  update (setCursor position).

(** What the [try] block of [write] computes before it returns.  For a
    "write" command the block returns the promise of [doWrite] without
    awaiting it, so the block yields the call still to be made; "seek" and
    "truncate" run inside the block. *)
Definition dispatch (chunk : Chunk) : M Self (option (Data * option Z)) :=
  (writeParams <- liftE (convertToWriteParams chunk) ;;
   liftE (validateWriteCommand writeParams) ;;
   if bool_decide (type writeParams = "write") then
     let position :=
       match position writeParams with
       | Some p => Some (prepareSeekPosition p)
       | None => None
       end in
     ret (Some (default DataUndefined (data writeParams), position))
   else if bool_decide (type writeParams = "seek") then
     (doSeek (prepareSeekPosition
                (default ArgUndefined (position writeParams))) ;;
      ret None)
   else if bool_decide (type writeParams = "truncate") then
     (doTruncate (prepareTruncateSize
                    (default ArgUndefined (size writeParams))) ;;
      ret None)
   else ret None)%M.

(** [write(chunk)].  An error thrown inside the [try] block is stored in
    [error] and thrown again; a rejection of the promise that [doWrite]
    returned passes through without being stored. *)
Definition write (chunk : Chunk) : M Self unit :=
  (ensureNotInErrorState ;;
   ensureNotClosed "Cannot write to a CLOSED writable stream" ;;
   ensureHasWritePermission ;;
   pending <- tryCatch (dispatch chunk)
                (fun e => update (setError (Some e)) ;; throw e) ;;
   match pending with
   | Some (data, position) => doWrite data position
   | None => ret tt
   end)%M.

Definition close (now : Z) : M Self unit :=
  (ensureNotClosed "Cannot close a CLOSED writable stream" ;;
   ensureHasWritePermission ;;
   k <- this ;;
   match error k with
   | Some _ => throw (TypeError "Cannot close a ERRORED writable stream")
   | None =>
       update (setIsClosed true) ;;
       onHandle (SyncAccessHandle.flush now) ;;
       onHandle SyncAccessHandle.close
   end)%M.

(** [abort(reason)]; a falsy [reason] is [None]. *)
Definition abort (reason : option Error) : M Self unit :=
  (onHandle SyncAccessHandle.close ;; update (setError reason))%M.

End WritableFileStreamSink.

(** ** Handle *)

(** A handle is known by the descriptor object it holds; its other fields
    (the file system, the permissions manager, the factories) are those
    of the world it lives in. *)
Module Handle.

(** [descriptor.fullPath], read through the reference. *)
Definition fullPathOf (fs : FileSystem.t) (descriptor : FileSystem.ref)
  : string :=
  match FileSystem.heap fs !! descriptor with
  | Some d => FileSystem.fullPath d
  | None => EmptyString
  end.

(** The errors of [throwNotAllowedError], [throwNotFoundError] and
    [throwTypeMismatchError] with their default messages. *)
Definition notAllowedError : Error :=
  DOMException
    "The request is not allowed by the user agent or the platform in the current context."
    "NotAllowedError".

Definition notFoundError : Error :=
  DOMException
    "A requested file or directory could not be found at the time an operation was processed."
    "NotFoundError".

Definition typeMismatchError : Error :=
  DOMException
    "The path supplied exists, but was not an entry of requested type."
    "TypeMismatchError".

(** [queryPermission({ mode })]; the mode is one of the two values of its
    type, so [validatePermissionMode] has nothing to reject. *)
Definition queryPermission (descriptor : FileSystem.ref)
    (mode : FileSystemPermissionMode)
  : M PermissionsManager.World PermissionState :=
  (w <- get ;;
   PermissionsManager.getState
     (fullPathOf (PermissionsManager.fileSystem w) descriptor)
     mode)%M.

(** [requestPermission({ mode })] *)
Definition requestPermission
    (promptPermission : FileSystemPermissionMode -> FileSystem.t -> string
                        -> PermissionState)
    (fuel : nat) (descriptor : FileSystem.ref)
    (mode : FileSystemPermissionMode)
  : M PermissionsManager.World PermissionState :=
  (w <- get ;;
   PermissionsManager.requestPermission promptPermission fuel
     (fullPathOf (PermissionsManager.fileSystem w) descriptor)
     mode)%M.

End Handle.

(** ** DefaultEntryNameValidator *)

Module DefaultEntryNameValidator.
Import Utils.

(** A character of the class of the default [invalidCharsRegex]: a
    backslash, a slash, a colon, an asterisk, a question mark, a double
    quote, an angle bracket or a vertical bar. *)
Definition isInvalidChar (c : ascii) : bool :=
  bool_decide (c ∈ [backslash; "/"; ":"; "*"; "?"; Ascii.ascii_of_nat 34;
                    "<"; ">"; "|"]%char).

(** [invalidCharsRegex.test(name)] *)
Fixpoint test (name : string) : bool :=
  match name with
  | EmptyString => false
  | String c rest => isInvalidChar c || test rest
  end.

Definition isValidName (name : string) : bool :=
  if bool_decide (name = ".") || bool_decide (name = "..")
     || bool_decide (name = EmptyString)
  then false
  else negb (test name).

End DefaultEntryNameValidator.

(** ** DirectoryHandle *)

Module DirectoryHandle.
Import Utils.

(** [getChildPath(name)] of the handle of the directory [fullPath] *)
Definition getChildPath (fullPath name : string) : string :=
  join (pathSegments fullPath ++ [name]).

(** [resolve(possibleDescendant)]; [null] is [None]. *)
Definition resolve (this possibleDescendant : FileSystem.ref)
  : M FileSystem.t (option (list string)) :=
  (fs <- get ;;
   let descriptorPath := Handle.fullPathOf fs possibleDescendant in
   let thisPath := Handle.fullPathOf fs this in
   if negb (FileSystem.isValidDescriptor fs possibleDescendant)
      || bool_decide (String.length descriptorPath < String.length thisPath)%nat
   then ret None
   else if bool_decide (thisPath = descriptorPath) then ret (Some [])
   else if isSubPath descriptorPath thisPath then
     (relative <- liftE (relativePath descriptorPath thisPath) ;;
      ret (Some (pathSegments relative)))
   else ret None)%M.

Import PermissionsManager.

(** [validateEntryName(name, isFileName, isRemove)]; [isValidName] is the
    method of the entry name validator of the handle. *)
Definition validateEntryName (isValidName : string -> bool -> bool)
    (name : string) (isFileName isRemove : bool) : M World unit :=
  let methodName :=
    if isRemove then "removeEntry"
    else if isFileName then "getFileHandle" else "getDirectoryHandle" in
  if negb (isValidName name isFileName) then
    throw (TypeError ("Failed to execute '" +:+ methodName
                      +:+ "' on 'FileSystemDirectoryHandle': Name is not allowed."))
  else ret tt.

Definition ensureCurrentEntryExists (this : FileSystem.ref) : M World unit :=
  (w <- get ;;
   if negb (FileSystem.isValidDescriptor (fileSystem w) this)
   then throw Handle.notFoundError else ret tt)%M.

(** [ensurePermissionGranted(mode, request)] *)
Definition ensurePermissionGranted
    (promptPermission : FileSystemPermissionMode -> FileSystem.t -> string
                        -> PermissionState)
    (fuel : nat) (this : FileSystem.ref) (mode : FileSystemPermissionMode)
    (request : bool) : M World unit :=
  (state <- (if request
             then Handle.requestPermission promptPermission fuel this mode
             else Handle.queryPermission this mode) ;;
   if negb (bool_decide (state = granted))
   then throw Handle.notAllowedError else ret tt)%M.

(** [prepareHandlePath(name, create, isFileHandle)] *)
Definition prepareHandlePath (isValidName : string -> bool -> bool)
    (promptPermission : FileSystemPermissionMode -> FileSystem.t -> string
                        -> PermissionState)
    (fuel : nat) (this : FileSystem.ref) (name : string)
    (create isFileHandle : bool) : M World string :=
  (validateEntryName isValidName name isFileHandle false ;;
   ensureCurrentEntryExists this ;;
   let mode := if create then ModeReadwrite else ModeRead in
   ensurePermissionGranted promptPermission fuel this mode create ;;
   w <- get ;;
   let fs := fileSystem w in
   let path := getChildPath (Handle.fullPathOf fs this) name in
   if negb create && negb (FileSystem.exists_ fs path) then
     throw Handle.notFoundError
   else if (negb isFileHandle && FileSystem.isFile fs path)
           || (isFileHandle && FileSystem.isDirectory fs path) then
     throw Handle.typeMismatchError
   else ret path)%M.

(** [createFileHandle(descriptor)]; the handle that the factory builds is
    known by its descriptor. *)
Definition createFileHandle (fuel : nat) (this descriptor : FileSystem.ref)
  : M World FileSystem.ref :=
  (w <- get ;;
   let fs := fileSystem w in
   duplicate fuel (Handle.fullPathOf fs this)
             (Handle.fullPathOf fs descriptor) ;;
   ret descriptor)%M.

(** [getFileHandle(name, { create })]; [now] is the reading of the clock
    if the file is created. *)
Definition getFileHandle (isValidName : string -> bool -> bool)
    (promptPermission : FileSystemPermissionMode -> FileSystem.t -> string
                        -> PermissionState)
    (fuel : nat) (now : Z) (this : FileSystem.ref) (name : string)
    (create : bool) : M World FileSystem.ref :=
  (path <- prepareHandlePath isValidName promptPermission fuel this name
             create true ;;
   descriptor <- onFileSystem (FileSystem.getFileDescriptor now path create) ;;
   match descriptor with
   | None => throw Handle.notFoundError
   | Some descriptor => createFileHandle fuel this descriptor
   end)%M.

End DirectoryHandle.

(** ** API *)

(** The helper methods of the [API] class that reach the file system, on
    an installed mock, where [fs()] returns the file system of the
    context. *)
Module API.

(** [createFile(path, contents)]; [contents = None] when the argument is
    absent.  [now] and [now'] are the two readings of the clock.  Of a
    view the whole underlying buffer is stored. *)
Definition createFile (now now' : Z) (path : string)
    (contents : option BufferSource) : M FileSystem.t unit :=
  (descriptor <- FileSystem.createFile now path None ;;
   match contents with
   | Some contents =>
       let buffer := bufferOf contents in
       FileSystem.writeFile now' descriptor buffer
   | None => ret tt
   end)%M.

(** [contents(path)]; [undefined] is [None]. *)
Definition contents (path : string)
  : M FileSystem.t (option (list Utils.byte)) :=
  (fs <- get ;;
   match FileSystem.getDescriptor fs path with
   | None => ret None
   | Some descriptor =>
       match FileSystem.heap fs !! descriptor with
       | Some (FileSystem.FileDescriptor _ _ _) =>
           (buffer <- FileSystem.readFile descriptor ;; ret (Some buffer))
       | _ => ret None
       end
   end)%M.

End API.

(** * Vocabulary of the properties *)

(** The room that [SyncAccessHandle.ensureHasFreeMemory] compares with:
    the free disk space plus the [size] field of the descriptor as it is
    when the check runs. *)
Definition room (fs : FileSystem.t) (h : SyncAccessHandle.t) : num :=
  num_add (FileSystem.getFreeDiskSpace fs)
          (FileSystem.sizeOf fs (SyncAccessHandle.fileDescriptor h)).

Definition quotaExceeded : Error :=
  DOMException "Not enough free space" "QuotaExceededError".

Definition zeros (n : Z) : list byte := replicate (Z.to_nat n) Byte.x00.

(** A buffer cut or zero-extended to [n] bytes. *)
Definition resized (n : Z) (b : list byte) : list byte :=
  if bool_decide (n > Utils.byteLength b)
  then (b ++ zeros (n - Utils.byteLength b))%list
  else take (Z.to_nat n) b.

(** A buffer zero-extended up to [position], if it is shorter. *)
Definition padded (position : Z) (b : list byte) : list byte :=
  if bool_decide (position > Utils.byteLength b)
  then (b ++ zeros (position - Utils.byteLength b))%list
  else b.

(** [buffer] written into [b] at [position]. *)
Definition written (position : Z) (buffer b : list byte) : list byte :=
  (take (Z.to_nat position) (padded position b) ++ buffer
   ++ drop (Z.to_nat (position + Utils.byteLength buffer)) b)%list.

(** Every registered file entry has a content-store record of the
    length that its [size] field states. *)
Definition sizeConsistent (fs : FileSystem.t) : Prop :=
  forall path r p size m,
    FileSystem.registry fs !! path = Some r ->
    FileSystem.heap fs !! r = Some (FileSystem.FileDescriptor p size m) ->
    exists buffer,
      FileSystem.disk fs !! r = Some buffer
      /\ Utils.byteLength buffer = size.

(** The shape of a file system that the operations keep: an entry is
    registered under its own [fullPath], every object and every
    content-store key was allocated, and sizes are consistent. *)
Record wellFormed (fs : FileSystem.t) : Prop := {
  wf_path : forall path r,
    FileSystem.registry fs !! path = Some r ->
    exists d, FileSystem.heap fs !! r = Some d
              /\ FileSystem.fullPath d = path;
  wf_heap : forall r,
    is_Some (FileSystem.heap fs !! r) -> (r < FileSystem.nextRef fs)%nat;
  wf_disk : forall r,
    is_Some (FileSystem.disk fs !! r) -> (r < FileSystem.nextRef fs)%nat;
  wf_size : sizeConsistent fs;
}.

(** The sum that [getUsedDiskSpace] computes, as a function of the
    content store. *)
Definition usedOf (disk : gmap FileSystem.ref (list byte)) : Z :=
  map_fold (fun _ buffer total => total + Utils.byteLength buffer) 0 disk.

(** [getUsedDiskSpace() <= getTotalDiskSpace()] *)
Definition withinQuota (fs : FileSystem.t) : Prop :=
  match FileSystem.getTotalDiskSpace fs with
  | Fin total => FileSystem.getUsedDiskSpace fs <= total
  | Infinity => True
  end.

(** The invariant of the file system, with or without the quota part. *)
Definition invariant (quota : bool) (fs : FileSystem.t) : Prop :=
  wellFormed fs /\ (quota = true -> withinQuota fs).

(** A freshly allocated descriptor object [d] at [r]: nothing refers to it
    yet. *)
Definition fresh (quota : bool) (r : FileSystem.ref)
    (d : FileSystem.Descriptor) (fs : FileSystem.t) : Prop :=
  invariant quota fs
  /\ FileSystem.heap fs !! r = Some d
  /\ FileSystem.disk fs !! r = None
  /\ (forall path, FileSystem.registry fs !! path <> Some r).

(** The permission that a callback calls a setter of, if any. *)
Definition target (cb : Permission.Callback) : option Permission.ref :=
  match cb with
  | Permission.CallSetRead q | Permission.CallSetReadwrite q => Some q
  | Permission.DispatchChange _ => None
  end.

Definition callbacksOf (o : Permission.obj) : list Permission.Callback :=
  (Permission.subscribersRead o ++ Permission.subscribersReadwrite o)%list.

(** The subscriptions go from a permission to permissions of higher
    [rank]: no setter, through the callbacks it triggers, gets back to the
    permission it was called on.  In a [PermissionsManager] the rank of a
    permission is the number of segments of its path. *)
Definition acyclic (rank : Permission.ref -> nat) (h : Permission.heap)
  : Prop :=
  forall p o cb q,
    Permission.objects h !! p = Some o -> cb ∈ callbacksOf o ->
    target cb = Some q -> (rank p < rank q)%nat.

(** Every callback refers to a permission that exists, and no rank exceeds
    [top]. *)
Definition closedBelow (rank : Permission.ref -> nat) (top : nat)
    (h : Permission.heap) : Prop :=
  forall p o,
    Permission.objects h !! p = Some o ->
    (rank p <= top)%nat
    /\ forall cb q, cb ∈ callbacksOf o -> target cb = Some q ->
                    is_Some (Permission.objects h !! q).

Definition sameSubscribers (h h' : Permission.heap) : Prop :=
  forall q,
    (fun o => (Permission.subscribersRead o, Permission.subscribersReadwrite o))
      <$> Permission.objects h' !! q
    = (fun o => (Permission.subscribersRead o,
                 Permission.subscribersReadwrite o))
      <$> Permission.objects h !! q.

(** What [setRead(state)] makes of the two values of a permission. *)
Definition afterSetRead (state : PermissionState) (o : Permission.obj)
  : Permission.obj :=
  {| Permission.read := state;
     Permission.readwrite :=
       if decide (state = granted) then Permission.readwrite o else state;
     Permission.subscribersRead := Permission.subscribersRead o;
     Permission.subscribersReadwrite := Permission.subscribersReadwrite o |}.

(** What [setReadwrite(state)] makes of them. *)
Definition afterSetReadwrite (state : PermissionState) (o : Permission.obj)
  : Permission.obj :=
  {| Permission.read :=
       if decide (state = granted) then granted else Permission.read o;
     Permission.readwrite := state;
     Permission.subscribersRead := Permission.subscribersRead o;
     Permission.subscribersReadwrite := Permission.subscribersReadwrite o |}.

(** The permission that a call is made on. *)
Definition callee (c : Permission.Call) : Permission.ref :=
  match c with
  | Permission.SetRead p _ | Permission.SetReadwrite p _
  | Permission.Notify p _ _ => p
  end.

(** Fuel that is enough for a call, where [top] bounds the ranks: three
    nested calls for each level of subscribers below the callee. *)
Definition enough (rank : Permission.ref -> nat) (top : nat)
    (c : Permission.Call) : nat :=
  let levels := (top - rank (callee c))%nat in
  match c with
  | Permission.SetRead _ state =>
      (3 * levels + if decide (state = granted) then 2 else 3)%nat
  | Permission.SetReadwrite _ state =>
      (3 * levels + if decide (state = granted) then 3 else 2)%nat
  | Permission.Notify _ _ _ => (3 * levels + 1)%nat
  end.

(** What [set(mode, state)] makes of the two values of a permission. *)
Definition afterSet (mode : FileSystemPermissionMode)
    (state : PermissionState) (o : Permission.obj) : Permission.obj :=
  match mode with
  | ModeRead => afterSetRead state o
  | ModeReadwrite => afterSetReadwrite state o
  end.

(** A sequence of [set(mode, state)] calls on one permission. *)
Definition setAll (fuel : nat) (p : Permission.ref)
    (calls : list (FileSystemPermissionMode * PermissionState))
  : M Permission.heap unit :=
  forEach (fun c => Permission.set fuel p (fst c) (snd c)) calls.

(** [readwrite] is not more permissive than [read]. *)
Definition coupled (o : Permission.obj) : Prop :=
  Permission.readwrite o = granted -> Permission.read o = granted.

Definition valueOf (mode : FileSystemPermissionMode) (o : Permission.obj)
  : PermissionState :=
  match mode with
  | ModeRead => Permission.read o
  | ModeReadwrite => Permission.readwrite o
  end.

(** The callback that [findOrCreatePermission] subscribes for [mode] on
    behalf of the permission [r]. *)
Definition setterOf (mode : FileSystemPermissionMode) (r : Permission.ref)
  : Permission.Callback :=
  match mode with
  | ModeRead => Permission.CallSetRead r
  | ModeReadwrite => Permission.CallSetReadwrite r
  end.

(** The permission [r] holds [state] for [mode]. *)
Definition holds (r : Permission.ref) (mode : FileSystemPermissionMode)
    (state : PermissionState) (h : Permission.heap) : Prop :=
  exists o, Permission.objects h !! r = Some o /\ valueOf mode o = state.

(** One callback of [notify], called with the new state. *)
Definition call (fuel : nat) (newState : PermissionState)
    (cb : Permission.Callback) : M Permission.heap unit :=
  match cb with
  | Permission.CallSetRead q =>
      Permission.exec fuel (Permission.SetRead q newState)
  | Permission.CallSetReadwrite q =>
      Permission.exec fuel (Permission.SetReadwrite q newState)
  | Permission.DispatchChange status =>
      modify (Permission.dispatch status)
  end.

(** No subscriber of the permission [pp] has a rank below that of [r]:
    the subscribers of one permission are its children, all one level
    below it. *)
Definition firstLevel (rank : Permission.ref -> nat) (r pp : Permission.ref)
    (h : Permission.heap) : Prop :=
  forall po cb q,
    Permission.objects h !! pp = Some po -> cb ∈ callbacksOf po ->
    target cb = Some q -> (rank r <= rank q)%nat.

(** The setter of [r] for [mode] is among the subscribers of [pp]. *)
Definition subscribedTo (mode : FileSystemPermissionMode)
    (r pp : Permission.ref) (h : Permission.heap) : Prop :=
  exists po, Permission.objects h !! pp = Some po
             /\ setterOf mode r ∈ Permission.subscribers mode po.

(** A permission that nobody subscribed to. *)
Definition isLeaf (o : Permission.obj) : Prop :=
  Permission.subscribersRead o = [] /\ Permission.subscribersReadwrite o = [].

(** The heap after a setter ran on the leaf [r]. *)
Definition leafResult (r : Permission.ref) (o' : Permission.obj)
    (h h' : Permission.heap) : Prop :=
  Permission.objects h' = <[r := o']> (Permission.objects h)
  /\ Permission.nextRef h' = Permission.nextRef h
  /\ Permission.dispatched h' = Permission.dispatched h.

Definition storeOf (w : PermissionsManager.World) : Permission.heap :=
  PermissionsManager.store (PermissionsManager.manager w).

Definition permissionsOf (w : PermissionsManager.World)
  : gmap string Permission.ref :=
  PermissionsManager.permissions (PermissionsManager.manager w).

(** The values that a new permission takes from its parent: the outcome of
    [setRead(parent.getRead())] and then
    [setReadwrite(parent.getReadwrite())] on the new permission. *)
Definition inherited (po leaf : Permission.obj) : Permission.obj :=
  afterSetReadwrite (Permission.readwrite po)
    (afterSetRead (Permission.read po) leaf).

(** The parent with the two setters of [r] subscribed. *)
Definition subscribed (r : Permission.ref) (po : Permission.obj)
  : Permission.obj :=
  Permission.pushSubscriber ModeReadwrite (Permission.CallSetReadwrite r)
    (Permission.pushSubscriber ModeRead (Permission.CallSetRead r) po).

(** The world with another store of permissions, or with one more
    registration. *)
Definition withStore (h : Permission.heap) (w : PermissionsManager.World)
  : PermissionsManager.World :=
  {| PermissionsManager.fileSystem := PermissionsManager.fileSystem w;
     PermissionsManager.manager :=
       {| PermissionsManager.permissions := permissionsOf w;
          PermissionsManager.store := h;
          PermissionsManager.initial :=
            PermissionsManager.initial (PermissionsManager.manager w);
          PermissionsManager.nextStatus :=
            PermissionsManager.nextStatus (PermissionsManager.manager w) |} |}.

Definition registered (path : string) (r : Permission.ref)
    (w : PermissionsManager.World) : PermissionsManager.World :=
  {| PermissionsManager.fileSystem := PermissionsManager.fileSystem w;
     PermissionsManager.manager :=
       {| PermissionsManager.permissions := <[path := r]> (permissionsOf w);
          PermissionsManager.store := storeOf w;
          PermissionsManager.initial :=
            PermissionsManager.initial (PermissionsManager.manager w);
          PermissionsManager.nextStatus :=
            PermissionsManager.nextStatus (PermissionsManager.manager w) |} |}.

(** Every registered permission exists, and every permission was
    allocated. *)
Definition managerOk (w : PermissionsManager.World) : Prop :=
  (forall path q, permissionsOf w !! path = Some q ->
                  is_Some (Permission.objects (storeOf w) !! q))
  /\ (forall q, is_Some (Permission.objects (storeOf w) !! q) ->
                (q < Permission.nextRef (storeOf w))%nat).

(** What [findOrCreatePermission] may change: it keeps the file system and
    the provider, keeps the registrations, registers only permissions it
    allocates, and leaves alone the permissions that exist but are not
    registered. *)
Definition grows (w w' : PermissionsManager.World) : Prop :=
  managerOk w'
  /\ PermissionsManager.fileSystem w' = PermissionsManager.fileSystem w
  /\ PermissionsManager.initial (PermissionsManager.manager w')
     = PermissionsManager.initial (PermissionsManager.manager w)
  /\ (Permission.nextRef (storeOf w) <= Permission.nextRef (storeOf w'))%nat
  /\ (forall p' q, permissionsOf w !! p' = Some q ->
                   permissionsOf w' !! p' = Some q)
  /\ (forall p' q, permissionsOf w' !! p' = Some q ->
                   permissionsOf w !! p' = Some q
                   \/ (Permission.nextRef (storeOf w) <= q)%nat)
  /\ (forall q, (q < Permission.nextRef (storeOf w))%nat ->
                (forall p', permissionsOf w !! p' <> Some q) ->
                Permission.objects (storeOf w') !! q
                = Permission.objects (storeOf w) !! q).

(** The permission [r] that [findOrCreatePermission(path)] has just
    created in [w']: nobody subscribed to it and, when [path] has a
    parent, its [readwrite] is the parent's, its [read] is the parent's
    unless the parent holds [readwrite = granted] without [read =
    granted], and the parent's subscribers of both modes include the
    setters of [r]. *)
Definition created (path : string) (r : Permission.ref)
    (w' : PermissionsManager.World) : Prop :=
  exists co,
    Permission.objects (storeOf w') !! r = Some co /\ isLeaf co
    /\ forall parentPath,
         Utils.nonEmpty path = true ->
         Utils.dirname path = Some parentPath ->
         exists pp po,
           permissionsOf w' !! parentPath = Some pp
           /\ Permission.objects (storeOf w') !! pp = Some po
           /\ pp <> r
           /\ Permission.readwrite co = Permission.readwrite po
           /\ (coupled po -> Permission.read co = Permission.read po)
           /\ (~ coupled po -> Permission.read co = granted)
           /\ Permission.CallSetRead r ∈ Permission.subscribersRead po
           /\ Permission.CallSetReadwrite r
              ∈ Permission.subscribersReadwrite po.

(** The subscriptions of a manager go one level down: every callback
    that calls a setter calls it on a registered permission whose [rank]
    is one more than that of the permission subscribed to. *)
Definition levelled (rank : Permission.ref -> nat)
    (w : PermissionsManager.World) : Prop :=
  forall q o cb t,
    Permission.objects (storeOf w) !! q = Some o -> cb ∈ callbacksOf o ->
    target cb = Some t ->
    rank t = S (rank q) /\ exists path, permissionsOf w !! path = Some t.

(** The rank of the new permission [r], one below its parent [pp]. *)
Definition rankBelow (rank : Permission.ref -> nat) (pp r : Permission.ref)
  : Permission.ref -> nat :=
  fun q => if decide (q = r) then S (rank pp) else rank q.

(** The effect of a call that returns: the subscriptions stay, the
    permissions of no higher rank other than the callee stay, and the
    callee gets the values of [afterSetRead] or [afterSetReadwrite]. *)
Definition effect (rank : Permission.ref -> nat) (c : Permission.Call)
    (h h' : Permission.heap) : Prop :=
  sameSubscribers h h'
  /\ (forall q, q <> callee c -> (rank q <= rank (callee c))%nat ->
                Permission.objects h' !! q = Permission.objects h !! q)
  /\ match c with
     | Permission.SetRead p state =>
         exists o, Permission.objects h !! p = Some o
                   /\ Permission.objects h' !! p = Some (afterSetRead state o)
     | Permission.SetReadwrite p state =>
         exists o, Permission.objects h !! p = Some o
                   /\ Permission.objects h' !! p = Some (afterSetReadwrite state o)
     | Permission.Notify p _ _ => Permission.objects h' !! p = Permission.objects h !! p
     end.

(** The public operations of the file system and of the sync access
    handles opened on it, and a program that calls them one after the
    other.  A handle is named by the order in which it was opened;
    [depth] is the bound on the nesting of [remove].  An operation that
    throws leaves the state it had reached, and the program goes on. *)
Module System.

Inductive Op :=
| MakeDirectory (path : string) (recursive : bool)
| GetDirectoryDescriptor (path : string) (create : bool)
| CreateFile (now : Z) (path : string) (size : option Z)
| GetFileDescriptor (now : Z) (path : string) (create : bool)
| WriteFile (now : Z) (descriptor : FileSystem.ref) (data : list byte)
| Remove (depth : nat) (path : string) (recursive : bool)
| Purge
| SetTotalDiskSpace (size : num)
| Open (descriptor : FileSystem.ref) (keepContent : bool)
| Read (handle : nat) (buffer : BufferSource) (at_ : option Z)
| Truncate (handle : nat) (bytesLength : Z)
| Write (handle : nat) (buffer : BufferSource) (at_ : option Z)
| Flush (handle : nat) (now : Z)
| Close (handle : nat).

Record state := {
  fs : FileSystem.t;
  handles : list SyncAccessHandle.t;
}.

Definition initial (diskSize : num) : state :=
  {| fs := FileSystem.new diskSize; handles := [] |}.

Definition onFs {A} (m : M FileSystem.t A) (s : state) : state :=
  {| fs := snd (m (fs s)); handles := handles s |}.

Definition onHandle {A} (i : nat) (m : M SyncAccessHandle.Self A)
    (s : state) : state :=
  match handles s !! i with
  | Some h =>
      let r := snd (m (fs s, h)) in
      {| fs := fst r; handles := <[i := snd r]> (handles s) |}
  | None => s
  end.

Definition step (op : Op) (s : state) : state :=
  match op with
  | MakeDirectory path recursive =>
      onFs (FileSystem.makeDirectory path recursive) s
  | GetDirectoryDescriptor path create =>
      onFs (FileSystem.getDirectoryDescriptor path create) s
  | CreateFile now path size => onFs (FileSystem.createFile now path size) s
  | GetFileDescriptor now path create =>
      onFs (FileSystem.getFileDescriptor now path create) s
  | WriteFile now descriptor data =>
      onFs (FileSystem.writeFile now descriptor data) s
  | Remove depth path recursive =>
      onFs (FileSystem.removeRec depth path recursive) s
  | Purge => onFs FileSystem.purge s
  | SetTotalDiskSpace size => onFs (FileSystem.setTotalDiskSpace size) s
  | Open descriptor keepContent =>
      match SyncAccessHandle.new descriptor keepContent (fs s) with
      | (Ok h, fs') => {| fs := fs'; handles := (handles s ++ [h])%list |}
      | (_, fs') => {| fs := fs'; handles := handles s |}
      end
  | Read i buffer at_ => onHandle i (SyncAccessHandle.read buffer at_) s
  | Truncate i bytesLength =>
      onHandle i (SyncAccessHandle.truncate bytesLength) s
  | Write i buffer at_ => onHandle i (SyncAccessHandle.write buffer at_) s
  | Flush i now => onHandle i (SyncAccessHandle.flush now) s
  | Close i => onHandle i SyncAccessHandle.close s
  end.

Definition run (ops : list Op) (s : state) : state :=
  fold_left (fun s op => step op s) ops s.

End System.

(** [m], started where [P] holds, ends where [Q] holds if it returns and
    where [R] holds if it throws or does not return. *)
Definition hoare {S A} (P : S -> Prop) (m : M S A) (Q : A -> S -> Prop)
    (R : S -> Prop) : Prop :=
  forall s, P s ->
    match m s with
    | (Ok a, s') => Q a s'
    | (_, s') => R s'
    end.

(** A method of a handle that never touches the file system. *)
Definition fsUntouched {A} (m : M SyncAccessHandle.Self A) : Prop :=
  forall fs h, fst (snd (m (fs, h))) = fs.

(** The guards of [write] pass: the sink is not in error state, not closed,
    and the permission check passes, leaving the world [w']. *)
Definition guardsPass (w w' : PermissionsManager.World)
    (k : WritableFileStreamSink.t) : Prop :=
  WritableFileStreamSink.error k = None
  /\ WritableFileStreamSink.isClosed k = false
  /\ WritableFileStreamSink.ensureHasWritePermission (w, k)
     = (Ok tt, (w', k)).

(** No separator occurs in [s]. *)
Fixpoint separatorFree (s : string) : bool :=
  match s with
  | EmptyString => true
  | String c rest => negb (Utils.isSeparator c) && separatorFree rest
  end.

(** The errors of the helpers of [errorHelpers], of a closed handle and
    of [ensureIsValidPath]. *)
Definition notFound (message : string) : Error :=
  DOMException message "NotFoundError".

Definition typeMismatch (message : string) : Error :=
  DOMException message "TypeMismatchError".

Definition handleClosed : Error :=
  DOMException "FileSystemSyncAccessHandle is closed." "InvalidStateError".

(** The error of [ensureIsValidPath]. *)
Definition invalidPath (path : string) : Error :=
  TypeError ("Path " +:+ Utils.dq +:+ path +:+ Utils.dq
             +:+ " doesn't exist in file system").

(** The number of bytes that [copyArrayBuffer] copies when its offsets are
    in range. *)
Definition copiedCount (source destination : list Utils.byte)
    (options : Utils.CopyArrayBufferOptions) : Z :=
  let start := default 0 (Utils.sourceStartOffset options) in
  let stop :=
    default (Utils.byteLength source) (Utils.sourceEndOffset options) in
  let offset := default 0 (Utils.destinationOffset options) in
  Z.min (Z.min (stop - start) (Utils.byteLength source - start))
        (Utils.byteLength destination - offset).

(** The path of the first [k] segments of [path]. *)
Definition ancestor (k : nat) (path : string) : string :=
  Utils.join (take k (Utils.pathSegments path)).

(** What an operation that only adds entries keeps: the registered
    entries, the objects allocated before, the content store and the disk
    size. *)
Definition keeps (fs fs' : FileSystem.t) : Prop :=
  (forall p r, FileSystem.registry fs !! p = Some r ->
               FileSystem.registry fs' !! p = Some r)
  /\ (forall r, (r < FileSystem.nextRef fs)%nat ->
                FileSystem.heap fs' !! r = FileSystem.heap fs !! r)
  /\ FileSystem.disk fs' = FileSystem.disk fs
  /\ FileSystem.diskSize fs' = FileSystem.diskSize fs
  /\ (FileSystem.nextRef fs <= FileSystem.nextRef fs')%nat.

(** Every entry that [fs'] has and [fs] had not is a directory whose
    parent, unless it is the root, is a directory. *)
Definition addsDirectories (fs fs' : FileSystem.t) : Prop :=
  forall q r,
    FileSystem.registry fs !! q = None ->
    FileSystem.registry fs' !! q = Some r ->
    FileSystem.heap fs' !! r = Some (FileSystem.DirectoryDescriptor q)
    /\ forall parent,
         Utils.dirname q = Some parent -> Utils.nonEmpty parent = true ->
         FileSystem.isDirectory fs' parent = true.

(** What a removal at [path] leaves alone: the descriptor objects, the
    disk size, and the entries at paths that are neither [path] nor
    sub-paths of it, with their contents. *)
Definition outside (path : string) (fs fs' : FileSystem.t) : Prop :=
  FileSystem.heap fs' = FileSystem.heap fs
  /\ FileSystem.diskSize fs' = FileSystem.diskSize fs
  /\ FileSystem.nextRef fs' = FileSystem.nextRef fs
  /\ forall q, q <> path -> Utils.isSubPath q path = false ->
       FileSystem.registry fs' !! q = FileSystem.registry fs !! q
       /\ forall r, FileSystem.registry fs !! q = Some r ->
                    FileSystem.disk fs' !! r = FileSystem.disk fs !! r.

(** ** FileSystem: what a removal leaves alone *)

(** A method of the permissions manager that leaves the file system as it
    is. *)
Definition fileSystemKept {A} (m : M PermissionsManager.World A) : Prop :=
  forall w, PermissionsManager.fileSystem (snd (m w))
            = PermissionsManager.fileSystem w.

(** The same for a method of the sink. *)
Definition sinkKeepsFileSystem {A} (m : M WritableFileStreamSink.Self A)
  : Prop :=
  forall s, PermissionsManager.fileSystem (fst (snd (m s)))
            = PermissionsManager.fileSystem (fst s).

(** The entry name validator that the handles get by default. *)
Definition defaultValidator (name : string) (isFileName : bool) : bool :=
  DefaultEntryNameValidator.isValidName name.

(** A call of a permission that leaves [nextRef] as it is. *)
Definition nextRefKept {A} (m : M Permission.heap A) : Prop :=
  forall h, Permission.nextRef (snd (m h)) = Permission.nextRef h.

(** ** PermissionsManager: what its later use keeps *)

(** Every permission of [h] is in [h'], with the subscribers it had and
    possibly more. *)
Definition keepsSubscribers (h h' : Permission.heap) : Prop :=
  forall q o,
    Permission.objects h !! q = Some o ->
    exists o',
      Permission.objects h' !! q = Some o'
      /\ forall mode cb, cb ∈ Permission.subscribers mode o ->
                         cb ∈ Permission.subscribers mode o'.

(** A call of a permission that leaves the subscribers of every
    permission as they are, whatever its outcome. *)
Definition subscribersKept {A} (m : M Permission.heap A) : Prop :=
  forall h, sameSubscribers h (snd (m h)).

(** A manager as its own methods leave it. *)
Definition sound (w : PermissionsManager.World) : Prop :=
  managerOk w /\ exists rank, levelled rank w.

(** From [w] to [w'] the manager kept its registrations and the
    subscribers of its permissions. *)
Definition extends (w w' : PermissionsManager.World) : Prop :=
  (forall path q, permissionsOf w !! path = Some q ->
                  permissionsOf w' !! path = Some q)
  /\ keepsSubscribers (storeOf w) (storeOf w').

(** A method of the manager that, whatever its outcome, leaves a sound
    manager sound and extends it. *)
Definition steady {A} (m : M PermissionsManager.World A) : Prop :=
  forall w, sound w -> sound (snd (m w)) /\ extends w (snd (m w)).

(** What the user of a manager can do with it: call its public methods,
    read the state of a status it handed out, and change the file system
    that it refers to.  [promptPermission] is the provider in force when
    [requestPermission] is called, [fuel] the bound of the model on the
    depth of a cascade. *)
Module ManagerUse.

Inductive Step :=
| GetStatus (path : string) (mode : FileSystemPermissionMode)
| GetState (path : string) (mode : FileSystemPermissionMode)
| SetState (fuel : nat) (path : string) (mode : FileSystemPermissionMode)
           (state : PermissionState)
| Duplicate (fuel : nat) (from to : string)
| RequestPermission
    (promptPermission : FileSystemPermissionMode -> FileSystem.t -> string
                        -> PermissionState)
    (fuel : nat) (path : string) (mode : FileSystemPermissionMode)
| ReadState (status : PermissionsManager.Status)
| ChangeFileSystem (fs : FileSystem.t).

(** The state that a step leaves, whether the call returned or threw. *)
Definition after (step : Step) (w : PermissionsManager.World)
  : PermissionsManager.World :=
  match step with
  | GetStatus path mode => snd (PermissionsManager.getStatus path mode w)
  | GetState path mode => snd (PermissionsManager.getState path mode w)
  | SetState fuel path mode state =>
      snd (PermissionsManager.setState fuel path mode state w)
  | Duplicate fuel from to =>
      snd (PermissionsManager.duplicate fuel from to w)
  | RequestPermission promptPermission fuel path mode =>
      snd (PermissionsManager.requestPermission promptPermission fuel path
                                                mode w)
  | ReadState status => snd (PermissionsManager.state status w)
  | ChangeFileSystem fs =>
      {| PermissionsManager.fileSystem := fs;
         PermissionsManager.manager := PermissionsManager.manager w |}
  end.

Definition afterAll (steps : list Step) (w : PermissionsManager.World)
  : PermissionsManager.World :=
  fold_left (fun w step => after step w) steps w.

End ManagerUse.

(** ** Scenarios *)

Module Scenario.

(** [new FileSystem(diskSize)], then [createFile("f")]: the descriptor of
    the new file is the object allocated after the root. *)
Definition oneEmptyFile (diskSize : num) : FileSystem.t :=
  snd (FileSystem.createFile 0 "f" None (FileSystem.new diskSize)).

Definition theFile : FileSystem.ref := 1%nat.

(** What [new SyncAccessHandle(descriptor, fs)] returns on an empty
    file. *)
Definition freshHandle : SyncAccessHandle.t :=
  {| SyncAccessHandle.fileDescriptor := theFile;
     SyncAccessHandle.tempFile := [];
     SyncAccessHandle.state := SyncAccessHandle.open;
     SyncAccessHandle.cursor := 0 |}.

Definition b1 : byte := Byte.x01.
Definition b2 : byte := Byte.x02.
Definition b3 : byte := Byte.x03.
Definition b9 : byte := Byte.x09.

(** A permissions manager whose provider grants everything, on a file
    system with one empty file, and the sink of a writable stream on that
    file. *)
Definition grantedWorld (diskSize : num) : PermissionsManager.World :=
  {| PermissionsManager.fileSystem := oneEmptyFile diskSize;
     PermissionsManager.manager :=
       PermissionsManager.new
         (PermissionsManager.defaultInitial granted granted) |}.

Definition freshSink : WritableFileStreamSink.t :=
  {| WritableFileStreamSink.cursor := 0;
     WritableFileStreamSink.fileSize := 0;
     WritableFileStreamSink.isClosed := false;
     WritableFileStreamSink.error := None;
     WritableFileStreamSink.syncAccessHandle := freshHandle;
     WritableFileStreamSink.descriptor := theFile |}.

(** [{ type: "seek", position }], [{ type: "truncate", size }] and
    [{ type: "write", data, position }]. *)
Definition seek (position : option WritableFileStreamSink.Arg)
  : WritableFileStreamSink.Chunk :=
  WritableFileStreamSink.Command "seek" None position None.

Definition truncate (size : option WritableFileStreamSink.Arg)
  : WritableFileStreamSink.Chunk :=
  WritableFileStreamSink.Command "truncate" None None size.


(** A file system with the file [x/y] in the directory [x]. *)
Definition nested : FileSystem.t :=
  snd (FileSystem.createFile 0 "x/y" None (FileSystem.new Infinity)).

(** [new PermissionsManager(fs, new DefaultPermissionsProvider(read,
    readwrite))] *)
Definition managed (fs : FileSystem.t) (read readwrite : PermissionState)
  : PermissionsManager.World :=
  {| PermissionsManager.fileSystem := fs;
     PermissionsManager.manager :=
       PermissionsManager.new
         (PermissionsManager.defaultInitial read readwrite) |}.

(** [pm.setState("", "readwrite", "granted")] and then the first
    [pm.getState("x/y", "readwrite")]. *)
Definition firstAccessAfterGrant (read readwrite : PermissionState)
  : Outcome PermissionState :=
  fst ((PermissionsManager.setState 6 "" ModeReadwrite granted ;;
        PermissionsManager.getState "x/y" ModeReadwrite)%M
         (managed nested read readwrite)).

(** [pm.getState("", "read")], then the first [pm.getState("f", "read")],
    then [pm.getState("", "read")] again. *)
Definition readOfParentAndChild (read readwrite : PermissionState)
  : Outcome (PermissionState * PermissionState * PermissionState) :=
  fst ((before <- PermissionsManager.getState "" ModeRead ;;
        child <- PermissionsManager.getState "f" ModeRead ;;
        after <- PermissionsManager.getState "" ModeRead ;;
        ret (before, child, after))%M
         (managed (oneEmptyFile Infinity) read readwrite)).

End Scenario.

(** * Properties *)

Local Open Scope list_scope.

(** ** Buffers *)

(** Settle every comparison that linear arithmetic decides. *)
Ltac settle :=
  repeat match goal with
    | |- context [bool_decide ?P] =>
        first [ rewrite (bool_decide_eq_true_2 P) by (done || lia)
              | rewrite (bool_decide_eq_false_2 P) by (done || lia) ]
    end;
  cbn [orb negb andb].

Ltac copy_options :=
  cbn [default from_option id Utils.sourceStartOffset Utils.sourceEndOffset
       Utils.destinationOffset Utils.noOptions].

Section Buffers.
Import Utils.

Lemma byteLength_nonneg (b : list byte) : 0 <= byteLength b.
Proof. unfold byteLength. lia. Qed.

Lemma byteLength_app (a b : list byte) :
  byteLength (a ++ b) = byteLength a + byteLength b.
Proof. unfold byteLength. rewrite length_app. lia. Qed.

Lemma byteLength_replicate (n : Z) :
  0 <= n -> byteLength (replicate (Z.to_nat n) Byte.x00) = n.
Proof. intros Hn. unfold byteLength. rewrite length_replicate. lia. Qed.

Lemma newArrayBuffer_ok (n : Z) :
  0 <= n -> newArrayBuffer n = inr (replicate (Z.to_nat n) Byte.x00).
Proof.
  intros Hn. unfold newArrayBuffer. rewrite bool_decide_eq_false_2; [done | lia].
Qed.

Lemma slice_prefix (b : list byte) (n : Z) :
  0 <= n -> slice b 0 n = take (Z.to_nat n) b.
Proof.
  intros Hn. unfold slice, relativeIndex.
  rewrite !bool_decide_eq_false_2 by lia.
  pose proof (byteLength_nonneg b) as Hb.
  replace (Z.min 0 (byteLength b)) with 0 by lia.
  rewrite Z.sub_0_r. change (Z.to_nat 0) with 0%nat. rewrite drop_0.
  unfold byteLength in *.
  destruct (decide (n <= Z.of_nat (length b))) as [Hle | Hgt].
  - by rewrite Z.min_l.
  - rewrite Z.min_r by lia. rewrite Nat2Z.id.
    rewrite !take_ge; [done | lia | lia].
Qed.

Lemma slice_suffix (b : list byte) (k : Z) :
  0 <= k <= byteLength b -> slice b k (byteLength b) = drop (Z.to_nat k) b.
Proof.
  intros Hk. unfold slice, relativeIndex.
  rewrite !bool_decide_eq_false_2 by lia.
  replace (Z.min k (byteLength b)) with k by lia.
  replace (Z.min (byteLength b) (byteLength b)) with (byteLength b) by lia.
  apply take_ge. rewrite length_drop. unfold byteLength in *. lia.
Qed.

Lemma typedArraySet_ok (destination chunk : list byte) (offset : Z) :
  0 <= offset -> byteLength chunk + offset <= byteLength destination ->
  typedArraySet destination chunk offset =
    inr (take (Z.to_nat offset) destination ++ chunk
         ++ drop (Z.to_nat offset + length chunk) destination).
Proof. intros H0 Hfit. unfold typedArraySet. by settle. Qed.

(** Copying a whole buffer to an offset where it fits. *)
Lemma copyArrayBuffer_whole (source destination : list byte)
    (offset : option Z) :
  0 <= default 0 offset ->
  byteLength source + default 0 offset <= byteLength destination ->
  copyArrayBuffer source destination
    {| sourceStartOffset := None; sourceEndOffset := None;
       destinationOffset := offset |} =
    inr (take (Z.to_nat (default 0 offset)) destination ++ source
         ++ drop (Z.to_nat (default 0 offset) + length source) destination,
         byteLength source).
Proof.
  intros H0 Hfit. unfold copyArrayBuffer.
  cbn [Utils.sourceStartOffset Utils.sourceEndOffset Utils.destinationOffset].
  change (default 0 None) with 0.
  change (default (byteLength source) None) with (byteLength source).
  pose proof (byteLength_nonneg source).
  settle. rewrite typedArraySet_ok by lia. done.
Qed.

Lemma concatStep_ok (a b : list byte) : concatStep a b = inr (a ++ b).
Proof.
  unfold concatStep.
  pose proof (byteLength_nonneg a). pose proof (byteLength_nonneg b).
  rewrite newArrayBuffer_ok by lia. cbn [bindE].
  assert (Hlen : byteLength (replicate (Z.to_nat (byteLength a + byteLength b))
                               Byte.x00) = byteLength a + byteLength b)
    by (apply byteLength_replicate; lia).
  change noOptions with {| sourceStartOffset := None;
    sourceEndOffset := None; destinationOffset := None |}.
  rewrite copyArrayBuffer_whole by (change (default 0 None) with 0; lia).
  cbn [bindE fst]. change (default 0 None) with 0.
  change (Z.to_nat 0) with 0%nat. rewrite take_0, Nat.add_0_l. cbn [app].
  rewrite copyArrayBuffer_whole; cbn [default from_option id].
  - cbn [bindE fst]. f_equal.
    unfold byteLength. rewrite Nat2Z.id.
    rewrite take_app_length. f_equal.
    rewrite drop_ge; [by rewrite app_nil_r |].
    rewrite length_app, length_drop, length_replicate. lia.
  - lia.
  - rewrite byteLength_app. unfold byteLength.
    rewrite length_drop, length_replicate. lia.
Qed.

Lemma reduceE_concatStep (l : list (list byte)) (acc : list byte) :
  reduceE concatStep l acc = inr (acc ++ concat l).
Proof.
  revert acc. induction l as [| x l IH]; intros acc; cbn [reduceE concat].
  - by rewrite app_nil_r.
  - rewrite concatStep_ok. cbn [bindE]. rewrite IH. by rewrite <- app_assoc.
Qed.

Lemma concatArrayBuffers_ok (l : list BufferSource) :
  concatArrayBuffers l = inr (concat (List.map bufferOf l)).
Proof.
  unfold concatArrayBuffers. cbv zeta. rewrite newArrayBuffer_ok by lia.
  cbn [bindE]. apply reduceE_concatStep.
Qed.

Lemma appendNullBytes_ok (b : list byte) (count : Z) :
  0 <= count ->
  appendNullBytes b count = inr (b ++ replicate (Z.to_nat count) Byte.x00).
Proof.
  intros Hc. unfold appendNullBytes. rewrite newArrayBuffer_ok by done.
  cbn [bindE]. rewrite concatArrayBuffers_ok.
  cbn [concat List.map bufferOf viewOfAll]. by rewrite app_nil_r.
Qed.

(** The copy that [truncate] makes when it shrinks. *)
Lemma copyArrayBuffer_shrink (source : list byte) (n : Z) :
  0 <= n <= byteLength source ->
  copyArrayBuffer source (replicate (Z.to_nat n) Byte.x00)
    {| sourceStartOffset := Some 0; sourceEndOffset := Some n;
       destinationOffset := None |} =
    inr (take (Z.to_nat n) source, n).
Proof.
  intros Hn. unfold copyArrayBuffer. copy_options.
  rewrite byteLength_replicate by lia.
  assert (Hlen : byteLength (take (Z.to_nat n) source) = n).
  { unfold byteLength in *. rewrite length_take. lia. }
  assert (Hset : typedArraySet (replicate (Z.to_nat n) Byte.x00)
                   (take (Z.to_nat n) source) 0
                 = inr (take (Z.to_nat n) source)).
  { rewrite typedArraySet_ok by (rewrite ?Hlen, ?byteLength_replicate; lia).
    change (Z.to_nat 0) with 0%nat. rewrite take_0. cbn [app].
    rewrite drop_ge; [by rewrite app_nil_r |].
    rewrite length_replicate, length_take. unfold byteLength in *. lia. }
  destruct (decide (n < byteLength source)) as [Hlt | Hge].
  - settle. rewrite slice_prefix by lia. rewrite Hset. cbn [bindE].
    by rewrite Hlen.
  - settle. assert (Hall : take (Z.to_nat n) source = source).
    { apply take_ge. unfold byteLength in *. lia. }
    rewrite Hall in Hset, Hlen |- *. rewrite Hset. cbn [bindE].
    by rewrite Hlen.
Qed.

End Buffers.

(** ** Stepping through a method *)

Lemma bind_ok {S A B} (m : M S A) (k : A -> M S B) (s s' : S) (a : A) :
  m s = (Ok a, s') -> bind m k s = k a s'.
Proof. intros H. unfold bind. by rewrite H. Qed.

Lemma bind_throw {S A B} (m : M S A) (k : A -> M S B) (s s' : S) (e : Error) :
  m s = (Throw e, s') -> bind m k s = (Throw e, s').
Proof. intros H. unfold bind. by rewrite H. Qed.

Lemma bind_diverges {S A B} (m : M S A) (k : A -> M S B) (s s' : S) :
  m s = (Diverges, s') -> bind m k s = (Diverges, s').
Proof. intros H. unfold bind. by rewrite H. Qed.

Lemma get_eq {S} (s : S) : get s = (Ok s, s).
Proof. done. Qed.

Lemma liftE_inr {S A} (a : A) (s : S) : liftE (inr a) s = (Ok a, s).
Proof. done. Qed.

Lemma liftE_inl {S A} (e : Error) (s : S) :
  liftE (A := A) (inl e) s = (Throw e, s).
Proof. done. Qed.

(** ** SyncAccessHandle: what [truncate] and [write] compute *)

Section HandleFacts.
Import Utils SyncAccessHandle.

Lemma setTempFile_same (h : t) : setTempFile (tempFile h) h = h.
Proof. by destruct h. Qed.

Lemma setCursor_same (h : t) : setCursor (cursor h) h = h.
Proof. by destruct h. Qed.

Lemma this_eq (fs : FileSystem.t) (h : t) : this (fs, h) = (Ok h, (fs, h)).
Proof. done. Qed.

Lemma update_eq (f : t -> t) (fs : FileSystem.t) (h : t) :
  update f (fs, h) = (Ok tt, (fs, f h)).
Proof. done. Qed.

Lemma ensureNotClosed_open (fs : FileSystem.t) (h : t) :
  state h = open -> ensureNotClosed (fs, h) = (Ok tt, (fs, h)).
Proof.
  intros Hopen. unfold ensureNotClosed. rewrite (bind_ok _ _ _ _ _ (this_eq fs h)).
  by rewrite Hopen.
Qed.

Lemma ensureNotClosed_closed (fs : FileSystem.t) (h : t) :
  state h = closed ->
  ensureNotClosed (fs, h) =
    (Throw (DOMException "FileSystemSyncAccessHandle is closed."
                         "InvalidStateError"), (fs, h)).
Proof.
  intros Hc. unfold ensureNotClosed. rewrite (bind_ok _ _ _ _ _ (this_eq fs h)).
  by rewrite Hc.
Qed.

Lemma getSize_open (fs : FileSystem.t) (h : t) :
  state h = open -> getSize (fs, h) = (Ok (byteLength (tempFile h)), (fs, h)).
Proof.
  intros Hopen. unfold getSize.
  rewrite (bind_ok _ _ _ _ _ (ensureNotClosed_open fs h Hopen)).
  by rewrite (bind_ok _ _ _ _ _ (this_eq fs h)).
Qed.

Lemma ensureHasFreeMemory_spec (fs : FileSystem.t) (h : t) (n : Z) :
  ensureHasFreeMemory n (fs, h) =
    if gt_num n (room fs h) then (Throw quotaExceeded, (fs, h))
    else (Ok tt, (fs, h)).
Proof.
  unfold ensureHasFreeMemory, room, quotaExceeded, this, fileSystem, bind,
    gets, throw, ret. cbn [fst snd].
  by destruct (gt_num _ _).
Qed.

Lemma truncate_spec (fs : FileSystem.t) (h : t) (n : Z) :
  state h = open -> 0 <= n ->
  truncate n (fs, h) =
    if gt_num n (room fs h) then (Throw quotaExceeded, (fs, h))
    else (Ok tt,
          (fs, setCursor (Z.min (cursor h) n)
                 (setTempFile (resized n (tempFile h)) h))).
Proof.
  intros Hopen Hn. unfold truncate.
  rewrite (bind_ok _ _ _ _ _ (ensureNotClosed_open fs h Hopen)).
  settle. unfold bind at 1. rewrite ensureHasFreeMemory_spec.
  destruct (gt_num n (room fs h)); [done |].
  rewrite (bind_ok _ _ _ _ _ (getSize_open fs h Hopen)).
  rewrite (bind_ok _ _ _ _ _ (this_eq fs h)).
  pose proof (byteLength_nonneg (tempFile h)) as Hlen.
  unfold resized.
  assert (Htail : forall b,
    (h1 <- this ;; when (bool_decide (cursor h1 > n)) (update (setCursor n)))%M
      (fs, setTempFile b h)
    = (Ok tt, (fs, setCursor (Z.min (cursor h) n) (setTempFile b h)))).
  { intros b. rewrite (bind_ok _ _ _ _ _ (this_eq fs _)).
    cbn [cursor setTempFile]. case_bool_decide; cbn [when].
    - rewrite update_eq. by rewrite Z.min_r by lia.
    - unfold ret. rewrite Z.min_l by lia. by destruct h. }
  case_bool_decide as Hgrow.
  - unfold bind at 1, bind at 1.
    rewrite appendNullBytes_ok, liftE_inr, update_eq by lia.
    apply Htail.
  - unfold bind at 1, bind at 1.
    rewrite newArrayBuffer_ok, liftE_inr by lia.
    unfold bind at 1.
    rewrite copyArrayBuffer_shrink, liftE_inr, update_eq by lia.
    apply Htail.
Qed.

(** [write] looks at the underlying buffer of its source only. *)
Lemma write_source (source : BufferSource) (at_ : option Z) (s : Self) :
  write source at_ s = write (ArrayBuffer (bufferOf source)) at_ s.
Proof. by destruct source. Qed.

Lemma write_spec (fs : FileSystem.t) (h : t) (buffer : list byte)
    (at_ : option Z) :
  state h = open -> 0 <= default (cursor h) at_ ->
  write buffer at_ (fs, h) =
    let position := default (cursor h) at_ in
    if gt_num (Z.max (byteLength (tempFile h)) (position + byteLength buffer))
              (room fs h)
    then (Throw quotaExceeded,
          (fs, setTempFile (padded position (tempFile h)) h))
    else (Ok (byteLength buffer),
          (fs, setCursor (position + byteLength buffer)
                 (setTempFile (written position buffer (tempFile h)) h))).
Proof.
  intros Hopen Hpos. cbv zeta. unfold write. cbn [bufferOf].
  rewrite (bind_ok _ _ _ _ _ (ensureNotClosed_open fs h Hopen)).
  rewrite (bind_ok _ _ _ _ _ (this_eq fs h)).
  set (position := default (cursor h) at_) in *.
  pose proof (byteLength_nonneg (tempFile h)) as Hold.
  pose proof (byteLength_nonneg buffer) as Hbuf.
  rewrite (bool_decide_eq_false_2 (position < 0)) by lia.
  set (old := byteLength (tempFile h)) in *.
  (* the file contents after the zero fill, and the state it leaves *)
  assert (Hfill :
    (if bool_decide (position > old)
     then (grown <- liftE (appendNullBytes (tempFile h) (position - old)) ;;
           update (setTempFile grown) ;; ret grown)%M
     else ret (tempFile h)) (fs, h)
    = (Ok (padded position (tempFile h)),
       (fs, setTempFile (padded position (tempFile h)) h))).
  { unfold padded. fold old. case_bool_decide.
    - unfold bind at 1. rewrite appendNullBytes_ok, liftE_inr by lia.
      unfold bind at 1. by rewrite update_eq.
    - unfold ret. by rewrite setTempFile_same. }
  rewrite (bind_ok _ _ _ _ _ Hfill). clear Hfill.
  set (contents := padded position (tempFile h)).
  assert (Hcontents : byteLength contents = Z.max old position).
  { unfold contents, padded. fold old. case_bool_decide.
    - rewrite byteLength_app. unfold zeros.
      rewrite byteLength_replicate by lia. fold old. lia.
    - fold old. lia. }
  assert (Hhead : slice contents 0 position = take (Z.to_nat position) contents)
    by (apply slice_prefix; lia).
  assert (Hheadlen : byteLength (slice contents 0 position) = position).
  { rewrite Hhead. unfold byteLength in *. rewrite length_take. lia. }
  assert (Htail :
    (if bool_decide (position + byteLength buffer < old)
     then slice contents
            (byteLength contents - (old - (position + byteLength buffer)))
            (byteLength contents)
     else [])
    = drop (Z.to_nat (position + byteLength buffer)) (tempFile h)).
  { case_bool_decide as Hshort.
    - assert (contents = tempFile h) as ->.
      { unfold contents, padded. fold old.
        rewrite bool_decide_eq_false_2; [done | lia]. }
      fold old. rewrite slice_suffix by (fold old; lia).
      f_equal. lia.
    - symmetry. apply drop_ge. unfold old, byteLength in *. lia. }
  rewrite Htail, Hheadlen.
  assert (Htaillen :
    byteLength (drop (Z.to_nat (position + byteLength buffer)) (tempFile h))
    = Z.max 0 (old - (position + byteLength buffer))).
  { unfold old, byteLength in *. rewrite length_drop. lia. }
  rewrite Htaillen.
  replace (position + byteLength buffer
           + Z.max 0 (old - (position + byteLength buffer)))
    with (Z.max old (position + byteLength buffer)) by lia.
  unfold bind at 1. rewrite ensureHasFreeMemory_spec.
  assert (Hroom : room fs (setTempFile contents h) = room fs h) by done.
  rewrite Hroom.
  destruct (gt_num _ (room fs h)); [done |].
  unfold bind at 1. rewrite concatArrayBuffers_ok, liftE_inr.
  unfold bind at 1. rewrite update_eq. unfold bind at 1. rewrite update_eq.
  unfold ret. unfold written. fold contents. rewrite Hhead.
  cbn [concat List.map bufferOf viewOfAll].
  rewrite app_nil_r. by destruct h.
Qed.

End HandleFacts.

(** ** SyncAccessHandle: quota check, zero fill, cursor *)

Section HandleClaims.
Import Utils SyncAccessHandle.

Lemma byteLength_resized (n : Z) (b : list byte) :
  0 <= n -> byteLength (resized n b) = n.
Proof.
  intros Hn. unfold resized. pose proof (byteLength_nonneg b).
  case_bool_decide.
  - rewrite byteLength_app. unfold zeros. rewrite byteLength_replicate; lia.
  - unfold byteLength in *. rewrite length_take. lia.
Qed.

Lemma byteLength_padded (position : Z) (b : list byte) :
  byteLength (padded position b) = Z.max (byteLength b) position.
Proof.
  unfold padded. pose proof (byteLength_nonneg b). case_bool_decide.
  - rewrite byteLength_app. unfold zeros. rewrite byteLength_replicate; lia.
  - lia.
Qed.

Lemma byteLength_written (position : Z) (buffer b : list byte) :
  0 <= position ->
  byteLength (written position buffer b)
  = Z.max (byteLength b) (position + byteLength buffer).
Proof.
  intros Hp. unfold written. rewrite !byteLength_app.
  pose proof (byteLength_padded position b) as Hpad.
  pose proof (byteLength_nonneg b). pose proof (byteLength_nonneg buffer).
  unfold byteLength in *. rewrite length_take, length_drop. lia.
Qed.

(** The bytes written are found at the write position. *)
Lemma written_region (position : Z) (buffer b : list byte) :
  0 <= position ->
  take (length buffer) (drop (Z.to_nat position) (written position buffer b))
  = buffer.
Proof.
  intros Hp. unfold written.
  pose proof (byteLength_padded position b) as Hpad.
  assert (Hlen : length (take (Z.to_nat position) (padded position b))
                 = Z.to_nat position).
  { rewrite length_take. unfold byteLength in *. lia. }
  rewrite drop_app_length'; [| done].
  by rewrite take_app_length.
Qed.

(** What lies before the write position is kept. *)
Lemma written_before (position : Z) (buffer b : list byte) :
  0 <= position <= byteLength b ->
  take (Z.to_nat position) (written position buffer b)
  = take (Z.to_nat position) b.
Proof.
  intros Hp. unfold written, padded.
  rewrite bool_decide_eq_false_2 by lia.
  rewrite take_app_le by (rewrite length_take; unfold byteLength in *; lia).
  by rewrite take_take, Nat.min_id.
Qed.

Lemma gt_num_mono (a b : Z) (r : num) :
  a <= b -> gt_num b r = false -> gt_num a r = false.
Proof.
  intros Hab. destruct r as [x |]; cbn [gt_num]; [| done].
  intros Hb%bool_decide_eq_false. apply bool_decide_eq_false. lia.
Qed.

(** C4, as the code has it: on an open handle, [truncate] and [write]
    with a non-negative size or position raise the quota condition exactly
    when the requested length of the buffer exceeds [room]: the free disk
    space plus the [size] field that the descriptor holds at the time of
    the call.  A call that passes leaves a buffer of the requested
    length. *)
Theorem quota_check_uses_current_descriptor_size
    (fs : FileSystem.t) (h : t) (n : Z) (buffer : list byte)
    (at_ : option Z) :
  state h = open -> 0 <= n -> 0 <= default (cursor h) at_ ->
  let requested :=
    Z.max (byteLength (tempFile h))
          (default (cursor h) at_ + byteLength buffer) in
  (fst (truncate n (fs, h)) = Throw quotaExceeded
   <-> gt_num n (room fs h) = true)
  /\ (gt_num n (room fs h) = false ->
      fst (truncate n (fs, h)) = Ok tt
      /\ byteLength (tempFile (snd (snd (truncate n (fs, h))))) = n)
  /\ (fst (write buffer at_ (fs, h)) = Throw quotaExceeded
      <-> gt_num requested (room fs h) = true)
  /\ (gt_num requested (room fs h) = false ->
      fst (write buffer at_ (fs, h)) = Ok (byteLength buffer)
      /\ byteLength (tempFile (snd (snd (write buffer at_ (fs, h)))))
         = requested).
Proof.
  intros Hopen Hn Hpos requested.
  rewrite truncate_spec, write_spec by done. cbv zeta. fold requested.
  destruct (gt_num n (room fs h)) eqn:Ht;
    destruct (gt_num requested (room fs h)) eqn:Hw; cbn [fst snd];
    cbn [tempFile setCursor setTempFile];
    repeat split; try done;
    first [ by apply byteLength_resized | by apply byteLength_written ].
Qed.

Lemma quota_check_uses_current_descriptor_size_witness :
  let fs := Scenario.oneEmptyFile (Fin 10) in
  fst (truncate 11 (fs, Scenario.freshHandle)) = Throw quotaExceeded
  <-> gt_num 11 (room fs Scenario.freshHandle) = true.
Proof.
  intros fs.
  destruct (quota_check_uses_current_descriptor_size
              fs Scenario.freshHandle 11 [] None) as [H _].
  - reflexivity.
  - lia.
  - simpl. lia.
  - exact H.
Defined.

(** C4 as the spec has it fails: after a flush the descriptor's [size] is
    no longer the size the file had when the handle was built.  On a disk
    of 10 bytes, a handle built on an empty file writes 6 bytes and
    flushes; the free space (4) plus the size at construction (0) is less
    than 8, and yet [truncate(8)] passes. *)
Lemma quota_room_is_not_fixed_at_construction :
  let fs0 := Scenario.oneEmptyFile (Fin 10) in
  let sizeAtConstruction := FileSystem.sizeOf fs0 Scenario.theFile in
  let s1 := snd (write (replicate 6 Scenario.b1) None
                       (fs0, Scenario.freshHandle)) in
  let s2 := snd (flush 0 s1) in
  SyncAccessHandle.new Scenario.theFile false fs0
    = (Ok Scenario.freshHandle, fs0)
  /\ gt_num 8 (num_add (FileSystem.getFreeDiskSpace (fst s2))
                       sizeAtConstruction) = true
  /\ fst (truncate 8 s2) = Ok tt.
Proof. vm_compute. done. Qed.

Lemma num_add_0 (r : num) : num_add r 0 = r.
Proof. destruct r; cbn [num_add]; [f_equal; lia | done]. Qed.

(** The handle that the constructor builds on an empty file. *)
Lemma new_on_empty_file (fs fs' : FileSystem.t) (fd : FileSystem.ref)
    (keepContent : bool) (h : t) :
  FileSystem.sizeOf fs fd = 0 -> FileSystem.disk fs !! fd = Some [] ->
  new fd keepContent fs = (Ok h, fs') ->
  fs' = fs
  /\ h = {| fileDescriptor := fd; tempFile := []; state := open;
            cursor := 0 |}.
Proof.
  intros Hsize Hdisk. unfold new.
  rewrite (bind_ok _ _ _ _ _ (get_eq fs)). rewrite Hsize.
  assert (Hzero : (if keepContent then 0 else 0) = 0) by by destruct keepContent.
  rewrite Hzero. change (newArrayBuffer 0) with (@inr Error (list byte) []).
  rewrite (bind_ok _ _ _ _ _ (liftE_inr [] fs)).
  destruct keepContent.
  - assert (Hread : FileSystem.readFile fd fs = (Ok [], fs)).
    { unfold FileSystem.readFile. rewrite (bind_ok _ _ _ _ _ (get_eq fs)).
      by rewrite Hdisk. }
    rewrite (bind_ok _ _ _ _ _ Hread).
    change (copyArrayBuffer [] [] noOptions)
      with (@inr Error (list byte * Z) ([], 0)).
    rewrite (bind_ok _ _ _ _ _ (liftE_inr _ fs)).
    cbn. intros [= <- <-]; done.
  - cbn. intros [= <- <-]; done.
Qed.

(** C7.  On a handle built on a fresh 0-byte file, with room for 8 bytes:
    [write([1,2,3], { at: 5 })] leaves 8 bytes, five zeros and then 1, 2,
    3; [truncate(3)] and then [truncate(8)] leave 8 zero bytes, so the 1,
    2, 3 beyond the cut do not come back. *)
Theorem zero_fill_round_trip (fs : FileSystem.t) (fd : FileSystem.ref)
    (keepContent : bool) (h : t) :
  FileSystem.sizeOf fs fd = 0 -> FileSystem.disk fs !! fd = Some [] ->
  new fd keepContent fs = (Ok h, fs) ->
  gt_num 8 (FileSystem.getFreeDiskSpace fs) = false ->
  let r1 := write [Scenario.b1; Scenario.b2; Scenario.b3] (Some 5) (fs, h) in
  let r2 := truncate 3 (snd r1) in
  let r3 := truncate 8 (snd r2) in
  fst r1 = Ok 3
  /\ tempFile (snd (snd r1))
     = [Byte.x00; Byte.x00; Byte.x00; Byte.x00; Byte.x00;
        Scenario.b1; Scenario.b2; Scenario.b3]
  /\ fst r2 = Ok tt
  /\ tempFile (snd (snd r2)) = [Byte.x00; Byte.x00; Byte.x00]
  /\ fst r3 = Ok tt
  /\ tempFile (snd (snd r3))
     = [Byte.x00; Byte.x00; Byte.x00; Byte.x00; Byte.x00;
        Byte.x00; Byte.x00; Byte.x00].
Proof.
  intros Hsize Hdisk Hnew Hfree.
  destruct (new_on_empty_file _ _ _ _ _ Hsize Hdisk Hnew) as [_ ->].
  assert (Hroom : forall h' : t,
    fileDescriptor h' = fd -> room fs h' = FileSystem.getFreeDiskSpace fs).
  { intros h' Hfd. unfold room. rewrite Hfd, Hsize. apply num_add_0. }
  cbv zeta.
  rewrite write_spec by (cbn; done || lia). cbv zeta.
  cbn [tempFile cursor default from_option id].
  rewrite Hroom by done. change (Z.max _ _) with 8. rewrite Hfree.
  cbn [fst snd].
  rewrite truncate_spec by (cbn; done || lia). rewrite Hroom by done.
  rewrite (gt_num_mono 3 8 _ ltac:(lia) Hfree).
  cbn [fst snd].
  rewrite truncate_spec by (cbn; done || lia). rewrite Hroom by done.
  rewrite Hfree.
  cbn [fst snd setCursor setTempFile fileDescriptor tempFile state cursor].
  repeat split; reflexivity.
Qed.

Lemma zero_fill_round_trip_witness :
  let fs := Scenario.oneEmptyFile (Fin 512) in
  let r1 := write [Scenario.b1; Scenario.b2; Scenario.b3] (Some 5)
                  (fs, Scenario.freshHandle) in
  fst r1 = Ok 3
  /\ tempFile (snd (snd r1))
     = [Byte.x00; Byte.x00; Byte.x00; Byte.x00; Byte.x00;
        Scenario.b1; Scenario.b2; Scenario.b3].
Proof.
  intros fs.
  destruct (zero_fill_round_trip fs Scenario.theFile false
              Scenario.freshHandle) as (H1 & H2 & _).
  - reflexivity.
  - reflexivity.
  - reflexivity.
  - reflexivity.
  - split; [exact H1 | exact H2].
Defined.

(** C8 as the spec has it fails: a write with an explicit position moves
    the cursor.  Two sequential writes of one byte leave the cursor at 2;
    [write([9], { at: 0 })] then leaves it at 1, and the next sequential
    write lands at offset 1, over the second byte. *)
Lemma positional_write_moves_cursor :
  let fs := Scenario.oneEmptyFile Infinity in
  let s1 := snd (write [Scenario.b1] None (fs, Scenario.freshHandle)) in
  let s2 := snd (write [Scenario.b2] None s1) in
  let s3 := snd (write [Scenario.b9] (Some 0) s2) in
  let s4 := snd (write [Scenario.b3] None s3) in
  cursor (snd s2) = 2
  /\ fst (write [Scenario.b9] (Some 0) s2) = Ok 1
  /\ cursor (snd s3) = 1
  /\ cursor (snd s3) <> cursor (snd s2)
  /\ tempFile (snd s4) = [Scenario.b9; Scenario.b3].
Proof. vm_compute. repeat split; done. Qed.

(** C8, as the code has it.  When there is room for them, two
    consecutive writes without [at] return, put the second buffer right
    after the first, and leave the cursor after the second.  A write with
    an explicit position [p], when there is room for it, returns and
    leaves the cursor at [p] plus the number of bytes written, and a
    following write without [at] starts there. *)
Theorem sequential_and_positional_cursor
    (fs : FileSystem.t) (h : t) (first second : list byte) (p : Z) :
  state h = open -> 0 <= cursor h -> 0 <= p ->
  let r1 := write first None (fs, h) in
  let r2 := write second None (snd r1) in
  let q1 := write first (Some p) (fs, h) in
  let old := byteLength (tempFile h) in
  (gt_num (Z.max old (cursor h + byteLength first + byteLength second))
          (room fs h) = false ->
   let c := Z.to_nat (cursor h) in
   let final := tempFile (snd (snd r2)) in
   fst r1 = Ok (byteLength first) /\ fst r2 = Ok (byteLength second)
   /\ cursor (snd (snd r1)) = cursor h + byteLength first
   /\ cursor (snd (snd r2))
      = cursor h + byteLength first + byteLength second
   /\ take (length first) (drop c final) = first
   /\ take (length second) (drop (c + length first) final) = second)
  /\ (gt_num (Z.max old (p + byteLength first)) (room fs h) = false ->
      fst q1 = Ok (byteLength first)
      /\ cursor (snd (snd q1)) = p + byteLength first
      /\ write second None (snd q1)
         = write second (Some (p + byteLength first)) (snd q1)).
Proof.
  intros Hopen Hc Hp. cbv zeta.
  pose proof (byteLength_nonneg first) as Hf.
  pose proof (byteLength_nonneg second) as Hs.
  split.
  - intros Hroom.
    assert (Hroom1 :
      gt_num (Z.max (byteLength (tempFile h)) (cursor h + byteLength first))
             (room fs h) = false)
      by (eapply gt_num_mono; [| exact Hroom]; lia).
    assert (Hroom2 :
      gt_num (Z.max (byteLength (written (cursor h) first (tempFile h)))
                    (cursor h + byteLength first + byteLength second))
             (room fs h) = false)
      by (rewrite byteLength_written by done;
          eapply gt_num_mono; [| exact Hroom]; lia).
    rewrite write_spec by done. cbv zeta. cbn [default from_option id].
    rewrite Hroom1.
    cbn [fst snd].
    rewrite write_spec
      by (cbn [state cursor setCursor setTempFile default]; done || lia).
    cbv zeta.
    cbn [default cursor tempFile state setCursor setTempFile fst snd].
    change (room fs (setCursor _ (setTempFile _ h))) with (room fs h).
    rewrite Hroom2.
    cbn [default cursor tempFile state setCursor setTempFile fst snd].
    split; [done |]. split; [done |]. split; [done |]. split; [done |].
    set (mid := written (cursor h) first (tempFile h)).
    assert (Hmid : byteLength mid
                   = Z.max (byteLength (tempFile h))
                           (cursor h + byteLength first))
      by (apply byteLength_written; done).
    assert (Hq : Z.to_nat (cursor h + byteLength first)
                 = (Z.to_nat (cursor h) + length first)%nat)
      by (unfold byteLength; lia).
    split.
    + assert (Hkeep :
        take (Z.to_nat (cursor h + byteLength first))
             (written (cursor h + byteLength first) second mid)
        = take (Z.to_nat (cursor h + byteLength first)) mid)
        by (apply written_before; lia).
      rewrite <- (written_region (cursor h) first (tempFile h) Hc) at 3.
      fold mid.
      rewrite !take_drop_commute. f_equal. rewrite <- Hq. exact Hkeep.
    + rewrite <- Hq. apply written_region. lia.
  - intros Hroom. rewrite write_spec by (cbn [default]; done).
    cbv zeta. cbn [default from_option id].
    rewrite Hroom.
    cbn [fst snd cursor setCursor]. split; [done |]. split; [done |].
    rewrite !write_spec
      by (cbn [state cursor setCursor setTempFile default from_option id];
          done || lia).
    done.
Qed.

Lemma sequential_and_positional_cursor_witness :
  let fs := Scenario.oneEmptyFile Infinity in
  let q1 := write [Scenario.b9] (Some 4) (fs, Scenario.freshHandle) in
  cursor (snd (snd q1)) = 5.
Proof.
  intros fs q1.
  destruct (sequential_and_positional_cursor fs Scenario.freshHandle
              [Scenario.b9] [Scenario.b3] 4) as [_ H].
  - reflexivity.
  - simpl. lia.
  - lia.
  - destruct (H eq_refl) as (_ & Hcur & _). exact Hcur.
Defined.

End HandleClaims.

(** ** Reasoning about methods *)

Section Hoare.
Context {S : Type}.
Implicit Types P R : S -> Prop.

Lemma hoare_ret {A} P (a : A) (Q : A -> S -> Prop) R :
  (forall s, P s -> Q a s) -> hoare P (ret a) Q R.
Proof. intros H s Hs. by apply H. Qed.

Lemma hoare_throw {A} P (e : Error) (Q : A -> S -> Prop) R :
  (forall s, P s -> R s) -> hoare P (throw e) Q R.
Proof. intros H s Hs. by apply H. Qed.

Lemma hoare_diverge {A} P (Q : A -> S -> Prop) R :
  (forall s, P s -> R s) -> hoare P diverge Q R.
Proof. intros H s Hs. by apply H. Qed.

Lemma hoare_bind {A B} P (m : M S A) (k : A -> M S B) (Q' : A -> S -> Prop)
    (Q : B -> S -> Prop) R :
  hoare P m Q' R -> (forall a, hoare (Q' a) (k a) Q R) ->
  hoare P (bind m k) Q R.
Proof.
  intros Hm Hk s Hs. unfold bind. specialize (Hm s Hs).
  destruct (m s) as [[a | e |] s']; [| done | done].
  by apply Hk.
Qed.

Lemma hoare_get {A} P (k : S -> M S A) (Q : A -> S -> Prop) R :
  (forall s0, hoare (fun s => P s /\ s = s0) (k s0) Q R) ->
  hoare P (bind get k) Q R.
Proof. intros H s Hs. unfold bind, get. by apply (H s s). Qed.

Lemma hoare_modify P (f : S -> S) (Q : unit -> S -> Prop) R :
  (forall s, P s -> Q tt (f s)) -> hoare P (modify f) Q R.
Proof. intros H s Hs. by apply H. Qed.

Lemma hoare_liftE {A} P (m : Error + A) (Q : A -> S -> Prop) R :
  (forall a s, m = inr a -> P s -> Q a s) -> (forall s, P s -> R s) ->
  hoare P (liftE m) Q R.
Proof.
  intros Hok Herr s Hs. destruct m as [e | a]; cbn.
  - by apply Herr.
  - by apply Hok.
Qed.

Lemma hoare_conseq {A} P P' (m : M S A) (Q Q' : A -> S -> Prop) R R' :
  hoare P' m Q' R' ->
  (forall s, P s -> P' s) -> (forall a s, Q' a s -> Q a s) ->
  (forall s, R' s -> R s) ->
  hoare P m Q R.
Proof.
  intros Hm HP HQ HR s Hs. specialize (Hm s (HP s Hs)).
  destruct (m s) as [[a | e |] s']; auto.
Qed.

Lemma hoare_when P (b : bool) (m : M S unit) (Q : unit -> S -> Prop) R :
  (b = true -> hoare P m Q R) -> (b = false -> forall s, P s -> Q tt s) ->
  hoare P (when b m) Q R.
Proof.
  intros Hm Hskip. destruct b; cbn [when].
  - by apply Hm.
  - apply hoare_ret. by apply Hskip.
Qed.

Lemma hoare_forEach {A} (I : S -> Prop) (f : A -> M S unit) (l : list A) :
  (forall x, hoare I (f x) (fun _ => I) I) ->
  hoare I (forEach f l) (fun _ => I) I.
Proof.
  intros Hf. induction l as [| x l IH]; cbn [forEach].
  - by apply hoare_ret.
  - apply (hoare_bind _ _ _ (fun _ => I)); [apply Hf |]. intros ?. apply IH.
Qed.

End Hoare.

(** ** FileSystem: used space *)

Section UsedSpace.
Import Utils FileSystem.

Lemma usedOf_empty : usedOf ∅ = 0.
Proof. unfold usedOf. apply map_fold_empty. Qed.

Lemma usedOf_insert_fresh (disk : gmap ref (list byte)) r buffer :
  disk !! r = None ->
  usedOf (<[r := buffer]> disk) = usedOf disk + byteLength buffer.
Proof.
  intros Hr. unfold usedOf.
  rewrite map_fold_insert_L; [done | | done].
  intros. lia.
Qed.

Lemma usedOf_delete (disk : gmap ref (list byte)) r buffer :
  disk !! r = Some buffer ->
  usedOf (delete r disk) = usedOf disk - byteLength buffer.
Proof.
  intros Hr.
  rewrite <- (insert_delete_id disk r buffer Hr) at 2.
  rewrite usedOf_insert_fresh by apply lookup_delete_eq. lia.
Qed.

Lemma usedOf_insert (disk : gmap ref (list byte)) r old buffer :
  disk !! r = Some old ->
  usedOf (<[r := buffer]> disk)
  = usedOf disk - byteLength old + byteLength buffer.
Proof.
  intros Hr. rewrite <- insert_delete_eq.
  rewrite usedOf_insert_fresh by apply lookup_delete_eq.
  rewrite (usedOf_delete _ _ _ Hr). lia.
Qed.

Lemma usedOf_nonneg (disk : gmap ref (list byte)) : 0 <= usedOf disk.
Proof.
  unfold usedOf.
  apply (map_fold_weak_ind (fun total _ => 0 <= total)).
  - done.
  - intros r buffer m total Hr IH. pose proof (byteLength_nonneg buffer). lia.
Qed.

Lemma getUsedDiskSpace_usedOf (fs : t) : getUsedDiskSpace fs = usedOf (disk fs).
Proof. done. Qed.

End UsedSpace.

(** ** FileSystem: the invariant is kept *)

Section FileSystemInvariant.
Import Utils FileSystem.
Variable quota : bool.

Lemma registered_lt (fs : t) path r :
  wellFormed fs -> registry fs !! path = Some r -> (r < nextRef fs)%nat.
Proof.
  intros Hwf Hr. destruct (wf_path fs Hwf path r Hr) as (d & Hd & _).
  apply (wf_heap fs Hwf). by exists d.
Qed.

Lemma alloc_fresh (d : Descriptor) :
  hoare (invariant quota) (alloc d)
        (fun r fs => fresh quota r d fs) (invariant quota).
Proof.
  intros fs [Hwf Hq]. unfold alloc, fresh, invariant. cbn.
  assert (Hnew : heap fs !! nextRef fs = None).
  { destruct (heap fs !! nextRef fs) eqn:E; [| done].
    pose proof (wf_heap fs Hwf (nextRef fs) (mk_is_Some _ _ E)). lia. }
  split; [split; [split |] |]; cbn.
  - intros path r Hr. destruct (wf_path fs Hwf path r Hr) as (d' & Hd' & Hp).
    exists d'. split; [| done]. rewrite lookup_insert_ne; [done |].
    intros <-. congruence.
  - intros r [x Hx]. destruct (decide (r = nextRef fs)) as [-> | Hne]; [lia |].
    rewrite lookup_insert_ne in Hx by done.
    pose proof (wf_heap fs Hwf r (mk_is_Some _ _ Hx)). lia.
  - intros r Hr. pose proof (wf_disk fs Hwf r Hr). lia.
  - intros path r p size m Hr Hd. cbn in Hr, Hd |- *.
    assert (r <> nextRef fs)
      by (pose proof (registered_lt fs path r Hwf Hr); lia).
    rewrite lookup_insert_ne in Hd by done.
    apply (wf_size fs Hwf path r p size m Hr Hd).
  - exact Hq.
  - split; [apply lookup_insert_eq |]. split.
    + destruct (disk fs !! nextRef fs) eqn:E; [| done].
      pose proof (wf_disk fs Hwf _ (mk_is_Some _ _ E)). lia.
    + intros path Hr. pose proof (registered_lt fs path _ Hwf Hr). lia.
Qed.

(** Registering a new directory object. *)
Lemma register_directory (fs : t) (r : ref) (path : string) :
  fresh quota r (DirectoryDescriptor path) fs ->
  invariant quota (setRegistry <[path := r]> fs).
Proof.
  intros ([Hwf Hq] & Hd & Hdisk & Hunreg). split; [split |]; cbn.
  - intros path' r'. destruct (decide (path = path')) as [<- | Hne].
    + rewrite lookup_insert_eq. intros [= <-]. by eexists.
    + rewrite lookup_insert_ne by done. apply (wf_path fs Hwf).
  - apply (wf_heap fs Hwf).
  - apply (wf_disk fs Hwf).
  - intros path' r' p size m. cbn.
    destruct (decide (path = path')) as [<- | Hne].
    + rewrite lookup_insert_eq. intros [= <-]. congruence.
    + rewrite lookup_insert_ne by done. apply (wf_size fs Hwf).
  - exact Hq.
Qed.

Lemma makeDirectoryRec_invariant (fuel : nat) (path : string)
    (recursive : bool) :
  hoare (invariant quota) (makeDirectoryRec fuel path recursive)
        (fun _ => invariant quota) (invariant quota).
Proof.
  revert path. induction fuel as [| fuel IH]; intros path;
    cbn [makeDirectoryRec].
  - by apply hoare_diverge.
  - apply hoare_get. intros fs0.
    destruct (exists_ fs0 path).
    { apply hoare_throw. by intros s [Hs _]. }
    apply (hoare_bind _ _ _ (fun _ => invariant quota)).
    + destruct (dirname path) as [dirName |];
        [| apply hoare_ret; by intros s [Hs _]].
      destruct (nonEmpty dirName); [| apply hoare_ret; by intros s [Hs _]].
      destruct (exists_ fs0 dirName); cbn [negb].
      * destruct (isDirectory fs0 dirName); cbn [negb].
        -- apply hoare_ret. by intros s [Hs _].
        -- apply hoare_throw. by intros s [Hs _].
      * destruct recursive; cbn [negb].
        -- apply (hoare_bind _ _ _ (fun _ => invariant quota)).
           ++ eapply hoare_conseq; [apply IH | | done | done].
              by intros s [Hs _].
           ++ intros ?. by apply hoare_ret.
        -- apply hoare_throw. by intros s [Hs _].
    + intros _.
      apply (hoare_bind _ _ _
               (fun r fs => fresh quota r (DirectoryDescriptor path) fs)).
      * apply alloc_fresh.
      * intros r.
        apply (hoare_bind _ _ _ (fun _ => invariant quota)).
        -- apply hoare_modify. intros s Hs. by apply register_directory.
        -- intros ?. by apply hoare_ret.
Qed.

Lemma makeDirectory_invariant (path : string) (recursive : bool) :
  hoare (invariant quota) (makeDirectory path recursive)
        (fun _ => invariant quota) (invariant quota).
Proof. apply makeDirectoryRec_invariant. Qed.

Lemma is_Some_alter {A} (f : A -> A) (m : gmap ref A) (r r' : ref) :
  is_Some (alter f r m !! r') <-> is_Some (m !! r').
Proof.
  destruct (decide (r = r')) as [<- | Hne].
  - rewrite lookup_alter_eq. by rewrite fmap_is_Some.
  - by rewrite lookup_alter_ne.
Qed.

(** The state in which [allocateFile] and the registration leave a new file
    that passed the quota check. *)
Lemma register_file (fs : t) (r : ref) (path : string) (size now : Z) :
  fresh quota r (FileDescriptor path size None) fs ->
  0 <= size -> gt_num size (getFreeDiskSpace fs) = false ->
  invariant quota
    (setRegistry <[path := r]>
       (setHeap (alter (assignLastModified now) r)
          (setDisk <[r := replicate (Z.to_nat size) Byte.x00]> fs))).
Proof.
  intros ([Hwf Hq] & Hd & Hdisk & Hunreg) Hsize Hfree.
  split; [split |]; cbn.
  - intros path' r'. destruct (decide (path = path')) as [<- | Hne].
    + rewrite lookup_insert_eq. intros [= <-].
      rewrite lookup_alter_eq, Hd. by eexists.
    + rewrite lookup_insert_ne by done. intros Hr'.
      destruct (wf_path fs Hwf path' r' Hr') as (d' & Hd' & Hp).
      assert (r <> r') by (intros ->; by apply (Hunreg path')).
      rewrite lookup_alter_ne by done. by exists d'.
  - intros r'. rewrite is_Some_alter. apply (wf_heap fs Hwf).
  - intros r'. destruct (decide (r = r')) as [<- | Hne].
    + intros _. apply (wf_heap fs Hwf). by eexists.
    + rewrite lookup_insert_ne by done. apply (wf_disk fs Hwf).
  - intros path' r' p size' m. cbn.
    destruct (decide (path = path')) as [<- | Hne].
    + rewrite lookup_insert_eq. intros [= <-].
      rewrite lookup_alter_eq, Hd. cbn. intros [= <- <- <-].
      rewrite lookup_insert_eq. eexists. split; [done |].
      by apply byteLength_replicate.
    + rewrite lookup_insert_ne by done. intros Hr'.
      assert (r <> r') by (intros ->; by apply (Hunreg path')).
      rewrite lookup_alter_ne, lookup_insert_ne by done.
      by apply (wf_size fs Hwf path').
  - intros Hquota. specialize (Hq Hquota). revert Hq Hfree.
    unfold withinQuota, getTotalDiskSpace, getFreeDiskSpace. cbn.
    rewrite !getUsedDiskSpace_usedOf. cbn.
    destruct (diskSize fs) as [total |]; [| done]. cbn [gt_num].
    intros Hq Hfree%bool_decide_eq_false.
    rewrite usedOf_insert_fresh by done.
    rewrite byteLength_replicate by done. lia.
Qed.

Lemma createFile_invariant (now : Z) (path : string) (size : option Z) :
  hoare (invariant quota) (createFile now path size)
        (fun _ => invariant quota) (invariant quota).
Proof.
  unfold createFile. apply hoare_get. intros fs0.
  destruct (exists_ fs0 path).
  { apply hoare_throw. by intros s [Hs _]. }
  apply (hoare_bind _ _ _ (fun _ => invariant quota)).
  - destruct (dirname path) as [dirName |];
      [| apply hoare_ret; by intros s [Hs _]].
    destruct (nonEmpty dirName && negb (exists_ fs0 dirName));
      [| apply hoare_ret; by intros s [Hs _]].
    apply (hoare_bind _ _ _ (fun _ => invariant quota)).
    + eapply hoare_conseq; [apply makeDirectory_invariant | | done | done].
      by intros s [Hs _].
    + intros ?. by apply hoare_ret.
  - intros _. set (sz := default 0 size).
    apply (hoare_bind _ _ _
             (fun r fs => fresh quota r (FileDescriptor path sz None) fs)).
    { apply alloc_fresh. }
    intros r.
    apply (hoare_bind _ _ _
      (fun _ s => exists fs,
         fresh quota r (FileDescriptor path sz None) fs /\ 0 <= sz
         /\ gt_num sz (getFreeDiskSpace fs) = false
         /\ s = setHeap (alter (assignLastModified now) r)
                  (setDisk <[r := replicate (Z.to_nat sz) Byte.x00]> fs))).
    + unfold allocateFile. apply hoare_get. intros fs1.
      destruct (gt_num (sizeOf fs1 r) (getFreeDiskSpace fs1)) eqn:Hfree.
      { apply hoare_throw. by intros s [[Hs _] _]. }
      apply (hoare_bind _ _ _
        (fun buffer s =>
           (fresh quota r (FileDescriptor path sz None) s /\ s = fs1)
           /\ newArrayBuffer (sizeOf fs1 r) = inr buffer)).
      { apply hoare_liftE; [by intros a s -> Hs | by intros s [[Hs _] _]]. }
      intros buffer.
      apply (hoare_bind _ _ _
        (fun _ s => (fresh quota r (FileDescriptor path sz None) fs1
                     /\ newArrayBuffer (sizeOf fs1 r) = inr buffer)
                    /\ s = setDisk <[r := buffer]> fs1)).
      { apply hoare_modify. by intros s [[Hs ->] Hb]. }
      intros ?. apply hoare_modify. intros s [[Hfresh Hb] ->].
      assert (Hsz : sizeOf fs1 r = sz).
      { unfold sizeOf. destruct Hfresh as (_ & -> & _). done. }
      rewrite Hsz in Hb, Hfree. unfold newArrayBuffer in Hb.
      case_bool_decide as Hneg; [done |]. injection Hb as <-.
      exists fs1. repeat split; [apply Hfresh.. | lia | done].
    + intros ?.
      apply (hoare_bind _ _ _ (fun _ => invariant quota)).
      * apply hoare_modify. intros s (fs & Hfresh & Hsz & Hfree & ->).
        by apply register_file.
      * intros ?. by apply hoare_ret.
Qed.

Lemma fullPath_assignSize (n : Z) (d : Descriptor) :
  fullPath (assignSize n d) = fullPath d.
Proof. by destruct d. Qed.

Lemma fullPath_assignLastModified (n : Z) (d : Descriptor) :
  fullPath (assignLastModified n d) = fullPath d.
Proof. by destruct d. Qed.

(** The state in which [writeFile] leaves a file that passed its checks. *)
Lemma written_file (fs : t) (r : ref) (old data : list byte) (now : Z) :
  invariant quota fs -> disk fs !! r = Some old ->
  gt_num (byteLength data) (num_add (getFreeDiskSpace fs) (byteLength old))
    = false ->
  invariant quota
    (setHeap (alter (assignLastModified now) r)
       (setHeap (alter (assignSize (byteLength data)) r)
          (setDisk <[r := data]> fs))).
Proof.
  intros [Hwf Hq] Hold Hfree. split; [split |]; cbn.
  - intros path r' Hr'.
    destruct (wf_path fs Hwf path r' Hr') as (d & Hd & Hp).
    destruct (decide (r = r')) as [<- | Hne].
    + rewrite !lookup_alter_eq, Hd. cbn. eexists. split; [done |].
      by rewrite fullPath_assignLastModified, fullPath_assignSize.
    + rewrite !lookup_alter_ne by done. by exists d.
  - intros r'. rewrite !is_Some_alter. apply (wf_heap fs Hwf).
  - intros r'. destruct (decide (r = r')) as [<- | Hne].
    + intros _. apply (wf_disk fs Hwf). by eexists.
    + rewrite lookup_insert_ne by done. apply (wf_disk fs Hwf).
  - intros path r' p size m Hr'. cbn in Hr' |- *.
    destruct (decide (r = r')) as [<- | Hne].
    + rewrite !lookup_alter_eq, lookup_insert_eq.
      destruct (heap fs !! r) as [[p' | p' size' m'] |]; cbn; try done.
      intros [= <- <- <-]. by eexists.
    + rewrite !lookup_alter_ne, lookup_insert_ne by done.
      by apply (wf_size fs Hwf path).
  - intros Hquota. specialize (Hq Hquota). revert Hq Hfree.
    unfold withinQuota, getTotalDiskSpace, getFreeDiskSpace. cbn.
    rewrite !getUsedDiskSpace_usedOf. cbn.
    destruct (diskSize fs) as [total |]; [| done]. cbn [gt_num num_add].
    intros Hq Hfree%bool_decide_eq_false.
    rewrite (usedOf_insert _ _ _ _ Hold). lia.
Qed.

Lemma writeFile_invariant (now : Z) (descriptor : ref) (data : list byte) :
  hoare (invariant quota) (writeFile now descriptor data)
        (fun _ => invariant quota) (invariant quota).
Proof.
  intros fs Hinv. unfold writeFile.
  rewrite (bind_ok _ _ _ _ _ (get_eq fs)).
  destruct (disk fs !! descriptor) as [old |] eqn:Hold.
  - rewrite bool_decide_eq_true_2 by by eexists. cbn [negb].
    destruct (gt_num _ _) eqn:Hfree; [done |].
    cbn. by apply (written_file fs descriptor old).
  - rewrite bool_decide_eq_false_2 by by intros [? ?]. done.
Qed.

Lemma getFileDescriptor_invariant (now : Z) (path : string) (create : bool) :
  hoare (invariant quota) (getFileDescriptor now path create)
        (fun _ => invariant quota) (invariant quota).
Proof.
  unfold getFileDescriptor. apply hoare_get. intros fs0.
  destruct (exists_ fs0 path).
  - destruct (isFile fs0 path).
    + apply hoare_ret. by intros s [Hs _].
    + apply hoare_throw. by intros s [Hs _].
  - destruct create.
    + apply (hoare_bind _ _ _ (fun _ => invariant quota)).
      * eapply hoare_conseq; [apply createFile_invariant | | done | done].
        by intros s [Hs _].
      * intros ?. by apply hoare_ret.
    + apply hoare_ret. by intros s [Hs _].
Qed.

Lemma getDirectoryDescriptor_invariant (path : string) (create : bool) :
  hoare (invariant quota) (getDirectoryDescriptor path create)
        (fun _ => invariant quota) (invariant quota).
Proof.
  unfold getDirectoryDescriptor. apply hoare_get. intros fs0.
  destruct (exists_ fs0 path).
  - destruct (isDirectory fs0 path).
    + apply hoare_ret. by intros s [Hs _].
    + apply hoare_throw. by intros s [Hs _].
  - destruct create.
    + apply (hoare_bind _ _ _ (fun _ => invariant quota)).
      * eapply hoare_conseq; [apply makeDirectory_invariant | | done | done].
        by intros s [Hs _].
      * intros ?. by apply hoare_ret.
    + apply hoare_ret. by intros s [Hs _].
Qed.

(** Without [create], [getFileDescriptor] only looks the path up. *)
Lemma getFileDescriptor_lookup (now : Z) (path : string) (fs : t) :
  isFile fs path = true ->
  getFileDescriptor now path false fs = (Ok (registry fs !! path), fs).
Proof.
  intros Hfile. unfold getFileDescriptor.
  rewrite (bind_ok _ _ _ _ _ (get_eq fs)). rewrite Hfile.
  unfold isFile in Hfile. unfold exists_.
  destruct (registry fs !! path) eqn:Hr; [| done].
  rewrite bool_decide_eq_true_2 by by eexists. done.
Qed.

(** Unregistering a path, together with the content of its file if it is
    one. *)
Lemma unregister_file (fs : t) (path : string) (r : ref) :
  invariant quota fs -> registry fs !! path = Some r ->
  invariant quota (setRegistry (delete path) (setDisk (delete r) fs)).
Proof.
  intros [Hwf Hq] Hr. split; [split |]; cbn.
  - intros path' r'. destruct (decide (path = path')) as [<- | Hne].
    + by rewrite lookup_delete_eq.
    + rewrite lookup_delete_ne by done. apply (wf_path fs Hwf).
  - apply (wf_heap fs Hwf).
  - intros r' [b Hb]. apply (wf_disk fs Hwf).
    apply lookup_delete_Some in Hb as [_ Hb]. by eexists.
  - intros path' r' p size m. cbn.
    destruct (decide (path = path')) as [<- | Hne].
    + by rewrite lookup_delete_eq.
    + rewrite lookup_delete_ne by done. intros Hr' Hd'.
      assert (r <> r').
      { intros <-. destruct (wf_path fs Hwf _ _ Hr) as (d1 & Hd1 & Hp1).
        destruct (wf_path fs Hwf _ _ Hr') as (d2 & Hd2 & Hp2). congruence. }
      rewrite lookup_delete_ne by done.
      by apply (wf_size fs Hwf path' r' p size m).
  - intros Hquota. specialize (Hq Hquota). revert Hq.
    unfold withinQuota, getTotalDiskSpace. cbn.
    rewrite !getUsedDiskSpace_usedOf. cbn.
    destruct (diskSize fs) as [total |]; [| done].
    destruct (disk fs !! r) as [old |] eqn:Hold.
    + rewrite (usedOf_delete _ _ _ Hold).
      pose proof (byteLength_nonneg old). lia.
    + by rewrite delete_id.
Qed.

Lemma unregister (fs : t) (path : string) :
  invariant quota fs -> invariant quota (setRegistry (delete path) fs).
Proof.
  intros [Hwf Hq]. split; [split |]; cbn.
  - intros path' r'. destruct (decide (path = path')) as [<- | Hne].
    + by rewrite lookup_delete_eq.
    + rewrite lookup_delete_ne by done. apply (wf_path fs Hwf).
  - apply (wf_heap fs Hwf).
  - apply (wf_disk fs Hwf).
  - intros path' r' p size m. cbn.
    destruct (decide (path = path')) as [<- | Hne].
    + by rewrite lookup_delete_eq.
    + rewrite lookup_delete_ne by done. apply (wf_size fs Hwf path').
  - exact Hq.
Qed.

Lemma removeRec_invariant (fuel : nat) (path : string) (recursive : bool) :
  hoare (invariant quota) (removeRec fuel path recursive)
        (fun _ => invariant quota) (invariant quota).
Proof.
  revert path. induction fuel as [| fuel IH]; intros path; cbn [removeRec].
  - by apply hoare_diverge.
  - case_bool_decide; [by apply hoare_throw |].
    apply hoare_get. intros fs0.
    destruct (isFile fs0 path) eqn:Hfile.
    + intros s [Hs ->]. rewrite (bind_ok _ _ _ _ _
        (getFileDescriptor_lookup 0 path fs0 Hfile)).
      unfold isFile in Hfile.
      destruct (registry fs0 !! path) as [r |] eqn:Hr; [| done].
      cbn. by apply unregister_file.
    + apply (hoare_bind _ _ _ (fun _ => invariant quota)).
      * destruct (getChildPaths fs0 path) as [| child children];
          [apply hoare_ret; by intros s [Hs _] |].
        destruct recursive; cbn [negb];
          [| apply hoare_throw; by intros s [Hs _]].
        eapply hoare_conseq;
          [apply (hoare_forEach (invariant quota)) | | done | done].
        -- intros x. apply IH.
        -- by intros s [Hs _].
      * intros ?. apply hoare_modify. intros s Hs. by apply unregister.
Qed.

Lemma purge_invariant :
  hoare (invariant quota) purge (fun _ => invariant quota) (invariant quota).
Proof.
  intros fs [Hwf Hq]. unfold purge. cbn.
  split; [split |]; cbn.
  - intros path r. destruct (decide (path = EmptyString)) as [-> | Hne].
    + rewrite lookup_insert_eq. intros [= <-]. rewrite lookup_insert_eq.
      by eexists.
    + rewrite lookup_insert_ne by done. by rewrite lookup_empty.
  - intros r [x Hx]. destruct (decide (r = nextRef fs)) as [-> | Hne]; [lia |].
    rewrite lookup_insert_ne in Hx by done.
    pose proof (wf_heap fs Hwf r (mk_is_Some _ _ Hx)). lia.
  - intros r [x Hx]. by rewrite lookup_empty in Hx.
  - intros path r p size m. cbn.
    destruct (decide (path = EmptyString)) as [-> | Hne].
    + rewrite lookup_insert_eq. intros [= <-]. by rewrite lookup_insert_eq.
    + rewrite lookup_insert_ne by done. by rewrite lookup_empty.
  - intros Hquota. specialize (Hq Hquota). revert Hq.
    unfold withinQuota, getTotalDiskSpace. cbn.
    rewrite !getUsedDiskSpace_usedOf. cbn.
    destruct (diskSize fs) as [total |]; [| done].
    rewrite usedOf_empty. pose proof (usedOf_nonneg (disk fs)). lia.
Qed.

Lemma setTotalDiskSpace_invariant (size : num) :
  hoare (invariant quota) (setTotalDiskSpace size)
        (fun _ => invariant quota) (invariant quota).
Proof.
  intros fs [Hwf Hq]. unfold setTotalDiskSpace.
  destruct (lt_num size (getUsedDiskSpace fs)) eqn:Hlt; [done |].
  split; [split |]; cbn; try apply Hwf.
  intros _. unfold withinQuota, getTotalDiskSpace. cbn.
  destruct size as [total |]; [| done]. cbn [lt_num] in Hlt.
  apply bool_decide_eq_false in Hlt. rewrite getUsedDiskSpace_usedOf in *.
  cbn. lia.
Qed.

(** A fresh file system satisfies the invariant; the quota part asks for a
    disk size that is not negative. *)
Lemma new_invariant (diskSize : num) :
  (quota = true -> match diskSize with Fin total => 0 <= total
                                    | Infinity => True end) ->
  invariant quota (new diskSize).
Proof.
  intros Hsize. split; [split |]; cbn.
  - intros path r Hr. apply lookup_singleton_Some in Hr as [<- <-].
    rewrite lookup_singleton_eq. by eexists.
  - intros r [x Hx]. apply lookup_singleton_Some in Hx as [<- _]. lia.
  - intros r [x Hx]. by rewrite lookup_empty in Hx.
  - intros path r p size m Hr Hd. cbn in Hr, Hd.
    apply lookup_singleton_Some in Hr as [<- <-].
    by rewrite lookup_singleton_eq in Hd.
  - intros Hquota. specialize (Hsize Hquota).
    unfold withinQuota, getTotalDiskSpace. cbn.
    destruct diskSize; [| done]. by rewrite getUsedDiskSpace_usedOf.
Qed.

End FileSystemInvariant.

(** ** Programs over the file system and its handles *)

Section Reachable.
Import Utils.

Lemma hoare_snd {A} (I : FileSystem.t -> Prop) (m : M FileSystem.t A)
    (fs : FileSystem.t) :
  hoare I m (fun _ => I) I -> I fs -> I (snd (m fs)).
Proof.
  intros Hm Hfs. specialize (Hm fs Hfs).
  by destruct (m fs) as [[a | e |] fs'].
Qed.

Lemma fsUntouched_bind {A B} (m : M SyncAccessHandle.Self A)
    (k : A -> M SyncAccessHandle.Self B) :
  fsUntouched m -> (forall a, fsUntouched (k a)) -> fsUntouched (bind m k).
Proof.
  intros Hm Hk fs h. unfold bind. specialize (Hm fs h).
  destruct (m (fs, h)) as [[a | e |] [fs' h']]; cbn in *; subst; [| done..].
  apply Hk.
Qed.

Lemma fsUntouched_ret {A} (a : A) : fsUntouched (ret a).
Proof. done. Qed.

Lemma fsUntouched_throw {A} (e : Error) : fsUntouched (throw (A := A) e).
Proof. done. Qed.

Lemma fsUntouched_liftE {A} (m : Error + A) : fsUntouched (liftE m).
Proof. by destruct m. Qed.

Lemma fsUntouched_update (f : SyncAccessHandle.t -> SyncAccessHandle.t) :
  fsUntouched (SyncAccessHandle.update f).
Proof. done. Qed.

Lemma fsUntouched_this : fsUntouched SyncAccessHandle.this.
Proof. done. Qed.

Lemma fsUntouched_ensureNotClosed :
  fsUntouched SyncAccessHandle.ensureNotClosed.
Proof. intros fs h. unfold SyncAccessHandle.ensureNotClosed. cbn.
  by destruct (SyncAccessHandle.state h). Qed.

Lemma fsUntouched_getSize : fsUntouched SyncAccessHandle.getSize.
Proof.
  apply fsUntouched_bind; [apply fsUntouched_ensureNotClosed |].
  intros ?. apply fsUntouched_bind; [apply fsUntouched_this |].
  intros ?. apply fsUntouched_ret.
Qed.

Lemma fsUntouched_close : fsUntouched SyncAccessHandle.close.
Proof. intros fs h. unfold SyncAccessHandle.close. cbn.
  by destruct (SyncAccessHandle.state h). Qed.

Lemma fsUntouched_ensureHasFreeMemory (n : Z) :
  fsUntouched (SyncAccessHandle.ensureHasFreeMemory n).
Proof.
  intros fs h. rewrite ensureHasFreeMemory_spec. by destruct (gt_num _ _).
Qed.

Ltac untouched :=
  repeat first
    [ apply fsUntouched_ret | apply fsUntouched_throw
    | apply fsUntouched_liftE | apply fsUntouched_update
    | apply fsUntouched_this | apply fsUntouched_ensureNotClosed
    | apply fsUntouched_getSize | apply fsUntouched_ensureHasFreeMemory
    | apply fsUntouched_bind; [| intros ?]
    | match goal with
      | |- fsUntouched (if ?b then _ else _) => destruct b
      | |- fsUntouched (when ?b _) => destruct b; cbn [when]
      end ].

Lemma fsUntouched_read (buffer : list byte) (at_ : option Z) :
  fsUntouched (SyncAccessHandle.read buffer at_).
Proof. unfold SyncAccessHandle.read. untouched. Qed.

Lemma fsUntouched_truncate (n : Z) :
  fsUntouched (SyncAccessHandle.truncate n).
Proof. unfold SyncAccessHandle.truncate. untouched. Qed.

Lemma fsUntouched_write (buffer : list byte) (at_ : option Z) :
  fsUntouched (SyncAccessHandle.write buffer at_).
Proof. unfold SyncAccessHandle.write. untouched. Qed.

(** The constructor of a handle only reads the file system. *)
Lemma new_fs (descriptor : FileSystem.ref) (keepContent : bool)
    (fs : FileSystem.t) :
  snd (SyncAccessHandle.new descriptor keepContent fs) = fs.
Proof.
  unfold SyncAccessHandle.new. rewrite (bind_ok _ _ _ _ _ (get_eq fs)).
  unfold bind. destruct (newArrayBuffer _) as [e | b]; cbn; [done |].
  destruct keepContent; [| done].
  unfold FileSystem.readFile, bind, get.
  destruct (FileSystem.disk fs !! descriptor); cbn; [| done].
  by destruct (copyArrayBuffer _ _ _).
Qed.

Lemma flush_invariant (quota : bool) (now : Z) (fs : FileSystem.t)
    (h : SyncAccessHandle.t) :
  invariant quota fs ->
  invariant quota (fst (snd (SyncAccessHandle.flush now (fs, h)))).
Proof.
  intros Hinv. unfold SyncAccessHandle.flush, bind.
  unfold SyncAccessHandle.ensureNotClosed, bind, SyncAccessHandle.this, gets.
  cbn [snd]. destruct (SyncAccessHandle.state h); cbn; [| done].
  unfold SyncAccessHandle.onFileSystem, zoom. cbn [fst snd].
  pose proof (writeFile_invariant quota now
    (SyncAccessHandle.fileDescriptor h) (SyncAccessHandle.tempFile h) fs Hinv)
    as Hw.
  by destruct (FileSystem.writeFile _ _ _ fs) as [[a | e |] fs'].
Qed.

Lemma step_invariant (quota : bool) (op : System.Op) (s : System.state) :
  invariant quota (System.fs s) ->
  invariant quota (System.fs (System.step op s)).
Proof.
  intros Hinv.
  assert (Hhandle : forall A i (m : M SyncAccessHandle.Self A),
    fsUntouched m -> invariant quota (System.fs (System.onHandle i m s))).
  { intros A i m Hm. unfold System.onHandle.
    destruct (System.handles s !! i) as [h |]; [| done].
    cbn. by rewrite Hm. }
  destruct op; cbn [System.step]; try (unfold System.onFs; cbn [System.fs]).
  - apply hoare_snd; [apply makeDirectory_invariant | done].
  - apply hoare_snd; [apply getDirectoryDescriptor_invariant | done].
  - apply hoare_snd; [apply createFile_invariant | done].
  - apply hoare_snd; [apply getFileDescriptor_invariant | done].
  - apply hoare_snd; [apply writeFile_invariant | done].
  - apply hoare_snd; [apply removeRec_invariant | done].
  - apply hoare_snd; [apply purge_invariant | done].
  - apply hoare_snd; [apply setTotalDiskSpace_invariant | done].
  - pose proof (new_fs descriptor keepContent (System.fs s)) as Hnew.
    destruct (SyncAccessHandle.new _ _ _) as [[h | e |] fs']; cbn in *;
      by subst.
  - apply Hhandle, fsUntouched_read.
  - apply Hhandle, fsUntouched_truncate.
  - apply Hhandle, fsUntouched_write.
  - unfold System.onHandle.
    destruct (System.handles s !! handle) as [h |]; [| done].
    cbn. by apply flush_invariant.
  - apply Hhandle, fsUntouched_close.
Qed.

Lemma run_invariant (quota : bool) (ops : list System.Op) (s : System.state) :
  invariant quota (System.fs s) ->
  invariant quota (System.fs (System.run ops s)).
Proof.
  revert s. induction ops as [| op ops IH]; intros s Hinv; [done |].
  cbn. apply IH. by apply step_invariant.
Qed.

(** The size invariant for sizes that are whole numbers.  In every
    state that a program of public operations reaches from a new file
    system, when every [createFile] of the program was given a whole
    number as size or none, a registered file entry has a content-store
    buffer whose length is the entry's [size], and [getFileSize] of its
    path returns that [size].  A [createFile] with a fraction as size is
    not among the operations of [System.Op]: it leaves a descriptor whose
    [size] is the fraction beside a buffer of the whole bytes below it. *)
Theorem size_consistent_in_reachable_states
    (diskSize : num) (ops : list System.Op)
    (path : string) (r : FileSystem.ref) (p : string) (size : Z)
    (m : option Z) :
  let fs := System.fs (System.run ops (System.initial diskSize)) in
  FileSystem.registry fs !! path = Some r ->
  FileSystem.heap fs !! r = Some (FileSystem.FileDescriptor p size m) ->
  (exists buffer, FileSystem.disk fs !! r = Some buffer
                  /\ byteLength buffer = size)
  /\ FileSystem.getFileSize fs path = Some size.
Proof.
  intros fs Hr Hd.
  assert (Hinv : invariant false fs).
  { apply run_invariant. by apply new_invariant. }
  destruct Hinv as [Hwf _].
  destruct (wf_size fs Hwf path r p size m Hr Hd) as (buffer & Hb & Hlen).
  split; [by exists buffer |].
  unfold FileSystem.getFileSize, FileSystem.getDescriptor.
  rewrite Hr, Hd, Hb. cbn. by rewrite Hlen.
Qed.

Lemma size_consistent_in_reachable_states_witness :
  let ops := [System.CreateFile 0 "a/b" (Some 5); System.Open 2%nat true;
              System.Truncate 0%nat 3; System.Flush 0%nat 7] in
  let fs := System.fs (System.run ops (System.initial (Fin 16))) in
  FileSystem.getFileSize fs "a/b" = Some 3.
Proof.
  intros ops fs.
  destruct (size_consistent_in_reachable_states (Fin 16) ops "a/b" 2%nat
              "a/b" 3 (Some 7)) as [_ H].
  - reflexivity.
  - reflexivity.
  - exact H.
Defined.

(** The quota part of C1: from a new file system whose disk size is not
    negative, every state that a program of public operations reaches has
    [getUsedDiskSpace() <= getTotalDiskSpace()], whether the calls
    returned or threw. *)
Lemma within_quota_in_reachable_states (diskSize : num)
    (ops : list System.Op) :
  match diskSize with Fin total => 0 <= total | Infinity => True end ->
  withinQuota (System.fs (System.run ops (System.initial diskSize))).
Proof.
  intros Hsize.
  assert (Hinv : invariant true
            (System.fs (System.run ops (System.initial diskSize)))).
  { apply run_invariant. by apply new_invariant. }
  by apply Hinv.
Qed.

(** A [writeFile] that throws leaves the file system as it was. *)
Lemma writeFile_rejected_unchanged (now : Z) (descriptor : FileSystem.ref)
    (data : list byte) (fs fs' : FileSystem.t) (e : Error) :
  FileSystem.writeFile now descriptor data fs = (Throw e, fs') -> fs' = fs.
Proof.
  unfold FileSystem.writeFile. rewrite (bind_ok _ _ _ _ _ (get_eq fs)).
  destruct (negb _); [by intros [= _ <-] |].
  destruct (gt_num _ _); [by intros [= _ <-] | done].
Qed.

(** A [truncate] that throws leaves the handle and the file system as
    they were. *)
Lemma truncate_rejected_unchanged (n : Z) (s s' : SyncAccessHandle.Self)
    (e : Error) :
  SyncAccessHandle.truncate n s = (Throw e, s') -> s' = s.
Proof.
  destruct s as [fs h]. destruct (SyncAccessHandle.state h) eqn:Hstate.
  - destruct (decide (n < 0)) as [Hneg | Hpos].
    + unfold SyncAccessHandle.truncate.
      rewrite (bind_ok _ _ _ _ _ (ensureNotClosed_open fs h Hstate)).
      rewrite bool_decide_eq_true_2 by done. by intros [= _ <-].
    + rewrite truncate_spec by (done || lia).
      destruct (gt_num _ _); [by intros [= _ <-] | done].
  - unfold SyncAccessHandle.truncate.
    rewrite (bind_throw _ _ _ _ _ (ensureNotClosed_closed fs h Hstate)).
    by intros [= _ <-].
Qed.

(** A [createFile] that throws leaves the content store as it was. *)
Lemma createFile_rejected_disk_unchanged (now : Z) (path : string)
    (size : option Z) (fs fs' : FileSystem.t) (e : Error) :
  FileSystem.createFile now path size fs = (Throw e, fs') ->
  FileSystem.disk fs' = FileSystem.disk fs.
Proof.
  assert (Hdir : forall fuel p rec fs1,
    FileSystem.disk (snd (FileSystem.makeDirectoryRec fuel p rec fs1))
    = FileSystem.disk fs1).
  { induction fuel as [| fuel IH]; intros p rec fs1;
      cbn [FileSystem.makeDirectoryRec]; [done |].
    rewrite (bind_ok _ _ _ _ _ (get_eq fs1)).
    destruct (FileSystem.exists_ fs1 p); [done |].
    unfold bind at 1.
    assert (Hstep : forall (k : unit -> M FileSystem.t FileSystem.ref) m,
      FileSystem.disk (snd (m fs1)) = FileSystem.disk fs1 ->
      (forall fs2, FileSystem.disk (snd (k tt fs2)) = FileSystem.disk fs2) ->
      FileSystem.disk
        (snd (let '(o, s') := m fs1 in
              match o with
              | Ok a => k a s'
              | Throw e0 => (Throw e0, s')
              | Diverges => (Diverges, s')
              end)) = FileSystem.disk fs1).
    { intros k m Hm Hk. destruct (m fs1) as [[[] | e0 |] s']; cbn in *;
        [| done..]. by rewrite Hk. }
    apply Hstep.
    - destruct (Utils.dirname p) as [dirName |]; [| done].
      destruct (Utils.nonEmpty dirName); [| done].
      destruct (FileSystem.exists_ fs1 dirName); cbn [negb].
      + by destruct (FileSystem.isDirectory fs1 dirName).
      + destruct rec; cbn [negb]; [| done].
        unfold bind. specialize (IH dirName true fs1).
        by destruct (FileSystem.makeDirectoryRec fuel dirName true fs1)
          as [[a | e0 |] s'].
    - intros fs2. done. }
  unfold FileSystem.createFile. rewrite (bind_ok _ _ _ _ _ (get_eq fs)).
  destruct (FileSystem.exists_ fs path); [by intros [= _ <-] |].
  unfold bind at 1.
  set (dirStep := match Utils.dirname path with
                  | Some dirName => _ | None => _ end).
  assert (Hstep : FileSystem.disk (snd (dirStep fs)) = FileSystem.disk fs).
  { unfold dirStep. destruct (Utils.dirname path) as [dirName |]; [| done].
    destruct (_ && _); [| done].
    unfold bind, FileSystem.makeDirectory.
    specialize (Hdir (S (length (Utils.pathSegments dirName))) dirName true fs).
    by destruct (FileSystem.makeDirectoryRec _ dirName true fs)
      as [[a | e0 |] s']. }
  destruct (dirStep fs) as [[[] | e0 |] fs1]; cbn in Hstep;
    [| by intros [= _ <-] | done].
  unfold bind at 1. cbn [FileSystem.alloc].
  unfold bind at 1. unfold FileSystem.allocateFile.
  rewrite (bind_ok _ _ _ _ _ (get_eq _)).
  destruct (gt_num _ _); [by intros [= _ <-] |].
  unfold bind at 1. destruct (newArrayBuffer _) as [e1 | b]; cbn;
    [by intros [= _ <-] | done].
Qed.

(** C1: the code breaks the last part of the claim.  On a disk of 512
    bytes, [createFile("a", { size: 500 })] returns and
    [createFile("d/b", { size: 13 })] throws a [RangeError]; the used
    space stays 500, within the 512, but the rejected call has changed the
    state: the directory "d", absent before it, is registered after it. *)
Lemma quota_rejection_leaves_new_directory :
  let fs0 := FileSystem.new (Fin 512) in
  let r1 := FileSystem.createFile 0 "a" (Some 500) fs0 in
  let r2 := FileSystem.createFile 0 "d/b" (Some 13) (snd r1) in
  fst r1 = Ok 1%nat
  /\ fst r2 = Throw (RangeError "Not enough free space. Requested file size: 13 bytes; Free disk space: 12 bytes.")
  /\ FileSystem.getUsedDiskSpace (snd r1) = 500
  /\ FileSystem.getUsedDiskSpace (snd r2) = 500
  /\ FileSystem.exists_ (snd r1) "d" = false
  /\ FileSystem.isDirectory (snd r2) "d" = true
  /\ FileSystem.registry (snd r2) <> FileSystem.registry (snd r1).
Proof. vm_compute. repeat split; done. Qed.

(** C3: the code breaks the claim at both places the claim names.
    [createFile("dir/sub/big", { size: 1000 })] on a disk of 512 bytes
    throws a [RangeError] after it has registered "dir" and "dir/sub".
    [write([1], { at: 10 })] on a handle with an empty temp file, on a disk
    of 4 bytes, throws the quota error after it has zero-extended the temp
    file to 10 bytes; the cursor stays. *)
Lemma rejected_calls_leave_partial_state :
  let fs := FileSystem.new (Fin 512) in
  let r := FileSystem.createFile 0 "dir/sub/big" (Some 1000) fs in
  let small := Scenario.oneEmptyFile (Fin 4) in
  let w := SyncAccessHandle.write [Scenario.b1] (Some 10)
             (small, Scenario.freshHandle) in
  (fst r = Throw (RangeError "Not enough free space. Requested file size: 1000 bytes; Free disk space: 512 bytes.")
   /\ FileSystem.exists_ fs "dir" = false
   /\ FileSystem.exists_ fs "dir/sub" = false
   /\ FileSystem.isDirectory (snd r) "dir" = true
   /\ FileSystem.isDirectory (snd r) "dir/sub" = true
   /\ FileSystem.exists_ (snd r) "dir/sub/big" = false)
  /\ (SyncAccessHandle.new Scenario.theFile false small
        = (Ok Scenario.freshHandle, small)
      /\ fst w = Throw quotaExceeded
      /\ byteLength (SyncAccessHandle.tempFile Scenario.freshHandle) = 0
      /\ byteLength (SyncAccessHandle.tempFile (snd (snd w))) = 10
      /\ SyncAccessHandle.cursor (snd (snd w))
         = SyncAccessHandle.cursor Scenario.freshHandle).
Proof. vm_compute. repeat split; done. Qed.

End Reachable.

(** ** Permission: what the setters do *)

Section PermissionFacts.
Import Permission.

Lemma bind_Ok_inv {S A B} (m : M S A) (k : A -> M S B) (s s' : S) (b : B) :
  bind m k s = (Ok b, s') ->
  exists a s1, m s = (Ok a, s1) /\ k a s1 = (Ok b, s').
Proof.
  unfold bind. destruct (m s) as [[a | e |] s1]; [| done | done].
  intros H. by exists a, s1.
Qed.

Lemma when_Ok_inv {S} (b : bool) (m : M S unit) (s s' : S) :
  when b m s = (Ok tt, s') ->
  (b = true /\ m s = (Ok tt, s')) \/ (b = false /\ s' = s).
Proof. destruct b; cbn; [by left | intros [= <-]; by right]. Qed.

Lemma deref_Ok_inv (p : ref) (h h' : heap) (o : obj) :
  deref p h = (Ok o, h') -> h' = h /\ objects h !! p = Some o.
Proof.
  unfold deref. destruct (objects h !! p); [| done]. by intros [= <- <-].
Qed.

Lemma getRead_Ok_inv (p : ref) (h h' : heap) (x : PermissionState) :
  getRead p h = (Ok x, h') ->
  h' = h /\ exists o, objects h !! p = Some o /\ x = read o.
Proof.
  intros (o & h1 & Hd & Hret)%bind_Ok_inv.
  apply deref_Ok_inv in Hd as [-> Ho]. injection Hret as <- <-. eauto.
Qed.

Lemma getReadwrite_Ok_inv (p : ref) (h h' : heap) (x : PermissionState) :
  getReadwrite p h = (Ok x, h') ->
  h' = h /\ exists o, objects h !! p = Some o /\ x = readwrite o.
Proof.
  intros (o & h1 & Hd & Hret)%bind_Ok_inv.
  apply deref_Ok_inv in Hd as [-> Ho]. injection Hret as <- <-. eauto.
Qed.

Lemma sameSubscribers_refl (h : heap) : sameSubscribers h h.
Proof. done. Qed.

Lemma sameSubscribers_trans (h1 h2 h3 : heap) :
  sameSubscribers h1 h2 -> sameSubscribers h2 h3 -> sameSubscribers h1 h3.
Proof. intros H12 H23 q. by rewrite H23, H12. Qed.

Lemma sameSubscribers_alter (f : obj -> obj) (p : ref) (h : heap) :
  (forall o, subscribersRead (f o) = subscribersRead o
             /\ subscribersReadwrite (f o) = subscribersReadwrite o) ->
  sameSubscribers h (setObjects (alter f p) h).
Proof.
  intros Hf q. cbn. destruct (decide (p = q)) as [<- | Hne].
  - rewrite lookup_alter_eq. destruct (objects h !! p) as [o |]; [| done].
    cbn. by destruct (Hf o) as [-> ->].
  - by rewrite lookup_alter_ne.
Qed.

Lemma sameSubscribers_dispatch (status : nat) (h : heap) :
  sameSubscribers h (dispatch status h).
Proof. done. Qed.

Lemma sameSubscribers_lookup (h h' : heap) (q : ref) (o : obj) :
  sameSubscribers h h' -> objects h' !! q = Some o ->
  exists o0, objects h !! q = Some o0
             /\ subscribersRead o0 = subscribersRead o
             /\ subscribersReadwrite o0 = subscribersReadwrite o.
Proof.
  intros Hs Ho. specialize (Hs q). rewrite Ho in Hs. cbn in Hs.
  destruct (objects h !! q) as [o0 |]; [| done].
  cbn in Hs. injection Hs as H1 H2. by exists o0.
Qed.

Lemma acyclic_sameSubscribers (rank : ref -> nat) (h h' : heap) :
  sameSubscribers h h' -> acyclic rank h -> acyclic rank h'.
Proof.
  intros Hs Ha p o cb q Ho Hcb Ht.
  destruct (sameSubscribers_lookup h h' p o Hs Ho) as (o0 & Ho0 & H1 & H2).
  apply (Ha p o0 cb q Ho0); [| done].
  unfold callbacksOf in *. by rewrite H1, H2.
Qed.

Lemma afterSetReadwrite_assignRead (state : PermissionState) (o : obj) :
  state <> granted ->
  afterSetReadwrite state (assignRead state o) = afterSetRead state o.
Proof.
  intros Hs. unfold afterSetReadwrite, afterSetRead, assignRead. cbn.
  by rewrite !decide_False by done.
Qed.

Lemma assignReadwrite_afterSetRead (o : obj) :
  assignReadwrite granted (afterSetRead granted o)
  = afterSetReadwrite granted o.
Proof. done. Qed.

Lemma assignReadwrite_other (state : PermissionState) (o : obj) :
  state <> granted -> assignReadwrite state o = afterSetReadwrite state o.
Proof.
  intros Hs. unfold afterSetReadwrite, assignReadwrite.
  by rewrite decide_False by done.
Qed.

Lemma assignRead_granted (o : obj) :
  assignRead granted o = afterSetRead granted o.
Proof. done. Qed.

Section Effect.
Variable rank : ref -> nat.

(** The loop of [notify] over callbacks that all call permissions of a
    rank above [bound]. *)
Lemma forEach_effect (fuel : nat) (newState : PermissionState)
    (bound : nat) :
  (forall c h h', acyclic rank h -> exec fuel c h = (Ok tt, h') ->
                  effect rank c h h') ->
  forall (l : list Callback) (h h' : heap),
    (forall cb q, cb ∈ l -> target cb = Some q -> (bound < rank q)%nat) ->
    acyclic rank h ->
    forEach (fun cb =>
               match cb with
               | CallSetRead q => exec fuel (SetRead q newState)
               | CallSetReadwrite q => exec fuel (SetReadwrite q newState)
               | DispatchChange status => modify (dispatch status)
               end) l h = (Ok tt, h') ->
    sameSubscribers h h'
    /\ forall q, (rank q <= bound)%nat -> objects h' !! q = objects h !! q.
Proof.
  intros IH. induction l as [| cb l IHl]; intros h h' Hl Ha; cbn [forEach].
  - by intros [= <-].
  - intros ([] & h1 & Hcb & Hrest)%bind_Ok_inv.
    assert (Hstep : sameSubscribers h h1
                    /\ forall q, (rank q <= bound)%nat ->
                                 objects h1 !! q = objects h !! q).
    { destruct cb as [q | q | status].
      - destruct (IH _ _ _ Ha Hcb) as (Hs & Hframe & _).
        split; [done |]. intros q' Hq'. apply Hframe; cbn.
        + intros ->. specialize (Hl (CallSetRead q) q).
          assert (bound < rank q)%nat by (apply Hl; [left | done]). lia.
        + assert (bound < rank q)%nat
            by (apply (Hl (CallSetRead q)); [left | done]). lia.
      - destruct (IH _ _ _ Ha Hcb) as (Hs & Hframe & _).
        split; [done |]. intros q' Hq'. apply Hframe; cbn.
        + intros ->.
          assert (bound < rank q)%nat
            by (apply (Hl (CallSetReadwrite q)); [left | done]). lia.
        + assert (bound < rank q)%nat
            by (apply (Hl (CallSetReadwrite q)); [left | done]). lia.
      - injection Hcb as <-. done. }
    destruct Hstep as [Hs1 Hf1].
    destruct (IHl h1 h') as [Hs2 Hf2].
    + intros cb' q Hin. apply Hl. by right.
    + by apply (acyclic_sameSubscribers rank h).
    + done.
    + split; [by apply (sameSubscribers_trans h h1 h') |].
      intros q Hq. by rewrite Hf2, Hf1.
Qed.

Lemma exec_effect (fuel : nat) (c : Call) (h h' : heap) :
  acyclic rank h -> exec fuel c h = (Ok tt, h') -> effect rank c h h'.
Proof.
  revert c h h'. induction fuel as [| fuel IH]; intros c h h' Ha; [done |].
  destruct c as [p state | p state | p mode newState]; cbn [exec].
  - (* setRead *)
    intros (old & h0 & Hget & Hrest)%bind_Ok_inv.
    apply getRead_Ok_inv in Hget as [-> (o & Ho & ->)].
    apply bind_Ok_inv in Hrest as ([] & h1 & Hmod & Hrest).
    injection Hmod as <-.
    set (h1 := setObjects (alter (assignRead state) p) h) in *.
    assert (Hs1 : sameSubscribers h h1) by by apply sameSubscribers_alter.
    assert (Hp1 : objects h1 !! p = Some (assignRead state o))
      by (cbn; by rewrite lookup_alter_eq, Ho).
    assert (Hf1 : forall q, q <> p -> objects h1 !! q = objects h !! q)
      by (intros q Hq; cbn; by rewrite lookup_alter_ne).
    apply bind_Ok_inv in Hrest as ([] & h2 & Hnotify & Hrest).
    assert (H2 : sameSubscribers h1 h2
                 /\ (forall q, q <> p -> (rank q <= rank p)%nat ->
                               objects h2 !! q = objects h1 !! q)
                 /\ objects h2 !! p = objects h1 !! p).
    { apply when_Ok_inv in Hnotify as [[_ Hn] | [_ ->]]; [| done].
      apply IH in Hn; [| by apply (acyclic_sameSubscribers rank h)].
      exact Hn. }
    destruct H2 as (Hs2 & Hf2 & Hp2).
    apply when_Ok_inv in Hrest as [[Hng Hw] | [Hg ->]].
    + apply IH in Hw as (Hs3 & Hf3 & o2 & Ho2 & Hp3).
      2:{ apply (acyclic_sameSubscribers rank h1); [done |].
          by apply (acyclic_sameSubscribers rank h). }
      apply negb_true_iff, bool_decide_eq_false in Hng.
      split; [| split].
      * apply (sameSubscribers_trans h h2 h'); [| done].
        by apply (sameSubscribers_trans h h1 h2).
      * intros q Hq Hr. cbn in *. by rewrite Hf3, Hf2, Hf1.
      * exists o. split; [done |]. rewrite Hp3.
        rewrite Hp2, Hp1 in Ho2. injection Ho2 as <-.
        by rewrite afterSetReadwrite_assignRead.
    + apply negb_false_iff, bool_decide_eq_true in Hg. subst state.
      split; [| split].
      * by apply (sameSubscribers_trans h h1 h2).
      * intros q Hq Hr. cbn in *. by rewrite Hf2, Hf1.
      * exists o. split; [done |]. by rewrite Hp2, Hp1.
  - (* setReadwrite *)
    intros ([] & h1 & Hfirst & Hrest)%bind_Ok_inv.
    assert (H1 : sameSubscribers h h1
                 /\ (forall q, q <> p -> (rank q <= rank p)%nat ->
                               objects h1 !! q = objects h !! q)
                 /\ forall o1, objects h1 !! p = Some o1 ->
                      exists o, objects h !! p = Some o
                        /\ assignReadwrite state o1
                           = afterSetReadwrite state o).
    { apply when_Ok_inv in Hfirst as [[Hg Hw] | [Hng ->]].
      - apply bool_decide_eq_true in Hg. subst state.
        apply IH in Hw as (Hs & Hf & o & Ho & Hp); [| done].
        split; [done |]. split; [done |].
        intros o1 Ho1. exists o. split; [done |].
        rewrite Hp in Ho1. injection Ho1 as <-.
        apply assignReadwrite_afterSetRead.
      - apply bool_decide_eq_false in Hng.
        split; [done |]. split; [done |].
        intros o1 Ho1. exists o1. split; [done |].
        by apply assignReadwrite_other. }
    destruct H1 as (Hs1 & Hf1 & Hp1).
    apply bind_Ok_inv in Hrest as (old & h0 & Hget & Hrest).
    apply getReadwrite_Ok_inv in Hget as [-> (o1 & Ho1 & ->)].
    apply bind_Ok_inv in Hrest as ([] & h2 & Hmod & Hnotify).
    injection Hmod as <-.
    set (h2 := setObjects (alter (assignReadwrite state) p) h1) in *.
    assert (Hs2 : sameSubscribers h1 h2) by by apply sameSubscribers_alter.
    assert (Hp2 : objects h2 !! p = Some (assignReadwrite state o1))
      by (cbn; by rewrite lookup_alter_eq, Ho1).
    assert (Hf2 : forall q, q <> p -> objects h2 !! q = objects h1 !! q)
      by (intros q Hq; cbn; by rewrite lookup_alter_ne).
    assert (H3 : sameSubscribers h2 h'
                 /\ (forall q, q <> p -> (rank q <= rank p)%nat ->
                               objects h' !! q = objects h2 !! q)
                 /\ objects h' !! p = objects h2 !! p).
    { apply when_Ok_inv in Hnotify as [[_ Hn] | [_ ->]]; [| done].
      apply IH in Hn; [exact Hn |].
      apply (acyclic_sameSubscribers rank h1); [done |].
      by apply (acyclic_sameSubscribers rank h). }
    destruct H3 as (Hs3 & Hf3 & Hp3).
    destruct (Hp1 o1 Ho1) as (o & Ho & Heq).
    split; [| split].
    + apply (sameSubscribers_trans h h2 h'); [| done].
      by apply (sameSubscribers_trans h h1 h2).
    + intros q Hq Hr. cbn in *. by rewrite Hf3, Hf2, Hf1.
    + exists o. split; [done |]. by rewrite Hp3, Hp2, Heq.
  - (* notify *)
    intros (o & h0 & Hd & Hloop)%bind_Ok_inv.
    apply deref_Ok_inv in Hd as [-> Ho].
    destruct (forEach_effect fuel newState (rank p) IH
                (subscribers mode o) h h') as [Hs Hf]; [| done | done |].
    + intros cb q Hin Ht. apply (Ha p o cb q Ho); [| done].
      unfold callbacksOf. apply elem_of_app.
      destruct mode; [by left | by right].
    + split; [done |]. split.
      * intros q _ Hr. by apply Hf.
      * by apply Hf.
Qed.

Lemma closedBelow_sameSubscribers (top : nat) (h h' : heap) :
  sameSubscribers h h' -> closedBelow rank top h -> closedBelow rank top h'.
Proof.
  intros Hs Hc p o Ho.
  destruct (sameSubscribers_lookup h h' p o Hs Ho) as (o0 & Ho0 & H1 & H2).
  destruct (Hc p o0 Ho0) as [Hr Ht]. split; [done |].
  intros cb q Hcb Hq.
  assert (Hin : is_Some (objects h !! q)).
  { apply (Ht cb q); [| done]. unfold callbacksOf in *. by rewrite H1, H2. }
  specialize (Hs q). destruct Hin as [oq Hoq]. rewrite Hoq in Hs.
  destruct (objects h' !! q); [by eexists | done].
Qed.

Lemma sameSubscribers_is_Some (h h' : heap) (q : ref) :
  sameSubscribers h h' -> is_Some (objects h !! q) ->
  is_Some (objects h' !! q).
Proof.
  intros Hs [o Ho]. specialize (Hs q). rewrite Ho in Hs.
  destruct (objects h' !! q); [by eexists | done].
Qed.

(** With enough fuel a call on an existing permission returns. *)
Lemma exec_returns (top fuel : nat) (c : Call) (h : heap) :
  acyclic rank h -> closedBelow rank top h ->
  is_Some (objects h !! callee c) -> (enough rank top c <= fuel)%nat ->
  exists h', exec fuel c h = (Ok tt, h').
Proof.
  revert c h. induction fuel as [| fuel IH]; intros c h Ha Hc [o Ho] Hfuel.
  { destruct c; unfold enough in Hfuel; repeat case_decide; lia. }
  destruct c as [p state | p state | p mode newState];
    cbn [exec callee] in *; unfold enough in Hfuel; cbn [callee] in Hfuel.
  - (* setRead *)
    assert (Hget : getRead p h = (Ok (read o), h)).
    { unfold getRead. by rewrite (bind_ok _ _ h h o) by (unfold deref; by rewrite Ho). }
    rewrite (bind_ok _ _ _ _ _ Hget).
    set (h1 := setObjects (alter (assignRead state) p) h).
    rewrite (bind_ok _ _ h h1 tt) by done.
    assert (Hs1 : sameSubscribers h h1) by by apply sameSubscribers_alter.
    assert (Ha1 : acyclic rank h1) by by apply (acyclic_sameSubscribers rank h).
    assert (Hc1 : closedBelow rank top h1)
      by by apply (closedBelow_sameSubscribers top h).
    assert (Hp1 : is_Some (objects h1 !! p))
      by (apply (sameSubscribers_is_Some h); [done | by eexists]).
    assert (Hn : exists h2,
      when (negb (bool_decide (read o = state)))
           (exec fuel (Notify p ModeRead state)) h1 = (Ok tt, h2)
      /\ sameSubscribers h1 h2).
    { destruct (negb _); cbn [when]; [| by exists h1].
      destruct (IH (Notify p ModeRead state) h1 Ha1 Hc1 Hp1) as [h2 H2].
      - unfold enough. cbn [callee]. case_decide; lia.
      - exists h2. split; [done |]. by apply (exec_effect _ _ _ _ Ha1 H2). }
    destruct Hn as (h2 & Hn & Hs2). rewrite (bind_ok _ _ _ _ _ Hn).
    destruct (negb (bool_decide (state = granted))) eqn:Hg; cbn [when];
      [| by eexists].
    apply IH.
    + by apply (acyclic_sameSubscribers rank h1).
    + by apply (closedBelow_sameSubscribers top h1).
    + by apply (sameSubscribers_is_Some h1).
    + unfold enough. cbn [callee].
      apply negb_true_iff, bool_decide_eq_false in Hg.
      rewrite !decide_False in * by done. lia.
  - (* setReadwrite *)
    assert (H1 : exists h1,
      when (bool_decide (state = granted)) (exec fuel (SetRead p state)) h
        = (Ok tt, h1) /\ sameSubscribers h h1).
    { destruct (bool_decide (state = granted)) eqn:Hg; cbn [when];
        [| by exists h].
      apply bool_decide_eq_true in Hg. subst state.
      destruct (IH (SetRead p granted) h Ha Hc) as [h1 H1].
      - by eexists.
      - unfold enough. cbn [callee]. rewrite !decide_True in * by done. lia.
      - exists h1. split; [done |]. by apply (exec_effect _ _ _ _ Ha H1). }
    destruct H1 as (h1 & H1 & Hs1). rewrite (bind_ok _ _ _ _ _ H1).
    assert (Ha1 : acyclic rank h1) by by apply (acyclic_sameSubscribers rank h).
    assert (Hc1 : closedBelow rank top h1)
      by by apply (closedBelow_sameSubscribers top h).
    destruct (sameSubscribers_is_Some h h1 p Hs1 (mk_is_Some _ _ Ho))
      as [o1 Ho1].
    assert (Hget : getReadwrite p h1 = (Ok (readwrite o1), h1)).
    { unfold getReadwrite.
      by rewrite (bind_ok _ _ h1 h1 o1) by (unfold deref; by rewrite Ho1). }
    rewrite (bind_ok _ _ _ _ _ Hget).
    set (h2 := setObjects (alter (assignReadwrite state) p) h1).
    rewrite (bind_ok _ _ h1 h2 tt) by done.
    assert (Hs2 : sameSubscribers h1 h2) by by apply sameSubscribers_alter.
    destruct (negb _); cbn [when]; [| by eexists].
    apply IH.
    + by apply (acyclic_sameSubscribers rank h1).
    + by apply (closedBelow_sameSubscribers top h1).
    + apply (sameSubscribers_is_Some h1); [done | by eexists].
    + unfold enough. cbn [callee]. case_decide; lia.
  - (* notify *)
    rewrite (bind_ok _ _ h h o) by (unfold deref; by rewrite Ho).
    assert (Hlist : forall cb q, cb ∈ subscribers mode o ->
      target cb = Some q ->
      (rank p < rank q)%nat /\ (rank q <= top)%nat).
    { intros cb q Hin Ht.
      assert (Hcb : cb ∈ callbacksOf o).
      { unfold callbacksOf. apply elem_of_app.
        destruct mode; [by left | by right]. }
      split; [by apply (Ha p o cb q) |].
      destruct (Hc p o Ho) as [_ Hex].
      destruct (Hex cb q Hcb Ht) as [oq Hoq].
      by destruct (Hc q oq Hoq). }
    assert (Hex : forall cb q, cb ∈ subscribers mode o ->
      target cb = Some q -> is_Some (objects h !! q)).
    { intros cb q Hin Ht. destruct (Hc p o Ho) as [_ Hex].
      apply (Hex cb q); [| done]. unfold callbacksOf. apply elem_of_app.
      destruct mode; [by left | by right]. }
    clear Ho. revert h Ha Hc Hex.
    induction (subscribers mode o) as [| cb l IHl]; intros h Ha Hc Hex;
      cbn [forEach]; [by eexists |].
    assert (Hstep : exists h1,
      match cb with
      | CallSetRead q => exec fuel (SetRead q newState)
      | CallSetReadwrite q => exec fuel (SetReadwrite q newState)
      | DispatchChange status => modify (dispatch status)
      end h = (Ok tt, h1) /\ sameSubscribers h h1).
    { destruct cb as [q | q | status].
      - destruct (Hlist (CallSetRead q) q) as [Hlt Hle]; [by left | done |].
        destruct (IH (SetRead q newState) h Ha Hc) as [h1 H1].
        + apply (Hex (CallSetRead q)); [by left | done].
        + unfold enough. cbn [callee]. case_decide; lia.
        + exists h1. split; [done |]. by apply (exec_effect _ _ _ _ Ha H1).
      - destruct (Hlist (CallSetReadwrite q) q) as [Hlt Hle];
          [by left | done |].
        destruct (IH (SetReadwrite q newState) h Ha Hc) as [h1 H1].
        + apply (Hex (CallSetReadwrite q)); [by left | done].
        + unfold enough. cbn [callee]. case_decide; lia.
        + exists h1. split; [done |]. by apply (exec_effect _ _ _ _ Ha H1).
      - by eexists. }
    destruct Hstep as (h1 & Hstep & Hs1). rewrite (bind_ok _ _ _ _ _ Hstep).
    apply IHl.
    + intros cb' q Hin. apply Hlist. by right.
    + by apply (acyclic_sameSubscribers rank h).
    + by apply (closedBelow_sameSubscribers top h).
    + intros cb' q Hin Ht. apply (sameSubscribers_is_Some h); [done |].
      apply (Hex cb' q); [by right | done].
Qed.

(** One [set] call on an existing permission, with enough fuel. *)
Lemma set_step (top fuel : nat) (p : ref) (o : obj)
    (mode : FileSystemPermissionMode) (state : PermissionState) (h : heap) :
  acyclic rank h -> closedBelow rank top h -> objects h !! p = Some o ->
  (3 * (top - rank p) + 3 <= fuel)%nat ->
  exists h', set fuel p mode state h = (Ok tt, h')
             /\ sameSubscribers h h'
             /\ objects h' !! p = Some (afterSet mode state o).
Proof.
  intros Ha Hc Ho Hfuel.
  destruct mode; cbn [set afterSet]; unfold setRead, setReadwrite.
  - destruct (exec_returns top fuel (SetRead p state) h Ha Hc) as [h' H'].
    + by eexists.
    + unfold enough. cbn [callee]. case_decide; lia.
    + exists h'. split; [done |].
      destruct (exec_effect _ _ _ _ Ha H') as (Hs & _ & o0 & Ho0 & Hp).
      split; [done |]. congruence.
  - destruct (exec_returns top fuel (SetReadwrite p state) h Ha Hc)
      as [h' H'].
    + by eexists.
    + unfold enough. cbn [callee]. case_decide; lia.
    + exists h'. split; [done |].
      destruct (exec_effect _ _ _ _ Ha H') as (Hs & _ & o0 & Ho0 & Hp).
      split; [done |]. congruence.
Qed.

End Effect.

Lemma coupled_afterSet (mode : FileSystemPermissionMode)
    (state : PermissionState) (o : obj) :
  coupled (afterSet mode state o).
Proof.
  unfold coupled. destruct mode; cbn; case_decide; congruence.
Qed.

Lemma forEach_snoc {S A} (f : A -> M S unit) (l : list A) (x : A) (s : S) :
  forEach f (l ++ [x]) s = bind (forEach f l) (fun _ => f x) s.
Proof.
  revert s. induction l as [| y l IH]; intros s; cbn [forEach app].
  - unfold bind, ret. cbv beta iota.
    by destruct (f x s) as [[[] | e |] s'].
  - unfold bind. cbv beta.
    destruct (f y s) as [[[] | e |] s']; [| done..].
    by rewrite IH.
Qed.

(** C2, as the code has it.  Take a permission whose subscriptions lead
    only to other permissions (no callback comes back to it), and fuel for
    the depth of its subscribers.  Any sequence of [set] calls on it
    returns, and afterwards: if at least one call was made, or the values
    were coupled before, [readwrite = granted] implies [read = granted];
    and if the last call was [setRead(state)] with [state] other than
    granted, then [read] and [readwrite] both equal [state]. *)
Theorem permission_coupling (rank : ref -> nat) (top fuel : nat)
    (p : ref) (o : obj)
    (calls : list (FileSystemPermissionMode * PermissionState))
    (h : heap) :
  acyclic rank h -> closedBelow rank top h -> objects h !! p = Some o ->
  (3 * (top - rank p) + 3 <= fuel)%nat ->
  exists h' o',
    setAll fuel p calls h = (Ok tt, h')
    /\ objects h' !! p = Some o'
    /\ (calls <> [] \/ coupled o -> coupled o')
    /\ (forall state,
          last calls = Some (ModeRead, state) -> state <> granted ->
          read o' = state /\ readwrite o' = state).
Proof.
  intros Ha Hc Ho Hfuel. unfold setAll.
  assert (Hrun : exists h' o',
    forEach (fun c => set fuel p c.1 c.2) calls h = (Ok tt, h')
    /\ sameSubscribers h h' /\ objects h' !! p = Some o'
    /\ (calls = [] -> o' = o)
    /\ (forall l mode state, calls = l ++ [(mode, state)] ->
          exists o1, o' = afterSet mode state o1)).
  { revert h o Ha Hc Ho.
    induction calls as [| [mode state] l IH] using rev_ind;
      intros h o Ha Hc Ho.
    - exists h, o. repeat split; try done. by intros [| ? ?] ? ? ?.
    - destruct (IH h o Ha Hc Ho) as (h1 & o1 & Hl & Hs1 & Ho1 & _).
      destruct (set_step rank top fuel p o1 mode state h1)
        as (h' & Hset & Hs2 & Hp); try done.
      + by apply (acyclic_sameSubscribers rank h).
      + by apply (closedBelow_sameSubscribers rank top h).
      + exists h', (afterSet mode state o1). rewrite forEach_snoc.
        rewrite (bind_ok _ _ _ _ _ Hl). cbn [fst snd].
        repeat split; try done.
        * by apply (sameSubscribers_trans h h1 h').
        * by intros ?%app_eq_nil%proj2.
        * intros l' mode' state' [_ [= <- <-]]%app_inj_tail. by exists o1. }
  destruct Hrun as (h' & o' & Hrun & _ & Ho' & Hnil & Hlast).
  exists h', o'. split; [done |]. split; [done |]. split.
  - intros Hcoupled.
    destruct calls as [| c l _] using rev_ind.
    + rewrite (Hnil eq_refl). by destruct Hcoupled.
    + destruct c as [mode state].
      destruct (Hlast l mode state eq_refl) as [o1 ->].
      apply coupled_afterSet.
  - intros state Hl Hs.
    apply last_Some in Hl as [l ->].
    destruct (Hlast l ModeRead state eq_refl) as [o1 ->].
    cbn. by rewrite decide_False.
Qed.

Lemma permission_coupling_witness :
  let h := snd (subscribe 0%nat ModeReadwrite (DispatchChange 0)
                  (snd (new prompt prompt emptyHeap))) in
  exists h' o',
    setAll 3 0%nat [(ModeReadwrite, granted); (ModeRead, denied)] h
      = (Ok tt, h')
    /\ objects h' !! 0%nat = Some o'
    /\ read o' = denied /\ readwrite o' = denied.
Proof.
  intros h.
  destruct (permission_coupling (fun _ => 0%nat) 0 3 0%nat
              {| read := prompt; readwrite := prompt; subscribersRead := [];
                 subscribersReadwrite := [DispatchChange 0] |}
              [(ModeReadwrite, granted); (ModeRead, denied)] h)
    as (h' & o' & Hrun & Ho' & _ & Hlast).
  - intros q oq cb q' Hq Hcb Ht.
    change (objects h) with
      ({[ 0%nat := {| read := prompt; readwrite := prompt;
                      subscribersRead := [];
                      subscribersReadwrite := [DispatchChange 0] |} ]}
       : gmap ref obj) in Hq.
    apply lookup_singleton_Some in Hq as [<- <-].
    apply list_elem_of_In in Hcb. cbn in Hcb.
    destruct Hcb as [<- | []]. done.
  - intros q oq Hq. split; [lia |]. intros cb q' Hcb Ht.
    change (objects h) with
      ({[ 0%nat := {| read := prompt; readwrite := prompt;
                      subscribersRead := [];
                      subscribersReadwrite := [DispatchChange 0] |} ]}
       : gmap ref obj) in Hq.
    apply lookup_singleton_Some in Hq as [<- <-].
    apply list_elem_of_In in Hcb. cbn in Hcb.
    destruct Hcb as [<- | []]. done.
  - reflexivity.
  - simpl. lia.
  - exists h', o'. split; [exact Hrun |]. split; [exact Ho' |].
    by apply Hlast.
Defined.

(** C2 as the spec has it fails in its second half: [read] other than
    granted does not force [readwrite] to equal [read].  On a permission
    built with the default values, [setReadwrite("denied")] leaves [read]
    at prompt and [readwrite] at denied. *)
Lemma readwrite_can_differ_from_ungranted_read :
  let h := snd (new prompt prompt emptyHeap) in
  let r := setReadwrite 3 0%nat denied h in
  fst r = Ok tt
  /\ exists o, objects (snd r) !! 0%nat = Some o
               /\ read o = prompt /\ readwrite o = denied
               /\ ~ (read o <> granted -> readwrite o = read o).
Proof.
  vm_compute. split; [done |]. eexists. split; [done |].
  split; [done |]. split; [done |]. intros H.
  by discriminate H.
Qed.

End PermissionFacts.

(** ** WritableFileStreamSink *)

Section SinkClaims.
Import WritableFileStreamSink.

Lemma ensureNotInErrorState_ok (w : PermissionsManager.World) (k : t) :
  error k = None -> ensureNotInErrorState (w, k) = (Ok tt, (w, k)).
Proof. intros He. unfold ensureNotInErrorState, bind, this, gets. cbn.
  by rewrite He. Qed.


Lemma ensureNotClosed_ok (message : string) (w : PermissionsManager.World)
    (k : t) :
  isClosed k = false -> ensureNotClosed message (w, k) = (Ok tt, (w, k)).
Proof. intros Hc. unfold ensureNotClosed, bind, this, gets. cbn.
  by rewrite Hc. Qed.




Lemma onHandle_eq {A} (m : M SyncAccessHandle.Self A)
    (w : PermissionsManager.World) (k : t) :
  onHandle m (w, k) =
    let r := m (PermissionsManager.fileSystem w, syncAccessHandle k) in
    (fst r,
     ({| PermissionsManager.fileSystem := fst (snd r);
         PermissionsManager.manager := PermissionsManager.manager w |},
      setHandle (snd (snd r)) k)).
Proof.
  unfold onHandle, zoom. cbn [fst snd].
  by destruct (m _) as [o [fs h]].
Qed.







(** [write] returns the promise of [doWrite] without awaiting it, so what
    [doWrite] throws passes the [catch] clause and the sink does not store
    it; this looks like an oversight of the code rather than its design.
    On a disk of 4 bytes a write of 5 bytes throws the quota error; the
    sink is not in error state afterwards, and the next [write] returns. *)
Lemma error_of_doWrite_is_not_stored :
  let w := Scenario.grantedWorld (Fin 4) in
  let r1 := write (Bare (DataBufferSource (replicate 5 Scenario.b1)))
                  (w, Scenario.freshSink) in
  fst r1 = Throw quotaExceeded
  /\ error (snd (snd r1)) = None
  /\ fst (write (Scenario.seek (Some (ArgNumber 1))) (snd r1)) = Ok tt.
Proof. vm_compute. repeat split; done. Qed.

End SinkClaims.

(** ** Paths: the parent of a path has one segment less *)

Section Paths.
Import Utils.

Lemma split_separatorFree (s : string) :
  separatorFree s = true -> split s = [s].
Proof.
  induction s as [| c s IH]; cbn [split separatorFree]; [done |].
  intros [Hc Hs]%andb_true_iff. apply negb_true_iff in Hc.
  by rewrite Hc, IH.
Qed.

Lemma split_app_slash (s t : string) :
  separatorFree s = true -> split (s +:+ "/" +:+ t) = s :: split t.
Proof.
  induction s as [| c s IH]; [done |].
  change (String c s +:+ "/" +:+ t) with (String c (s +:+ "/" +:+ t)).
  cbn [split separatorFree].
  intros [Hc Hs]%andb_true_iff. apply negb_true_iff in Hc.
  by rewrite Hc, IH.
Qed.

Lemma split_join (l : list string) :
  l <> [] -> Forall (fun s => separatorFree s = true) l ->
  split (join l) = l.
Proof.
  induction l as [| s l IH]; [done |]. intros _ Hall.
  apply Forall_cons in Hall as [Hs Hl].
  destruct l as [| s' l]; cbn [join].
  - by apply split_separatorFree.
  - rewrite split_app_slash by done. f_equal. by apply IH.
Qed.

Lemma split_segments (p : string) :
  Forall (fun s => separatorFree s = true) (split p).
Proof.
  induction p as [| c p IH]; cbn [split].
  - by repeat constructor.
  - destruct (isSeparator c) eqn:Hc.
    + by constructor.
    + destruct (split p) as [| seg segs].
      * repeat constructor. cbn [separatorFree]. by rewrite Hc.
      * apply Forall_cons in IH as [Hseg Hsegs]. constructor; [| done].
        cbn [separatorFree]. by rewrite Hc.
Qed.

Lemma Forall_removelast {A} (P : A -> Prop) (l : list A) :
  Forall P l -> Forall P (removelast l).
Proof.
  induction 1 as [| x l Hx Hl IH]; cbn; [done |].
  destruct l; [done |]. by constructor.
Qed.

Lemma filter_all {A} (f : A -> bool) (l : list A) :
  Forall (fun x => f x = true) l -> List.filter f l = l.
Proof.
  induction 1 as [| x l Hx Hl IH]; cbn; [done |]. by rewrite Hx, IH.
Qed.

Lemma Forall_filter_true {A} (f : A -> bool) (l : list A) :
  Forall (fun x => f x = true) (List.filter f l).
Proof.
  induction l as [| x l IH]; cbn; [done |].
  destruct (f x) eqn:Hx; [by constructor | done].
Qed.

Lemma Forall_filter_keeps {A} (P : A -> Prop) (f : A -> bool) (l : list A) :
  Forall P l -> Forall P (List.filter f l).
Proof.
  induction 1 as [| x l Hx Hl IH]; cbn; [done |].
  destruct (f x); [by constructor | done].
Qed.

(** The segments of [dirname(path)] are those of [path] without the
    last. *)
Lemma pathSegments_dirname (path parent : string) :
  dirname path = Some parent ->
  pathSegments parent = removelast (pathSegments path).
Proof.
  unfold dirname. destruct (pathSegments path) as [| s l] eqn:Hsegs; [done |].
  intros Heq.
  assert (parent = join (removelast (s :: l))) as -> by congruence.
  clear Heq.
  assert (Hfree : Forall (fun s => separatorFree s = true) (s :: l)).
  { rewrite <- Hsegs. unfold pathSegments. apply Forall_filter_keeps,
      split_segments. }
  assert (Hne : Forall (fun s => nonEmpty s = true) (s :: l)).
  { rewrite <- Hsegs. unfold pathSegments. apply Forall_filter_true. }
  remember (removelast (s :: l)) as rl eqn:Hrl.
  destruct rl as [| s' l']; [done |].
  unfold pathSegments. rewrite split_join.
  - apply filter_all. rewrite Hrl. by apply Forall_removelast.
  - done.
  - rewrite Hrl. by apply Forall_removelast.
Qed.

Lemma length_dirname (path parent : string) :
  dirname path = Some parent ->
  S (length (pathSegments parent)) = length (pathSegments path).
Proof.
  intros Hd. rewrite (pathSegments_dirname _ _ Hd).
  unfold dirname in Hd.
  destruct (pathSegments path) as [| s l]; [done |].
  rewrite removelast_firstn_len, length_take. cbn [length]. lia.
Qed.

(** [makeDirectory] returns or throws: the fuel it is given covers the
    recursion. *)
Lemma makeDirectoryRec_total (fuel : nat) (path : string)
    (recursive : bool) (fs : FileSystem.t) :
  (length (pathSegments path) < fuel)%nat ->
  fst (FileSystem.makeDirectoryRec fuel path recursive fs) <> Diverges.
Proof.
  revert path fs. induction fuel as [| fuel IH]; intros path fs Hfuel; [lia |].
  cbn [FileSystem.makeDirectoryRec].
  rewrite (bind_ok _ _ _ _ _ (get_eq fs)).
  destruct (FileSystem.exists_ fs path); [done |].
  unfold bind at 1.
  destruct (dirname path) as [dirName |] eqn:Hd; [| done].
  destruct (nonEmpty dirName); [| done].
  destruct (FileSystem.exists_ fs dirName); cbn [negb].
  - by destruct (FileSystem.isDirectory fs dirName).
  - destruct recursive; cbn [negb]; [| done].
    unfold bind at 1.
    specialize (IH dirName fs). pose proof (length_dirname _ _ Hd).
    destruct (FileSystem.makeDirectoryRec fuel dirName true fs)
      as [[a | e |] fs1]; cbn in *; [done | done |].
    exfalso. apply IH; [lia | done].
Qed.

Lemma makeDirectory_total (path : string) (recursive : bool)
    (fs : FileSystem.t) :
  fst (FileSystem.makeDirectory path recursive fs) <> Diverges.
Proof. apply makeDirectoryRec_total. lia. Qed.

End Paths.

(** ** Permission: a setter called on a permission without subscribers *)

Section Leaf.
Import Permission.

Lemma notify_leaf (fuel : nat) (r : ref) (o : obj)
    (mode : FileSystemPermissionMode) (state : PermissionState) (h : heap) :
  objects h !! r = Some o -> isLeaf o ->
  exec (S fuel) (Notify r mode state) h = (Ok tt, h).
Proof.
  intros Ho [Hr Hw]. cbn [exec].
  rewrite (bind_ok _ _ h h o) by (unfold deref; by rewrite Ho).
  destruct mode; cbn [subscribers]; by rewrite ?Hr, ?Hw.
Qed.

Lemma when_notify_leaf (b : bool) (fuel : nat) (r : ref) (o : obj)
    (mode : FileSystemPermissionMode) (state : PermissionState) (h : heap) :
  objects h !! r = Some o -> isLeaf o ->
  when b (exec (S fuel) (Notify r mode state)) h = (Ok tt, h).
Proof.
  intros Ho Hl. destruct b; cbn [when]; [| done]. by apply (notify_leaf _ _ o).
Qed.

Lemma exec_SetRead (fuel : nat) (p : ref) (state : PermissionState) :
  exec (S fuel) (SetRead p state) =
    (oldState <- getRead p ;;
     modify (setObjects (alter (assignRead state) p)) ;;
     when (negb (bool_decide (oldState = state)))
          (exec fuel (Notify p ModeRead state)) ;;
     when (negb (bool_decide (state = granted)))
          (exec fuel (SetReadwrite p state)))%M.
Proof. reflexivity. Qed.

Lemma exec_SetReadwrite (fuel : nat) (p : ref) (state : PermissionState) :
  exec (S fuel) (SetReadwrite p state) =
    (when (bool_decide (state = granted)) (exec fuel (SetRead p state)) ;;
     oldState <- getReadwrite p ;;
     modify (setObjects (alter (assignReadwrite state) p)) ;;
     when (negb (bool_decide (oldState = state)))
          (exec fuel (Notify p ModeReadwrite state)))%M.
Proof. reflexivity. Qed.

Lemma getRead_eq (r : ref) (o : obj) (h : heap) :
  objects h !! r = Some o -> getRead r h = (Ok (read o), h).
Proof.
  intros Ho. unfold getRead.
  by rewrite (bind_ok _ _ h h o) by (unfold deref; by rewrite Ho).
Qed.

Lemma getReadwrite_eq (r : ref) (o : obj) (h : heap) :
  objects h !! r = Some o -> getReadwrite r h = (Ok (readwrite o), h).
Proof.
  intros Ho. unfold getReadwrite.
  by rewrite (bind_ok _ _ h h o) by (unfold deref; by rewrite Ho).
Qed.

Lemma alter_lookup_insert (f : obj -> obj) (r : ref) (o : obj)
    (m : gmap ref obj) :
  m !! r = Some o -> alter f r m = <[r := f o]> m.
Proof.
  intros Ho. apply map_eq. intros q.
  destruct (decide (r = q)) as [<- | Hne].
  - by rewrite lookup_alter_eq, lookup_insert_eq, Ho.
  - by rewrite lookup_alter_ne, lookup_insert_ne.
Qed.

Lemma setReadwrite_leaf_other (fuel : nat) (r : ref) (o : obj)
    (state : PermissionState) (h : heap) :
  objects h !! r = Some o -> isLeaf o -> state <> granted ->
  exists h', exec (S (S fuel)) (SetReadwrite r state) h = (Ok tt, h')
             /\ leafResult r (afterSetReadwrite state o) h h'.
Proof.
  intros Ho Hl Hs. rewrite exec_SetReadwrite.
  rewrite bool_decide_eq_false_2 by done. cbn [when].
  rewrite (bind_ok _ _ h h tt) by done.
  rewrite (bind_ok _ _ _ _ _ (getReadwrite_eq r o h Ho)).
  set (h1 := setObjects (alter (assignReadwrite state) r) h).
  rewrite (bind_ok _ _ h h1 tt) by done.
  exists h1. split.
  - apply (when_notify_leaf _ _ _ (assignReadwrite state o)); [| done].
    cbn. by rewrite lookup_alter_eq, Ho.
  - split; [| done]. cbn. rewrite (alter_lookup_insert _ _ o) by done.
    by rewrite assignReadwrite_other.
Qed.

Lemma setRead_leaf (fuel : nat) (r : ref) (o : obj)
    (state : PermissionState) (h : heap) :
  objects h !! r = Some o -> isLeaf o ->
  exists h', exec (S (S (S fuel))) (SetRead r state) h = (Ok tt, h')
             /\ leafResult r (afterSetRead state o) h h'.
Proof.
  intros Ho Hl. rewrite exec_SetRead.
  rewrite (bind_ok _ _ _ _ _ (getRead_eq r o h Ho)).
  set (h1 := setObjects (alter (assignRead state) r) h).
  rewrite (bind_ok _ _ h h1 tt) by done.
  assert (Ho1 : objects h1 !! r = Some (assignRead state o))
    by (cbn; by rewrite lookup_alter_eq, Ho).
  rewrite (bind_ok _ _ h1 h1 tt)
    by (by apply (when_notify_leaf _ _ _ (assignRead state o))).
  destruct (decide (state = granted)) as [-> | Hs].
  - exists h1. split; [done |]. split; [| done]. cbn.
    by rewrite (alter_lookup_insert _ _ o).
  - rewrite bool_decide_eq_false_2 by done. cbn [negb when].
    destruct (setReadwrite_leaf_other fuel r (assignRead state o) state h1)
      as (h' & Hexec & Hobj & Hn & Hd); [done | done | done |].
    exists h'. split; [done |]. split; [| by rewrite Hn, Hd].
    rewrite Hobj. cbn.
    rewrite (alter_lookup_insert (assignRead state) r o (objects h) Ho).
    rewrite insert_insert_eq. by rewrite afterSetReadwrite_assignRead.
Qed.

Lemma setReadwrite_leaf (fuel : nat) (r : ref) (o : obj)
    (state : PermissionState) (h : heap) :
  objects h !! r = Some o -> isLeaf o ->
  exists h', exec (S (S (S fuel))) (SetReadwrite r state) h = (Ok tt, h')
             /\ leafResult r (afterSetReadwrite state o) h h'.
Proof.
  intros Ho Hl.
  destruct (decide (state = granted)) as [-> | Hs];
    [| by apply setReadwrite_leaf_other].
  rewrite exec_SetReadwrite. rewrite bool_decide_eq_true_2 by done.
  cbn [when].
  (* the nested setRead("granted") *)
  set (h1 := setObjects (alter (assignRead granted) r) h).
  assert (Ho1 : objects h1 !! r = Some (assignRead granted o))
    by (cbn; by rewrite lookup_alter_eq, Ho).
  assert (Hnested : exec (S (S fuel)) (SetRead r granted) h = (Ok tt, h1)).
  { rewrite exec_SetRead.
    rewrite (bind_ok _ _ _ _ _ (getRead_eq r o h Ho)).
    fold h1. rewrite (bind_ok _ _ h h1 tt) by done.
    rewrite (bind_ok _ _ h1 h1 tt)
      by (by apply (when_notify_leaf _ _ _ (assignRead granted o))).
    by rewrite bool_decide_eq_true_2. }
  rewrite (bind_ok _ _ _ _ _ Hnested).
  rewrite (bind_ok _ _ _ _ _ (getReadwrite_eq r _ h1 Ho1)).
  set (h2 := setObjects (alter (assignReadwrite granted) r) h1).
  rewrite (bind_ok _ _ h1 h2 tt) by done.
  exists h2. split.
  - apply (when_notify_leaf _ _ _
             (assignReadwrite granted (assignRead granted o))); [| done].
    cbn. by rewrite lookup_alter_eq, lookup_alter_eq, Ho.
  - split; [| done]. cbn.
    rewrite (alter_lookup_insert (assignRead granted) r o (objects h) Ho).
    rewrite (alter_lookup_insert _ _ (assignRead granted o))
      by apply lookup_insert_eq.
    by rewrite insert_insert_eq.
Qed.

End Leaf.

(** ** PermissionsManager: creating the permission of a path *)

Section Inheritance.
Import Permission PermissionsManager.

Lemma onStore_eq {A} (m : M heap A) (w : World) :
  onStore m w = (fst (m (storeOf w)), withStore (snd (m (storeOf w))) w).
Proof.
  unfold onStore, zoom, withStore, storeOf, permissionsOf.
  by destruct (m _).
Qed.

Lemma onStore_ok {A} (m : M heap A) (w : World) (a : A) (h : heap) :
  m (storeOf w) = (Ok a, h) -> onStore m w = (Ok a, withStore h w).
Proof. intros H. rewrite onStore_eq. by rewrite H. Qed.

Lemma register_eq (path : string) (r : ref) (w : World) :
  register path r w = (Ok tt, registered path r w).
Proof. done. Qed.

Lemma subscribe_eq (p : ref) (o : obj) (mode : FileSystemPermissionMode)
    (cb : Callback) (h : heap) :
  objects h !! p = Some o ->
  subscribe p mode cb h
  = (Ok tt, setObjects <[p := pushSubscriber mode cb o]> h).
Proof.
  intros Ho. unfold subscribe.
  rewrite (bind_ok _ _ h h o) by (unfold deref; by rewrite Ho).
  unfold modify. f_equal. unfold setObjects. f_equal.
  by apply alter_lookup_insert.
Qed.

(** The calls that follow the recursive call in
    [findOrCreatePermission]. *)
Lemma inherit_steps (w2 : World) (r pp : ref) (leaf po : obj) :
  objects (storeOf w2) !! r = Some leaf -> isLeaf leaf ->
  objects (storeOf w2) !! pp = Some po -> pp <> r ->
  exists h3,
    (parentRead <- onStore (getRead pp) ;;
     onStore (setRead leafDepth r parentRead) ;;
     parentReadwrite <- onStore (getReadwrite pp) ;;
     onStore (setReadwrite leafDepth r parentReadwrite) ;;
     onStore (subscribe pp ModeRead (CallSetRead r)) ;;
     onStore (subscribe pp ModeReadwrite (CallSetReadwrite r)))%M w2
    = (Ok tt, withStore h3 w2)
    /\ objects h3
       = <[pp := subscribed r po]>
           (<[r := inherited po leaf]> (objects (storeOf w2)))
    /\ nextRef h3 = nextRef (storeOf w2).
Proof.
  intros Hr Hleaf Hpp Hne.
  rewrite (bind_ok _ _ _ _ _
             (onStore_ok _ w2 _ _ (getRead_eq pp po _ Hpp))).
  destruct (setRead_leaf 0 r leaf (Permission.read po) (storeOf w2) Hr Hleaf)
    as (h1 & Hset1 & Hobj1 & Hn1 & Hd1).
  assert (Hw2 : withStore (storeOf w2) w2 = w2) by (by destruct w2 as [? []]).
  rewrite Hw2.
  rewrite (bind_ok _ _ _ _ _ (onStore_ok _ w2 _ _ Hset1)).
  assert (Hpp1 : objects h1 !! pp = Some po)
    by (rewrite Hobj1; by rewrite lookup_insert_ne).
  rewrite (bind_ok _ _ _ _ _
             (onStore_ok _ (withStore h1 w2) _ _ (getReadwrite_eq pp po h1 Hpp1))).
  assert (Hr1 : objects h1 !! r = Some (afterSetRead (Permission.read po) leaf))
    by (rewrite Hobj1; apply lookup_insert_eq).
  destruct (setReadwrite_leaf 0 r _ (Permission.readwrite po) h1 Hr1)
    as (h2 & Hset2 & Hobj2 & Hn2 & Hd2); [by destruct Hleaf |].
  change (withStore h1 (withStore h1 w2)) with (withStore h1 w2).
  rewrite (bind_ok _ _ _ _ _ (onStore_ok _ (withStore h1 w2) _ _ Hset2)).
  change (withStore h2 (withStore h1 w2)) with (withStore h2 w2).
  assert (Hpp2 : objects h2 !! pp = Some po)
    by (rewrite Hobj2; by rewrite lookup_insert_ne).
  rewrite (bind_ok _ _ _ _ _
    (onStore_ok _ (withStore h2 w2) _ _
       (subscribe_eq pp po ModeRead (CallSetRead r) h2 Hpp2))).
  set (h2a := setObjects _ h2).
  change (withStore h2a (withStore h2 w2)) with (withStore h2a w2).
  assert (Hpp2a : objects h2a !! pp
                  = Some (pushSubscriber ModeRead (CallSetRead r) po))
    by (cbn; apply lookup_insert_eq).
  rewrite (onStore_ok _ (withStore h2a w2) _ _
             (subscribe_eq pp _ ModeReadwrite (CallSetReadwrite r) h2a Hpp2a)).
  eexists. split; [reflexivity |]. split.
  - cbn. rewrite insert_insert_eq. rewrite Hobj2, Hobj1.
    by rewrite insert_insert_eq.
  - cbn. by rewrite Hn2, Hn1.
Qed.

Lemma grows_refl (w : World) : managerOk w -> grows w w.
Proof.
  intros Hok. unfold grows. split_and!; try done. intros p' q Hq. by left.
Qed.

Lemma new_eq (a b : PermissionState) (w : World) :
  exists hnew,
    onStore (Permission.new a b) w
    = (Ok (nextRef (storeOf w)), withStore hnew w)
    /\ objects hnew
       = <[nextRef (storeOf w) :=
             {| Permission.read := a; Permission.readwrite := b;
                subscribersRead := []; subscribersReadwrite := [] |}]>
           (objects (storeOf w))
    /\ nextRef hnew = S (nextRef (storeOf w)).
Proof.
  eexists. split; [| split].
  - apply onStore_ok. reflexivity.
  - done.
  - done.
Qed.

Lemma readwrite_inherited (po leaf : obj) :
  Permission.readwrite (inherited po leaf) = Permission.readwrite po.
Proof. done. Qed.

Lemma read_inherited (po leaf : obj) :
  Permission.read (inherited po leaf)
  = if decide (Permission.readwrite po = granted) then granted
    else Permission.read po.
Proof. done. Qed.

Lemma callbacksOf_subscribed (r : ref) (po : obj) (cb : Callback) :
  cb ∈ callbacksOf (subscribed r po) ->
  cb ∈ callbacksOf po \/ target cb = Some r.
Proof.
  unfold callbacksOf, subscribed. cbn. rewrite !elem_of_app.
  intros [[H | H] | [H | H]].
  - left. by left.
  - apply elem_of_cons in H as [-> | H]; [by right |].
    by apply elem_of_nil in H.
  - left. by right.
  - apply elem_of_cons in H as [-> | H]; [by right |].
    by apply elem_of_nil in H.
Qed.

Lemma levelled_leaf (rank : ref -> nat) (w : World) (hnew : heap)
    (r : ref) (leaf : obj) :
  levelled rank w -> objects hnew = <[r := leaf]> (objects (storeOf w)) ->
  isLeaf leaf -> levelled rank (withStore hnew w).
Proof.
  intros Hl Hobj [H1 H2] q o cb t Hq Hcb Ht. cbn in Hq.
  rewrite Hobj in Hq. destruct (decide (r = q)) as [<- | Hne].
  - rewrite lookup_insert_eq in Hq. injection Hq as <-.
    unfold callbacksOf in Hcb. rewrite H1, H2 in Hcb.
    by apply elem_of_nil in Hcb.
  - rewrite lookup_insert_ne in Hq by done.
    exact (Hl q o cb t Hq Hcb Ht).
Qed.

Lemma levelled_register (rank : ref -> nat) (w : World) (path : string)
    (r : ref) :
  levelled rank w -> permissionsOf w !! path = None ->
  levelled rank (registered path r w).
Proof.
  intros Hl Hpath q o cb t Hq Hcb Ht.
  destruct (Hl q o cb t Hq Hcb Ht) as [Hr [p' Hp']].
  split; [done |]. exists p'. cbn. rewrite lookup_insert_ne; [done |].
  intros <-. congruence.
Qed.

Lemma levelled_inherit (rank : ref -> nat) (w2 : World) (h3 : heap)
    (r pp : ref) (po leaf : obj) (path : string) :
  levelled rank w2 ->
  objects h3 = <[pp := subscribed r po]>
                 (<[r := inherited po leaf]> (objects (storeOf w2))) ->
  objects (storeOf w2) !! pp = Some po -> isLeaf leaf -> pp <> r ->
  (forall p', permissionsOf w2 !! p' <> Some r) ->
  permissionsOf w2 !! path = None ->
  levelled (rankBelow rank pp r) (registered path r (withStore h3 w2)).
Proof.
  intros Hl Hobj Hpo [H1 H2] Hne Hfree Hpath q o cb t Hq Hcb Ht.
  assert (Hold : forall q0 o0, objects (storeOf w2) !! q0 = Some o0 ->
                   q0 <> r -> cb ∈ callbacksOf o0 ->
                   rankBelow rank pp r t = S (rank q0)
                   /\ exists p', <[path := r]> (permissionsOf w2) !! p'
                                 = Some t).
  { intros q0 o0 Hq0 Hq0r Hcb0.
    destruct (Hl q0 o0 cb t Hq0 Hcb0 Ht) as [Hr [p' Hp']].
    assert (t <> r) by (intros ->; by apply (Hfree p')).
    unfold rankBelow. rewrite decide_False by done. split; [done |].
    exists p'. rewrite lookup_insert_ne; [done |]. intros <-. congruence. }
  cbn in Hq. rewrite Hobj in Hq. cbn.
  destruct (decide (pp = q)) as [<- | Hq1].
  - rewrite lookup_insert_eq in Hq. injection Hq as <-.
    unfold rankBelow at 2. rewrite decide_False by done.
    apply callbacksOf_subscribed in Hcb as [Hcb | Hnew].
    + by apply (Hold pp po).
    + assert (t = r) as -> by congruence.
      unfold rankBelow. rewrite decide_True by done. split; [done |].
      exists path. apply lookup_insert_eq.
  - rewrite lookup_insert_ne in Hq by done.
    destruct (decide (r = q)) as [<- | Hq2].
    + rewrite lookup_insert_eq in Hq. injection Hq as <-.
      unfold callbacksOf, inherited in Hcb. cbn in Hcb.
      rewrite H1, H2 in Hcb. by apply elem_of_nil in Hcb.
    + rewrite lookup_insert_ne in Hq by done.
      unfold rankBelow at 2. rewrite decide_False by done.
      by apply (Hold q o).
Qed.

(** What [findOrCreatePermission] returns and leaves behind. *)
Lemma findOrCreate_spec (fuel : nat) (path : string) (w w' : World)
    (r : ref) :
  managerOk w -> findOrCreatePermissionRec fuel path w = (Ok r, w') ->
  grows w w'
  /\ permissionsOf w' !! path = Some r
  /\ (permissionsOf w !! path = None ->
      r = nextRef (storeOf w) /\ created path r w')
  /\ (forall p' q, permissionsOf w' !! p' = Some q ->
                   permissionsOf w !! p' = Some q
                   \/ (length (Utils.pathSegments p')
                       <= length (Utils.pathSegments path))%nat)
  /\ ((exists rank, levelled rank w) -> exists rank', levelled rank' w').
Proof.
  revert path w w' r. induction fuel as [| fuel IH];
    intros path w w' r Hok; [done |].
  cbn [findOrCreatePermissionRec].
  rewrite (bind_ok _ _ _ _ _ (get_eq w)).
  fold (permissionsOf w).
  destruct (permissionsOf w !! path) as [q |] eqn:Hpath.
  { intros [= <- <-]. split_and!; try done; [by apply grows_refl |].
    intros p' q0 Hq0. by left. }
  set (literal := initial (manager w) (fileSystem w) path).
  destruct (new_eq (PermissionsManager.read literal)
              (PermissionsManager.readwrite literal) w)
    as (hnew & Hnew & Hobjnew & Hnextnew).
  rewrite (bind_ok _ _ _ _ _ Hnew).
  set (r0 := nextRef (storeOf w)) in *.
  set (leaf := {| Permission.read := PermissionsManager.read literal;
                  Permission.readwrite := PermissionsManager.readwrite literal;
                  subscribersRead := []; subscribersReadwrite := [] |}) in *.
  set (w1 := withStore hnew w).
  destruct Hok as [Hreg Halloc].
  assert (Hunreg : forall p', permissionsOf w !! p' <> Some r0).
  { intros p' Hp'. pose proof (Halloc r0 (Hreg p' r0 Hp')). unfold r0 in *. lia. }
  assert (Hok1 : managerOk w1).
  { split.
    - intros p' q Hq. cbn in Hq |- *. rewrite Hobjnew.
      destruct (decide (r0 = q)) as [<- | Hne].
      + rewrite lookup_insert_eq. by eexists.
      + rewrite lookup_insert_ne by done. by apply (Hreg p').
    - intros q. cbn. rewrite Hobjnew, Hnextnew.
      destruct (decide (r0 = q)) as [<- | Hne]; [lia |].
      rewrite lookup_insert_ne by done. intros Hq.
      pose proof (Halloc q Hq). fold r0 in H. lia. }
  intros ([] & w3 & Hmid & Hrest)%bind_Ok_inv.
  rewrite (bind_ok _ _ _ _ _ (register_eq path r0 w3)) in Hrest.
  injection Hrest as <- <-.
  (* the middle step either does nothing or inherits from the parent *)
  assert (Hcases :
    (w3 = w1 /\ (Utils.nonEmpty path = false \/ Utils.dirname path = None))
    \/ exists parentPath pp w2,
         Utils.nonEmpty path = true /\ Utils.dirname path = Some parentPath
         /\ findOrCreatePermissionRec fuel parentPath w1 = (Ok pp, w2)
         /\ (parentRead <- onStore (getRead pp) ;;
             onStore (setRead leafDepth r0 parentRead) ;;
             parentReadwrite <- onStore (getReadwrite pp) ;;
             onStore (setReadwrite leafDepth r0 parentReadwrite) ;;
             onStore (subscribe pp ModeRead (CallSetRead r0)) ;;
             onStore (subscribe pp ModeReadwrite (CallSetReadwrite r0)))%M w2
            = (Ok tt, w3)).
  { destruct (Utils.nonEmpty path); [| left; by injection Hmid as <-; auto].
    destruct (Utils.dirname path) as [parentPath |];
      [| left; by injection Hmid as <-; auto].
    right. apply bind_Ok_inv in Hmid as (pp & w2 & Hrec & Hsteps).
    by exists parentPath, pp, w2. }
  clear Hmid.
  destruct Hcases as [[-> Hnoparent]
                     | (parentPath & pp & w2 & Hne & Hdir & Hrec & Hsteps)].
  - (* no parent *)
    split; [| split; [| split; [| split]]].
    + unfold grows, managerOk. split_and!.
      * intros p' q. cbn. rewrite Hobjnew.
        destruct (decide (path = p')) as [<- | Hp'].
        -- rewrite lookup_insert_eq. intros [= <-].
           rewrite lookup_insert_eq. by eexists.
        -- rewrite lookup_insert_ne by done. intros Hq.
           destruct (proj1 Hok1 p' q Hq) as [x Hx]. cbn in Hx.
           rewrite Hobjnew in Hx. by eexists.
      * apply Hok1.
      * done.
      * done.
      * cbn. rewrite Hnextnew. lia.
      * intros p' q Hq. cbn.
        rewrite lookup_insert_ne; [done |]. intros <-.
        unfold permissionsOf in *. congruence.
      * intros p' q. cbn. destruct (decide (path = p')) as [<- | Hp'].
        -- rewrite lookup_insert_eq. intros [= <-]. right. done.
        -- rewrite lookup_insert_ne by done. by left.
      * intros q Hq _. cbn. rewrite Hobjnew.
        rewrite lookup_insert_ne; [done |]. fold r0 in Hq. lia.
    + cbn. apply lookup_insert_eq.
    + intros _. split; [done |]. exists leaf. split.
      * cbn. rewrite Hobjnew. apply lookup_insert_eq.
      * split; [done |]. intros parentPath Hne Hdir.
        destruct Hnoparent; congruence.
    + intros p' q. cbn. destruct (decide (path = p')) as [<- | Hp'].
      * intros _. by right.
      * rewrite lookup_insert_ne by done. by left.
    + intros [rank Hl]. exists rank.
      apply levelled_register; [| done].
      by apply (levelled_leaf rank w hnew r0 leaf).
  - (* a parent: the recursive call, then the inheritance *)
    destruct (IH parentPath w1 w2 pp Hok1 Hrec)
      as ((Hok2 & Hfs & Hini & Hnext & Hkept & Hnewreg & Hsame) & Hpp & _
          & Hbound & Hlev).
    assert (Hunreg1 : forall p', permissionsOf w1 !! p' <> Some r0)
      by (intros p'; apply Hunreg).
    assert (Hr2 : objects (storeOf w2) !! r0 = Some leaf).
    { rewrite Hsame; [| cbn; rewrite Hnextnew; lia | done].
      cbn. rewrite Hobjnew. apply lookup_insert_eq. }
    destruct (proj1 Hok2 parentPath pp Hpp) as [po Hpo].
    assert (Hppr : pp <> r0).
    { intros ->. destruct (Hnewreg parentPath r0 Hpp) as [Hold | Hge].
      - by apply (Hunreg1 parentPath).
      - cbn in Hge. rewrite Hnextnew in Hge. lia. }
    destruct (inherit_steps w2 r0 pp leaf po Hr2 (conj eq_refl eq_refl)
                Hpo Hppr) as (h3 & Hrun & Hobj3 & Hnext3).
    rewrite Hrun in Hsteps. injection Hsteps as <-.
    assert (Hpathne : parentPath <> path).
    { intros ->. pose proof (length_dirname _ _ Hdir). lia. }
    assert (Hfree2 : forall p', permissionsOf w2 !! p' <> Some r0).
    { intros p' Hp'. destruct (Hnewreg p' r0 Hp') as [Hold | Hge].
      - by apply (Hunreg1 p').
      - cbn in Hge. rewrite Hnextnew in Hge. lia. }
    assert (Hpath2 : permissionsOf w2 !! path = None).
    { destruct (permissionsOf w2 !! path) as [q |] eqn:Hq; [| done].
      destruct (Hbound path q Hq) as [Hold | Hle].
      - cbn in Hold. unfold permissionsOf in *. congruence.
      - pose proof (length_dirname _ _ Hdir). lia. }
    split; [| split; [| split; [| split]]].
    + unfold grows, managerOk. split_and!.
      * intros p' q. cbn. rewrite Hobj3.
        destruct (decide (path = p')) as [<- | Hp'].
        -- rewrite lookup_insert_eq. intros [= <-].
           rewrite lookup_insert_ne, lookup_insert_eq by done. by eexists.
        -- rewrite lookup_insert_ne by done. intros Hq.
           destruct (decide (pp = q)) as [<- | Hq1];
             [rewrite lookup_insert_eq; by eexists |].
           rewrite lookup_insert_ne by done.
           destruct (decide (r0 = q)) as [<- | Hq2];
             [rewrite lookup_insert_eq; by eexists |].
           rewrite lookup_insert_ne by done. by apply (proj1 Hok2 p').
      * intros q. cbn. rewrite Hobj3, Hnext3.
        destruct (decide (pp = q)) as [<- | Hq1].
        -- intros _. apply (proj2 Hok2). by eexists.
        -- rewrite lookup_insert_ne by done.
           destruct (decide (r0 = q)) as [<- | Hq2].
           ++ intros _. apply (proj2 Hok2). by eexists.
           ++ rewrite lookup_insert_ne by done. apply (proj2 Hok2).
      * cbn. done.
      * cbn. by rewrite Hini.
      * cbn. rewrite Hnext3. cbn in Hnext. rewrite Hnextnew in Hnext.
        fold r0. lia.
      * intros p' q Hq. cbn.
        rewrite lookup_insert_ne.
        -- by apply Hkept.
        -- intros <-. unfold permissionsOf in *. congruence.
      * intros p' q. cbn. destruct (decide (path = p')) as [<- | Hp'].
        -- rewrite lookup_insert_eq. intros [= <-]. right. done.
        -- rewrite lookup_insert_ne by done. intros Hq.
           destruct (Hnewreg p' q Hq) as [Hold | Hge]; [by left | right].
           cbn in Hge. rewrite Hnextnew in Hge. fold r0. lia.
      * intros q Hq Hfree. cbn. rewrite Hobj3. fold r0 in Hq.
        assert (pp <> q).
        { intros <-. destruct (Hnewreg parentPath pp Hpp) as [Hold | Hge].
          - by apply (Hfree parentPath).
          - cbn in Hge. rewrite Hnextnew in Hge. lia. }
        rewrite !lookup_insert_ne by (done || lia).
        rewrite Hsame; [| cbn; rewrite Hnextnew; lia | done].
        cbn. rewrite Hobjnew. rewrite lookup_insert_ne; [done | lia].
    + cbn. apply lookup_insert_eq.
    + intros _. split; [done |]. exists (inherited po leaf). split.
      * cbn. rewrite Hobj3.
        by rewrite lookup_insert_ne, lookup_insert_eq.
      * split; [done |]. intros parentPath' _ Hdir'.
        assert (parentPath' = parentPath) as -> by congruence.
        exists pp, (subscribed r0 po). split.
        { cbn. by rewrite lookup_insert_ne. }
        split; [cbn; rewrite Hobj3; apply lookup_insert_eq |].
        split; [done |]. split; [done |].
        rewrite read_inherited. unfold coupled. cbn.
        split; [| split; [| split]].
        -- intros Hc. case_decide; [by rewrite Hc | done].
        -- intros Hc. case_decide; [done |]. exfalso. apply Hc. done.
        -- apply elem_of_app. right. by left.
        -- apply elem_of_app. right. by left.
    + intros p' q. cbn. destruct (decide (path = p')) as [<- | Hp'].
      * intros _. by right.
      * rewrite lookup_insert_ne by done. intros Hq.
        destruct (Hbound p' q Hq) as [Hold | Hle]; [by left | right].
        pose proof (length_dirname _ _ Hdir). lia.
    + intros [rank Hl].
      destruct Hlev as [rank2 Hl2].
      { exists rank. by apply (levelled_leaf rank w hnew r0 leaf). }
      exists (rankBelow rank2 pp r0).
      by apply (levelled_inherit rank2 w2 h3 r0 pp po leaf path).
Qed.

End Inheritance.

(** ** Permission: a change reaches the subscribed permissions *)

Section Cascade.
Import Permission.
Variable rank : ref -> nat.
Variable r : ref.
Variable mode : FileSystemPermissionMode.
Variable state : PermissionState.

Lemma exec_Notify (fuel : nat) (p : ref) (m : FileSystemPermissionMode) :
  exec (S fuel) (Notify p m state) =
    (o <- deref p ;; forEach (call fuel state) (subscribers m o))%M.
Proof. reflexivity. Qed.

Lemma valueOf_afterSetRead (o : obj) :
  valueOf mode o = state \/ mode = ModeRead ->
  valueOf mode (afterSetRead state o) = state.
Proof.
  destruct mode; cbn; [done |]. intros [H | H]; [| done].
  by case_decide.
Qed.

Lemma valueOf_afterSetReadwrite (o : obj) :
  valueOf mode o = state \/ mode = ModeReadwrite ->
  valueOf mode (afterSetReadwrite state o) = state.
Proof.
  destruct mode; cbn; [| done]. intros [H | H]; [| done].
  by case_decide.
Qed.

(** A callback keeps, or if it is the setter of [r] brings about, that
    [r] holds the new state. *)
Lemma call_holds (fuel : nat) (cb : Callback) (h h' : heap) :
  acyclic rank h -> call fuel state cb h = (Ok tt, h') ->
  (forall q, target cb = Some q -> q = r \/ (rank r <= rank q)%nat) ->
  holds r mode state h \/ (cb = setterOf mode r
                           /\ is_Some (objects h !! r)) ->
  holds r mode state h'.
Proof.
  intros Ha Hcall Hrank Hbefore.
  destruct cb as [q | q | status]; cbn [call] in Hcall.
  - destruct (exec_effect rank _ _ _ _ Ha Hcall) as (_ & Hframe & o & Ho & Ho').
    cbn [callee] in *. destruct (decide (q = r)) as [-> | Hne].
    + exists (afterSetRead state o). split; [done |].
      apply valueOf_afterSetRead.
      destruct Hbefore as [(o1 & Ho1 & Hv) | [Hcb _]].
      * left. congruence.
      * right. by destruct mode.
    + destruct Hbefore as [(o1 & Ho1 & Hv) | [Hcb _]].
      * exists o1. split; [| done]. rewrite Hframe; [done | done |].
        destruct (Hrank q eq_refl); [congruence | done].
      * destruct mode; cbn in Hcb; congruence.
  - destruct (exec_effect rank _ _ _ _ Ha Hcall) as (_ & Hframe & o & Ho & Ho').
    cbn [callee] in *. destruct (decide (q = r)) as [-> | Hne].
    + exists (afterSetReadwrite state o). split; [done |].
      apply valueOf_afterSetReadwrite.
      destruct Hbefore as [(o1 & Ho1 & Hv) | [Hcb _]].
      * left. congruence.
      * right. by destruct mode.
    + destruct Hbefore as [(o1 & Ho1 & Hv) | [Hcb _]].
      * exists o1. split; [| done]. rewrite Hframe; [done | done |].
        destruct (Hrank q eq_refl); [congruence | done].
      * destruct mode; cbn in Hcb; congruence.
  - injection Hcall as <-.
    destruct Hbefore as [H | [Hcb _]]; [done |].
    by destruct mode.
Qed.

Lemma call_sameSubscribers (fuel : nat) (cb : Callback) (h h' : heap) :
  acyclic rank h -> call fuel state cb h = (Ok tt, h') ->
  sameSubscribers h h'.
Proof.
  intros Ha Hcall. destruct cb as [q | q | status]; cbn [call] in Hcall.
  - by apply (exec_effect rank _ _ _ _ Ha Hcall).
  - by apply (exec_effect rank _ _ _ _ Ha Hcall).
  - by injection Hcall as <-.
Qed.

Lemma loop_holds (fuel : nat) (l : list Callback) (h h' : heap) :
  acyclic rank h ->
  (forall cb q, cb ∈ l -> target cb = Some q ->
                q = r \/ (rank r <= rank q)%nat) ->
  forEach (call fuel state) l h = (Ok tt, h') ->
  holds r mode state h \/ (setterOf mode r ∈ l /\ is_Some (objects h !! r)) ->
  holds r mode state h'.
Proof.
  revert h. induction l as [| cb l IH]; intros h Ha Hrank; cbn [forEach].
  - intros [= <-] [H | [H _]]; [done |]. by apply elem_of_nil in H.
  - intros ([] & h1 & Hcb & Hrest)%bind_Ok_inv Hbefore.
    assert (Hs1 : sameSubscribers h h1)
      by by apply (call_sameSubscribers fuel cb).
    apply (IH h1).
    + by apply (acyclic_sameSubscribers rank h).
    + intros cb' q Hin. apply Hrank. by right.
    + done.
    + destruct Hbefore as [Hh | [Hin Hex]].
      * left. apply (call_holds fuel cb h h1); try done; [| by left].
        intros q. apply Hrank. by left.
      * apply elem_of_cons in Hin as [<- | Hin].
        -- left.
           apply (call_holds fuel (setterOf mode r) h h1); try done;
             [| by right].
           intros q. apply Hrank. by left.
        -- right. split; [done |].
           by apply (sameSubscribers_is_Some h).
Qed.

Lemma firstLevel_sameSubscribers (pp : ref) (h h' : heap) :
  sameSubscribers h h' -> firstLevel rank r pp h -> firstLevel rank r pp h'.
Proof.
  intros Hs Hl po cb q Ho Hcb Ht.
  destruct (sameSubscribers_lookup h h' pp po Hs Ho) as (o0 & Ho0 & H1 & H2).
  apply (Hl o0 cb q Ho0); [| done].
  unfold callbacksOf in *. by rewrite H1, H2.
Qed.

Lemma subscribedTo_sameSubscribers (pp : ref) (h h' : heap) :
  sameSubscribers h h' -> subscribedTo mode r pp h ->
  subscribedTo mode r pp h'.
Proof.
  intros Hs (po & Ho & Hin). specialize (Hs pp). rewrite Ho in Hs.
  destruct (objects h' !! pp) as [po' |] eqn:Ho'; [| done].
  cbn in Hs. injection Hs as H1 H2. exists po'. split; [done |].
  destruct mode; cbn in *; congruence.
Qed.

(** [notify] on [pp], whose subscribers are all at the level of [r] or
    below. *)
Lemma notify_holds (fuel : nat) (pp : ref) (m : FileSystemPermissionMode)
    (h h' : heap) :
  acyclic rank h -> firstLevel rank r pp h ->
  exec fuel (Notify pp m state) h = (Ok tt, h') ->
  holds r mode state h
  \/ (m = mode /\ subscribedTo mode r pp h /\ is_Some (objects h !! r)) ->
  holds r mode state h'.
Proof.
  intros Ha Hfirst. destruct fuel as [| fuel]; [done |].
  rewrite exec_Notify.
  intros (o & h0 & Hd & Hloop)%bind_Ok_inv Hbefore.
  apply deref_Ok_inv in Hd as [-> Ho].
  apply (loop_holds fuel (subscribers m o) h h'); try done.
  - intros cb q Hin Ht. right. apply (Hfirst o cb q); [done | | done].
    unfold callbacksOf. apply elem_of_app.
    destruct m; [by left | by right].
  - destruct Hbefore as [H | (-> & (po & Hpo & Hin) & Hex)]; [by left |].
    right. split; [| done]. congruence.
Qed.

(** A setter called on [pp] with the state that [r] holds leaves it
    there. *)
Lemma set_keeps (fuel : nat) (pp : ref) (c : Call) (h h' : heap) :
  acyclic rank h -> firstLevel rank r pp h -> pp <> r ->
  c = SetRead pp state \/ c = SetReadwrite pp state ->
  holds r mode state h -> exec fuel c h = (Ok tt, h') ->
  holds r mode state h'.
Proof.
  revert c h h'. induction fuel as [| fuel IH]; [done |].
  intros c h h' Ha Hl Hne [-> | ->] Hh; cbn [exec].
  - intros (old & h0 & Hget & Hrest)%bind_Ok_inv.
    apply getRead_Ok_inv in Hget as [-> (o & Ho & ->)].
    apply bind_Ok_inv in Hrest as ([] & h1 & Hmod & Hrest).
    injection Hmod as <-.
    set (h1 := setObjects (alter (assignRead state) pp) h) in *.
    assert (Hs1 : sameSubscribers h h1) by by apply sameSubscribers_alter.
    assert (Hh1 : holds r mode state h1).
    { destruct Hh as (o1 & Ho1 & Hv). exists o1. split; [| done].
      cbn. by rewrite lookup_alter_ne. }
    apply bind_Ok_inv in Hrest as ([] & h2 & Hnotify & Hrest).
    assert (Ha1 : acyclic rank h1)
      by by apply (acyclic_sameSubscribers rank h).
    assert (Hl1 : firstLevel rank r pp h1)
      by by apply (firstLevel_sameSubscribers pp h).
    assert (H2 : sameSubscribers h1 h2 /\ holds r mode state h2).
    { apply when_Ok_inv in Hnotify as [[_ Hn] | [_ ->]]; [| done]. split.
      - by apply (exec_effect rank _ _ _ _ Ha1 Hn).
      - apply (notify_holds fuel pp ModeRead h1 h2); try done. by left. }
    destruct H2 as [Hs2 Hh2].
    apply when_Ok_inv in Hrest as [[_ Hw] | [_ ->]]; [| done].
    apply (IH (SetReadwrite pp state) h2 h'); try done.
    + by apply (acyclic_sameSubscribers rank h1).
    + by apply (firstLevel_sameSubscribers pp h1).
    + by right.
  - intros ([] & h1 & Hfirst & Hrest)%bind_Ok_inv.
    assert (H1 : sameSubscribers h h1 /\ holds r mode state h1).
    { apply when_Ok_inv in Hfirst as [[Hg Hw] | [_ ->]]; [| done].
      apply bool_decide_eq_true in Hg. split.
      - by apply (exec_effect rank _ _ _ _ Ha Hw).
      - apply (IH (SetRead pp state) h h1); try done. by left. }
    destruct H1 as [Hs1 Hh1].
    apply bind_Ok_inv in Hrest as (old & h0 & Hget & Hrest).
    apply getReadwrite_Ok_inv in Hget as [-> (o1 & Ho1 & ->)].
    apply bind_Ok_inv in Hrest as ([] & h2 & Hmod & Hnotify).
    injection Hmod as <-.
    set (h2 := setObjects (alter (assignReadwrite state) pp) h1) in *.
    assert (Hs2 : sameSubscribers h1 h2) by by apply sameSubscribers_alter.
    assert (Hh2 : holds r mode state h2).
    { destruct Hh1 as (o & Ho & Hv). exists o. split; [| done].
      cbn. by rewrite lookup_alter_ne. }
    apply when_Ok_inv in Hnotify as [[_ Hn] | [_ ->]]; [| done].
    apply (notify_holds fuel pp ModeReadwrite h2 h'); try done.
    + apply (acyclic_sameSubscribers rank h1); [done |].
      by apply (acyclic_sameSubscribers rank h).
    + apply (firstLevel_sameSubscribers pp h1); [done |].
      by apply (firstLevel_sameSubscribers pp h).
    + by left.
Qed.

(** A change of the value of [pp] for [mode] reaches the permission [r]
    whose setter for [mode] is subscribed to [pp]. *)
Lemma set_reaches_subscriber (fuel : nat) (pp : ref) (po : obj)
    (h h' : heap) :
  acyclic rank h -> firstLevel rank r pp h ->
  objects h !! pp = Some po -> setterOf mode r ∈ subscribers mode po ->
  is_Some (objects h !! r) -> valueOf mode po <> state ->
  Permission.set fuel pp mode state h = (Ok tt, h') ->
  holds r mode state h'.
Proof.
  intros Ha Hl Hpo Hin Hex Hchange.
  assert (Hsub : subscribedTo mode r pp h) by by exists po.
  assert (Hne : pp <> r).
  { intros ->. assert (rank r < rank r)%nat; [| lia].
    apply (Ha r po (setterOf mode r) r); [done | | by destruct mode].
    unfold callbacksOf. apply elem_of_app.
    destruct mode; [by left | by right]. }
  clear Hin. destruct fuel as [| fuel]; [by destruct mode |].
  revert Hsub Hchange. unfold Permission.set, setRead, setReadwrite.
  destruct mode eqn:Hmode; cbn [exec valueOf]; intros Hsub Hchange.
  - intros (old & h0 & Hget & Hrest)%bind_Ok_inv.
    apply getRead_Ok_inv in Hget as [-> (o & Ho & ->)].
    assert (o = po) as -> by congruence.
    apply bind_Ok_inv in Hrest as ([] & h1 & Hmod & Hrest).
    injection Hmod as <-.
    set (h1 := setObjects (alter (assignRead state) pp) h) in *.
    assert (Hs1 : sameSubscribers h h1) by by apply sameSubscribers_alter.
    assert (Ha1 : acyclic rank h1)
      by by apply (acyclic_sameSubscribers rank h).
    assert (Hl1 : firstLevel rank r pp h1)
      by by apply (firstLevel_sameSubscribers pp h).
    apply bind_Ok_inv in Hrest as ([] & h2 & Hnotify & Hrest).
    rewrite bool_decide_eq_false_2 in Hnotify by done.
    cbn [negb when] in Hnotify.
    assert (Hh2 : holds r ModeRead state h2).
    { rewrite <- Hmode. rewrite <- Hmode in Hsub.
      apply (notify_holds fuel pp ModeRead h1 h2); try done.
      right. split; [done |]. split.
      - by apply (subscribedTo_sameSubscribers pp h).
      - by apply (sameSubscribers_is_Some h). }
    apply when_Ok_inv in Hrest as [[_ Hw] | [_ ->]]; [| done].
    rewrite <- Hmode. rewrite <- Hmode in Hh2.
    apply (set_keeps fuel pp (SetReadwrite pp state) h2 h'); try done.
    + apply (acyclic_sameSubscribers rank h1); [| done].
      by apply (exec_effect rank _ _ _ _ Ha1 Hnotify).
    + apply (firstLevel_sameSubscribers pp h1); [| done].
      by apply (exec_effect rank _ _ _ _ Ha1 Hnotify).
    + by right.
  - intros ([] & h1 & Hfirst & Hrest)%bind_Ok_inv.
    assert (H1 : sameSubscribers h h1
                 /\ exists o1, objects h1 !! pp = Some o1
                               /\ readwrite o1 = readwrite po).
    { apply when_Ok_inv in Hfirst as [[Hg Hw] | [_ ->]].
      - apply bool_decide_eq_true in Hg. subst state.
        destruct (exec_effect rank _ _ _ _ Ha Hw) as (Hs & _ & o & Ho & Ho').
        split; [done |]. exists (afterSetRead granted o). split; [done |].
        by assert (o = po) as -> by congruence.
      - split; [done |]. by exists po. }
    destruct H1 as (Hs1 & o1 & Ho1 & Hrw).
    apply bind_Ok_inv in Hrest as (old & h0 & Hget & Hrest).
    apply getReadwrite_Ok_inv in Hget as [-> (o & Ho & ->)].
    assert (o = o1) as -> by congruence.
    apply bind_Ok_inv in Hrest as ([] & h2 & Hmod & Hnotify).
    injection Hmod as <-.
    set (h2 := setObjects (alter (assignReadwrite state) pp) h1) in *.
    assert (Hs2 : sameSubscribers h1 h2) by by apply sameSubscribers_alter.
    rewrite bool_decide_eq_false_2 in Hnotify by congruence.
    cbn [negb when] in Hnotify.
    assert (Hs : sameSubscribers h h2)
      by by apply (sameSubscribers_trans h h1 h2).
    rewrite <- Hmode. rewrite <- Hmode in Hsub.
    apply (notify_holds fuel pp ModeReadwrite h2 h'); try done.
    + by apply (acyclic_sameSubscribers rank h).
    + by apply (firstLevel_sameSubscribers pp h).
    + right. split; [done |]. split.
      * by apply (subscribedTo_sameSubscribers pp h).
      * by apply (sameSubscribers_is_Some h).
Qed.

End Cascade.

(** ** PermissionsManager: a new permission and its parent *)

Section InheritanceClaim.
Import Permission PermissionsManager.

Lemma ranks_bounded (rank : ref -> nat) (m : gmap ref obj) :
  exists top, forall p o, m !! p = Some o -> (rank p <= top)%nat.
Proof.
  induction m as [| i x m Hi IH] using map_ind.
  - exists 0%nat. intros p o H. by rewrite lookup_empty in H.
  - destruct IH as [top IH]. exists (Nat.max top (rank i)). intros p o.
    destruct (decide (i = p)) as [<- | Hne]; [lia |].
    rewrite lookup_insert_ne by done. intros H.
    specialize (IH p o H). lia.
Qed.

Lemma levelled_acyclic (rank : ref -> nat) (w : World) :
  levelled rank w -> acyclic rank (storeOf w).
Proof.
  intros Hl p o cb q Ho Hcb Ht.
  destruct (Hl p o cb q Ho Hcb Ht) as [Hr _]. lia.
Qed.

Lemma levelled_closedBelow (rank : ref -> nat) (w : World) :
  managerOk w -> levelled rank w ->
  exists top, closedBelow rank top (storeOf w).
Proof.
  intros [Hreg _] Hl.
  destruct (ranks_bounded rank (objects (storeOf w))) as [top Htop].
  exists top. intros p o Ho. split; [by apply (Htop p o) |].
  intros cb q Hcb Ht.
  destruct (Hl p o cb q Ho Hcb Ht) as [_ [path Hpath]].
  by apply (Hreg path).
Qed.

Lemma levelled_firstLevel (rank : ref -> nat) (w : World) (r pp : ref)
    (po : obj) (cb : Callback) :
  levelled rank w -> objects (storeOf w) !! pp = Some po ->
  cb ∈ callbacksOf po -> target cb = Some r ->
  firstLevel rank r pp (storeOf w).
Proof.
  intros Hl Hpo Hcb Ht po' cb' q Hpo' Hcb' Ht'.
  assert (po' = po) as -> by congruence.
  destruct (Hl pp po cb r Hpo Hcb Ht) as [Hr _].
  destruct (Hl pp po cb' q Hpo Hcb' Ht') as [Hq _]. lia.
Qed.

Lemma managerOk_leaf (w : World) (hnew : heap) (leaf : obj) :
  managerOk w ->
  objects hnew = <[nextRef (storeOf w) := leaf]> (objects (storeOf w)) ->
  nextRef hnew = S (nextRef (storeOf w)) ->
  managerOk (withStore hnew w).
Proof.
  intros [Hreg Halloc] Hobj Hnext. split.
  - intros p' q Hq. cbn in Hq |- *. rewrite Hobj.
    destruct (decide (nextRef (storeOf w) = q)) as [<- | Hne].
    + rewrite lookup_insert_eq. by eexists.
    + rewrite lookup_insert_ne by done. by apply (Hreg p').
  - intros q. cbn. rewrite Hobj, Hnext.
    destruct (decide (nextRef (storeOf w) = q)) as [<- | Hne]; [lia |].
    rewrite lookup_insert_ne by done. intros Hq.
    pose proof (Halloc q Hq). lia.
Qed.

(** [findOrCreatePermission] returns: the recursion ends at the root at
    the latest. *)
Lemma findOrCreate_total (fuel : nat) (path : string) (w : World) :
  managerOk w -> (length (Utils.pathSegments path) < fuel)%nat ->
  exists r w', findOrCreatePermissionRec fuel path w = (Ok r, w').
Proof.
  revert path w. induction fuel as [| fuel IH]; intros path w Hok Hlen;
    [lia |].
  cbn [findOrCreatePermissionRec].
  rewrite (bind_ok _ _ _ _ _ (get_eq w)).
  fold (permissionsOf w).
  destruct (permissionsOf w !! path) as [q |] eqn:Hpath; [by eexists _, _ |].
  set (literal := initial (manager w) (fileSystem w) path).
  destruct (new_eq (PermissionsManager.read literal)
              (PermissionsManager.readwrite literal) w)
    as (hnew & Hnew & Hobjnew & Hnextnew).
  rewrite (bind_ok _ _ _ _ _ Hnew).
  set (r0 := nextRef (storeOf w)) in *.
  set (leaf := {| Permission.read := PermissionsManager.read literal;
                  Permission.readwrite := PermissionsManager.readwrite literal;
                  subscribersRead := []; subscribersReadwrite := [] |}) in *.
  set (w1 := withStore hnew w).
  assert (Hok1 : managerOk w1) by by apply (managerOk_leaf w hnew leaf).
  destruct (Utils.nonEmpty path); [| by eexists _, _].
  destruct (Utils.dirname path) as [parentPath |] eqn:Hdir;
    [| by eexists _, _].
  pose proof (length_dirname _ _ Hdir) as Hshorter.
  destruct (IH parentPath w1 Hok1) as (pp & w2 & Hrec); [lia |].
  destruct (findOrCreate_spec fuel parentPath w1 w2 pp Hok1 Hrec)
    as ((Hok2 & _ & _ & _ & _ & Hnewreg & Hsame) & Hpp & _).
  assert (Hunreg : forall p', permissionsOf w1 !! p' <> Some r0).
  { intros p' Hp'. destruct Hok as [Hreg Halloc].
    pose proof (Halloc r0 (Hreg p' r0 Hp')). unfold r0 in *. lia. }
  assert (Hr2 : objects (storeOf w2) !! r0 = Some leaf).
  { rewrite Hsame; [| cbn; rewrite Hnextnew; lia | done].
    cbn. rewrite Hobjnew. apply lookup_insert_eq. }
  destruct (proj1 Hok2 parentPath pp Hpp) as [po Hpo].
  assert (Hppr : pp <> r0).
  { intros ->. destruct (Hnewreg parentPath r0 Hpp) as [Hold | Hge].
    - by apply (Hunreg parentPath).
    - cbn in Hge. rewrite Hnextnew in Hge. lia. }
  destruct (inherit_steps w2 r0 pp leaf po Hr2 (conj eq_refl eq_refl)
              Hpo Hppr) as (h3 & Hrun & _).
  eexists _, _.
  erewrite bind_ok; [reflexivity |].
  rewrite (bind_ok _ _ _ _ _ Hrec). exact Hrun.
Qed.

Lemma new_managerOk (fs : FileSystem.t)
    (initial : FileSystem.t -> string -> PermissionsLiteral) :
  managerOk {| fileSystem := fs; manager := PermissionsManager.new initial |}.
Proof.
  split.
  - intros path q H. cbn in H. by rewrite lookup_empty in H.
  - intros q [o H]. cbn in H. by rewrite lookup_empty in H.
Qed.

Lemma new_levelled (fs : FileSystem.t)
    (initial : FileSystem.t -> string -> PermissionsLiteral) :
  levelled (fun _ => 0%nat)
    {| fileSystem := fs; manager := PermissionsManager.new initial |}.
Proof. intros q o cb t H. cbn in H. by rewrite lookup_empty in H. Qed.

(** C5 as the spec has it fails: a new permission does not always take
    its parent's [read].  With a provider whose initial values are
    [read = prompt] and [readwrite = granted], the root's [read] is prompt
    before and after the first access to its child "f", and the child's
    [read] is granted. *)
Lemma child_read_differs_from_parent_read :
  Scenario.readOfParentAndChild prompt granted
  = Ok (prompt, granted, prompt).
Proof. vm_compute. reflexivity. Qed.

End InheritanceClaim.

(** ** Scenarios are well formed *)

Section Scenarios.
Import Utils FileSystem.

Lemma run_wellFormed (diskSize : num) (ops : list System.Op) :
  wellFormed (System.fs (System.run ops (System.initial diskSize))).
Proof.
  assert (H : invariant false
                (System.fs (System.run ops (System.initial diskSize)))).
  { apply run_invariant. by apply new_invariant. }
  apply H.
Qed.

Lemma oneEmptyFile_wellFormed (diskSize : num) :
  wellFormed (Scenario.oneEmptyFile diskSize).
Proof.
  apply (run_wellFormed diskSize [System.CreateFile 0 "f" None]).
Qed.

Lemma nested_wellFormed : wellFormed Scenario.nested.
Proof.
  apply (run_wellFormed Infinity [System.CreateFile 0 "x/y" None]).
Qed.

Lemma isFile_new (diskSize : num) (path : string) :
  isFile (new diskSize) path = false.
Proof.
  unfold isFile. cbn.
  destruct (decide (path = EmptyString)) as [-> | Hne]; [done |].
  by rewrite lookup_singleton_ne.
Qed.

End Scenarios.

(** ** utils: what the path helpers compute *)

Section PathHelpers.
Import Utils.

Lemma segments_separatorFree (p : string) :
  Forall (fun s => separatorFree s = true) (pathSegments p).
Proof. unfold pathSegments. apply Forall_filter_keeps, split_segments. Qed.

Lemma segments_nonEmpty (p : string) :
  Forall (fun s => nonEmpty s = true) (pathSegments p).
Proof. unfold pathSegments. apply Forall_filter_true. Qed.

Lemma pathSegments_join (l : list string) :
  Forall (fun s => separatorFree s = true) l ->
  Forall (fun s => nonEmpty s = true) l ->
  pathSegments (join l) = l.
Proof.
  intros Hfree Hne. destruct l as [| s l]; [done |].
  unfold pathSegments. rewrite split_join by done. by apply filter_all.
Qed.

Lemma split_cons (p : string) : exists seg segs, split p = seg :: segs.
Proof.
  induction p as [| c p (seg & segs & IH)]; cbn [split]; [by eexists _, _ |].
  destruct (isSeparator c); [by eexists _, _ |]. rewrite IH. by eexists _, _.
Qed.

Lemma split_app (a b : string) :
  split (a +:+ "/" +:+ b) = split a ++ split b.
Proof.
  induction a as [| c a IH]; [done |].
  change (String c a +:+ "/" +:+ b) with (String c (a +:+ "/" +:+ b)).
  cbn [split]. rewrite IH.
  destruct (isSeparator c); [done |].
  by destruct (split_cons a) as (seg & segs & ->).
Qed.

Lemma filter_app_bool {A} (f : A -> bool) (l k : list A) :
  List.filter f (l ++ k) = List.filter f l ++ List.filter f k.
Proof. apply List.filter_app. Qed.

Lemma pathSegments_app (a b : string) :
  pathSegments (a +:+ "/" +:+ b) = pathSegments a ++ pathSegments b.
Proof. unfold pathSegments. by rewrite split_app, filter_app_bool. Qed.

Lemma split_stripTrailingSlashes (p : string) :
  exists k, split p = split (stripTrailingSlashes p) ++ replicate k EmptyString.
Proof.
  induction p as [| c p [k IH]]; [by exists 0%nat |].
  cbn [stripTrailingSlashes split].
  destruct (stripTrailingSlashes p) as [| c' r'] eqn:Hstrip.
  - cbn [split app] in IH. rewrite IH.
    case_bool_decide as Hc.
    + subst c. exists (S k). done.
    + destruct (isSeparator c) eqn:Hsep; cbn [split]; rewrite Hsep.
      * by exists k.
      * by exists k.
  - exists k. rewrite IH.
    destruct (split_cons (String c' r')) as (seg & segs & Heq).
    change (split (String c (String c' r')))
      with (if isSeparator c then EmptyString :: split (String c' r')
            else match split (String c' r') with
                 | [] => [String c EmptyString]
                 | seg :: segs => String c seg :: segs
                 end).
    rewrite Heq. by destruct (isSeparator c).
Qed.

Lemma filter_replicate_empty (k : nat) :
  List.filter nonEmpty (replicate k EmptyString) = [].
Proof. induction k as [| k IH]; [done |]. done. Qed.

Lemma pathSegments_stripTrailingSlashes (p : string) :
  pathSegments (stripTrailingSlashes p) = pathSegments p.
Proof.
  unfold pathSegments. destruct (split_stripTrailingSlashes p) as [k ->].
  by rewrite filter_app_bool, filter_replicate_empty, app_nil_r.
Qed.

Lemma prefix_app (a s : string) :
  String.prefix a s = true -> exists rest, s = a +:+ rest.
Proof.
  revert s. induction a as [| c a IH]; intros s.
  - by exists s.
  - destruct s as [| c' s]; cbn [String.prefix]; [done |].
    destruct (ascii_dec c c') as [<- | ?]; [| done].
    intros [rest ->]%IH. by exists rest.
Qed.

Lemma prefix_app_true (a rest : string) : String.prefix a (a +:+ rest) = true.
Proof.
  induction a as [| c a IH]; [by destruct rest |].
  change (String c a +:+ rest) with (String c (a +:+ rest)).
  cbn [String.prefix]. by destruct (ascii_dec c c).
Qed.

Lemma append_assoc (a b c : string) : (a +:+ b) +:+ c = a +:+ (b +:+ c).
Proof.
  induction a as [| x a IH]; [done |].
  change ((String x a +:+ b) +:+ c) with (String x ((a +:+ b) +:+ c)).
  change (String x a +:+ (b +:+ c)) with (String x (a +:+ (b +:+ c))).
  by rewrite IH.
Qed.

(** A sub-path continues the segments of the path. *)
Lemma isSubPath_segments (subPath path : string) :
  isSubPath subPath path = true ->
  exists rest, pathSegments subPath = pathSegments path ++ pathSegments rest.
Proof.
  unfold isSubPath. case_bool_decide as Hp.
  - intros [rest ->]%prefix_app. exists rest.
    rewrite append_assoc, pathSegments_app.
    by rewrite pathSegments_stripTrailingSlashes.
  - intros _. assert (path = EmptyString) as ->.
    { destruct (decide (path = EmptyString)); [done |]. by destruct Hp. }
    by exists subPath.
Qed.

Lemma hasNoSlash_separatorFree (s : string) :
  separatorFree s = true -> hasNoSlash s = true.
Proof.
  induction s as [| c s IH]; cbn [separatorFree hasNoSlash]; [done |].
  intros [Hc Hs]%andb_true_iff. rewrite IH by done.
  unfold isSeparator in Hc. apply negb_true_iff, orb_false_iff in Hc as [Hc _].
  by rewrite Hc.
Qed.

Lemma hasNoSlash_app_slash (a b : string) :
  hasNoSlash (a +:+ "/" +:+ b) = false.
Proof.
  induction a as [| c a IH]; [done |].
  change (String c a +:+ "/" +:+ b) with (String c (a +:+ "/" +:+ b)).
  cbn [hasNoSlash]. rewrite IH. apply andb_false_r.
Qed.

Lemma hasNoSlash_join (l : list string) :
  Forall (fun s => separatorFree s = true) l ->
  hasNoSlash (join l) = bool_decide (length l <= 1)%nat.
Proof.
  intros Hfree. destruct l as [| a [| b l]]; cbn [join].
  - done.
  - apply Forall_cons in Hfree as [Ha _].
    by rewrite hasNoSlash_separatorFree.
  - rewrite hasNoSlash_app_slash. cbn [length].
    by rewrite bool_decide_eq_false_2 by lia.
Qed.

(** X1.  [dirname] returns [null] exactly for a path without segments.  For
    any other path, the segments of the path are those of [dirname(path)]
    followed by [basename(path)], and [dirname(path)] is the slash-joined
    form of its own segments. *)
Theorem dirname_and_basename_split_the_segments (path : string) :
  match dirname path with
  | None => pathSegments path = []
  | Some parent =>
      exists name,
        basename path = Some name
        /\ pathSegments path = pathSegments parent ++ [name]
        /\ join (pathSegments parent) = parent
  end.
Proof.
  pose proof (segments_separatorFree path) as Hfree.
  pose proof (segments_nonEmpty path) as Hne.
  unfold dirname, basename.
  destruct (pathSegments path) as [| s l] eqn:Hsegs; [done |].
  assert (Hpath : path <> EmptyString) by (intros ->; done).
  rewrite bool_decide_eq_false_2 by done.
  destruct (exists_last (l := s :: l)) as (front & name & Heq); [done |].
  rewrite Heq in *. rewrite removelast_last.
  apply Forall_app in Hfree as [Hfree _]. apply Forall_app in Hne as [Hne _].
  exists name. rewrite last_snoc, pathSegments_join by done. done.
Qed.

(** X2.  [relativePath(subPath, path)] throws exactly when
    [isSubPath(subPath, path)] is false.  When it returns, the segments of
    [subPath] are those of [path] followed by those of the result.
    [isChildPath(subPath, path)] is true exactly when [subPath] is a
    sub-path of [path] and has at most one segment more than [path]. *)
Theorem relativePath_completes_the_segments (subPath path : string) :
  match relativePath subPath path with
  | inr relative =>
      isSubPath subPath path = true
      /\ pathSegments subPath = pathSegments path ++ pathSegments relative
  | inl _ => isSubPath subPath path = false
  end
  /\ isChildPath subPath path
     = isSubPath subPath path
       && bool_decide (length (pathSegments subPath)
                       <= S (length (pathSegments path)))%nat.
Proof.
  unfold isChildPath, relativePath.
  destruct (isSubPath subPath path) eqn:Hsub; [| done]. cbn [negb andb].
  destruct (isSubPath_segments _ _ Hsub) as [rest Hrest].
  rewrite Hrest. rewrite drop_app_length. split_and!.
  - done.
  - rewrite pathSegments_join;
      [done | apply segments_separatorFree | apply segments_nonEmpty].
  - rewrite hasNoSlash_join by apply segments_separatorFree.
    rewrite length_app. apply bool_decide_ext. lia.
Qed.

End PathHelpers.

(** ** utils: what the buffer helpers compute *)

Section BufferHelpers.
Import Utils.

Lemma slice_range (b : list byte) (start stop : Z) :
  0 <= start <= byteLength b -> start <= stop ->
  slice b start stop
  = take (Z.to_nat (Z.min stop (byteLength b) - start)) (drop (Z.to_nat start) b).
Proof.
  intros Hs He. unfold slice, relativeIndex.
  rewrite !bool_decide_eq_false_2 by lia.
  by replace (Z.min start (byteLength b)) with start by lia.
Qed.

Lemma copyArrayBuffer_in_range
    (source destination : list byte) (options : CopyArrayBufferOptions) :
  let start := default 0 (sourceStartOffset options) in
  let stop := default (byteLength source) (sourceEndOffset options) in
  let offset := default 0 (destinationOffset options) in
  let count := copiedCount source destination options in
  0 <= start <= byteLength source -> start <= stop ->
  0 <= offset <= byteLength destination ->
  copyArrayBuffer source destination options
  = inr (take (Z.to_nat offset) destination
         ++ take (Z.to_nat count) (drop (Z.to_nat start) source)
         ++ drop (Z.to_nat (offset + count)) destination,
         count).
Proof.
  intros start stop offset count Hstart Hstop Hoff.
  pose proof (byteLength_nonneg source) as Hsrc.
  pose proof (byteLength_nonneg destination) as Hdst.
  unfold copyArrayBuffer. fold start stop offset.
  rewrite (bool_decide_eq_false_2 (start < 0)) by lia.
  rewrite (bool_decide_eq_false_2 (start > byteLength source)) by lia.
  cbn [orb].
  rewrite (bool_decide_eq_false_2 (stop < start)) by lia.
  rewrite (bool_decide_eq_false_2 (offset < 0)) by lia.
  rewrite (bool_decide_eq_false_2 (offset > byteLength destination)) by lia.
  cbn [orb].
  set (sliceEnd := if bool_decide (stop - start > byteLength destination - offset)
                   then stop - (stop - start - (byteLength destination - offset))
                   else stop).
  assert (HsliceEnd : start <= sliceEnd
                      /\ Z.min sliceEnd (byteLength source) - start = count).
  { unfold sliceEnd, count, copiedCount. fold start stop offset.
    case_bool_decide; lia. }
  destruct HsliceEnd as [Hle Hcount].
  set (chunk := if negb (bool_decide (start = 0))
                   || bool_decide (sliceEnd < byteLength source)
                then slice source start sliceEnd else source).
  assert (Hchunk : chunk = take (Z.to_nat count) (drop (Z.to_nat start) source)).
  { unfold chunk.
    destruct (negb (bool_decide (start = 0))
              || bool_decide (sliceEnd < byteLength source)) eqn:Hcase.
    - rewrite slice_range by lia. by rewrite Hcount.
    - apply orb_false_iff in Hcase as [H0 Hall].
      apply negb_false_iff, bool_decide_eq_true in H0.
      apply bool_decide_eq_false in Hall.
      rewrite H0. change (Z.to_nat 0) with 0%nat. rewrite drop_0.
      symmetry. apply take_ge. unfold byteLength in *. lia. }
  assert (Hlen : byteLength chunk = count).
  { rewrite Hchunk. unfold byteLength in *.
    rewrite length_take, length_drop. lia. }
  assert (Hfits : 0 <= count <= byteLength destination - offset)
    by (unfold count, copiedCount; fold start stop offset; lia).
  rewrite typedArraySet_ok by lia. cbn [bindE]. rewrite Hlen.
  rewrite <- Hchunk.
  replace (Z.to_nat offset + length chunk)%nat with (Z.to_nat (offset + count));
    [done |].
  clearbody chunk count sliceEnd start stop offset.
  unfold byteLength in Hlen. lia.
Qed.

(** X3.  When its offsets are in range (the source start within the source,
    the source end not before the start, the destination offset within
    the destination), [copyArrayBuffer] copies as many bytes as the range
    has, as the source has from the start, and as the destination has room
    for from its offset, whichever is least.  It returns that number, and
    the destination holds the copied bytes at the offset and its old bytes
    elsewhere.  With an offset out of range it throws a [RangeError]. *)
Theorem copyArrayBuffer_copies_what_fits
    (source destination : list byte) (options : CopyArrayBufferOptions) :
  let start := default 0 (sourceStartOffset options) in
  let stop := default (byteLength source) (sourceEndOffset options) in
  let offset := default 0 (destinationOffset options) in
  let count :=
    Z.min (Z.min (stop - start) (byteLength source - start))
          (byteLength destination - offset) in
  if bool_decide (0 <= start <= byteLength source)
     && bool_decide (start <= stop)
     && bool_decide (0 <= offset <= byteLength destination)
  then
    copyArrayBuffer source destination options
    = inr (take (Z.to_nat offset) destination
           ++ take (Z.to_nat count) (drop (Z.to_nat start) source)
           ++ drop (Z.to_nat (offset + count)) destination,
           count)
  else
    exists message,
      copyArrayBuffer source destination options = inl (RangeError message).
Proof.
  intros start stop offset count.
  case_bool_decide as Hstart; cbn [andb].
  2:{ unfold copyArrayBuffer. fold start stop offset.
      destruct (bool_decide (start < 0)) eqn:H1; cbn [orb]; [by eexists |].
      apply bool_decide_eq_false in H1.
      rewrite bool_decide_eq_true_2 by lia. by eexists. }
  case_bool_decide as Hstop; cbn [andb].
  2:{ unfold copyArrayBuffer. fold start stop offset.
      rewrite (bool_decide_eq_false_2 (start < 0)) by lia.
      rewrite (bool_decide_eq_false_2 (start > byteLength source)) by lia.
      cbn [orb]. rewrite bool_decide_eq_true_2 by lia. by eexists. }
  case_bool_decide as Hoff; cbn [andb].
  2:{ unfold copyArrayBuffer. fold start stop offset.
      rewrite (bool_decide_eq_false_2 (start < 0)) by lia.
      rewrite (bool_decide_eq_false_2 (start > byteLength source)) by lia.
      cbn [orb]. rewrite (bool_decide_eq_false_2 (stop < start)) by lia.
      destruct (bool_decide (offset < 0)) eqn:H1; cbn [orb]; [by eexists |].
      apply bool_decide_eq_false in H1.
      rewrite bool_decide_eq_true_2 by lia. by eexists. }
  by apply copyArrayBuffer_in_range.
Qed.

(** X4.  [concatArrayBuffers] returns the bytes of the underlying buffers
    of its sources, one after the other: all bytes of an [ArrayBuffer],
    and for a view all bytes of the buffer it is a view on, whatever part
    of it the view shows.  So the result is the bytes that the sources
    show, one after the other, when every view shows all of its buffer.
    [appendNullBytes(buffer, count)] returns the bytes of the
    [ArrayBuffer] [buffer] followed by [count] zero bytes, and throws a
    [RangeError] when [count] is negative. *)
Theorem concatArrayBuffers_joins_the_underlying_buffers
    (bufferSources : list BufferSource) :
  concatArrayBuffers bufferSources
  = inr (concat (List.map bufferOf bufferSources))
  /\ (forall buffer offset length,
        concatArrayBuffers [ArrayBufferView buffer offset length]
        = inr buffer)
  /\ (Forall (fun source => bytesOf source = bufferOf source) bufferSources ->
      concatArrayBuffers bufferSources
      = inr (concat (List.map bytesOf bufferSources)))
  /\ (forall buffer count,
        if bool_decide (count < 0)
        then exists message,
               appendNullBytes buffer count = inl (RangeError message)
        else appendNullBytes buffer count
             = inr (buffer ++ replicate (Z.to_nat count) Byte.x00)).
Proof.
  split_and!.
  - apply concatArrayBuffers_ok.
  - intros buffer offset length. rewrite concatArrayBuffers_ok.
    cbn [List.map concat bufferOf]. by rewrite app_nil_r.
  - intros Hall. rewrite concatArrayBuffers_ok. do 2 f_equal.
    apply map_ext_Forall. eapply Forall_impl; [exact Hall |].
    intros source Hsource. by symmetry.
  - intros buffer count. case_bool_decide as Hc.
    + unfold appendNullBytes, newArrayBuffer.
      rewrite bool_decide_eq_true_2 by done. by eexists.
    + apply appendNullBytes_ok. lia.
Qed.

End BufferHelpers.

(** ** FileSystem: directories *)

Section Directories.
Import Utils FileSystem.

Lemma wellFormed_invariant (fs : t) : wellFormed fs <-> invariant false fs.
Proof. unfold invariant. split; [intros H; by split | by intros [H _]]. Qed.

(** One call of [makeDirectory], after its first check. *)
Lemma makeDirectoryRec_step (fuel : nat) (path : string) (recursive : bool)
    (fs : t) :
  exists_ fs path = false ->
  makeDirectoryRec (S fuel) path recursive fs
  = match
      (match dirname path with
       | Some dirName =>
           if nonEmpty dirName then
             if negb (exists_ fs dirName) then
               if negb recursive then
                 throw (TypeError "Set 'recursive' option to true for recursive directory creation.")
               else
                 (_ <- makeDirectoryRec fuel dirName recursive ;; ret tt)%M
             else if negb (isDirectory fs dirName) then
               throw (TypeError
                        (dq +:+ dirName +:+ dq +:+ " is not directory path."))
             else ret tt
           else ret tt
       | None => ret tt
       end) fs
    with
    | (Ok _, fs1) =>
        (Ok (nextRef fs1),
         setRegistry <[path := nextRef fs1]>
           (snd (alloc (DirectoryDescriptor path) fs1)))
    | (Throw e, fs1) => (Throw e, fs1)
    | (Diverges, fs1) => (Diverges, fs1)
    end.
Proof.
  intros Hfree. cbn [makeDirectoryRec].
  rewrite (bind_ok _ _ _ _ _ (get_eq fs)). rewrite Hfree.
  unfold bind at 1.
  match goal with
  | |- (let '(o, s') := ?m fs in _) = _ =>
      by destruct (m fs) as [[[] | e |] fs1]
  end.
Qed.

(** A [makeDirectory] that does not return has changed nothing. *)
Lemma makeDirectoryRec_atomic (fuel : nat) (path : string) (recursive : bool)
    (fs : t) :
  match makeDirectoryRec fuel path recursive fs with
  | (Ok _, _) => True
  | (_, fs') => fs' = fs
  end.
Proof.
  revert path fs. induction fuel as [| fuel IH]; intros path fs; [done |].
  destruct (exists_ fs path) eqn:Hex.
  { cbn [makeDirectoryRec]. rewrite (bind_ok _ _ _ _ _ (get_eq fs)).
    by rewrite Hex. }
  rewrite makeDirectoryRec_step by done.
  destruct (dirname path) as [dirName |]; [| done].
  destruct (nonEmpty dirName); [| done].
  destruct (exists_ fs dirName); cbn [negb].
  - by destruct (isDirectory fs dirName).
  - destruct recursive; cbn [negb]; [| done].
    unfold bind. specialize (IH dirName fs).
    by destruct (makeDirectoryRec fuel dirName true fs) as [[d | e |] fs1].
Qed.

(** X5.  [makeDirectory] returns or throws, and when it throws, also out of
    a recursive call, it leaves the file system as it was. *)
Theorem makeDirectory_is_all_or_nothing (path : string) (recursive : bool)
    (fs : t) :
  (exists d, fst (makeDirectory path recursive fs) = Ok d)
  \/ (exists e, fst (makeDirectory path recursive fs) = Throw e)
     /\ snd (makeDirectory path recursive fs) = fs.
Proof.
  pose proof (makeDirectory_total path recursive fs) as Htotal.
  pose proof (makeDirectoryRec_atomic (S (length (pathSegments path))) path
                recursive fs) as Hatomic.
  unfold makeDirectory in *.
  destruct (makeDirectoryRec _ path recursive fs) as [[d | e |] fs'];
    cbn [fst snd] in *.
  - left. by exists d.
  - right. split; [by exists e | done].
  - done.
Qed.

Lemma keeps_refl (fs : t) : keeps fs fs.
Proof. unfold keeps. by split_and!. Qed.

Lemma addsDirectories_refl (fs : t) : addsDirectories fs fs.
Proof. intros q r Hq Hq'. congruence. Qed.

Lemma keeps_trans (fs1 fs2 fs3 : t) :
  keeps fs1 fs2 -> keeps fs2 fs3 -> keeps fs1 fs3.
Proof.
  intros (Hr1 & Hh1 & Hd1 & Hs1 & Hn1) (Hr2 & Hh2 & Hd2 & Hs2 & Hn2).
  unfold keeps. split_and!.
  - intros p r Hp. by apply Hr2, Hr1.
  - intros r Hr. rewrite Hh2 by lia. by apply Hh1.
  - congruence.
  - congruence.
  - lia.
Qed.

Lemma isDirectory_kept (fs fs' : t) (p : string) :
  wellFormed fs -> keeps fs fs' ->
  isDirectory fs p = true -> isDirectory fs' p = true.
Proof.
  intros Hwf (Hreg & Hheap & _). unfold isDirectory.
  destruct (registry fs !! p) as [r |] eqn:Hr; [| done].
  rewrite (Hreg p r Hr). rewrite Hheap; [done |].
  by apply (registered_lt fs p r).
Qed.

Lemma exists_isDirectory (fs : t) (p : string) :
  wellFormed fs -> exists_ fs p = true -> isFile fs p = false ->
  isDirectory fs p = true.
Proof.
  intros Hwf Hex. unfold exists_ in Hex. apply bool_decide_eq_true in Hex.
  destruct Hex as [r Hr]. unfold isFile, isDirectory. rewrite Hr.
  destruct (wf_path fs Hwf p r Hr) as (d & -> & _). by destruct d.
Qed.

Lemma exists_false (fs : t) (p : string) :
  exists_ fs p = false <-> registry fs !! p = None.
Proof.
  unfold exists_. rewrite bool_decide_eq_false.
  rewrite <- eq_None_not_Some. done.
Qed.

(** The registration that ends [makeDirectory]. *)
Lemma register_new_directory (fs1 : t) (path : string) :
  wellFormed fs1 ->
  let fs' := setRegistry <[path := nextRef fs1]>
               (snd (alloc (DirectoryDescriptor path) fs1)) in
  wellFormed fs'
  /\ registry fs' = <[path := nextRef fs1]> (registry fs1)
  /\ heap fs' = <[nextRef fs1 := DirectoryDescriptor path]> (heap fs1)
  /\ (registry fs1 !! path = None -> keeps fs1 fs').
Proof.
  intros Hwf fs'. split_and!.
  - apply wellFormed_invariant.
    apply (register_directory false). 
    pose proof (alloc_fresh false (DirectoryDescriptor path) fs1
                  (proj1 (wellFormed_invariant fs1) Hwf)) as Hfresh.
    exact Hfresh.
  - done.
  - done.
  - intros Hfree. unfold keeps. split_and!; try done.
    + intros p r Hp. cbn. rewrite lookup_insert_ne; [done |].
      intros <-. congruence.
    + intros r Hr. cbn. rewrite lookup_insert_ne; [done | lia].
    + cbn. lia.
Qed.

Lemma join_nonEmpty (l : list string) :
  l <> [] -> Forall (fun s => nonEmpty s = true) l -> nonEmpty (join l) = true.
Proof.
  destruct l as [| s l]; [done |]. intros _ [Hs _]%Forall_cons.
  destruct l as [| s' l]; cbn [join]; [done |].
  destruct s; [done | done].
Qed.

Lemma dirname_ancestor (path dirName : string) :
  dirname path = Some dirName ->
  dirName = ancestor (pred (length (pathSegments path))) path
  /\ (nonEmpty dirName = true -> (2 <= length (pathSegments path))%nat)
  /\ forall k, (k < length (pathSegments path))%nat ->
               ancestor k dirName = ancestor k path.
Proof.
  intros Hd. pose proof (pathSegments_dirname _ _ Hd) as Hsegs.
  unfold ancestor. rewrite Hsegs. unfold dirname in Hd.
  destruct (pathSegments path) as [| s l] eqn:Hpath; [done |].
  assert (dirName = join (removelast (s :: l))) as -> by congruence.
  clear Hd Hsegs. rewrite removelast_firstn_len. cbn [length pred].
  split_and!.
  - done.
  - destruct l as [| s' l]; [done |]. cbn [length]. lia.
  - intros k Hk. rewrite take_take. f_equal. f_equal. lia.
Qed.

(** What a recursive [makeDirectory] does where no ancestor of the path is
    a file. *)
Lemma makeDirectoryRec_creates (fuel : nat) (path : string) (fs : t) :
  wellFormed fs -> (length (pathSegments path) < fuel)%nat ->
  exists_ fs path = false ->
  (forall k, (0 < k < length (pathSegments path))%nat ->
             isFile fs (ancestor k path) = false) ->
  exists d fs',
    makeDirectoryRec fuel path true fs = (Ok d, fs')
    /\ wellFormed fs'
    /\ registry fs' !! path = Some d
    /\ heap fs' !! d = Some (DirectoryDescriptor path)
    /\ keeps fs fs'
    /\ addsDirectories fs fs'.
Proof.
  revert path fs. induction fuel as [| fuel IH]; intros path fs Hwf Hfuel
    Hfree Hfiles; [lia |].
  rewrite makeDirectoryRec_step by done.
  (* the state and the facts after the step that looks at the parent *)
  assert (Hstep : exists fs1,
    (match dirname path with
     | Some dirName =>
         if nonEmpty dirName then
           if negb (exists_ fs dirName) then
             if negb true then
               throw (TypeError "Set 'recursive' option to true for recursive directory creation.")
             else (_ <- makeDirectoryRec fuel dirName true ;; ret tt)%M
           else if negb (isDirectory fs dirName) then
             throw (TypeError
                      (dq +:+ dirName +:+ dq +:+ " is not directory path."))
           else ret tt
         else ret tt
     | None => ret tt
     end) fs = (Ok tt, fs1)
    /\ wellFormed fs1 /\ keeps fs fs1 /\ addsDirectories fs fs1
    /\ forall dirName, dirname path = Some dirName ->
         nonEmpty dirName = true -> isDirectory fs1 dirName = true).
  { destruct (dirname path) as [dirName |] eqn:Hd.
    2:{ exists fs.
        split_and!; [done | done | apply keeps_refl
                    | apply addsDirectories_refl | done]. }
    destruct (dirname_ancestor _ _ Hd) as (Hanc & Hlen & Hancs).
    destruct (nonEmpty dirName) eqn:Hne.
    2:{ exists fs.
        split_and!; [done | done | apply keeps_refl
                    | apply addsDirectories_refl |].
        intros d' [= <-]. congruence. }
    specialize (Hlen eq_refl).
    destruct (exists_ fs dirName) eqn:Hex; cbn [negb].
    - assert (Hdir : isDirectory fs dirName = true).
      { apply exists_isDirectory; [done | done |].
        rewrite Hanc. apply Hfiles. lia. }
      rewrite Hdir. cbn [negb]. exists fs.
      split_and!; [done | done | apply keeps_refl
                  | apply addsDirectories_refl |].
      by intros d' [= <-].
    - pose proof (length_dirname _ _ Hd) as Hshorter.
      destruct (IH dirName fs Hwf) as (d1 & fs1 & Hrun & Hwf1 & Hreg1 & Hheap1
                                       & Hkeeps1 & Hadds1); [lia | done | |].
      { intros k Hk. rewrite Hancs by lia. apply Hfiles. lia. }
      exists fs1. unfold bind. rewrite Hrun.
      split_and!; [done | done | done | done |].
      intros d' [= <-] _. unfold isDirectory. by rewrite Hreg1, Hheap1. }
  destruct Hstep as (fs1 & -> & Hwf1 & Hkeeps1 & Hadds1 & Hparent).
  destruct (register_new_directory fs1 path Hwf1)
    as (Hwf' & Hreg' & Hheap' & Hkeeps').
  set (fs' := setRegistry _ _) in *.
  exists (nextRef fs1), fs'. split; [done |]. split; [done |].
  split; [rewrite Hreg'; apply lookup_insert_eq |].
  split; [rewrite Hheap'; apply lookup_insert_eq |].
  assert (Hne1 : forall r, is_Some (heap fs1 !! r) -> r <> nextRef fs1).
  { intros r Hr ->. pose proof (wf_heap fs1 Hwf1 _ Hr). lia. }
  assert (Hdir' : forall p, isDirectory fs1 p = true ->
                            isDirectory fs' p = true).
  { intros p. unfold isDirectory. rewrite Hreg', Hheap'.
    destruct (decide (path = p)) as [<- | Hp].
    - intros _. by rewrite !lookup_insert_eq.
    - rewrite lookup_insert_ne by done.
      destruct (registry fs1 !! p) as [r |] eqn:Hr; [| done].
      destruct (heap fs1 !! r) as [d |] eqn:Hd; [| done].
      rewrite lookup_insert_ne; [by rewrite Hd |].
      intros <-. by apply (Hne1 (nextRef fs1)). }
  apply exists_false in Hfree.
  destruct Hkeeps1 as (Hr1 & Hh1 & Hd1 & Hs1 & Hn1).
  split.
  - unfold keeps. split_and!.
    + intros p r Hp. rewrite Hreg'. rewrite lookup_insert_ne.
      * by apply Hr1.
      * intros <-. congruence.
    + intros r Hr. rewrite Hheap'. rewrite lookup_insert_ne by lia.
      by apply Hh1.
    + done.
    + done.
    + cbn. lia.
  - intros q r Hq Hq'. rewrite Hreg' in Hq'.
    destruct (decide (path = q)) as [<- | Hp].
    + rewrite lookup_insert_eq in Hq'. injection Hq' as <-.
      split; [rewrite Hheap'; apply lookup_insert_eq |].
      intros parent Hd Hne. apply Hdir'. by apply Hparent.
    + rewrite lookup_insert_ne in Hq' by done.
      destruct (Hadds1 q r Hq Hq') as [Hheap Hpar]. split.
      * rewrite Hheap'. rewrite lookup_insert_ne; [done |].
        intros <-. apply (Hne1 (nextRef fs1)); [by eexists | done].
      * intros parent Hd Hne. apply Hdir'. by apply Hpar.
Qed.

(** X6.  In a well-formed file system, when [path] is not registered and no
    path made of the first segments of [path] (some, not all) is a file,
    [makeDirectory(path, { recursive: true })] returns a new directory
    descriptor, registered at [path].  It keeps the registered entries,
    the content store and the disk size, and every entry it adds is a
    directory whose parent, unless that is the root, is a directory. *)
Theorem makeDirectory_recursive_adds_directories_only (path : string)
    (fs : t) :
  wellFormed fs -> exists_ fs path = false ->
  (forall k, (0 < k < length (pathSegments path))%nat ->
             isFile fs (ancestor k path) = false) ->
  exists d fs',
    makeDirectory path true fs = (Ok d, fs')
    /\ registry fs' !! path = Some d
    /\ heap fs' !! d = Some (DirectoryDescriptor path)
    /\ keeps fs fs'
    /\ addsDirectories fs fs'.
Proof.
  intros Hwf Hfree Hfiles.
  destruct (makeDirectoryRec_creates (S (length (pathSegments path))) path fs)
    as (d & fs' & Hrun & _ & H); try done; [lia |].
  by exists d, fs'.
Qed.

Lemma makeDirectory_recursive_adds_directories_only_witness :
  exists d fs',
    makeDirectory "a/b/c" true (new Infinity) = (Ok d, fs')
    /\ registry fs' !! "a/b/c" = Some d
    /\ isDirectory fs' "a/b" = true.
Proof.
  destruct (makeDirectory_recursive_adds_directories_only "a/b/c"
              (new Infinity)) as (d & fs' & Hrun & Hreg & _ & _ & Hadds).
  - apply (run_wellFormed Infinity []).
  - reflexivity.
  - intros k _. apply isFile_new.
  - exists d, fs'. split; [exact Hrun |]. split; [exact Hreg |].
    destruct (Hadds "a/b/c" d) as [_ Hparent]; [reflexivity | exact Hreg |].
    apply (Hparent "a/b"); reflexivity.
Defined.

End Directories.

(** ** FileSystem: files *)

Section Files.
Import Utils FileSystem.

Lemma allocateFile_ok (now : Z) (r : ref) (fs : t) :
  0 <= sizeOf fs r -> gt_num (sizeOf fs r) (getFreeDiskSpace fs) = false ->
  allocateFile now r fs
  = (Ok tt,
     setHeap (alter (assignLastModified now) r)
       (setDisk <[r := zeros (sizeOf fs r)]> fs)).
Proof.
  intros Hsize Hfree. unfold allocateFile.
  rewrite (bind_ok _ _ _ _ _ (get_eq fs)). rewrite Hfree.
  rewrite newArrayBuffer_ok by done.
  by rewrite (bind_ok _ _ _ _ _ (liftE_inr _ fs)).
Qed.

Lemma getFreeDiskSpace_keeps (fs fs' : t) :
  disk fs' = disk fs -> diskSize fs' = diskSize fs ->
  getFreeDiskSpace fs' = getFreeDiskSpace fs.
Proof.
  intros Hd Hs. unfold getFreeDiskSpace, getUsedDiskSpace. by rewrite Hd, Hs.
Qed.

(** What [createFile] does when the path is free, no ancestor of its
    parent is a file, and the size fits. *)
Lemma createFile_creates (now : Z) (path : string) (size : option Z)
    (fs : t) :
  wellFormed fs -> exists_ fs path = false ->
  (forall k, (0 < k < pred (length (pathSegments path)))%nat ->
             isFile fs (ancestor k path) = false) ->
  0 <= default 0 size ->
  gt_num (default 0 size) (getFreeDiskSpace fs) = false ->
  exists r fs',
    createFile now path size fs = (Ok r, fs')
    /\ wellFormed fs'
    /\ registry fs' !! path = Some r
    /\ heap fs' !! r = Some (FileDescriptor path (default 0 size) (Some now))
    /\ disk fs !! r = None
    /\ disk fs' = <[r := zeros (default 0 size)]> (disk fs)
    /\ diskSize fs' = diskSize fs
    /\ (forall p r0, registry fs !! p = Some r0 ->
                     registry fs' !! p = Some r0)
    /\ (nextRef fs <= r)%nat
    /\ (forall r0, (r0 < nextRef fs)%nat -> heap fs' !! r0 = heap fs !! r0).
Proof.
  intros Hwf Hfree Hfiles Hsize Hroom. unfold createFile.
  rewrite (bind_ok _ _ _ _ _ (get_eq fs)). rewrite Hfree.
  set (sz := default 0 size) in *.
  assert (Hstep : exists fs1,
    (match dirname path with
     | Some dirName =>
         if nonEmpty dirName && negb (exists_ fs dirName)
         then (_ <- makeDirectory dirName true ;; ret tt)%M
         else ret tt
     | None => ret tt
     end) fs = (Ok tt, fs1)
    /\ wellFormed fs1 /\ keeps fs fs1).
  { destruct (dirname path) as [dirName |] eqn:Hd;
      [| exists fs; split_and!; [done | done | apply keeps_refl]].
    destruct (nonEmpty dirName && negb (exists_ fs dirName)) eqn:Hcase;
      [| exists fs; split_and!; [done | done | apply keeps_refl]].
    apply andb_true_iff in Hcase as [Hne Hmissing].
    apply negb_true_iff in Hmissing.
    destruct (dirname_ancestor _ _ Hd) as (Hanc & Hlen & Hancs).
    pose proof (length_dirname _ _ Hd) as Hshorter.
    destruct (makeDirectoryRec_creates (S (length (pathSegments dirName)))
                dirName fs Hwf)
      as (d & fs1 & Hrun & Hwf1 & _ & _ & Hkeeps & _); [lia | done | |].
    { intros k Hk. rewrite Hancs by lia. apply Hfiles. lia. }
    exists fs1. unfold bind, makeDirectory. by rewrite Hrun. }
  destruct Hstep as (fs1 & Hstep & Hwf1 & Hr1 & Hh1 & Hd1 & Hs1 & Hn1).
  rewrite (bind_ok _ _ _ _ _ Hstep).
  set (r := nextRef fs1).
  set (fs2 := snd (alloc (FileDescriptor path sz None) fs1)).
  rewrite (bind_ok _ _ fs1 fs2 r) by done.
  pose proof (alloc_fresh false (FileDescriptor path sz None) fs1
                (proj1 (wellFormed_invariant fs1) Hwf1)) as Hfresh.
  change (alloc (FileDescriptor path sz None) fs1) with (Ok r, fs2) in Hfresh.
  cbn beta iota in Hfresh.
  assert (Hsz : sizeOf fs2 r = sz).
  { unfold sizeOf. by destruct Hfresh as (_ & -> & _). }
  assert (Hfree2 : getFreeDiskSpace fs2 = getFreeDiskSpace fs).
  { rewrite <- (getFreeDiskSpace_keeps fs fs1) by done. done. }
  rewrite (bind_ok _ _ _ _ _ (allocateFile_ok now r fs2
             ltac:(by rewrite Hsz) ltac:(by rewrite Hsz, Hfree2))).
  rewrite Hsz.
  set (fs3 := setHeap _ _).
  rewrite (bind_ok _ _ fs3 (setRegistry <[path := r]> fs3) tt) by done.
  exists r, (setRegistry <[path := r]> fs3). split; [done |].
  apply exists_false in Hfree.
  split_and!.
  - apply wellFormed_invariant. apply (register_file false); try done.
    by rewrite Hfree2.
  - cbn. apply lookup_insert_eq.
  - cbn. rewrite lookup_alter_eq, lookup_insert_eq. done.
  - rewrite <- Hd1. apply Hfresh.
  - cbn. by rewrite Hd1.
  - cbn. done.
  - intros p r0 Hp. cbn.
    rewrite lookup_insert_ne; [by apply Hr1 |]. intros <-. congruence.
  - done.
  - intros r0 Hlt. cbn.
    rewrite lookup_alter_ne by (unfold r; lia).
    rewrite lookup_insert_ne by (unfold r; lia). by apply Hh1.
Qed.

Lemma readFile_eq (d : ref) (fs : t) :
  readFile d fs
  = match disk fs !! d with
    | Some buffer => (Ok buffer, fs)
    | None => (Throw (notFound "No file for given descriptor was found."), fs)
    end.
Proof.
  unfold readFile. rewrite (bind_ok _ _ _ _ _ (get_eq fs)).
  by destruct (disk fs !! d).
Qed.

Lemma isFile_lookup (fs : t) (path : string) :
  isFile fs path = true <->
  exists r p size m, registry fs !! path = Some r
                     /\ heap fs !! r = Some (FileDescriptor p size m).
Proof.
  unfold isFile. split.
  - destruct (registry fs !! path) as [r |]; [| done].
    destruct (heap fs !! r) as [[p | p size m] |] eqn:Hd; try done.
    intros _. by exists r, p, size, m.
  - intros (r & p & size & m & -> & ->). done.
Qed.

(** X7.  In a well-formed file system, when [path] is not registered, no
    path made of the first segments of its parent (some, not all) is a
    file, and the size (0 when absent) is a whole number, not negative and
    not more than the free space, [createFile(path, { size })] returns a
    valid descriptor, registered at [path] as a file.  The file has the
    size asked for and reads as that many zero bytes, the used space has
    grown by the size, and the entries registered before are kept.  A size
    with a fraction is not covered. *)
Theorem createFile_creates_a_zero_filled_file (now : Z) (path : string)
    (size : option Z) (fs : t) :
  wellFormed fs -> exists_ fs path = false ->
  (forall k, (0 < k < pred (length (pathSegments path)))%nat ->
             isFile fs (ancestor k path) = false) ->
  0 <= default 0 size ->
  gt_num (default 0 size) (getFreeDiskSpace fs) = false ->
  exists r fs',
    createFile now path size fs = (Ok r, fs')
    /\ isFile fs' path = true
    /\ isValidDescriptor fs' r = true
    /\ getFileSize fs' path = Some (default 0 size)
    /\ readFile r fs' = (Ok (zeros (default 0 size)), fs')
    /\ getUsedDiskSpace fs' = getUsedDiskSpace fs + default 0 size
    /\ (forall p r0, registry fs !! p = Some r0 ->
                     registry fs' !! p = Some r0).
Proof.
  intros Hwf Hfree Hfiles Hsize Hroom.
  destruct (createFile_creates now path size fs Hwf Hfree Hfiles Hsize Hroom)
    as (r & fs' & Hrun & Hwf' & Hreg & Hheap & Hnew & Hdisk & Hds & Hkept
        & _).
  exists r, fs'. split; [done |].
  assert (Hr : disk fs' !! r = Some (zeros (default 0 size)))
    by (rewrite Hdisk; apply lookup_insert_eq).
  split_and!.
  - apply isFile_lookup. by eexists _, _, _, _.
  - unfold isValidDescriptor, getDescriptor. rewrite Hheap. cbn [fullPath].
    by apply bool_decide_eq_true.
  - unfold getFileSize, getDescriptor. rewrite Hreg, Hheap, Hr. cbn.
    f_equal. unfold zeros. by apply byteLength_replicate.
  - by rewrite readFile_eq, Hr.
  - rewrite !getUsedDiskSpace_usedOf, Hdisk.
    rewrite usedOf_insert_fresh by done. f_equal.
    unfold zeros. by apply byteLength_replicate.
  - intros p r0 Hp. by apply Hkept.
Qed.

Lemma createFile_creates_a_zero_filled_file_witness :
  exists r fs',
    createFile 7 "a/b" (Some 4) (new (Fin 16)) = (Ok r, fs')
    /\ readFile r fs'
       = (Ok [Byte.x00; Byte.x00; Byte.x00; Byte.x00], fs')
    /\ getUsedDiskSpace fs' = 4.
Proof.
  destruct (createFile_creates_a_zero_filled_file 7 "a/b" (Some 4)
              (new (Fin 16)))
    as (r & fs' & Hrun & _ & _ & _ & Hread & Hused & _).
  - apply (run_wellFormed (Fin 16) []).
  - reflexivity.
  - intros k _. apply isFile_new.
  - simpl. lia.
  - reflexivity.
  - exists r, fs'. split; [exact Hrun |]. split; [exact Hread | exact Hused].
Defined.

Lemma writeFile_missing (now : Z) (d : ref) (data : list byte) (fs : t) :
  disk fs !! d = None ->
  writeFile now d data fs
  = (Throw (notFound "No allocated memory for given descriptor."), fs).
Proof.
  intros Hd. unfold writeFile. rewrite (bind_ok _ _ _ _ _ (get_eq fs)).
  rewrite Hd. by rewrite bool_decide_eq_false_2 by (by intros [? ?]).
Qed.

Lemma writeFile_ok (now : Z) (d : ref) (data old : list byte) (fs : t) :
  disk fs !! d = Some old ->
  gt_num (byteLength data) (num_add (getFreeDiskSpace fs) (byteLength old))
  = false ->
  writeFile now d data fs
  = (Ok tt,
     setHeap (alter (assignLastModified now) d)
       (setHeap (alter (assignSize (byteLength data)) d)
          (setDisk <[d := data]> fs))).
Proof.
  intros Hd Hroom. unfold writeFile. rewrite (bind_ok _ _ _ _ _ (get_eq fs)).
  rewrite Hd. rewrite bool_decide_eq_true_2 by (by eexists). cbn [negb].
  by rewrite Hroom.
Qed.

(** X8.  For a descriptor without a record in the content store, [writeFile]
    and [readFile] throw a [NotFoundError] and change nothing.  For one
    with a record, [writeFile(descriptor, data)] throws a [RangeError] and
    changes nothing when [data] is longer than the free space plus the old
    record; otherwise it returns, [readFile] then returns [data], the used
    space has changed by the difference of the lengths, the descriptor has
    the new size and modification time, and the registry, the disk size
    and the other records and descriptors are as before. *)
Theorem writeFile_then_readFile (now : Z) (d : ref) (data : list byte)
    (fs : t) :
  match disk fs !! d with
  | None =>
      writeFile now d data fs
      = (Throw (notFound "No allocated memory for given descriptor."), fs)
      /\ readFile d fs
         = (Throw (notFound "No file for given descriptor was found."), fs)
  | Some old =>
      if gt_num (byteLength data)
                (num_add (getFreeDiskSpace fs) (byteLength old))
      then exists message,
             writeFile now d data fs = (Throw (RangeError message), fs)
      else exists fs',
             writeFile now d data fs = (Ok tt, fs')
             /\ readFile d fs' = (Ok data, fs')
             /\ getUsedDiskSpace fs'
                = getUsedDiskSpace fs - byteLength old + byteLength data
             /\ (forall p size m,
                   heap fs !! d = Some (FileDescriptor p size m) ->
                   heap fs' !! d
                   = Some (FileDescriptor p (byteLength data) (Some now)))
             /\ registry fs' = registry fs
             /\ diskSize fs' = diskSize fs
             /\ forall d', d' <> d ->
                  disk fs' !! d' = disk fs !! d'
                  /\ heap fs' !! d' = heap fs !! d'
  end.
Proof.
  unfold writeFile. rewrite (bind_ok _ _ _ _ _ (get_eq fs)).
  rewrite readFile_eq.
  destruct (disk fs !! d) as [old |] eqn:Hold.
  2:{ by rewrite bool_decide_eq_false_2 by (by intros [? ?]). }
  rewrite bool_decide_eq_true_2 by (by eexists). cbn [negb].
  destruct (gt_num _ _); [by eexists |].
  eexists. split; [reflexivity |].
  split_and!.
  - rewrite readFile_eq. cbn. by rewrite lookup_insert_eq.
  - rewrite !getUsedDiskSpace_usedOf. cbn. by apply usedOf_insert.
  - intros p size m Hd. cbn. rewrite !lookup_alter_eq, Hd. done.
  - done.
  - done.
  - intros d' Hne. cbn. split.
    + by rewrite lookup_insert_ne.
    + by rewrite !lookup_alter_ne.
Qed.

End Files.

(** ** FileSystem: removal *)

Section Removal.
Import Utils FileSystem.

Lemma removeRec_file (fuel : nat) (path : string) (recursive : bool)
    (fs : t) (r : ref) (p : string) (size : Z) (m : option Z) :
  path <> EmptyString -> registry fs !! path = Some r ->
  heap fs !! r = Some (FileDescriptor p size m) ->
  removeRec (S fuel) path recursive fs
  = (Ok tt, setRegistry (delete path) (setDisk (delete r) fs)).
Proof.
  intros Hpath Hr Hd. cbn [removeRec].
  rewrite bool_decide_eq_false_2 by done.
  rewrite (bind_ok _ _ _ _ _ (get_eq fs)).
  assert (Hfile : isFile fs path = true).
  { apply isFile_lookup. by eexists _, _, _, _. }
  rewrite Hfile.
  rewrite (bind_ok _ _ _ _ _ (getFileDescriptor_lookup 0 path fs Hfile)).
  by rewrite Hr.
Qed.

Lemma removeRec_other (fuel : nat) (path : string) (recursive : bool)
    (fs : t) :
  path <> EmptyString -> isFile fs path = false ->
  removeRec (S fuel) path recursive fs
  = ((match getChildPaths fs path with
      | [] => ret tt
      | _ =>
          if negb recursive then
            throw (DOMException "Directory has children."
                                "InvalidModificationError")
          else
            forEach (fun childPath => removeRec fuel childPath recursive)
                    (getChildPaths fs path)
      end ;;
      modify (setRegistry (delete path)))%M fs).
Proof.
  intros Hpath Hfile. cbn [removeRec].
  rewrite bool_decide_eq_false_2 by done.
  rewrite (bind_ok _ _ _ _ _ (get_eq fs)). by rewrite Hfile.
Qed.

(** X9.  In a well-formed file system, [remove] of the path of a registered
    file returns, with or without [recursive].  Afterwards the path does
    not exist, the descriptor of the file is not valid, [readFile] and
    [writeFile] on it throw a [NotFoundError], the used space is less by
    the size of the file, and the other paths and records are as before. *)
Theorem remove_of_a_file_frees_it (fuel : nat) (path : string)
    (recursive : bool) (fs : t) (r : ref) (p : string) (size : Z)
    (m : option Z) :
  wellFormed fs -> path <> EmptyString -> registry fs !! path = Some r ->
  heap fs !! r = Some (FileDescriptor p size m) ->
  exists fs',
    removeRec (S fuel) path recursive fs = (Ok tt, fs')
    /\ exists_ fs' path = false
    /\ isValidDescriptor fs' r = false
    /\ readFile r fs'
       = (Throw (notFound "No file for given descriptor was found."), fs')
    /\ (forall now data,
          writeFile now r data fs'
          = (Throw (notFound "No allocated memory for given descriptor."),
             fs'))
    /\ getUsedDiskSpace fs' = getUsedDiskSpace fs - size
    /\ (forall q, q <> path -> registry fs' !! q = registry fs !! q)
    /\ (forall r', r' <> r -> disk fs' !! r' = disk fs !! r').
Proof.
  intros Hwf Hpath Hr Hd.
  rewrite (removeRec_file fuel path recursive fs r p size m) by done.
  eexists. split; [reflexivity |].
  destruct (wf_path fs Hwf path r Hr) as (d & Hd' & Hfull).
  assert (d = FileDescriptor p size m) as -> by congruence.
  destruct (wf_size fs Hwf path r p size m Hr Hd) as (buffer & Hb & Hlen).
  split_and!.
  - apply exists_false. cbn. apply lookup_delete_eq.
  - unfold isValidDescriptor, getDescriptor. cbn. rewrite Hd. cbn [fullPath].
    cbn in Hfull. rewrite Hfull, lookup_delete_eq.
    by apply bool_decide_eq_false.
  - rewrite readFile_eq. cbn. by rewrite lookup_delete_eq.
  - intros now data.
    apply writeFile_missing. cbn. apply lookup_delete_eq.
  - rewrite !getUsedDiskSpace_usedOf. cbn.
    rewrite (usedOf_delete _ r buffer) by done. lia.
  - intros q Hq. cbn. by rewrite lookup_delete_ne.
  - intros r' Hr'. cbn. by rewrite lookup_delete_ne.
Qed.

Lemma remove_of_a_file_frees_it_witness :
  exists fs',
    removeRec 1 "f" false (Scenario.oneEmptyFile Infinity) = (Ok tt, fs')
    /\ exists_ fs' "f" = false
    /\ isValidDescriptor fs' Scenario.theFile = false.
Proof.
  destruct (remove_of_a_file_frees_it 0 "f" false
              (Scenario.oneEmptyFile Infinity) Scenario.theFile "f" 0 (Some 0))
    as (fs' & Hrun & Hex & Hinvalid & _).
  - apply oneEmptyFile_wellFormed.
  - discriminate.
  - reflexivity.
  - reflexivity.
  - exists fs'. split; [exact Hrun |]. split; [exact Hex | exact Hinvalid].
Defined.

Lemma isFile_after_removal (fs : t) (path q : string) (r : ref) :
  isFile fs q = false ->
  isFile (setRegistry (delete path) (setDisk (delete r) fs)) q = false.
Proof.
  unfold isFile. cbn. destruct (decide (path = q)) as [<- | Hne].
  - by rewrite lookup_delete_eq.
  - by rewrite lookup_delete_ne.
Qed.

(** X10.  In a well-formed file system, after [remove] of a file, a
    [createFile] at the same path, with a size that fits into the space
    then free, returns a descriptor that is not the old one: the old
    descriptor stays invalid and the new one is valid. *)
Theorem descriptor_of_removed_file_stays_invalid (fuel : nat) (now : Z)
    (path : string) (recursive : bool) (newSize : option Z) (fs : t)
    (r : ref) (p : string) (size : Z) (m : option Z) :
  wellFormed fs -> path <> EmptyString -> registry fs !! path = Some r ->
  heap fs !! r = Some (FileDescriptor p size m) ->
  (forall k, (0 < k < pred (length (pathSegments path)))%nat ->
             isFile fs (ancestor k path) = false) ->
  0 <= default 0 newSize ->
  gt_num (default 0 newSize) (num_add (getFreeDiskSpace fs) size) = false ->
  exists fs1 r2 fs2,
    removeRec (S fuel) path recursive fs = (Ok tt, fs1)
    /\ createFile now path newSize fs1 = (Ok r2, fs2)
    /\ r2 <> r
    /\ isValidDescriptor fs2 r = false
    /\ isValidDescriptor fs2 r2 = true.
Proof.
  intros Hwf Hpath Hr Hd Hfiles Hsize Hroom.
  rewrite (removeRec_file fuel path recursive fs r p size m) by done.
  set (fs1 := setRegistry (delete path) (setDisk (delete r) fs)).
  assert (Hwf1 : wellFormed fs1).
  { apply wellFormed_invariant. apply (unregister_file false); [| done].
    by apply wellFormed_invariant. }
  destruct (wf_size fs Hwf path r p size m Hr Hd) as (buffer & Hb & Hlen).
  assert (Hfree1 : getFreeDiskSpace fs1 = num_add (getFreeDiskSpace fs) size).
  { unfold getFreeDiskSpace. rewrite !getUsedDiskSpace_usedOf. cbn.
    rewrite (usedOf_delete _ r buffer) by done.
    destruct (diskSize fs); cbn [num_add]; [f_equal; lia | done]. }
  destruct (createFile_creates now path newSize fs1 Hwf1)
    as (r2 & fs2 & Hrun & Hwf2 & Hreg2 & Hheap2 & _ & _ & _ & _ & Hnew
        & Hkept); try done.
  { apply exists_false. cbn. apply lookup_delete_eq. }
  { intros k Hk. apply isFile_after_removal. by apply Hfiles. }
  { by rewrite Hfree1. }
  exists fs1, r2, fs2. split; [done |]. split; [done |].
  assert (Hlt : (r < nextRef fs)%nat) by by apply (registered_lt fs path).
  assert (Hne : r2 <> r) by (cbn in Hnew; lia).
  destruct (wf_path fs Hwf path r Hr) as (d & Hd' & Hfull).
  assert (d = FileDescriptor p size m) as -> by congruence.
  cbn in Hfull. subst p.
  split_and!.
  - done.
  - unfold isValidDescriptor, getDescriptor.
    rewrite Hkept by (cbn; lia). unfold fs1.
    cbn [heap setRegistry setDisk]. rewrite Hd.
    cbn [fullPath]. rewrite Hreg2. apply bool_decide_eq_false. congruence.
  - unfold isValidDescriptor, getDescriptor. rewrite Hheap2. cbn [fullPath].
    by apply bool_decide_eq_true.
Qed.

Lemma descriptor_of_removed_file_stays_invalid_witness :
  exists fs1 r2 fs2,
    removeRec 1 "f" false (Scenario.oneEmptyFile Infinity) = (Ok tt, fs1)
    /\ createFile 9 "f" None fs1 = (Ok r2, fs2)
    /\ isValidDescriptor fs2 Scenario.theFile = false
    /\ isValidDescriptor fs2 r2 = true.
Proof.
  destruct (descriptor_of_removed_file_stays_invalid 0 9 "f" false None
              (Scenario.oneEmptyFile Infinity) Scenario.theFile "f" 0 (Some 0))
    as (fs1 & r2 & fs2 & H1 & H2 & _ & H3 & H4).
  - apply oneEmptyFile_wellFormed.
  - discriminate.
  - reflexivity.
  - reflexivity.
  - intros k Hk. simpl in Hk. lia.
  - simpl. lia.
  - reflexivity.
  - exists fs1, r2, fs2. split; [exact H1 |]. split; [exact H2 |].
    split; [exact H3 | exact H4].
Defined.

(** X11.  [remove] of a path other than the root that is not registered and
    has no registered child path returns, without a [NotFoundError], and
    leaves the file system as it was. *)
Theorem remove_of_a_missing_path_changes_nothing (fuel : nat)
    (path : string) (recursive : bool) (fs : t) :
  path <> EmptyString -> registry fs !! path = None ->
  getChildPaths fs path = [] ->
  removeRec (S fuel) path recursive fs = (Ok tt, fs).
Proof.
  intros Hpath Hr Hchildren.
  rewrite removeRec_other; [| done | by unfold isFile; rewrite Hr].
  rewrite Hchildren.
  change ((ret tt ;; modify (setRegistry (delete path)))%M fs)
    with (Ok tt, setRegistry (delete path) fs).
  f_equal. destruct fs as [reg dsk sz hp nxt].
  unfold setRegistry. cbn in *. f_equal. by apply delete_id.
Qed.

Lemma remove_of_a_missing_path_changes_nothing_witness :
  removeRec 1 "a" true (new Infinity) = (Ok tt, new Infinity).
Proof.
  apply (remove_of_a_missing_path_changes_nothing 0 "a" true (new Infinity)).
  - discriminate.
  - reflexivity.
  - vm_compute. reflexivity.
Defined.

(** X12.  When a path other than the root is not a file and is its own only
    child path (as a directory registered with a slash at its end is),
    [remove] of it does not return: with [recursive] the recursion does not
    end, whatever fuel the model is given, and without [recursive] the call
    throws an [InvalidModificationError] and changes nothing. *)
Theorem remove_of_its_own_child_never_returns (path : string) (fs : t) :
  path <> EmptyString -> isFile fs path = false ->
  getChildPaths fs path = [path] ->
  (forall fuel, fst (removeRec fuel path true fs) = Diverges)
  /\ (forall fuel,
        removeRec (S fuel) path false fs
        = (Throw (DOMException "Directory has children."
                               "InvalidModificationError"), fs)).
Proof.
  intros Hpath Hfile Hchildren. split.
  - induction fuel as [| fuel IH]; [done |].
    rewrite removeRec_other by done. rewrite Hchildren.
    cbn [negb forEach]. unfold bind at 1. unfold bind at 1.
    by destruct (removeRec fuel path true fs) as [[[] | e |] fs1].
  - intros fuel. rewrite removeRec_other by done. by rewrite Hchildren.
Qed.

Lemma remove_of_its_own_child_never_returns_witness :
  let fs := snd (makeDirectory "a/" false (new Infinity)) in
  fst (removeRec 5 "a/" true fs) = Diverges
  /\ removeRec 5 "a/" false fs
     = (Throw (DOMException "Directory has children."
                            "InvalidModificationError"), fs).
Proof.
  intros fs.
  destruct (remove_of_its_own_child_never_returns "a/" fs) as [H1 H2].
  - discriminate.
  - reflexivity.
  - vm_compute. reflexivity.
  - split; [apply H1 | apply H2].
Defined.

End Removal.

(** ** utils: sub-paths *)

Section SubPaths.
Import Utils.

Lemma stripTrailingSlashes_cons (c : ascii) (s : string) :
  stripTrailingSlashes (String c s)
  = match stripTrailingSlashes s with
    | EmptyString =>
        if bool_decide (c = "/"%char) then EmptyString
        else String c EmptyString
    | rest' => String c rest'
    end.
Proof. done. Qed.

Lemma prefix_cons (c : ascii) (a s : string) :
  String.prefix (String c a) (String c s) = String.prefix a s.
Proof. cbn [String.prefix]. by destruct (ascii_dec c c). Qed.

Lemma prefix_nil (s : string) : String.prefix EmptyString s = true.
Proof. by destruct s. Qed.

Lemma prefix_trans (a b c : string) :
  String.prefix a b = true -> String.prefix b c = true ->
  String.prefix a c = true.
Proof.
  intros [r1 ->]%prefix_app [r2 ->]%prefix_app.
  rewrite append_assoc. apply prefix_app_true.
Qed.

Lemma append_cons (c : ascii) (a b : string) :
  String c a +:+ b = String c (a +:+ b).
Proof. done. Qed.

Lemma stripTrailingSlashes_fixed (a : ascii) (s : string) :
  stripTrailingSlashes (String a s) = String a s ->
  stripTrailingSlashes s = s /\ (s = EmptyString -> a <> "/"%char).
Proof.
  rewrite stripTrailingSlashes_cons.
  destruct (stripTrailingSlashes s) as [| y r] eqn:Hstrip.
  - case_bool_decide as Ha; [done |]. intros [= <-]. done.
  - intros [= <-]. done.
Qed.

(** Where [s], which has no slash at its end, and a slash start a path,
    they start that path without the slashes at its end, and a slash. *)
Lemma prefix_stripTrailingSlashes (s rest : string) :
  stripTrailingSlashes s = s ->
  String.prefix (s +:+ "/")
    (stripTrailingSlashes (s +:+ "/" +:+ rest) +:+ "/") = true.
Proof.
  induction s as [| a s IH]; intros Hs.
  - change ("" +:+ "/" +:+ rest) with (String "/" rest).
    change ("" +:+ "/") with (String "/" "").
    rewrite stripTrailingSlashes_cons.
    destruct (stripTrailingSlashes rest) as [| y r].
    + by rewrite bool_decide_eq_true_2.
    + rewrite append_cons, prefix_cons. apply prefix_nil.
  - apply stripTrailingSlashes_fixed in Hs as [Hs Ha].
    specialize (IH Hs).
    change (String a s +:+ "/" +:+ rest)
      with (String a (s +:+ "/" +:+ rest)).
    change (String a s +:+ "/") with (String a (s +:+ "/")).
    rewrite stripTrailingSlashes_cons.
    destruct (stripTrailingSlashes (s +:+ "/" +:+ rest)) as [| y r] eqn:Hc.
    + assert (s = EmptyString) as ->.
      { destruct s as [| z s]; [done |].
        change (String z s +:+ "/") with (String z (s +:+ "/")) in IH.
        change ("" +:+ "/") with (String "/" "") in IH.
        cbn [String.prefix] in IH.
        destruct (ascii_dec z "/"); [| done]. by destruct s. }
      rewrite bool_decide_eq_false_2 by by apply Ha.
      change (String a "" +:+ "/") with (String a ("" +:+ "/")).
      by rewrite prefix_cons.
    + change (String a (String y r) +:+ "/")
        with (String a (String y r +:+ "/")).
      rewrite prefix_cons. exact IH.
Qed.

Lemma stripTrailingSlashes_idemp (p : string) :
  stripTrailingSlashes (stripTrailingSlashes p) = stripTrailingSlashes p.
Proof.
  induction p as [| c p IH]; [done |].
  rewrite stripTrailingSlashes_cons.
  destruct (stripTrailingSlashes p) as [| y r] eqn:Hstrip.
  - case_bool_decide as Hc; [done |].
    rewrite stripTrailingSlashes_cons. cbn.
    by rewrite bool_decide_eq_false_2.
  - rewrite stripTrailingSlashes_cons. by rewrite IH.
Qed.

(** A sub-path of a sub-path is a sub-path. *)
Lemma isSubPath_trans (q c p : string) :
  isSubPath c p = true -> isSubPath q c = true -> isSubPath q p = true.
Proof.
  unfold isSubPath. case_bool_decide as Hp.
  2:{ intros _ _. subst p. by apply prefix_nil. }
  intros Hcp. case_bool_decide as Hc.
  2:{ subst c. by destruct (stripTrailingSlashes p). }
  intros Hqc.
  apply (prefix_trans _ (stripTrailingSlashes c +:+ "/")); [| done].
  apply prefix_app in Hcp as [rest ->]. rewrite append_assoc.
  apply prefix_stripTrailingSlashes, stripTrailingSlashes_idemp.
Qed.

End SubPaths.

(** What a removal leaves alone: the entries outside [path], with their
    contents, every object, and the disk size. *)
Section RemovalFrame.
Import Utils FileSystem.

Lemma outside_refl (path : string) (fs : t) : outside path fs fs.
Proof. unfold outside. by split_and!. Qed.

Lemma outside_trans (path child : string) (fs1 fs2 fs3 : t) :
  child = path \/ isSubPath child path = true ->
  outside path fs1 fs2 -> outside child fs2 fs3 -> outside path fs1 fs3.
Proof.
  intros Hchild (Hh1 & Hs1 & Hn1 & Hq1) (Hh2 & Hs2 & Hn2 & Hq2).
  unfold outside. split_and!; [congruence.. |].
  intros q Hne Hsub. destruct (Hq1 q Hne Hsub) as [Hreg1 Hdisk1].
  assert (Hq : q <> child /\ isSubPath q child = false).
  { destruct Hchild as [-> | Hchild]; [done |]. split.
    - intros ->. congruence.
    - destruct (isSubPath q child) eqn:Hqc; [| done].
      by rewrite (isSubPath_trans q child path) in Hsub. }
  destruct (Hq2 q (proj1 Hq) (proj2 Hq)) as [Hreg2 Hdisk2].
  split; [congruence |].
  intros r Hr. rewrite Hdisk2 by congruence. by apply Hdisk1.
Qed.

Lemma getChildPaths_isSubPath (fs : t) (path child : string) :
  child ∈ getChildPaths fs path -> isSubPath child path = true.
Proof.
  unfold getChildPaths. rewrite list_elem_of_In, List.filter_In.
  intros [_ [_ Hchild]%andb_true_iff].
  unfold isChildPath in Hchild. by destruct (isSubPath child path).
Qed.

Lemma removeRec_outside (fuel : nat) (path : string) (recursive : bool)
    (fs : t) :
  wellFormed fs ->
  wellFormed (snd (removeRec fuel path recursive fs))
  /\ outside path fs (snd (removeRec fuel path recursive fs)).
Proof.
  revert path fs. induction fuel as [| fuel IH]; intros path fs Hwf.
  { split; [done | apply outside_refl]. }
  destruct (decide (path = EmptyString)) as [-> | Hpath].
  { split; [done | apply outside_refl]. }
  destruct (isFile fs path) eqn:Hfile.
  - apply isFile_lookup in Hfile as (r & p & size & m & Hr & Hd).
    rewrite (removeRec_file fuel path recursive fs r p size m) by done.
    cbn [snd]. split.
    + apply wellFormed_invariant. apply (unregister_file false); [| done].
      by apply wellFormed_invariant.
    + unfold outside. split_and!; [done.. |].
      intros q Hq _. cbn. split; [by rewrite lookup_delete_ne |].
      intros r' Hr'. rewrite lookup_delete_ne; [done |].
      intros <-.
      destruct (wf_path fs Hwf path r Hr) as (d1 & Hd1 & Hp1).
      destruct (wf_path fs Hwf q r Hr') as (d2 & Hd2 & Hp2).
      congruence.
  - rewrite removeRec_other by done.
    (* the loop over the children *)
    assert (Hloop : forall l fs1,
      (forall c, c ∈ l -> isSubPath c path = true) ->
      wellFormed fs1 -> outside path fs fs1 ->
      wellFormed (snd (forEach (fun c => removeRec fuel c recursive) l fs1))
      /\ outside path fs
           (snd (forEach (fun c => removeRec fuel c recursive) l fs1))).
    { induction l as [| c l IHl]; intros fs1 Hl Hwf1 Hout1; [done |].
      cbn [forEach]. unfold bind.
      destruct (IH c fs1 Hwf1) as [Hwf2 Hout2].
      assert (Hout : outside path fs (snd (removeRec fuel c recursive fs1))).
      { apply (outside_trans path c fs fs1); [| done | done].
        right. apply Hl. by left. }
      destruct (removeRec fuel c recursive fs1) as [[[] | e |] fs2];
        cbn [snd] in *; [| done | done].
      apply IHl; [| done | done]. intros c' Hc'. apply Hl. by right. }
    assert (Hlast : forall fs1, wellFormed fs1 -> outside path fs fs1 ->
      wellFormed (setRegistry (delete path) fs1)
      /\ outside path fs (setRegistry (delete path) fs1)).
    { intros fs1 Hwf1 (Hh & Hs & Hn & Hq). split.
      - apply wellFormed_invariant. apply (unregister false).
        by apply wellFormed_invariant.
      - unfold outside. split_and!; [done.. |].
        intros q Hne Hsub. cbn. rewrite lookup_delete_ne by done.
        by apply Hq. }
    unfold bind.
    destruct (getChildPaths fs path) as [| c l] eqn:Hchildren.
    { cbn. apply Hlast; [done | apply outside_refl]. }
    destruct recursive; cbn [negb].
    2:{ cbn. split; [done | apply outside_refl]. }
    destruct (Hloop (c :: l) fs) as [Hwf1 Hout1];
      [| done | apply outside_refl |].
    { intros c' Hc'. apply (getChildPaths_isSubPath fs).
      by rewrite Hchildren. }
    destruct (forEach _ (c :: l) fs) as [[[] | e |] fs1]; cbn [snd] in *;
      [| done | done].
    by apply Hlast.
Qed.

(** X13.  In a well-formed file system, [remove(path)], whatever its outcome,
    leaves alone every path that is neither [path] nor a sub-path of it:
    such a path keeps its registration, its kind, its size and its
    contents. *)
Theorem remove_touches_only_sub_paths (fuel : nat) (path : string)
    (recursive : bool) (fs : t) (q : string) :
  wellFormed fs -> q <> path -> isSubPath q path = false ->
  let fs' := snd (removeRec fuel path recursive fs) in
  registry fs' !! q = registry fs !! q
  /\ isFile fs' q = isFile fs q
  /\ isDirectory fs' q = isDirectory fs q
  /\ getFileSize fs' q = getFileSize fs q
  /\ (forall r, registry fs !! q = Some r ->
                readFile r fs' = (fst (readFile r fs), fs')).
Proof.
  intros Hwf Hq Hsub fs'.
  destruct (removeRec_outside fuel path recursive fs Hwf)
    as [_ (Hheap & _ & _ & Hout)].
  fold fs' in Hheap, Hout.
  destruct (Hout q Hq Hsub) as [Hreg Hdisk].
  split; [done |].
  unfold isFile, isDirectory, getFileSize, getDescriptor.
  rewrite Hreg, Hheap.
  split; [done |]. split; [done |]. split.
  - destruct (registry fs !! q) as [r |] eqn:Hr; [| done].
    by rewrite (Hdisk r).
  - intros r Hr. rewrite !readFile_eq. rewrite (Hdisk r Hr).
    by destruct (disk fs !! r).
Qed.

Lemma remove_touches_only_sub_paths_witness :
  let fs' := snd (removeRec 2 "x/y" false Scenario.nested) in
  registry fs' !! "x" = registry Scenario.nested !! "x"
  /\ isDirectory fs' "x" = isDirectory Scenario.nested "x".
Proof.
  intros fs'.
  destruct (remove_touches_only_sub_paths 2 "x/y" false Scenario.nested "x")
    as (H1 & _ & H2 & _).
  - apply nested_wellFormed.
  - discriminate.
  - reflexivity.
  - split; [exact H1 | exact H2].
Defined.

End RemovalFrame.

(** ** FileSystem: what a recursive removal leaves *)

Section RemovalResult.
Import Utils FileSystem.

Lemma getChildPaths_elem (fs : t) (path child : string) :
  child ∈ getChildPaths fs path <->
  is_Some (registry fs !! child) /\ nonEmpty child = true
  /\ isChildPath child path = true.
Proof.
  unfold getChildPaths, registryKeys.
  rewrite list_elem_of_In, List.filter_In, <- list_elem_of_In.
  rewrite andb_true_iff. rewrite list_elem_of_fmap.
  split.
  - intros [([p r] & -> & Hin) H]. apply elem_of_map_to_list in Hin.
    split; [by eexists | done].
  - intros ([r Hr] & H). split; [| done].
    exists (child, r). split; [done |]. by apply elem_of_map_to_list.
Qed.

(** A removal only takes entries away. *)
Lemma removeRec_shrinks (fuel : nat) (path : string) (recursive : bool)
    (fs : t) :
  registry (snd (removeRec fuel path recursive fs)) ⊆ registry fs.
Proof.
  revert path fs. induction fuel as [| fuel IH]; intros path fs; [done |].
  destruct (decide (path = EmptyString)) as [-> | Hpath]; [done |].
  destruct (isFile fs path) eqn:Hfile.
  - apply isFile_lookup in Hfile as (r & p & size & m & Hr & Hd).
    rewrite (removeRec_file fuel path recursive fs r p size m) by done.
    cbn. apply delete_subseteq.
  - rewrite removeRec_other by done.
    assert (Hloop : forall l fs1,
      registry (snd (forEach (fun c => removeRec fuel c recursive) l fs1))
      ⊆ registry fs1).
    { induction l as [| c l IHl]; intros fs1; [done |].
      cbn [forEach]. unfold bind. specialize (IH c fs1).
      destruct (removeRec fuel c recursive fs1) as [[[] | e |] fs2];
        cbn [snd] in *; [| done | done].
      etrans; [apply IHl | done]. }
    unfold bind.
    destruct (getChildPaths fs path) as [| c l].
    { cbn. apply delete_subseteq. }
    destruct recursive; cbn [negb]; [| done].
    specialize (Hloop (c :: l) fs).
    destruct (forEach _ (c :: l) fs) as [[[] | e |] fs1]; cbn [snd] in *;
      [| done | done].
    cbn. etrans; [apply delete_subseteq | done].
Qed.

(** A removal that returns has taken the path away. *)
Lemma removeRec_removed (fuel : nat) (path : string) (recursive : bool)
    (fs fs' : t) :
  removeRec fuel path recursive fs = (Ok tt, fs') ->
  registry fs' !! path = None.
Proof.
  destruct fuel as [| fuel]; [done |].
  destruct (decide (path = EmptyString)) as [-> | Hpath]; [done |].
  destruct (isFile fs path) eqn:Hfile.
  - apply isFile_lookup in Hfile as (r & p & size & m & Hr & Hd).
    rewrite (removeRec_file fuel path recursive fs r p size m) by done.
    intros [= <-]. cbn. apply lookup_delete_eq.
  - rewrite removeRec_other by done. unfold bind.
    match goal with
    | |- (let '(o, s') := ?m fs in _) = _ -> _ =>
        destruct (m fs) as [[[] | e |] fs1]; [| done | done]
    end.
    intros [= <-]. cbn. apply lookup_delete_eq.
Qed.

Lemma subseteq_None (m1 m2 : gmap string ref) (q : string) :
  m1 ⊆ m2 -> m2 !! q = None -> m1 !! q = None.
Proof.
  intros Hsub Hq. destruct (m1 !! q) as [r |] eqn:Hr; [| done].
  pose proof (lookup_weaken _ _ _ _ Hr Hsub). congruence.
Qed.

(** The loop over the children, when it returns, has taken them all
    away. *)
Lemma forEach_removed (fuel : nat) (recursive : bool) (l : list string)
    (fs fs' : t) :
  forEach (fun c => removeRec fuel c recursive) l fs = (Ok tt, fs') ->
  registry fs' ⊆ registry fs /\ forall c, c ∈ l -> registry fs' !! c = None.
Proof.
  revert fs. induction l as [| c l IH]; intros fs; cbn [forEach].
  - intros [= <-]. split; [done |]. intros c Hc. by apply elem_of_nil in Hc.
  - unfold bind.
    pose proof (removeRec_shrinks fuel c recursive fs) as Hsub.
    destruct (removeRec fuel c recursive fs) as [[[] | e |] fs1] eqn:Hstep;
      [| done | done].
    cbn [snd] in Hsub. intros Hrest. destruct (IH fs1 Hrest) as [Hsub' Hl].
    split; [by etrans |].
    intros c' [-> | Hc']%elem_of_cons; [| by apply Hl].
    apply (subseteq_None _ (registry fs1)); [done |].
    by apply (removeRec_removed fuel c recursive fs).
Qed.

(** What a recursive removal that returns leaves. *)
Lemma removeRec_cleared (fuel : nat) (path : string) (fs fs' : t) :
  removeRec fuel path true fs = (Ok tt, fs') ->
  exists_ fs' path = false
  /\ (isFile fs path = false -> getChildPaths fs' path = [])
  /\ forall q r, registry fs' !! q = Some r -> registry fs !! q = Some r.
Proof.
  intros Hrun.
  pose proof (removeRec_shrinks fuel path true fs) as Hsub.
  rewrite Hrun in Hsub. cbn [snd] in Hsub.
  split; [apply exists_false; by apply (removeRec_removed fuel path true fs) |].
  split; [| by intros q r Hq; apply (lookup_weaken _ _ _ _ Hq Hsub)].
  intros Hfile.
  destruct fuel as [| fuel]; [done |].
  destruct (decide (path = EmptyString)) as [-> | Hpath]; [done |].
  rewrite removeRec_other in Hrun by done. unfold bind in Hrun.
  assert (Hgone : forall c, c ∈ getChildPaths fs path ->
                            registry fs' !! c = None).
  { destruct (getChildPaths fs path) as [| c l] eqn:Hchildren.
    { intros c Hc. by apply elem_of_nil in Hc. }
    cbn [negb] in Hrun.
    destruct (forEach _ (c :: l) fs) as [[[] | e |] fs1] eqn:Hloop;
      [| done | done].
    injection Hrun as <-.
    destruct (forEach_removed _ _ _ _ _ Hloop) as [_ Hl].
    intros c' Hc'. cbn. apply lookup_delete_None. right. by apply Hl. }
  apply elem_of_nil_inv. intros c Hc.
  apply getChildPaths_elem in Hc as ([r Hr] & Hne & Hchild).
  assert (Hin : c ∈ getChildPaths fs path).
  { apply getChildPaths_elem. split; [| done].
    exists r. by apply (lookup_weaken _ _ _ _ Hr Hsub). }
  specialize (Hgone c Hin). congruence.
Qed.

(** A path that is the slash-joined form of its segments has more
    segments than a path it is a sub-path of. *)
Lemma normalized_sub_path_is_deeper (c p : string) :
  join (pathSegments c) = c -> p <> EmptyString -> isSubPath c p = true ->
  (length (pathSegments p) < length (pathSegments c))%nat.
Proof.
  intros Hnorm Hp Hsub. unfold isSubPath in Hsub.
  rewrite bool_decide_eq_true_2 in Hsub by done.
  apply prefix_app in Hsub as [rest Hc]. rewrite append_assoc in Hc.
  pose proof (segments_separatorFree c) as Hfree.
  pose proof (segments_nonEmpty c) as Hne.
  assert (Hl : pathSegments c <> []).
  { intros Hnil. rewrite Hnil in Hnorm. cbn in Hnorm. rewrite <- Hnorm in Hc.
    by destruct (stripTrailingSlashes p). }
  assert (Hsplit : split c = pathSegments c).
  { rewrite <- Hnorm at 1. by apply split_join. }
  set (l := pathSegments c) in *.
  assert (Hparts : split (stripTrailingSlashes p) ++ split rest = l).
  { rewrite <- Hsplit, Hc. symmetry. apply split_app. }
  assert (Hrest : Forall (fun s => nonEmpty s = true) (split rest)).
  { rewrite <- Hparts in Hne. by apply Forall_app in Hne as [_ Hne]. }
  assert (Hsegs : l = pathSegments p ++ split rest).
  { unfold l. rewrite Hc, pathSegments_app, pathSegments_stripTrailingSlashes.
    f_equal. unfold pathSegments. by apply filter_all. }
  rewrite Hsegs, length_app.
  destruct (split_cons rest) as (seg & segs & ->). cbn [length]. lia.
Qed.

(** With normalized paths and fuel for the depth of the tree, a recursive
    removal returns. *)
Lemma removeRec_total (fuel : nat) (path : string) (fs : t) :
  path <> EmptyString ->
  (forall q, is_Some (registry fs !! q) -> join (pathSegments q) = q) ->
  (forall q, is_Some (registry fs !! q) ->
             (length (pathSegments q) < length (pathSegments path) + fuel)%nat) ->
  (0 < fuel)%nat ->
  exists fs', removeRec fuel path true fs = (Ok tt, fs').
Proof.
  revert path fs. induction fuel as [| fuel IH];
    intros path fs Hpath Hnorm Hdepth Hfuel; [lia |].
  destruct (isFile fs path) eqn:Hfile.
  { apply isFile_lookup in Hfile as (r & p & size & m & Hr & Hd).
    rewrite (removeRec_file fuel path true fs r p size m) by done.
    by eexists. }
  rewrite removeRec_other by done.
  assert (Hloop : forall l fs1,
    (forall c, c ∈ l -> c ∈ getChildPaths fs path) ->
    registry fs1 ⊆ registry fs ->
    exists fs2,
      forEach (fun c => removeRec fuel c true) l fs1 = (Ok tt, fs2)).
  { induction l as [| c l IHl]; intros fs1 Hl Hsub; [by eexists |].
    assert (Hc : c ∈ getChildPaths fs path) by (apply Hl; by left).
    pose proof (getChildPaths_isSubPath fs path c Hc) as Hcsub.
    apply getChildPaths_elem in Hc as (Hreg & Hcne & _).
    pose proof (normalized_sub_path_is_deeper c path (Hnorm c Hreg) Hpath
                  Hcsub) as Hdeeper.
    pose proof (Hdepth c Hreg) as Hbound.
    assert (Hin : forall q, is_Some (registry fs1 !! q) ->
                            is_Some (registry fs !! q)).
    { intros q [r Hq]. exists r. by apply (lookup_weaken _ _ _ _ Hq Hsub). }
    destruct (IH c fs1) as [fs2 Hstep].
    - unfold nonEmpty in Hcne. apply negb_true_iff in Hcne.
      by apply bool_decide_eq_false in Hcne.
    - intros q Hq. by apply Hnorm, Hin.
    - intros q Hq. pose proof (Hdepth q (Hin q Hq)). lia.
    - lia.
    - cbn [forEach]. rewrite (bind_ok _ _ _ _ _ Hstep).
      apply IHl.
      + intros c' Hc'. apply Hl. by right.
      + pose proof (removeRec_shrinks fuel c true fs1) as Hsub2.
        rewrite Hstep in Hsub2. cbn [snd] in Hsub2. by etrans. }
  destruct (getChildPaths fs path) as [| c l] eqn:Hchildren; [by eexists |].
  cbn [negb].
  destruct (Hloop (c :: l) fs) as [fs2 Hrun]; [done | done |].
  rewrite (bind_ok _ _ _ _ _ Hrun). by eexists.
Qed.

(** X14.  When every registered path is the slash-joined form of its
    segments, and the fuel is more than the number of segments by which a
    registered path can be longer than [path],
    [remove(path, { recursive: true })] of a path other than the root
    returns.  Afterwards [path] does not exist, it has no child paths
    (unless it was a file), and every entry was there before. *)
Theorem remove_recursive_clears_the_children (fuel : nat) (path : string)
    (fs : t) :
  path <> EmptyString ->
  (forall q, is_Some (registry fs !! q) -> join (pathSegments q) = q) ->
  (forall q, is_Some (registry fs !! q) ->
             (length (pathSegments q) < length (pathSegments path) + fuel)%nat) ->
  (0 < fuel)%nat ->
  exists fs',
    removeRec fuel path true fs = (Ok tt, fs')
    /\ exists_ fs' path = false
    /\ (isFile fs path = false -> getChildPaths fs' path = [])
    /\ forall q r, registry fs' !! q = Some r -> registry fs !! q = Some r.
Proof.
  intros Hpath Hnorm Hdepth Hfuel.
  destruct (removeRec_total fuel path fs Hpath Hnorm Hdepth Hfuel)
    as [fs' Hrun].
  exists fs'. split; [done |]. by apply (removeRec_cleared fuel path fs).
Qed.

Lemma remove_recursive_clears_the_children_witness :
  exists fs',
    removeRec 2 "x" true Scenario.nested = (Ok tt, fs')
    /\ exists_ fs' "x" = false
    /\ getChildPaths fs' "x" = [].
Proof.
  assert (Hall : map_Forall
            (fun q (_ : ref) =>
               join (pathSegments q) = q
               /\ (length (pathSegments q) < length (pathSegments "x") + 2)%nat)
            (registry Scenario.nested)).
  { eapply bool_decide_unpack. vm_compute. exact I. }
  destruct (remove_recursive_clears_the_children 2 "x" Scenario.nested)
    as (fs' & H1 & H2 & H3 & _).
  - discriminate.
  - intros q [r Hq]. apply (Hall q r Hq).
  - intros q [r Hq]. apply (Hall q r Hq).
  - lia.
  - exists fs'. split; [exact H1 |]. split; [exact H2 |]. apply H3.
    reflexivity.
Defined.

End RemovalResult.

(** ** FileSystem: purge, and asking twice *)

Section Descriptors.
Import Utils FileSystem.

(** X15.  In a well-formed file system, [purge] returns, and every descriptor
    that existed before it, the old root included, is invalid afterwards
    and [readFile] on it throws a [NotFoundError].  Only the root path
    exists, it is a directory, no space is used, and the disk size is
    kept. *)
Theorem purge_invalidates_every_descriptor (fs : t) (d : ref) :
  wellFormed fs -> is_Some (heap fs !! d) ->
  exists fs',
    purge fs = (Ok tt, fs')
    /\ isValidDescriptor fs' d = false
    /\ readFile d fs'
       = (Throw (notFound "No file for given descriptor was found."), fs')
    /\ (forall p, exists_ fs' p = bool_decide (p = EmptyString))
    /\ isDirectory fs' EmptyString = true
    /\ getUsedDiskSpace fs' = 0
    /\ getTotalDiskSpace fs' = getTotalDiskSpace fs.
Proof.
  intros Hwf [desc Hd]. eexists. split; [reflexivity |].
  assert (Hne : d <> nextRef fs).
  { intros ->. pose proof (wf_heap fs Hwf (nextRef fs) (mk_is_Some _ _ Hd)).
    lia. }
  split_and!.
  - unfold isValidDescriptor, getDescriptor. cbn.
    rewrite lookup_insert_ne by done. rewrite Hd.
    apply bool_decide_eq_false.
    destruct (decide (fullPath desc = EmptyString)) as [-> | Hp].
    + rewrite lookup_insert_eq. congruence.
    + rewrite lookup_insert_ne by done. by rewrite lookup_empty.
  - rewrite readFile_eq. cbn. by rewrite lookup_empty.
  - intros p. unfold exists_. cbn. apply bool_decide_ext.
    destruct (decide (p = EmptyString)) as [-> | Hp].
    + rewrite lookup_insert_eq. split; [done | by eexists].
    + rewrite lookup_insert_ne by done. rewrite lookup_empty.
      split; [by intros [? ?] | done].
  - unfold isDirectory. cbn. by rewrite !lookup_insert_eq.
  - rewrite getUsedDiskSpace_usedOf. cbn. apply usedOf_empty.
  - done.
Qed.

Lemma purge_invalidates_every_descriptor_witness :
  exists fs',
    purge (Scenario.oneEmptyFile Infinity) = (Ok tt, fs')
    /\ isValidDescriptor fs' Scenario.theFile = false
    /\ isValidDescriptor fs' 0%nat = false.
Proof.
  destruct (purge_invalidates_every_descriptor
              (Scenario.oneEmptyFile Infinity) Scenario.theFile)
    as (fs' & Hrun & Hinvalid & _).
  - apply oneEmptyFile_wellFormed.
  - vm_compute. eexists. reflexivity.
  - exists fs'. split; [exact Hrun |]. split; [exact Hinvalid |].
    injection Hrun as <-. reflexivity.
Defined.

Lemma makeDirectoryRec_result (fuel : nat) (path : string)
    (recursive : bool) (fs fs' : t) (d : ref) :
  makeDirectoryRec fuel path recursive fs = (Ok d, fs') ->
  registry fs' !! path = Some d
  /\ heap fs' !! d = Some (DirectoryDescriptor path).
Proof.
  destruct fuel as [| fuel]; [done |].
  destruct (exists_ fs path) eqn:Hex.
  { cbn [makeDirectoryRec]. rewrite (bind_ok _ _ _ _ _ (get_eq fs)).
    by rewrite Hex. }
  rewrite makeDirectoryRec_step by done.
  match goal with
  | |- match ?m fs with _ => _ end = _ -> _ =>
      destruct (m fs) as [[[] | e |] fs1]; [| done | done]
  end.
  intros [= <- <-]. cbn. by rewrite !lookup_insert_eq.
Qed.

Lemma createFile_result (now : Z) (path : string) (size : option Z)
    (fs fs' : t) (r : ref) :
  createFile now path size fs = (Ok r, fs') ->
  registry fs' !! path = Some r
  /\ exists sz m, heap fs' !! r = Some (FileDescriptor path sz m).
Proof.
  unfold createFile. rewrite (bind_ok _ _ _ _ _ (get_eq fs)).
  destruct (exists_ fs path); [done |].
  unfold bind at 1.
  match goal with
  | |- (let '(o, s') := ?m fs in _) = _ -> _ =>
      destruct (m fs) as [[[] | e |] fs1]; [| done | done]
  end.
  set (sz := default 0 size).
  set (r0 := nextRef fs1).
  set (fs2 := snd (alloc (FileDescriptor path sz None) fs1)).
  rewrite (bind_ok _ _ fs1 fs2 r0) by done.
  unfold bind at 1. unfold allocateFile.
  rewrite (bind_ok _ _ _ _ _ (get_eq fs2)).
  destruct (gt_num _ _); [done |].
  unfold bind at 1.
  destruct (newArrayBuffer (sizeOf fs2 r0)) as [e | buffer]; [done |].
  cbn [liftE]. intros [= <- <-]. cbn.
  split; [apply lookup_insert_eq |].
  rewrite lookup_alter_eq, lookup_insert_eq. cbn. by eexists _, _.
Qed.

(** X16.  When [getDirectoryDescriptor(path, { create })] returns a descriptor,
    every later call for [path], with or without [create], returns that
    descriptor and changes nothing, and [getFileDescriptor] for [path]
    throws a [TypeMismatchError] and changes nothing.  The same holds with
    the two functions exchanged. *)
Theorem get_or_create_returns_the_same_entry (now : Z) (path : string)
    (fs : t) :
  (forall create d fs',
     getDirectoryDescriptor path create fs = (Ok (Some d), fs') ->
     (forall create',
        getDirectoryDescriptor path create' fs' = (Ok (Some d), fs'))
     /\ forall now' create',
          getFileDescriptor now' path create' fs'
          = (Throw (typeMismatch (dq +:+ path +:+ dq +:+ " is not a file.")),
             fs'))
  /\ (forall create r fs',
        getFileDescriptor now path create fs = (Ok (Some r), fs') ->
        (forall now' create',
           getFileDescriptor now' path create' fs' = (Ok (Some r), fs'))
        /\ forall create',
             getDirectoryDescriptor path create' fs'
             = (Throw (typeMismatch
                         (dq +:+ path +:+ dq +:+ " is not directory.")),
                fs')).
Proof.
  split.
  - intros create d fs' Hrun.
    assert (Hd : registry fs' !! path = Some d
                 /\ heap fs' !! d = Some (DirectoryDescriptor path)
                    \/ registry fs' !! path = Some d
                       /\ isDirectory fs' path = true).
    { unfold getDirectoryDescriptor in Hrun.
      rewrite (bind_ok _ _ _ _ _ (get_eq fs)) in Hrun.
      destruct (exists_ fs path).
      - destruct (isDirectory fs path) eqn:Hdir; [| done].
        injection Hrun as Hreg <-. by right.
      - destruct create; [| done]. unfold bind in Hrun.
        destruct (makeDirectory path true fs) as [[d0 | e |] fs1] eqn:Hmk;
          [| done | done].
        injection Hrun as <- <-. left.
        by apply (makeDirectoryRec_result _ _ _ _ _ _ Hmk). }
    assert (Hreg : registry fs' !! path = Some d) by (by destruct Hd as [[? ?] | [? ?]]).
    assert (Hdir : isDirectory fs' path = true).
    { destruct Hd as [[_ Hh] | [_ Hdir]]; [| done].
      unfold isDirectory. by rewrite Hreg, Hh. }
    assert (Hfile : isFile fs' path = false).
    { unfold isFile, isDirectory in *. rewrite Hreg in *.
      by destruct (heap fs' !! d) as [[] |]. }
    assert (Hex : exists_ fs' path = true)
      by (unfold exists_; apply bool_decide_eq_true; by eexists).
    split.
    + intros create'. unfold getDirectoryDescriptor.
      rewrite (bind_ok _ _ _ _ _ (get_eq fs')). by rewrite Hex, Hdir, Hreg.
    + intros now' create'. unfold getFileDescriptor.
      rewrite (bind_ok _ _ _ _ _ (get_eq fs')). by rewrite Hex, Hfile.
  - intros create r fs' Hrun.
    assert (Hr : registry fs' !! path = Some r /\ isFile fs' path = true).
    { unfold getFileDescriptor in Hrun.
      rewrite (bind_ok _ _ _ _ _ (get_eq fs)) in Hrun.
      destruct (exists_ fs path).
      - destruct (isFile fs path) eqn:Hfile; [| done].
        by injection Hrun as Hreg <-.
      - destruct create; [| done]. unfold bind in Hrun.
        destruct (createFile now path None fs) as [[r0 | e |] fs1] eqn:Hmk;
          [| done | done].
        injection Hrun as <- <-.
        destruct (createFile_result _ _ _ _ _ _ Hmk) as (Hreg & sz & m & Hh).
        split; [done |]. apply isFile_lookup. by eexists _, _, _, _. }
    destruct Hr as [Hreg Hfile].
    assert (Hdir : isDirectory fs' path = false).
    { unfold isFile, isDirectory in *. rewrite Hreg in *.
      by destruct (heap fs' !! r) as [[] |]. }
    assert (Hex : exists_ fs' path = true)
      by (unfold exists_; apply bool_decide_eq_true; by eexists).
    split.
    + intros now' create'. unfold getFileDescriptor.
      rewrite (bind_ok _ _ _ _ _ (get_eq fs')). by rewrite Hex, Hfile, Hreg.
    + intros create'. unfold getDirectoryDescriptor.
      rewrite (bind_ok _ _ _ _ _ (get_eq fs')). by rewrite Hex, Hdir.
Qed.

Lemma get_or_create_returns_the_same_entry_witness :
  let r := getFileDescriptor 3 "a/b" true (new Infinity) in
  fst r = Ok (Some 2%nat)
  /\ getFileDescriptor 4 "a/b" false (snd r) = (Ok (Some 2%nat), snd r).
Proof.
  intros r. split; [reflexivity |].
  destruct (get_or_create_returns_the_same_entry 3 "a/b" (new Infinity))
    as [_ H].
  destruct (H true 2%nat (snd r)) as [Hsame _]; [reflexivity |].
  apply Hsame.
Defined.

End Descriptors.

(** ** SyncAccessHandle: reading *)

Section HandleReading.
Import Utils SyncAccessHandle.

Lemma read_spec (fs : FileSystem.t) (h : t) (target : BufferSource)
    (at_ : option Z) :
  state h = open ->
  let readStart := default (cursor h) at_ in
  let size := byteLength (tempFile h) in
  let buffer := bufferOf target in
  let n := Z.min (byteLength buffer) (size - readStart) in
  read target at_ (fs, h)
  = if bool_decide (readStart < 0) then
      (Throw (TypeError "Negative reading offset is not supported"), (fs, h))
    else if bool_decide (readStart > size) then
      (Ok (buffer, 0), (fs, setCursor size h))
    else
      (Ok (take (Z.to_nat n) (drop (Z.to_nat readStart) (tempFile h))
           ++ drop (Z.to_nat n) buffer, n),
       (fs, setCursor (readStart + n) h)).
Proof.
  intros Hopen readStart size buffer n. unfold read. fold buffer.
  rewrite (bind_ok _ _ _ _ _ (ensureNotClosed_open fs h Hopen)).
  rewrite (bind_ok _ _ _ _ _ (this_eq fs h)). fold readStart.
  rewrite (bind_ok _ _ _ _ _ (getSize_open fs h Hopen)). fold size.
  case_bool_decide as Hneg; [done |].
  rewrite (bind_ok _ _ _ _ _ (getSize_open fs h Hopen)). fold size.
  case_bool_decide as Hpast.
  - rewrite (bind_ok _ _ _ _ _ (getSize_open fs h Hopen)). fold size.
    by rewrite (bind_ok _ _ _ _ _ (update_eq _ fs h)).
  - pose proof (byteLength_nonneg buffer) as Hbuf.
    set (readEnd := if bool_decide (readStart + byteLength buffer > size)
                    then size else readStart + byteLength buffer).
    pose proof (copyArrayBuffer_in_range (tempFile h) buffer
                  {| sourceStartOffset := Some readStart;
                     sourceEndOffset := Some readEnd;
                     destinationOffset := None |}) as Hcopy.
    cbv zeta in Hcopy. unfold copiedCount in Hcopy.
    cbn [sourceStartOffset sourceEndOffset destinationOffset default
         from_option id] in Hcopy.
    fold size in Hcopy.
    assert (Hn : Z.min (Z.min (readEnd - readStart) (size - readStart))
                       (byteLength buffer - 0) = n).
    { unfold n, readEnd. case_bool_decide; lia. }
    rewrite Hn in Hcopy.
    cbv zeta.
    rewrite Hcopy by (unfold readEnd; try case_bool_decide; lia).
    rewrite (bind_ok _ _ _ _ _ (liftE_inr _ (fs, h))).
    rewrite (bind_ok _ _ _ _ _ (update_eq _ fs h)).
    cbn [snd]. unfold ret. do 3 f_equal.
Qed.

(** X17.  What [read] returns, what it leaves in its target and where it
    leaves the cursor.  The target is the [ArrayBuffer] given or, for a
    view, the whole buffer it is a view on: the bytes go to the start of
    that buffer, not to the offset of the view, and its length bounds
    their number.  On a closed handle [read] throws an
    [InvalidStateError]; on an open one, with a negative position it
    throws a [TypeError]; both leave the cursor.  With a position beyond
    the size of the temp file it returns 0, leaves the target as it is and
    moves the cursor to the size.  Otherwise the target gets the bytes of
    the temp file from the position on, as many as the target holds and
    the file has, at its start and keeps its other bytes; [read] returns
    their number and moves the cursor behind them.  (The bytes are written
    in place, so a target that the content store or the handle holds too
    changes there as well; the statement is about the outcome, the target
    and the cursor only.) *)
Theorem read_copies_into_the_target (fs : FileSystem.t) (h : t)
    (target : BufferSource) (at_ : option Z) :
  let readStart := default (cursor h) at_ in
  let size := byteLength (tempFile h) in
  let buffer := bufferOf target in
  let n := Z.min (byteLength buffer) (size - readStart) in
  let result := read target at_ (fs, h) in
  match state h with
  | closed =>
      fst result = Throw handleClosed
      /\ cursor (snd (snd result)) = cursor h
  | open =>
      if bool_decide (readStart < 0) then
        fst result
        = Throw (TypeError "Negative reading offset is not supported")
        /\ cursor (snd (snd result)) = cursor h
      else if bool_decide (readStart > size) then
        fst result = Ok (buffer, 0)
        /\ cursor (snd (snd result)) = size
      else
        fst result
        = Ok (take (Z.to_nat n) (drop (Z.to_nat readStart) (tempFile h))
              ++ drop (Z.to_nat n) buffer, n)
        /\ cursor (snd (snd result)) = readStart + n
  end.
Proof.
  intros readStart size buffer n result. subst result.
  destruct (state h) eqn:Hstate.
  - rewrite read_spec by done. cbv zeta.
    fold readStart size buffer n.
    repeat case_bool_decide; done.
  - unfold read.
    by rewrite (bind_throw _ _ _ _ _ (ensureNotClosed_closed fs h Hstate)).
Qed.

(** X18.  On an open handle with room for the bytes,
    [write(source, { at })] (at the cursor when [at] is absent) stores the
    bytes of the underlying buffer of [source] at the position and returns
    their number: for a view that is the whole buffer it is a view on,
    which can be more than the view shows.  The bytes before the position
    stay (zeros fill a gap behind the old end), and so do the old bytes
    behind the written ones.  A [read] at the same position into a target
    of that length then returns these bytes.  Both leave the cursor behind
    the bytes, and [write] leaves the file system as it is. *)
Theorem read_returns_what_write_stored (fs : FileSystem.t) (h : t)
    (source : BufferSource) (at_ : option Z) :
  state h = open ->
  let position := default (cursor h) at_ in
  let data := bufferOf source in
  0 <= position ->
  gt_num (Z.max (byteLength (tempFile h)) (position + byteLength data))
         (room fs h) = false ->
  exists h1,
    write source at_ (fs, h) = (Ok (byteLength data), (fs, h1))
    /\ tempFile h1 = written position data (tempFile h)
    /\ cursor h1 = position + byteLength data
    /\ forall target,
         length (bufferOf target) = length data ->
         let result := read target (Some position) (fs, h1) in
         fst result = Ok (data, byteLength data)
         /\ cursor (snd (snd result)) = position + byteLength data.
Proof.
  intros Hopen position data Hpos Hroom.
  pose proof (byteLength_nonneg data) as Hdata.
  rewrite write_source. fold data.
  rewrite write_spec by done. cbv zeta. fold position. rewrite Hroom.
  eexists. split; [reflexivity |]. split; [reflexivity |].
  split; [reflexivity |].
  intros target Hlen.
  rewrite read_spec by done. cbv zeta.
  cbn [default from_option id tempFile cursor setCursor setTempFile].
  rewrite byteLength_written by done.
  rewrite (bool_decide_eq_false_2 (position < 0)) by lia.
  rewrite (bool_decide_eq_false_2 (position > _)) by lia.
  assert (Hbuf : byteLength (bufferOf target) = byteLength data)
    by (unfold byteLength; by rewrite Hlen).
  replace (Z.min (byteLength (bufferOf target)) _) with (byteLength data)
    by lia.
  cbn [fst snd cursor]. split; [| done].
  do 2 f_equal.
  replace (Z.to_nat (byteLength data)) with (length data)
    by (unfold byteLength; lia).
  rewrite written_region by done.
  rewrite <- Hlen, drop_all. by rewrite app_nil_r.
Qed.

Lemma read_returns_what_write_stored_witness :
  exists h1,
    write (ArrayBufferView [Scenario.b1; Scenario.b2; Scenario.b3] 1 1)
      (Some 3) (Scenario.oneEmptyFile Infinity, Scenario.freshHandle)
    = (Ok 3, (Scenario.oneEmptyFile Infinity, h1))
    /\ fst (read [Scenario.b9; Scenario.b9; Scenario.b9] (Some 3)
              (Scenario.oneEmptyFile Infinity, h1))
       = Ok ([Scenario.b1; Scenario.b2; Scenario.b3], 3).
Proof.
  destruct (read_returns_what_write_stored (Scenario.oneEmptyFile Infinity)
              Scenario.freshHandle
              (ArrayBufferView [Scenario.b1; Scenario.b2; Scenario.b3] 1 1)
              (Some 3))
    as (h1 & H1 & _ & _ & H2).
  - reflexivity.
  - simpl. lia.
  - reflexivity.
  - exists h1. split; [exact H1 |].
    apply (H2 [Scenario.b9; Scenario.b9; Scenario.b9]). reflexivity.
Defined.

End HandleReading.

(** ** SyncAccessHandle: closing, flushing, opening *)

Section HandleLifeCycle.
Import Utils SyncAccessHandle.

Lemma setState_closed_same (h : t) : state h = closed -> setState closed h = h.
Proof. destruct h. cbn. by intros ->. Qed.

(** X19.  [close] returns and leaves the handle closed, also when it was
    closed before.  On a closed handle [getSize], [flush], [read], [write]
    and [truncate] throw an [InvalidStateError] and change neither the
    handle nor the file system. *)
Theorem closed_handle_rejects_every_call (now : Z) (fs : FileSystem.t)
    (h : t) :
  let s := (fs, setState closed h) in
  close (fs, h) = (Ok tt, s)
  /\ close s = (Ok tt, s)
  /\ getSize s = (Throw handleClosed, s)
  /\ flush now s = (Throw handleClosed, s)
  /\ (forall buffer at_, read buffer at_ s = (Throw handleClosed, s))
  /\ (forall buffer at_, write buffer at_ s = (Throw handleClosed, s))
  /\ (forall bytesLength, truncate bytesLength s = (Throw handleClosed, s)).
Proof.
  intros s.
  assert (Hclosed : ensureNotClosed s = (Throw handleClosed, s))
    by (by apply ensureNotClosed_closed).
  split_and!.
  - unfold close. rewrite (bind_ok _ _ _ _ _ (this_eq fs h)).
    destruct (state h) eqn:Hst; [done |].
    unfold s. by rewrite setState_closed_same.
  - done.
  - unfold getSize. by rewrite (bind_throw _ _ _ _ _ Hclosed).
  - unfold flush. by rewrite (bind_throw _ _ _ _ _ Hclosed).
  - intros buffer at_. unfold read. by rewrite (bind_throw _ _ _ _ _ Hclosed).
  - intros buffer at_. unfold write. by rewrite (bind_throw _ _ _ _ _ Hclosed).
  - intros n. unfold truncate. by rewrite (bind_throw _ _ _ _ _ Hclosed).
Qed.

Lemma flush_open (now : Z) (fs : FileSystem.t) (h : t) :
  state h = open ->
  flush now (fs, h)
  = (fst (FileSystem.writeFile now (fileDescriptor h) (tempFile h) fs),
     (snd (FileSystem.writeFile now (fileDescriptor h) (tempFile h) fs), h)).
Proof.
  intros Hopen. unfold flush.
  rewrite (bind_ok _ _ _ _ _ (ensureNotClosed_open fs h Hopen)).
  rewrite (bind_ok _ _ _ _ _ (this_eq fs h)).
  unfold onFileSystem, zoom. cbn [fst snd].
  by destruct (FileSystem.writeFile _ _ _ fs).
Qed.

(** X20.  On an open handle, [flush] throws a [NotFoundError] when the
    descriptor has no record in the content store (the file was removed),
    and a [RangeError] when the temp file is longer than the free space plus
    the old record; both change nothing.  Otherwise it returns, [readFile]
    of the descriptor then returns the temp file, [getFileSize] of a path
    at which the descriptor was registered as a file returns its length,
    and the used space has changed by the difference of the lengths.  The
    handle stays as it was. *)
Theorem flush_stores_the_temp_file (now : Z) (fs : FileSystem.t) (h : t) :
  state h = open ->
  let fd := fileDescriptor h in
  match FileSystem.disk fs !! fd with
  | None =>
      flush now (fs, h)
      = (Throw (notFound "No allocated memory for given descriptor."),
         (fs, h))
  | Some old =>
      if gt_num (byteLength (tempFile h))
                (num_add (FileSystem.getFreeDiskSpace fs) (byteLength old))
      then exists message,
             flush now (fs, h) = (Throw (RangeError message), (fs, h))
      else exists fs',
             flush now (fs, h) = (Ok tt, (fs', h))
             /\ FileSystem.readFile fd fs' = (Ok (tempFile h), fs')
             /\ (forall path, FileSystem.registry fs !! path = Some fd ->
                   FileSystem.isFile fs path = true ->
                   FileSystem.getFileSize fs' path
                   = Some (byteLength (tempFile h)))
             /\ FileSystem.getUsedDiskSpace fs'
                = FileSystem.getUsedDiskSpace fs - byteLength old
                  + byteLength (tempFile h)
  end.
Proof.
  intros Hopen fd. rewrite flush_open by done. fold fd.
  destruct (FileSystem.disk fs !! fd) as [old |] eqn:Hold.
  - destruct (gt_num _ _) eqn:Hroom.
    + unfold FileSystem.writeFile.
      rewrite (bind_ok _ _ _ _ _ (get_eq fs)). rewrite Hold.
      rewrite bool_decide_eq_true_2 by (by eexists). cbn [negb].
      rewrite Hroom. by eexists.
    + rewrite (writeFile_ok now fd (tempFile h) old fs Hold Hroom).
      eexists. split; [reflexivity |]. split_and!.
      * rewrite readFile_eq. cbn. by rewrite lookup_insert_eq.
      * intros path Hreg Hfile.
        apply isFile_lookup in Hfile as (r & p & size & m & Hr & Hd).
        assert (r = fd) as -> by congruence.
        unfold FileSystem.getFileSize, FileSystem.getDescriptor. cbn.
        rewrite Hreg, !lookup_alter_eq, Hd. cbn.
        by rewrite lookup_insert_eq.
      * rewrite !getUsedDiskSpace_usedOf. cbn. by apply usedOf_insert.
  - by rewrite (writeFile_missing now fd (tempFile h) fs Hold).
Qed.

Lemma flush_stores_the_temp_file_witness :
  let h := {| fileDescriptor := Scenario.theFile; tempFile := [Scenario.b1];
              state := open; cursor := 1 |} in
  exists fs',
    flush 5 (Scenario.oneEmptyFile Infinity, h) = (Ok tt, (fs', h))
    /\ FileSystem.readFile Scenario.theFile fs' = (Ok [Scenario.b1], fs').
Proof.
  intros h.
  destruct (flush_stores_the_temp_file 5 (Scenario.oneEmptyFile Infinity) h
              eq_refl) as (fs' & H1 & H2 & _).
  exists fs'. split; [exact H1 | exact H2].
Defined.

(** X21.  In a well-formed file system, for the descriptor of a registered
    file, [new SyncAccessHandle(descriptor, fileSystem, keepContent)]
    returns an open handle with the cursor at 0 and leaves the file system
    as it was.  Its temp file is a copy of the contents of the file when
    [keepContent] is true, and is empty otherwise. *)
Theorem new_handle_copies_or_drops_the_content (fs : FileSystem.t)
    (path : string) (fd : FileSystem.ref) (keepContent : bool) :
  wellFormed fs -> FileSystem.registry fs !! path = Some fd ->
  FileSystem.isFile fs path = true ->
  exists content,
    FileSystem.readFile fd fs = (Ok content, fs)
    /\ new fd keepContent fs
       = (Ok {| fileDescriptor := fd;
                tempFile := if keepContent then content else [];
                state := open; cursor := 0 |}, fs).
Proof.
  intros Hwf Hreg Hfile.
  apply isFile_lookup in Hfile as (r & p & size & m & Hr & Hd).
  assert (r = fd) as -> by congruence.
  destruct (wf_size fs Hwf path fd p size m Hreg Hd) as (content & Hc & Hlen).
  exists content. split; [by rewrite readFile_eq, Hc |].
  unfold new. rewrite (bind_ok _ _ _ _ _ (get_eq fs)).
  assert (Hsize : FileSystem.sizeOf fs fd = size)
    by (unfold FileSystem.sizeOf; by rewrite Hd).
  rewrite Hsize. pose proof (byteLength_nonneg content) as Hnn.
  destruct keepContent.
  - rewrite newArrayBuffer_ok by lia.
    rewrite (bind_ok _ _ _ _ _ (liftE_inr _ fs)).
    assert (Hread : FileSystem.readFile fd fs = (Ok content, fs))
      by (by rewrite readFile_eq, Hc).
    rewrite (bind_ok _ _ _ _ _ Hread).
    rewrite (copyArrayBuffer_in_range content _ noOptions)
      by (cbn; rewrite ?byteLength_replicate; lia).
    rewrite (bind_ok _ _ _ _ _ (liftE_inr _ fs)). unfold ret. cbn [fst].
    do 3 f_equal.
    unfold copiedCount. cbn. rewrite byteLength_replicate by lia.
    replace (Z.min _ _) with (byteLength content) by lia.
    replace (Z.to_nat (0 + byteLength content)) with (length content)
      by (unfold byteLength; lia).
    replace (Z.to_nat (byteLength content)) with (length content)
      by (unfold byteLength; lia).
    change (Z.to_nat 0) with 0%nat. rewrite drop_0, take_0, firstn_all.
    rewrite drop_ge; [by rewrite app_nil_r |].
    rewrite length_replicate. unfold byteLength in *. lia.
  - change (newArrayBuffer 0) with (@inr Error (list byte) []).
    by rewrite (bind_ok _ _ _ _ _ (liftE_inr _ fs)).
Qed.

Lemma new_handle_copies_or_drops_the_content_witness :
  let fs := snd (FileSystem.createFile 0 "f" (Some 2)
                   (FileSystem.new Infinity)) in
  new Scenario.theFile true fs
  = (Ok {| fileDescriptor := Scenario.theFile;
           tempFile := [Byte.x00; Byte.x00]; state := open; cursor := 0 |},
     fs).
Proof.
  intros fs.
  destruct (new_handle_copies_or_drops_the_content fs "f" Scenario.theFile
              true) as (content & Hread & Hnew).
  - apply (run_wellFormed Infinity [System.CreateFile 0 "f" (Some 2)]).
  - reflexivity.
  - reflexivity.
  - rewrite Hnew. injection Hread as <-. reflexivity.
Defined.

End HandleLifeCycle.

(** ** PermissionsManager: states by path *)

Section ManagerStates.
Import Permission PermissionsManager.

Lemma withStore_same (w : World) : withStore (storeOf w) w = w.
Proof. by destruct w as [fs []]. Qed.

Lemma ensureIsValidPath_ok (path : string) (w : World) :
  FileSystem.exists_ (fileSystem w) path = true ->
  ensureIsValidPath path w = (Ok tt, w).
Proof.
  intros Hex. unfold ensureIsValidPath.
  rewrite (bind_ok _ _ _ _ _ (get_eq w)). by rewrite Hex.
Qed.

Lemma getPermission_missing (path : string) (w : World) :
  FileSystem.exists_ (fileSystem w) path = false ->
  getPermission path w = (Throw (invalidPath path), w).
Proof.
  intros Hex. unfold getPermission, ensureIsValidPath.
  unfold bind at 1. rewrite (bind_ok _ _ _ _ _ (get_eq w)). by rewrite Hex.
Qed.

Lemma getPermission_registered (path : string) (r : ref) (w : World) :
  FileSystem.exists_ (fileSystem w) path = true ->
  permissionsOf w !! path = Some r ->
  getPermission path w = (Ok r, w).
Proof.
  intros Hex Hr. unfold getPermission.
  rewrite (bind_ok _ _ _ _ _ (ensureIsValidPath_ok path w Hex)).
  unfold findOrCreatePermission. cbn [findOrCreatePermissionRec].
  rewrite (bind_ok _ _ _ _ _ (get_eq w)). fold (permissionsOf w).
  by rewrite Hr.
Qed.

Lemma getPermission_total (path : string) (w : World) :
  managerOk w -> FileSystem.exists_ (fileSystem w) path = true ->
  exists r w',
    getPermission path w = (Ok r, w')
    /\ grows w w'
    /\ permissionsOf w' !! path = Some r
    /\ ((exists rank, levelled rank w) -> exists rank', levelled rank' w').
Proof.
  intros Hok Hex.
  destruct (findOrCreate_total (S (length (Utils.pathSegments path))) path w
              Hok) as (r & w' & Hrun); [lia |].
  destruct (findOrCreate_spec _ path w w' r Hok Hrun)
    as (Hgrow & Hreg & _ & _ & Hlev).
  exists r, w'. split; [| done]. unfold getPermission.
  by rewrite (bind_ok _ _ _ _ _ (ensureIsValidPath_ok path w Hex)).
Qed.

Lemma get_eq_valueOf (r : ref) (o : obj) (mode : FileSystemPermissionMode)
    (h : heap) :
  objects h !! r = Some o -> Permission.get r mode h = (Ok (valueOf mode o), h).
Proof.
  intros Ho. destruct mode; cbn [Permission.get valueOf].
  - by apply getRead_eq.
  - by apply getReadwrite_eq.
Qed.

Lemma getState_registered (path : string) (r : ref) (o : obj)
    (mode : FileSystemPermissionMode) (w : World) :
  FileSystem.exists_ (fileSystem w) path = true ->
  permissionsOf w !! path = Some r ->
  objects (storeOf w) !! r = Some o ->
  getState path mode w = (Ok (valueOf mode o), w).
Proof.
  intros Hex Hr Ho. unfold getState.
  rewrite (bind_ok _ _ _ _ _ (getPermission_registered path r w Hex Hr)).
  rewrite (onStore_ok _ _ _ _ (get_eq_valueOf r o mode _ Ho)).
  by rewrite withStore_same.
Qed.

(** X22.  For a path that does not exist in the file system, [getState],
    [setState], [getStatus], [requestPermission] and [duplicate] (with the
    path as its source) throw a [TypeError] and change neither the manager
    nor the file system. *)
Theorem permission_of_a_missing_path_is_refused
    (ask : FileSystemPermissionMode -> FileSystem.t -> string
           -> PermissionState)
    (fuel : nat) (path other : string) (mode : FileSystemPermissionMode)
    (state : PermissionState) (w : World) :
  FileSystem.exists_ (fileSystem w) path = false ->
  getState path mode w = (Throw (invalidPath path), w)
  /\ setState fuel path mode state w = (Throw (invalidPath path), w)
  /\ getStatus path mode w = (Throw (invalidPath path), w)
  /\ requestPermission ask fuel path mode w = (Throw (invalidPath path), w)
  /\ duplicate fuel path other w = (Throw (invalidPath path), w).
Proof.
  intros Hex. pose proof (getPermission_missing path w Hex) as Hget.
  unfold getState, setState, getStatus, requestPermission, duplicate.
  by rewrite !(bind_throw _ _ _ _ _ Hget).
Qed.

Lemma permission_of_a_missing_path_is_refused_witness :
  getState "nowhere" ModeRead (Scenario.managed Scenario.nested prompt prompt)
  = (Throw (invalidPath "nowhere"),
     Scenario.managed Scenario.nested prompt prompt).
Proof.
  apply (permission_of_a_missing_path_is_refused (fun _ _ _ => granted) 0
           "nowhere" "x" ModeRead granted
           (Scenario.managed Scenario.nested prompt prompt)).
  reflexivity.
Defined.

(** What [setState] leaves, given enough fuel for the cascade. *)
Lemma setState_spec (path : string) (mode : FileSystemPermissionMode)
    (state : PermissionState) (w : World) :
  managerOk w -> (exists rank, levelled rank w) ->
  FileSystem.exists_ (fileSystem w) path = true ->
  exists r w' o fuel0,
    getPermission path w = (Ok r, w')
    /\ objects (storeOf w') !! r = Some o
    /\ fileSystem w' = fileSystem w
    /\ permissionsOf w' !! path = Some r
    /\ forall fuel, (fuel0 <= fuel)%nat ->
         exists h',
           Permission.set fuel r mode state (storeOf w') = (Ok tt, h')
           /\ setState fuel path mode state w = (Ok tt, withStore h' w')
           /\ objects h' !! r = Some (afterSet mode state o).
Proof.
  intros Hok Hlev Hex.
  destruct (getPermission_total path w Hok Hex)
    as (r & w' & Hget & Hgrow & Hreg & Hlev').
  destruct (Hlev' Hlev) as [rank' Hl'].
  assert (Hok' : managerOk w') by apply Hgrow.
  destruct (proj1 Hok' path r Hreg) as [o Ho].
  assert (Ha : acyclic rank' (storeOf w')) by by apply levelled_acyclic.
  destruct (levelled_closedBelow rank' w' Hok' Hl') as [top Hclosed].
  exists r, w', o, (3 * (top - rank' r) + 3)%nat.
  split_and!; [done | done | apply Hgrow | done |].
  intros fuel Hfuel.
  destruct (set_step rank' top fuel r o mode state (storeOf w') Ha Hclosed Ho
              Hfuel) as (h' & Hset & _ & Hr).
  exists h'. split_and!; [done | | done].
  unfold setState. rewrite (bind_ok _ _ _ _ _ Hget).
  by rewrite (onStore_ok _ _ _ _ Hset).
Qed.

(** X23.  In a manager whose subscriptions go one level down (as in a new
    manager), for a path that exists in the file system,
    [setState(path, mode, state)] returns when it has fuel for the cascade,
    and [getState(path, mode)] then returns [state].  After a [setState] of
    readwrite to granted, [getState] of read returns granted too; after a
    [setState] of read to a state other than granted, [getState] of
    readwrite returns that state too.  The file system is left as it
    was. *)
Theorem getState_returns_what_setState_stored (path : string)
    (mode : FileSystemPermissionMode) (state : PermissionState) (w : World) :
  managerOk w -> (exists rank, levelled rank w) ->
  FileSystem.exists_ (fileSystem w) path = true ->
  exists fuel0, forall fuel, (fuel0 <= fuel)%nat ->
    exists w1,
      setState fuel path mode state w = (Ok tt, w1)
      /\ getState path mode w1 = (Ok state, w1)
      /\ (mode = ModeReadwrite -> state = granted ->
          getState path ModeRead w1 = (Ok granted, w1))
      /\ (mode = ModeRead -> state <> granted ->
          getState path ModeReadwrite w1 = (Ok state, w1))
      /\ fileSystem w1 = fileSystem w.
Proof.
  intros Hok Hlev Hex.
  destruct (setState_spec path mode state w Hok Hlev Hex)
    as (r & w' & o & fuel0 & Hget & Ho & Hfs & Hreg & Hset).
  exists fuel0. intros fuel Hfuel.
  destruct (Hset fuel Hfuel) as (h' & _ & Hrun & Hr).
  exists (withStore h' w'). split; [done |].
  assert (Hstate : forall mode',
    getState path mode' (withStore h' w')
    = (Ok (valueOf mode' (afterSet mode state o)), withStore h' w')).
  { intros mode'. apply (getState_registered path r); [| done | done].
    cbn. by rewrite Hfs. }
  split_and!.
  - rewrite Hstate. by destruct mode; cbn.
  - intros -> ->. by rewrite Hstate.
  - intros -> Hs. rewrite Hstate. cbn. by rewrite decide_False.
  - cbn. done.
Qed.

Lemma getState_returns_what_setState_stored_witness :
  exists fuel0, forall fuel, (fuel0 <= fuel)%nat ->
    exists w1,
      setState fuel "x" ModeReadwrite granted
        (Scenario.managed Scenario.nested prompt prompt) = (Ok tt, w1)
      /\ getState "x" ModeReadwrite w1 = (Ok granted, w1)
      /\ getState "x" ModeRead w1 = (Ok granted, w1).
Proof.
  destruct (getState_returns_what_setState_stored "x" ModeReadwrite granted
              (Scenario.managed Scenario.nested prompt prompt))
    as [fuel0 H].
  - apply new_managerOk.
  - exists (fun _ => 0%nat). apply new_levelled.
  - reflexivity.
  - exists fuel0. intros fuel Hfuel.
    destruct (H fuel Hfuel) as (w1 & H1 & H2 & H3 & _).
    exists w1. split; [exact H1 |]. split; [exact H2 |].
    apply H3; reflexivity.
Defined.

(** X24.  In a manager whose subscriptions go one level down, for a path that
    exists in the file system: when the state that [getState(path, mode)]
    returns is not prompt, [requestPermission(path, mode)] returns that
    state and leaves what [getState] leaves, whatever the provider would
    answer; when it is prompt, [requestPermission] returns the answer of
    the provider (given fuel for the cascade), and a later
    [getState(path, mode)] returns that answer. *)
Theorem requestPermission_asks_only_on_prompt
    (ask : FileSystemPermissionMode -> FileSystem.t -> string
           -> PermissionState)
    (path : string) (mode : FileSystemPermissionMode) (w : World) :
  managerOk w -> (exists rank, levelled rank w) ->
  FileSystem.exists_ (fileSystem w) path = true ->
  exists current w0,
    getState path mode w = (Ok current, w0)
    /\ (current <> prompt ->
        forall fuel, requestPermission ask fuel path mode w = (Ok current, w0))
    /\ (current = prompt ->
        exists fuel0, forall fuel, (fuel0 <= fuel)%nat ->
          exists w1,
            requestPermission ask fuel path mode w
            = (Ok (ask mode (fileSystem w) path), w1)
            /\ getState path mode w1
               = (Ok (ask mode (fileSystem w) path), w1)).
Proof.
  intros Hok Hlev Hex.
  destruct (setState_spec path mode (ask mode (fileSystem w) path) w Hok Hlev
              Hex)
    as (r & w' & o & fuel0 & Hget & Ho & Hfs & Hreg & Hset).
  pose proof (get_eq_valueOf r o mode _ Ho) as Hcur.
  exists (valueOf mode o), w'. split_and!.
  - unfold getState. rewrite (bind_ok _ _ _ _ _ Hget).
    rewrite (onStore_ok _ _ _ _ Hcur). by rewrite withStore_same.
  - intros Hne fuel. unfold requestPermission.
    rewrite (bind_ok _ _ _ _ _ Hget).
    rewrite (bind_ok _ _ _ _ _ (onStore_ok _ _ _ _ Hcur)).
    rewrite withStore_same. rewrite bool_decide_eq_false_2 by done.
    rewrite (onStore_ok _ _ _ _ Hcur). by rewrite withStore_same.
  - intros Hp. exists fuel0. intros fuel Hfuel.
    destruct (Hset fuel Hfuel) as (h' & Hrun & _ & Hr).
    exists (withStore h' w'). split.
    + unfold requestPermission. rewrite (bind_ok _ _ _ _ _ Hget).
      rewrite (bind_ok _ _ _ _ _ (onStore_ok _ _ _ _ Hcur)).
      rewrite withStore_same. rewrite bool_decide_eq_true_2 by done.
      rewrite (bind_ok _ _ _ _ _ (get_eq w')). rewrite Hfs.
      by rewrite (bind_ok _ _ _ _ _ (onStore_ok _ _ _ _ Hrun)).
    + rewrite (getState_registered path r (afterSet mode
                 (ask mode (fileSystem w) path) o)); [| by cbn; rewrite Hfs
                 | done | done].
      by destruct mode; cbn.
Qed.

Lemma requestPermission_asks_only_on_prompt_witness :
  exists fuel0, forall fuel, (fuel0 <= fuel)%nat ->
    exists w1,
      requestPermission (fun _ _ _ => denied) fuel "x" ModeRead
        (Scenario.managed Scenario.nested prompt prompt) = (Ok denied, w1)
      /\ getState "x" ModeRead w1 = (Ok denied, w1).
Proof.
  destruct (requestPermission_asks_only_on_prompt (fun _ _ _ => denied)
              "x" ModeRead (Scenario.managed Scenario.nested prompt prompt))
    as (current & w0 & Hget & _ & Hprompt).
  - apply new_managerOk.
  - exists (fun _ => 0%nat). apply new_levelled.
  - reflexivity.
  - apply Hprompt. vm_compute in Hget. injection Hget as <- _. reflexivity.
Defined.

End ManagerStates.

(** ** PermissionsManager: the file system is left alone *)

Section FileSystemKept.
Import PermissionsManager.

Lemma fileSystemKept_bind {A B} (m : M World A) (k : A -> M World B) :
  fileSystemKept m -> (forall a, fileSystemKept (k a)) ->
  fileSystemKept (bind m k).
Proof.
  intros Hm Hk w. unfold bind. specialize (Hm w).
  destruct (m w) as [[a | e |] w1]; cbn [snd] in *; [| done | done].
  by rewrite Hk.
Qed.

Lemma fileSystemKept_ret {A} (a : A) : fileSystemKept (ret a).
Proof. done. Qed.

Lemma fileSystemKept_throw {A} (e : Error) : fileSystemKept (throw (A := A) e).
Proof. done. Qed.

Lemma fileSystemKept_get : fileSystemKept get.
Proof. done. Qed.

Lemma fileSystemKept_onStore {A} (m : M Permission.heap A) :
  fileSystemKept (onStore m).
Proof. intros w. by rewrite onStore_eq. Qed.

Lemma fileSystemKept_findOrCreate (fuel : nat) (path : string) :
  fileSystemKept (findOrCreatePermissionRec fuel path).
Proof.
  revert path. induction fuel as [| fuel IH]; intros path; [done |].
  cbn [findOrCreatePermissionRec].
  apply fileSystemKept_bind; [apply fileSystemKept_get |]. intros w.
  destruct (permissions (manager w) !! path); [apply fileSystemKept_ret |].
  apply fileSystemKept_bind; [apply fileSystemKept_onStore |]. intros r.
  apply fileSystemKept_bind.
  - destruct (Utils.nonEmpty path); [| apply fileSystemKept_ret].
    destruct (Utils.dirname path); [| apply fileSystemKept_ret].
    repeat (apply fileSystemKept_bind;
            [first [apply IH | apply fileSystemKept_onStore] | intros ?]).
    apply fileSystemKept_onStore.
  - intros _. apply fileSystemKept_bind; [done |]. intros _.
    apply fileSystemKept_ret.
Qed.

Lemma fileSystemKept_getPermission (path : string) :
  fileSystemKept (getPermission path).
Proof.
  unfold getPermission. apply fileSystemKept_bind.
  - unfold ensureIsValidPath.
    apply fileSystemKept_bind; [apply fileSystemKept_get |]. intros w.
    destruct (negb _); [apply fileSystemKept_throw | apply fileSystemKept_ret].
  - intros _. apply fileSystemKept_findOrCreate.
Qed.

Lemma fileSystemKept_getStatus (path : string)
    (mode : FileSystemPermissionMode) :
  fileSystemKept (getStatus path mode).
Proof.
  unfold getStatus.
  apply fileSystemKept_bind; [apply fileSystemKept_getPermission |].
  intros r. unfold newStatus.
  apply fileSystemKept_bind; [apply fileSystemKept_get |]. intros w.
  apply fileSystemKept_bind; [done |]. intros _.
  apply fileSystemKept_bind; [apply fileSystemKept_onStore |]. intros _.
  apply fileSystemKept_ret.
Qed.

Lemma fileSystemKept_state (status : Status) : fileSystemKept (state status).
Proof. unfold state. destruct (statusMode status); apply fileSystemKept_onStore. Qed.

End FileSystemKept.

(** ** WritableFileStreamSink: the file system is left alone *)

Section SinkKeeps.
Import WritableFileStreamSink.

Lemma sinkKeeps_bind {A B} (m : M Self A) (k : A -> M Self B) :
  sinkKeepsFileSystem m -> (forall a, sinkKeepsFileSystem (k a)) ->
  sinkKeepsFileSystem (bind m k).
Proof.
  intros Hm Hk s. unfold bind. specialize (Hm s).
  destruct (m s) as [[a | e |] s1]; cbn [fst snd] in *; [| done | done].
  by rewrite Hk.
Qed.

Lemma sinkKeeps_ret {A} (a : A) : sinkKeepsFileSystem (ret a).
Proof. done. Qed.

Lemma sinkKeeps_throw {A} (e : Error) : sinkKeepsFileSystem (throw (A := A) e).
Proof. done. Qed.

Lemma sinkKeeps_this : sinkKeepsFileSystem this.
Proof. done. Qed.

Lemma sinkKeeps_update (f : t -> t) : sinkKeepsFileSystem (update f).
Proof. done. Qed.

Lemma sinkKeeps_liftE {A} (m : Error + A) : sinkKeepsFileSystem (liftE m).
Proof. by destruct m. Qed.

Lemma sinkKeeps_when (b : bool) (m : M Self unit) :
  sinkKeepsFileSystem m -> sinkKeepsFileSystem (when b m).
Proof. destruct b; [done | intros _; apply sinkKeeps_ret]. Qed.

Lemma sinkKeeps_onWorld {A} (m : M PermissionsManager.World A) :
  fileSystemKept m -> sinkKeepsFileSystem (onWorld m).
Proof.
  intros Hm [w k]. unfold onWorld, zoom. cbn [fst snd]. specialize (Hm w).
  by destruct (m w).
Qed.

Lemma sinkKeeps_onHandle {A} (m : M SyncAccessHandle.Self A) :
  fsUntouched m -> sinkKeepsFileSystem (onHandle m).
Proof. intros Hm [w k]. rewrite onHandle_eq. cbn. apply Hm. Qed.

Lemma sinkKeeps_tryCatch {A} (m : M Self A) (handler : Error -> M Self A) :
  sinkKeepsFileSystem m -> (forall e, sinkKeepsFileSystem (handler e)) ->
  sinkKeepsFileSystem (tryCatch m handler).
Proof.
  intros Hm Hh s. unfold tryCatch. specialize (Hm s).
  destruct (m s) as [[a | e |] s1]; cbn [fst snd] in *; [done | | done].
  by rewrite Hh.
Qed.

Lemma sinkKeeps_ensureHasWritePermission :
  sinkKeepsFileSystem ensureHasWritePermission.
Proof.
  unfold ensureHasWritePermission.
  apply sinkKeeps_bind; [apply sinkKeeps_this |]. intros k.
  apply sinkKeeps_bind; [done |]. intros w.
  apply sinkKeeps_bind;
    [apply sinkKeeps_onWorld, fileSystemKept_getStatus |]. intros status.
  apply sinkKeeps_bind;
    [apply sinkKeeps_onWorld, fileSystemKept_state |]. intros st.
  destruct (negb _); [apply sinkKeeps_throw | apply sinkKeeps_ret].
Qed.

Lemma sinkKeeps_doTruncate (size : Z) : sinkKeepsFileSystem (doTruncate size).
Proof.
  unfold doTruncate.
  apply sinkKeeps_bind;
    [apply sinkKeeps_onHandle, fsUntouched_truncate |]. intros _.
  apply sinkKeeps_bind; [apply sinkKeeps_this |]. intros k.
  apply sinkKeeps_bind; [apply sinkKeeps_when, sinkKeeps_update |].
  intros _. apply sinkKeeps_update.
Qed.

Lemma sinkKeeps_doWrite (data : Data) (position : option Z) :
  sinkKeepsFileSystem (doWrite data position).
Proof.
  unfold doWrite.
  apply sinkKeeps_bind; [apply sinkKeeps_this |]. intros k.
  apply sinkKeeps_bind; [apply sinkKeeps_when, sinkKeeps_doTruncate |].
  intros _.
  apply sinkKeeps_bind;
    [apply sinkKeeps_onHandle, fsUntouched_write |]. intros n.
  apply sinkKeeps_update.
Qed.

Lemma sinkKeeps_dispatch (chunk : Chunk) : sinkKeepsFileSystem (dispatch chunk).
Proof.
  unfold dispatch.
  apply sinkKeeps_bind; [apply sinkKeeps_liftE |]. intros params.
  apply sinkKeeps_bind; [apply sinkKeeps_liftE |]. intros _.
  destruct (bool_decide (type params = "write")); [apply sinkKeeps_ret |].
  destruct (bool_decide (type params = "seek")).
  { apply sinkKeeps_bind; [apply sinkKeeps_update |]. intros _.
    apply sinkKeeps_ret. }
  destruct (bool_decide (type params = "truncate")); [| apply sinkKeeps_ret].
  apply sinkKeeps_bind; [apply sinkKeeps_doTruncate |]. intros _.
  apply sinkKeeps_ret.
Qed.

(** X25.  [write] and [abort] of a sink leave the file system as it was,
    whatever they are given and whatever their outcome: what a stream has
    written is in the temp file of its handle until [close] runs. *)
Theorem stream_reaches_the_file_system_only_on_close
    (w : PermissionsManager.World) (k : t) :
  (forall chunk,
     PermissionsManager.fileSystem (fst (snd (write chunk (w, k))))
     = PermissionsManager.fileSystem w)
  /\ (forall reason,
        PermissionsManager.fileSystem (fst (snd (abort reason (w, k))))
        = PermissionsManager.fileSystem w).
Proof.
  split.
  - intros chunk.
    assert (H : sinkKeepsFileSystem (write chunk)); [| apply (H (w, k))].
    unfold write.
    apply sinkKeeps_bind.
    { unfold ensureNotInErrorState.
      apply sinkKeeps_bind; [apply sinkKeeps_this |]. intros k0.
      destruct (error k0); [apply sinkKeeps_throw | apply sinkKeeps_ret]. }
    intros _. apply sinkKeeps_bind.
    { unfold ensureNotClosed.
      apply sinkKeeps_bind; [apply sinkKeeps_this |]. intros k0.
      destruct (isClosed k0); [apply sinkKeeps_throw | apply sinkKeeps_ret]. }
    intros _.
    apply sinkKeeps_bind; [apply sinkKeeps_ensureHasWritePermission |].
    intros _. apply sinkKeeps_bind.
    { apply sinkKeeps_tryCatch; [apply sinkKeeps_dispatch |]. intros e.
      apply sinkKeeps_bind; [apply sinkKeeps_update |]. intros _.
      apply sinkKeeps_throw. }
    intros [[data position] |]; [apply sinkKeeps_doWrite | apply sinkKeeps_ret].
  - intros reason.
    assert (H : sinkKeepsFileSystem (abort reason)); [| apply (H (w, k))].
    unfold abort.
    apply sinkKeeps_bind;
      [apply sinkKeeps_onHandle, fsUntouched_close |]. intros _.
    apply sinkKeeps_update.
Qed.

End SinkKeeps.

(** ** WritableFileStreamSink: closing *)

Section SinkClose.
Import WritableFileStreamSink.

(** X26.  When the guards of a sink pass (no stored error, not closed,
    readwrite permission granted), its handle is open, the descriptor has a
    record in the content store and the temp file of the handle is not
    longer than the free space plus that record, [close] returns.
    Afterwards [readFile] of the descriptor returns the temp file, the sink
    is closed, and a later [write] or [close] throws a [TypeError] and
    changes nothing. *)
Theorem close_stores_the_stream_and_ends_it (now now' : Z)
    (w w' : PermissionsManager.World) (k : t) (old : list byte) :
  let h := syncAccessHandle k in
  let fd := SyncAccessHandle.fileDescriptor h in
  let fs := PermissionsManager.fileSystem w in
  guardsPass w w' k ->
  SyncAccessHandle.state h = SyncAccessHandle.open ->
  FileSystem.disk fs !! fd = Some old ->
  gt_num (Utils.byteLength (SyncAccessHandle.tempFile h))
         (num_add (FileSystem.getFreeDiskSpace fs) (Utils.byteLength old))
  = false ->
  exists w1 k1,
    close now (w, k) = (Ok tt, (w1, k1))
    /\ FileSystem.readFile fd (PermissionsManager.fileSystem w1)
       = (Ok (SyncAccessHandle.tempFile h), PermissionsManager.fileSystem w1)
    /\ PermissionsManager.manager w1 = PermissionsManager.manager w'
    /\ isClosed k1 = true
    /\ (forall chunk,
          write chunk (w1, k1)
          = (Throw (TypeError "Cannot write to a CLOSED writable stream"),
             (w1, k1)))
    /\ close now' (w1, k1)
       = (Throw (TypeError "Cannot close a CLOSED writable stream"),
          (w1, k1)).
Proof.
  intros h fd fs (He & Hc & Hp) Hopen Hold Hroom.
  assert (Hfs : PermissionsManager.fileSystem w' = fs).
  { pose proof (sinkKeeps_ensureHasWritePermission (w, k)) as H.
    by rewrite Hp in H. }
  unfold close at 1.
  rewrite (bind_ok _ _ _ _ _ (ensureNotClosed_ok _ w k Hc)).
  rewrite (bind_ok _ _ _ _ _ Hp).
  unfold bind at 1, this, gets. cbn [fst snd]. rewrite He.
  unfold bind at 1, update, modify. cbn [fst snd].
  unfold bind at 1. rewrite onHandle_eq.
  cbn [syncAccessHandle setIsClosed]. fold h.
  rewrite flush_open by done. fold fd. rewrite Hfs.
  rewrite (writeFile_ok now fd _ old fs Hold Hroom).
  cbn [fst snd]. rewrite onHandle_eq.
  cbn [syncAccessHandle setHandle setIsClosed PermissionsManager.fileSystem].
  unfold SyncAccessHandle.close.
  rewrite (bind_ok _ _ _ _ _ (this_eq _ h)). rewrite Hopen.
  rewrite update_eq. cbn [fst snd].
  match goal with
  | |- exists w1 k1, (_, (?a, ?b)) = _ /\ _ => set (w1 := a); set (k1 := b)
  end.
  exists w1, k1. split; [reflexivity |].
  assert (He1 : error k1 = None) by done.
  split_and!.
  - rewrite readFile_eq. cbn. by rewrite lookup_insert_eq.
  - done.
  - done.
  - intros chunk. unfold write.
    rewrite (bind_ok _ _ _ _ _ (ensureNotInErrorState_ok w1 k1 He1)).
    unfold ensureNotClosed.
    unfold bind at 1, bind at 1, this, gets. by cbn.
  - unfold close, ensureNotClosed.
    unfold bind at 1, bind at 1, this, gets. by cbn.
Qed.

Lemma close_stores_the_stream_and_ends_it_witness :
  let w := Scenario.grantedWorld Infinity in
  let k := setHandle
             {| SyncAccessHandle.fileDescriptor := Scenario.theFile;
                SyncAccessHandle.tempFile := [Scenario.b1; Scenario.b2];
                SyncAccessHandle.state := SyncAccessHandle.open;
                SyncAccessHandle.cursor := 2 |} Scenario.freshSink in
  exists w1 k1,
    close 5 (w, k) = (Ok tt, (w1, k1))
    /\ FileSystem.readFile Scenario.theFile (PermissionsManager.fileSystem w1)
       = (Ok [Scenario.b1; Scenario.b2], PermissionsManager.fileSystem w1)
    /\ isClosed k1 = true.
Proof.
  intros w k.
  destruct (close_stores_the_stream_and_ends_it 5 6 w
              (fst (snd (ensureHasWritePermission (w, k)))) k [])
    as (w1 & k1 & H1 & H2 & _ & H3 & _).
  - split; [reflexivity |]. split; [reflexivity |]. vm_compute. reflexivity.
  - reflexivity.
  - reflexivity.
  - reflexivity.
  - exists w1, k1. split; [exact H1 |]. split; [exact H2 | exact H3].
Defined.

End SinkClose.

(** ** DirectoryHandle: names and paths *)

Section ChildPaths.
Import Utils DefaultEntryNameValidator DirectoryHandle.

Lemma isValidName_separatorFree (name : string) :
  negb (test name) = true -> separatorFree name = true.
Proof.
  induction name as [| c rest IH]; [done |].
  cbn [test separatorFree]. rewrite negb_orb. intros [Hc Hrest]%andb_true_iff.
  rewrite IH by done. rewrite andb_true_r.
  apply negb_true_iff, bool_decide_eq_false in Hc.
  unfold isSeparator. apply negb_true_iff, orb_false_iff.
  split; apply bool_decide_eq_false; intros ->; apply Hc; set_solver.
Qed.

Lemma isValidName_segment (name : string) :
  isValidName name = true ->
  separatorFree name = true /\ nonEmpty name = true.
Proof.
  unfold isValidName.
  destruct (bool_decide (name = ".")); [done |].
  destruct (bool_decide (name = "..")); [done |]. cbn [orb].
  case_bool_decide as Hne; [done |]. intros Hvalid. split.
  - by apply isValidName_separatorFree.
  - unfold nonEmpty. by rewrite bool_decide_eq_false_2.
Qed.

Lemma stripTrailingSlashes_separatorFree (s : string) :
  separatorFree s = true -> stripTrailingSlashes s = s.
Proof.
  induction s as [| c rest IH]; [done |].
  cbn [separatorFree]. intros [Hc Hrest]%andb_true_iff.
  rewrite stripTrailingSlashes_cons, IH by done.
  destruct rest; [| done].
  unfold isSeparator in Hc. apply negb_true_iff, orb_false_iff in Hc as [Hc _].
  by rewrite Hc.
Qed.

Lemma stripTrailingSlashes_app (a b : string) :
  stripTrailingSlashes b = b -> b <> EmptyString ->
  stripTrailingSlashes (a +:+ b) = a +:+ b.
Proof.
  intros Hb Hne. induction a as [| c a IH]; [done |].
  rewrite append_cons, stripTrailingSlashes_cons, IH.
  destruct (a +:+ b) eqn:Hab; [| done].
  destruct a; [by subst | done].
Qed.

Lemma stripTrailingSlashes_join (l : list string) :
  Forall (fun s => separatorFree s = true) l ->
  Forall (fun s => nonEmpty s = true) l ->
  stripTrailingSlashes (join l) = join l.
Proof.
  induction l as [| s rest IH]; [done |].
  intros [Hs Hrest]%Forall_cons [Hn Hnrest]%Forall_cons.
  destruct rest as [| r rest].
  - by apply stripTrailingSlashes_separatorFree.
  - change (join (s :: r :: rest)) with (s +:+ "/" +:+ join (r :: rest)).
    apply stripTrailingSlashes_app; [| done].
    change ("/" +:+ join (r :: rest)) with (String "/" (join (r :: rest))).
    rewrite stripTrailingSlashes_cons, IH by done.
    assert (Hne : nonEmpty (join (r :: rest)) = true)
      by (by apply join_nonEmpty).
    destruct (join (r :: rest)); [done | done].
Qed.

Lemma join_snoc (l : list string) (x : string) :
  l <> [] -> join (l ++ [x]) = join l +:+ "/" +:+ x.
Proof.
  induction l as [| s rest IH]; [done |]. intros _.
  destruct rest as [| r rest]; [done |].
  change (join ((s :: r :: rest) ++ [x]))
    with (s +:+ "/" +:+ join ((r :: rest) ++ [x])).
  rewrite IH by done.
  change (join (s :: r :: rest)) with (s +:+ "/" +:+ join (r :: rest)).
  by rewrite !append_assoc.
Qed.

(** X27.  For a name that the default validator accepts, the child path that
    a directory handle computes has the segments of the path of the
    directory followed by the name.  Its [basename] is the name, its
    [dirname] is the slash-joined form of the segments of the directory,
    and it is a child path of that form. *)
Theorem valid_name_gives_a_child_path (fullPath name : string) :
  isValidName name = true ->
  let childPath := getChildPath fullPath name in
  pathSegments childPath = pathSegments fullPath ++ [name]
  /\ basename childPath = Some name
  /\ dirname childPath = Some (join (pathSegments fullPath))
  /\ isChildPath childPath (join (pathSegments fullPath)) = true.
Proof.
  intros [Hsep Hne]%isValidName_segment childPath.
  pose proof (segments_separatorFree fullPath) as Hseps.
  pose proof (segments_nonEmpty fullPath) as Hnes.
  set (segments := pathSegments fullPath) in *.
  assert (Hall1 : Forall (fun s => separatorFree s = true) (segments ++ [name]))
    by (apply Forall_app; split; [done | by apply Forall_singleton]).
  assert (Hall2 : Forall (fun s => nonEmpty s = true) (segments ++ [name]))
    by (apply Forall_app; split; [done | by apply Forall_singleton]).
  assert (Hsegs : pathSegments childPath = segments ++ [name])
    by (by apply pathSegments_join).
  assert (Hchild : nonEmpty childPath = true).
  { unfold childPath, getChildPath. fold segments.
    apply join_nonEmpty; [| done]. by destruct segments. }
  split_and!.
  - done.
  - unfold basename. unfold nonEmpty in Hchild.
    apply negb_true_iff in Hchild. rewrite Hchild, Hsegs. apply last_snoc.
  - unfold dirname. rewrite Hsegs.
    destruct (segments ++ [name]) eqn:Happ; [by destruct segments |].
    rewrite <- Happ. by rewrite removelast_last.
  - assert (Hparent : pathSegments (join segments) = segments)
      by (by apply pathSegments_join).
    assert (Hsub : isSubPath childPath (join segments) = true).
    { unfold isSubPath. case_bool_decide as Hroot;
        [| rewrite Hroot; apply prefix_nil].
      rewrite stripTrailingSlashes_join by done.
      unfold childPath, getChildPath. fold segments.
      rewrite join_snoc by (intros ->; done).
      rewrite <- append_assoc. apply prefix_app_true. }
    unfold isChildPath, relativePath. rewrite Hsub. cbn [negb].
    rewrite Hparent, Hsegs, drop_app_length. cbn [join].
    by apply hasNoSlash_separatorFree.
Qed.

Lemma valid_name_gives_a_child_path_witness :
  getChildPath "a/b" "c.txt" = "a/b/c.txt"
  /\ pathSegments (getChildPath "a/b" "c.txt") = ["a"; "b"; "c.txt"]
  /\ isChildPath (getChildPath "a/b" "c.txt") "a/b" = true.
Proof.
  destruct (valid_name_gives_a_child_path "a/b" "c.txt")
    as (H1 & _ & _ & H2).
  - reflexivity.
  - split; [reflexivity |]. split; [exact H1 | exact H2].
Defined.

(** X28.  [resolve] returns and leaves the file system as it was.  When it
    returns names, the descriptor it was given is valid, and the segments
    of the path of that descriptor are those of the path of the directory
    followed by the names; it returns no names exactly when the two paths
    have the same segments.  When it returns [null], the descriptor is
    not valid, or its path is shorter than that of the directory, or the
    two paths differ and the first is not a sub-path of the second. *)
Theorem resolve_names_the_way_down (this other : FileSystem.ref)
    (fs : FileSystem.t) :
  exists names,
    resolve this other fs = (Ok names, fs)
    /\ match names with
       | Some names =>
           FileSystem.isValidDescriptor fs other = true
           /\ pathSegments (Handle.fullPathOf fs other)
              = pathSegments (Handle.fullPathOf fs this) ++ names
           /\ (names = [] <-> pathSegments (Handle.fullPathOf fs other)
                              = pathSegments (Handle.fullPathOf fs this))
       | None =>
           FileSystem.isValidDescriptor fs other = false
           \/ (String.length (Handle.fullPathOf fs other)
               < String.length (Handle.fullPathOf fs this))%nat
           \/ (Handle.fullPathOf fs this <> Handle.fullPathOf fs other
               /\ isSubPath (Handle.fullPathOf fs other) (Handle.fullPathOf fs this) = false)
       end.
Proof.
  unfold resolve. rewrite (bind_ok _ _ _ _ _ (get_eq fs)).
  set (sub := Handle.fullPathOf fs other). set (path := Handle.fullPathOf fs this).
  destruct (FileSystem.isValidDescriptor fs other) eqn:Hvalid; cbn [negb orb];
    [| exists None; split; [done | by left]].
  case_bool_decide as Hshort; [exists None; split; [done |]; right; by left |].
  case_bool_decide as Heq.
  { exists (Some []). split; [done |]. rewrite <- Heq, app_nil_r. done. }
  destruct (isSubPath sub path) eqn:Hsub;
    [| exists None; split; [done |]; right; by right].
  unfold relativePath. rewrite Hsub. cbn [negb].
  rewrite (bind_ok _ _ _ _ _ (liftE_inr _ fs)).
  eexists. split; [reflexivity |]. cbn beta iota.
  destruct (isSubPath_segments sub path Hsub) as [rest Hrest].
  assert (Hnames : pathSegments (join (drop (length (pathSegments path))
                                            (pathSegments sub)))
                   = pathSegments rest).
  { rewrite Hrest, drop_app_length.
    apply pathSegments_join;
      [apply segments_separatorFree | apply segments_nonEmpty]. }
  rewrite Hnames. split_and!; [done | done |].
  rewrite Hrest. split.
  - intros ->. by rewrite app_nil_r.
  - intros H. apply (app_inv_head (pathSegments path)). by rewrite app_nil_r.
Qed.

End ChildPaths.

(** ** API: a file and its contents *)

Section ApiFiles.
Import Utils FileSystem.

Lemma contents_of_a_file (path : string) (r : ref) (p : string) (size : Z)
    (m : option Z) (buffer : list byte) (fs : t) :
  registry fs !! path = Some r ->
  heap fs !! r = Some (FileDescriptor p size m) ->
  disk fs !! r = Some buffer ->
  API.contents path fs = (Ok (Some buffer), fs).
Proof.
  intros Hr Hd Hb. unfold API.contents.
  rewrite (bind_ok _ _ _ _ _ (get_eq fs)).
  unfold getDescriptor. rewrite Hr, Hd.
  by rewrite (bind_ok _ _ fs fs buffer) by (by rewrite readFile_eq, Hb).
Qed.

(** X29.  On an installed mock with a well-formed file system, let [path] be
    not registered, no path made of the first segments of its parent (some,
    not all) be a file, and the free space be not negative.
    [createFile(path, contents)] stores the underlying buffer of
    [contents]: the [ArrayBuffer] given, or all of the buffer that a view
    is a view on, whatever part of it the view shows.  When that buffer is
    not longer than the free space, the call returns, [contents(path)]
    then returns the bytes of that buffer, and the size of the file and
    the growth of the used space are its length.  When it is longer, the
    call throws a [RangeError] after it has created the file, and
    [contents(path)] returns an empty buffer. *)
Theorem api_createFile_then_contents (now now' : Z) (path : string)
    (contents : BufferSource) (fs : t) :
  wellFormed fs -> exists_ fs path = false ->
  (forall k, (0 < k < pred (length (pathSegments path)))%nat ->
             isFile fs (ancestor k path) = false) ->
  gt_num 0 (getFreeDiskSpace fs) = false ->
  let data := bufferOf contents in
  if gt_num (byteLength data) (getFreeDiskSpace fs)
  then exists message fs',
         API.createFile now now' path (Some contents) fs
         = (Throw (RangeError message), fs')
         /\ API.contents path fs' = (Ok (Some []), fs')
  else exists fs',
         API.createFile now now' path (Some contents) fs = (Ok tt, fs')
         /\ API.contents path fs' = (Ok (Some data), fs')
         /\ getFileSize fs' path = Some (byteLength data)
         /\ getUsedDiskSpace fs' = getUsedDiskSpace fs + byteLength data.
Proof.
  intros Hwf Hfree Hfiles Hroom0 data.
  destruct (createFile_creates now path None fs Hwf Hfree Hfiles)
    as (r & fs1 & Hrun & Hwf1 & Hreg & Hheap & Hnew & Hdisk & Hds & _);
    [done | done |].
  cbn [default from_option id] in *.
  assert (Hr : disk fs1 !! r = Some []).
  { rewrite Hdisk. by rewrite lookup_insert_eq. }
  assert (Hused : getUsedDiskSpace fs1 = getUsedDiskSpace fs).
  { rewrite !getUsedDiskSpace_usedOf, Hdisk.
    rewrite usedOf_insert_fresh by done.
    change (byteLength (zeros 0)) with 0. lia. }
  assert (Hfree1 : num_add (getFreeDiskSpace fs1) (byteLength [])
                   = getFreeDiskSpace fs).
  { unfold getFreeDiskSpace. rewrite Hused, Hds.
    change (byteLength []) with 0. apply num_add_0. }
  unfold API.createFile. rewrite (bind_ok _ _ _ _ _ Hrun).
  cbv zeta. fold data.
  destruct (gt_num (byteLength data) (getFreeDiskSpace fs)) eqn:Hroom.
  - unfold writeFile. rewrite (bind_ok _ _ _ _ _ (get_eq fs1)).
    rewrite Hr. rewrite bool_decide_eq_true_2 by (by eexists). cbn [negb].
    rewrite Hfree1, Hroom. eexists _, fs1. split; [reflexivity |].
    by apply (contents_of_a_file path r path 0 (Some now)).
  - rewrite (writeFile_ok now' r data [] fs1 Hr) by (by rewrite Hfree1).
    eexists. split; [reflexivity |]. split_and!.
    + apply (contents_of_a_file path r path (byteLength data) (Some now')).
      * done.
      * cbn. by rewrite !lookup_alter_eq, Hheap.
      * cbn. by rewrite lookup_insert_eq.
    + unfold getFileSize, getDescriptor. cbn.
      rewrite Hreg, !lookup_alter_eq, Hheap. cbn.
      by rewrite lookup_insert_eq.
    + rewrite <- Hused. rewrite !getUsedDiskSpace_usedOf. cbn.
      rewrite (usedOf_insert _ r [] data) by done.
      change (byteLength []) with 0. lia.
Qed.

Lemma api_createFile_then_contents_witness :
  (exists fs',
     API.createFile 1 2 "a/b"
       (Some (ArrayBufferView [Scenario.b1; Scenario.b2; Scenario.b3] 1 1))
       (new (Fin 4)) = (Ok tt, fs')
     /\ API.contents "a/b" fs'
        = (Ok (Some [Scenario.b1; Scenario.b2; Scenario.b3]), fs'))
  /\ (exists message fs',
        API.createFile 1 2 "a/b"
          (Some (ArrayBufferView [Scenario.b1; Scenario.b2; Scenario.b3] 1 1))
          (new (Fin 2)) = (Throw (RangeError message), fs')
        /\ API.contents "a/b" fs' = (Ok (Some []), fs')).
Proof.
  split.
  - destruct (api_createFile_then_contents 1 2 "a/b"
                (ArrayBufferView [Scenario.b1; Scenario.b2; Scenario.b3] 1 1)
                (new (Fin 4)))
      as (fs' & H1 & H2 & _).
    + apply (run_wellFormed (Fin 4) []).
    + reflexivity.
    + intros k _. apply isFile_new.
    + reflexivity.
    + exists fs'. split; [exact H1 | exact H2].
  - destruct (api_createFile_then_contents 1 2 "a/b"
                (ArrayBufferView [Scenario.b1; Scenario.b2; Scenario.b3] 1 1)
                (new (Fin 2)))
      as (message & fs' & H1 & H2).
    + apply (run_wellFormed (Fin 2) []).
    + reflexivity.
    + intros k _. apply isFile_new.
    + reflexivity.
    + exists message, fs'. split; [exact H1 | exact H2].
Defined.

End ApiFiles.

(** ** Permission: the setters allocate nothing *)

Section NextRef.
Import Permission.

Lemma nextRefKept_bind {A B} (m : M heap A) (k : A -> M heap B) :
  nextRefKept m -> (forall a, nextRefKept (k a)) -> nextRefKept (bind m k).
Proof.
  intros Hm Hk h. unfold bind. specialize (Hm h).
  destruct (m h) as [[a | e |] h1]; cbn [snd] in *; [| done | done].
  by rewrite Hk.
Qed.

Lemma nextRefKept_ret {A} (a : A) : nextRefKept (ret a).
Proof. done. Qed.

Lemma nextRefKept_when (b : bool) (m : M heap unit) :
  nextRefKept m -> nextRefKept (when b m).
Proof. destruct b; [done | intros _; apply nextRefKept_ret]. Qed.

Lemma nextRefKept_deref (p : ref) : nextRefKept (deref p).
Proof. intros h. unfold deref. by destruct (objects h !! p). Qed.

Lemma nextRefKept_forEach {A} (f : A -> M heap unit) (l : list A) :
  (forall x, nextRefKept (f x)) -> nextRefKept (forEach f l).
Proof.
  intros Hf. induction l as [| x l IH]; [done |].
  cbn [forEach]. apply nextRefKept_bind; [apply Hf | by intros _].
Qed.

Lemma nextRefKept_exec (fuel : nat) (c : Call) : nextRefKept (exec fuel c).
Proof.
  revert c. induction fuel as [| fuel IH]; intros c; [done |].
  destruct c as [p state | p state | p mode newState]; cbn [exec].
  - apply nextRefKept_bind.
    { unfold getRead. apply nextRefKept_bind; [apply nextRefKept_deref |].
      intros o. apply nextRefKept_ret. }
    intros old. apply nextRefKept_bind; [done |]. intros _.
    apply nextRefKept_bind; [apply nextRefKept_when, IH |]. intros _.
    apply nextRefKept_when, IH.
  - apply nextRefKept_bind; [apply nextRefKept_when, IH |]. intros _.
    apply nextRefKept_bind.
    { unfold getReadwrite. apply nextRefKept_bind; [apply nextRefKept_deref |].
      intros o. apply nextRefKept_ret. }
    intros old. apply nextRefKept_bind; [done |]. intros _.
    apply nextRefKept_when, IH.
  - apply nextRefKept_bind; [apply nextRefKept_deref |]. intros o.
    apply nextRefKept_forEach. intros [q | q | status]; [apply IH .. | done].
Qed.

Lemma nextRefKept_set (fuel : nat) (p : ref)
    (mode : FileSystemPermissionMode) (state : PermissionState) :
  nextRefKept (set fuel p mode state).
Proof. destruct mode; apply nextRefKept_exec. Qed.

End NextRef.

(** ** PermissionsManager: one call of [findOrCreatePermission] *)

Section FindOrCreateStep.
Import Utils PermissionsManager.

Lemma findOrCreatePermissionRec_step (fuel : nat) (path : string) :
  findOrCreatePermissionRec (S fuel) path
  = (w <- get ;;
     match permissions (manager w) !! path with
     | Some permission => ret permission
     | None =>
         let literal := initial (manager w) (fileSystem w) path in
         permission <- onStore (Permission.new
                                  (PermissionsManager.read literal)
                                  (PermissionsManager.readwrite literal)) ;;
         (if nonEmpty path then
            match dirname path with
            | Some parentPath =>
                parentPermission <- findOrCreatePermissionRec fuel parentPath ;;
                parentRead <- onStore (Permission.getRead parentPermission) ;;
                onStore (Permission.setRead leafDepth permission parentRead) ;;
                parentReadwrite <-
                  onStore (Permission.getReadwrite parentPermission) ;;
                onStore (Permission.setReadwrite leafDepth permission
                                                 parentReadwrite) ;;
                onStore (Permission.subscribe parentPermission ModeRead
                           (Permission.CallSetRead permission)) ;;
                onStore (Permission.subscribe parentPermission ModeReadwrite
                           (Permission.CallSetReadwrite permission))
            | None => ret tt
            end
          else ret tt) ;;
         register path permission ;;
         ret permission
     end)%M.
Proof. reflexivity. Qed.

End FindOrCreateStep.

(** ** DirectoryHandle: a new file *)

Section HandleFiles.
Import Utils Permission PermissionsManager DirectoryHandle.

Lemma managerOk_set (w : World) (h' : heap) :
  managerOk w -> sameSubscribers (storeOf w) h' ->
  nextRef h' = nextRef (storeOf w) ->
  managerOk (withStore h' w).
Proof.
  intros [Hreg Halloc] Hsame Hnext. split.
  - intros path q Hq. cbn.
    apply (sameSubscribers_is_Some (storeOf w)); [done |]. by apply (Hreg path).
  - intros q [o Ho]. cbn in Ho |- *. rewrite Hnext. apply Halloc.
    specialize (Hsame q). rewrite Ho in Hsame.
    destruct (objects (storeOf w) !! q); [by eexists | done].
Qed.

(** [createFile] of an empty file whose parent exists. *)
Lemma createFile_in_directory (now : Z) (path : string) (fs : FileSystem.t) :
  wellFormed fs -> FileSystem.exists_ fs path = false ->
  (forall parent, dirname path = Some parent -> nonEmpty parent = true ->
                  FileSystem.exists_ fs parent = true) ->
  gt_num 0 (FileSystem.getFreeDiskSpace fs) = false ->
  exists fs',
    FileSystem.createFile now path None fs = (Ok (FileSystem.nextRef fs), fs')
    /\ wellFormed fs'
    /\ FileSystem.registry fs'
       = <[path := FileSystem.nextRef fs]> (FileSystem.registry fs)
    /\ FileSystem.heap fs'
       = <[FileSystem.nextRef fs :=
             FileSystem.FileDescriptor path 0 (Some now)]> (FileSystem.heap fs)
    /\ FileSystem.disk fs'
       = <[FileSystem.nextRef fs := []]> (FileSystem.disk fs).
Proof.
  intros Hwf Hfree Hparent Hroom. unfold FileSystem.createFile.
  rewrite (bind_ok _ _ _ _ _ (get_eq fs)). rewrite Hfree.
  assert (Hstep :
    (match dirname path with
     | Some dirName =>
         if nonEmpty dirName && negb (FileSystem.exists_ fs dirName)
         then (_ <- FileSystem.makeDirectory dirName true ;; ret tt)%M
         else ret tt
     | None => ret tt
     end) fs = (Ok tt, fs)).
  { destruct (dirname path) as [dirName |]; [| done].
    destruct (nonEmpty dirName) eqn:Hne; [| done].
    by rewrite (Hparent dirName eq_refl Hne). }
  rewrite (bind_ok _ _ _ _ _ Hstep).
  cbn [default from_option id].
  set (r := FileSystem.nextRef fs).
  set (fs2 := snd (FileSystem.alloc (FileSystem.FileDescriptor path 0 None) fs)).
  rewrite (bind_ok _ _ fs fs2 r) by done.
  pose proof (alloc_fresh false (FileSystem.FileDescriptor path 0 None) fs
                (proj1 (wellFormed_invariant fs) Hwf)) as Hfresh.
  change (FileSystem.alloc (FileSystem.FileDescriptor path 0 None) fs)
    with (Ok r, fs2) in Hfresh.
  cbn beta iota in Hfresh.
  assert (Hsz : FileSystem.sizeOf fs2 r = 0).
  { unfold FileSystem.sizeOf. by destruct Hfresh as (_ & -> & _). }
  assert (Hfree2 : FileSystem.getFreeDiskSpace fs2
                   = FileSystem.getFreeDiskSpace fs) by done.
  rewrite (bind_ok _ _ _ _ _ (allocateFile_ok now r fs2
             ltac:(by rewrite Hsz) ltac:(by rewrite Hsz, Hfree2))).
  rewrite Hsz.
  set (fs3 := FileSystem.setHeap _ _).
  rewrite (bind_ok _ _ fs3 (FileSystem.setRegistry <[path := r]> fs3) tt)
    by done.
  eexists. split; [reflexivity |].
  apply exists_false in Hfree.
  split_and!.
  - apply wellFormed_invariant. by apply (register_file false).
  - done.
  - cbn. apply map_eq. intros q.
    destruct (decide (q = r)) as [-> | Hq].
    + by rewrite lookup_alter_eq, !lookup_insert_eq.
    + by rewrite lookup_alter_ne, !lookup_insert_ne.
  - done.
Qed.

(** [findOrCreatePermission] for a path without a permission whose
    parent has one. *)
Lemma findOrCreate_child (w : World) (path parent : string) (pp : ref)
    (po : obj) :
  managerOk w -> permissionsOf w !! path = None ->
  nonEmpty path = true -> dirname path = Some parent ->
  permissionsOf w !! parent = Some pp ->
  objects (storeOf w) !! pp = Some po ->
  let r := nextRef (storeOf w) in
  let literal := initial (manager w) (fileSystem w) path in
  let leaf := {| Permission.read := PermissionsManager.read literal;
                 Permission.readwrite := PermissionsManager.readwrite literal;
                 subscribersRead := []; subscribersReadwrite := [] |} in
  exists w',
    findOrCreatePermission path w = (Ok r, w')
    /\ fileSystem w' = fileSystem w
    /\ permissionsOf w' = <[path := r]> (permissionsOf w)
    /\ objects (storeOf w')
       = <[pp := subscribed r po]>
           (<[r := inherited po leaf]> (objects (storeOf w)))
    /\ nextRef (storeOf w') = S r
    /\ pp <> r.
Proof.
  intros Hok Hpath Hne Hdir Hpp Hpo r literal leaf.
  assert (Hppr : pp <> r).
  { intros ->. destruct Hok as [_ Halloc].
    pose proof (Halloc r (mk_is_Some _ _ Hpo)). unfold r in *. lia. }
  unfold findOrCreatePermission.
  assert (Hlen : exists n, length (pathSegments path) = S n).
  { unfold dirname in Hdir. destruct (pathSegments path); [done |].
    by eexists. }
  destruct Hlen as [n ->].
  rewrite findOrCreatePermissionRec_step.
  rewrite (bind_ok _ _ _ _ _ (get_eq w)).
  fold (permissionsOf w). rewrite Hpath. cbv zeta. fold literal.
  destruct (new_eq (PermissionsManager.read literal)
              (PermissionsManager.readwrite literal) w)
    as (hnew & Hnew & Hobjnew & Hnextnew).
  rewrite (bind_ok _ _ _ _ _ Hnew). fold r in Hobjnew, Hnextnew |- *.
  fold leaf in Hobjnew.
  rewrite Hne, Hdir.
  set (w1 := withStore hnew w).
  assert (Hrec : findOrCreatePermissionRec (S n) parent w1 = (Ok pp, w1)).
  { rewrite findOrCreatePermissionRec_step.
    rewrite (bind_ok _ _ _ _ _ (get_eq w1)).
    change (permissions (manager w1)) with (permissionsOf w).
    by rewrite Hpp. }
  assert (Hr1 : objects (storeOf w1) !! r = Some leaf).
  { cbn. rewrite Hobjnew. apply lookup_insert_eq. }
  assert (Hpp1 : objects (storeOf w1) !! pp = Some po).
  { cbn. rewrite Hobjnew. by rewrite lookup_insert_ne. }
  destruct (inherit_steps w1 r pp leaf po Hr1 (conj eq_refl eq_refl) Hpp1
              Hppr) as (h3 & Hrun & Hobj3 & Hnext3).
  eexists. split.
  { erewrite bind_ok; [reflexivity |].
    rewrite (bind_ok _ _ _ _ _ Hrec). exact Hrun. }
  split_and!.
  - done.
  - done.
  - cbn. rewrite Hobj3. cbn. rewrite Hobjnew.
    by rewrite insert_insert_eq.
  - cbn. rewrite Hnext3. cbn. done.
  - done.
Qed.

(** The child path of a valid name. *)
Lemma getChildPath_facts (fullPath name : string) :
  DefaultEntryNameValidator.isValidName name = true ->
  pathSegments (getChildPath fullPath name) = pathSegments fullPath ++ [name]
  /\ nonEmpty (getChildPath fullPath name) = true
  /\ dirname (getChildPath fullPath name)
     = Some (join (pathSegments fullPath)).
Proof.
  intros [Hsep Hne]%isValidName_segment.
  pose proof (segments_separatorFree fullPath) as Hseps.
  pose proof (segments_nonEmpty fullPath) as Hnes.
  unfold getChildPath.
  set (segments := pathSegments fullPath) in *.
  assert (Hall1 : Forall (fun s => separatorFree s = true) (segments ++ [name]))
    by (apply Forall_app; split; [done | by apply Forall_singleton]).
  assert (Hall2 : Forall (fun s => nonEmpty s = true) (segments ++ [name]))
    by (apply Forall_app; split; [done | by apply Forall_singleton]).
  assert (Hsegs : pathSegments (join (segments ++ [name])) = segments ++ [name])
    by (by apply pathSegments_join).
  split_and!.
  - done.
  - apply join_nonEmpty; [| done]. by destruct segments.
  - unfold dirname. rewrite Hsegs.
    destruct (segments ++ [name]) eqn:Happ; [by destruct segments |].
    rewrite <- Happ. by rewrite removelast_last.
Qed.

(** [requestPermission] for readwrite on a path whose state is granted,
    or is prompt with a provider that grants. *)
Lemma requestPermission_granted
    (ask : FileSystemPermissionMode -> FileSystem.t -> string
           -> PermissionState)
    (dir : string) (w : World) :
  managerOk w -> (exists rank, levelled rank w) ->
  FileSystem.exists_ (fileSystem w) dir = true ->
  fst (getState dir ModeReadwrite w) = Ok granted
  \/ (fst (getState dir ModeReadwrite w) = Ok prompt
      /\ ask ModeReadwrite (fileSystem w) dir = granted) ->
  exists fuel0, forall fuel, (fuel0 <= fuel)%nat ->
    exists w1 pd od,
      requestPermission ask fuel dir ModeReadwrite w = (Ok granted, w1)
      /\ managerOk w1
      /\ fileSystem w1 = fileSystem w
      /\ permissionsOf w1 !! dir = Some pd
      /\ objects (storeOf w1) !! pd = Some od
      /\ Permission.readwrite od = granted
      /\ (forall p' q, permissionsOf w1 !! p' = Some q ->
            permissionsOf w !! p' = Some q
            \/ (length (pathSegments p') <= length (pathSegments dir))%nat).
Proof.
  intros Hok Hlev Hex Hstate.
  destruct (findOrCreate_total (S (length (pathSegments dir))) dir w Hok)
    as (r & w' & Hrun); [lia |].
  destruct (findOrCreate_spec _ dir w w' r Hok Hrun)
    as (Hgrow & Hreg & _ & Hbound & Hlev').
  assert (Hget : getPermission dir w = (Ok r, w')).
  { unfold getPermission.
    by rewrite (bind_ok _ _ _ _ _ (ensureIsValidPath_ok dir w Hex)). }
  destruct (Hlev' Hlev) as [rank' Hl'].
  assert (Hok' : managerOk w') by apply Hgrow.
  assert (Hfs : fileSystem w' = fileSystem w) by apply Hgrow.
  destruct (proj1 Hok' dir r Hreg) as [o Ho].
  pose proof (get_eq_valueOf r o ModeReadwrite _ Ho) as Hcur.
  assert (Hgs : getState dir ModeReadwrite w
                = (Ok (Permission.readwrite o), w')).
  { unfold getState. rewrite (bind_ok _ _ _ _ _ Hget).
    rewrite (onStore_ok _ _ _ _ Hcur). by rewrite withStore_same. }
  rewrite Hgs in Hstate. cbn [fst] in Hstate.
  assert (Ha : acyclic rank' (storeOf w')) by by apply levelled_acyclic.
  destruct (levelled_closedBelow rank' w' Hok' Hl') as [top Hclosed].
  exists (3 * (top - rank' r) + 3)%nat. intros fuel Hfuel.
  unfold requestPermission. rewrite (bind_ok _ _ _ _ _ Hget).
  rewrite (bind_ok _ _ _ _ _ (onStore_ok _ _ _ _ Hcur)).
  rewrite withStore_same. cbn [valueOf].
  destruct Hstate as [[= Hgranted] | [[= Hprompt] Hask]].
  - rewrite Hgranted. rewrite bool_decide_eq_false_2 by done.
    cbn [valueOf] in Hcur. rewrite Hgranted in Hcur.
    rewrite (onStore_ok _ _ _ _ Hcur), withStore_same.
    exists w', r, o. split_and!; done.
  - rewrite Hprompt. rewrite bool_decide_eq_true_2 by done.
    rewrite (bind_ok _ _ _ _ _ (get_eq w')). rewrite Hfs, Hask.
    destruct (set_step rank' top fuel r o ModeReadwrite granted (storeOf w')
                Ha Hclosed Ho Hfuel) as (h' & Hset & Hsame & Hr).
    rewrite (bind_ok _ _ _ _ _ (onStore_ok _ _ _ _ Hset)).
    exists (withStore h' w'), r, (afterSet ModeReadwrite granted o).
    split_and!; try done.
    apply managerOk_set; [done | done |].
    pose proof (nextRefKept_set fuel r ModeReadwrite granted (storeOf w'))
      as Hnext.
    by rewrite Hset in Hnext.
Qed.

(** [duplicate] from a directory with granted readwrite to a child path
    that has no permission yet. *)
Lemma duplicate_to_new_child (f : nat) (dir child : string) (pd : ref)
    (od : obj) (w : World) :
  managerOk w ->
  FileSystem.exists_ (fileSystem w) dir = true ->
  FileSystem.exists_ (fileSystem w) child = true ->
  permissionsOf w !! dir = Some pd ->
  objects (storeOf w) !! pd = Some od ->
  Permission.readwrite od = granted ->
  permissionsOf w !! child = None ->
  nonEmpty child = true -> dirname child = Some dir ->
  exists w' pc oc,
    duplicate (S (S (S f))) dir child w = (Ok tt, w')
    /\ fileSystem w' = fileSystem w
    /\ permissionsOf w' !! child = Some pc
    /\ objects (storeOf w') !! pc = Some oc
    /\ Permission.read oc = granted
    /\ Permission.readwrite oc = granted.
Proof.
  intros Hok Hexd Hexc Hpd Hod Hrw Hnone Hne Hdir.
  destruct (findOrCreate_child w child dir pd od Hok Hnone Hne Hdir Hpd Hod)
    as (w1 & Hfind & Hfs1 & Hperm1 & Hobj1 & Hnext1 & Hneq).
  set (pc := nextRef (storeOf w)) in *.
  set (leaf := {| Permission.read := _ |}) in Hobj1.
  assert (Hgetc : getPermission child w = (Ok pc, w1)).
  { unfold getPermission.
    by rewrite (bind_ok _ _ _ _ _ (ensureIsValidPath_ok child w Hexc)). }
  unfold duplicate.
  rewrite (bind_ok _ _ _ _ _ (getPermission_registered dir pd w Hexd Hpd)).
  rewrite (bind_ok _ _ _ _ _ Hgetc).
  assert (Hpd1 : objects (storeOf w1) !! pd = Some (subscribed pc od))
    by (rewrite Hobj1; apply lookup_insert_eq).
  assert (Hpc1 : objects (storeOf w1) !! pc = Some (inherited od leaf))
    by (rewrite Hobj1; rewrite lookup_insert_ne by done;
        apply lookup_insert_eq).
  rewrite (bind_ok _ _ _ _ _ (onStore_ok _ _ _ _ (getRead_eq pd _ _ Hpd1))).
  rewrite withStore_same.
  destruct (setRead_leaf f pc (inherited od leaf)
              (Permission.read (subscribed pc od)) (storeOf w1) Hpc1)
    as (h2 & Hset2 & Hobj2 & _); [done |].
  unfold Permission.setRead.
  rewrite (bind_ok _ _ _ _ _ (onStore_ok _ _ _ _ Hset2)).
  set (w2 := withStore h2 w1).
  set (o2 := afterSetRead _ _) in Hobj2.
  assert (Hpd2 : objects (storeOf w2) !! pd = Some (subscribed pc od)).
  { cbn. rewrite Hobj2. by rewrite lookup_insert_ne. }
  assert (Hpc2 : objects (storeOf w2) !! pc = Some o2).
  { cbn. rewrite Hobj2. apply lookup_insert_eq. }
  rewrite (bind_ok _ _ _ _ _
             (onStore_ok _ _ _ _ (getReadwrite_eq pd _ _ Hpd2))).
  rewrite withStore_same.
  destruct (setReadwrite_leaf f pc o2
              (Permission.readwrite (subscribed pc od)) (storeOf w2) Hpc2)
    as (h3 & Hset3 & Hobj3 & _); [done |].
  unfold Permission.setReadwrite.
  rewrite (onStore_ok _ _ _ _ Hset3).
  exists (withStore h3 w2), pc,
    (afterSetReadwrite (Permission.readwrite (subscribed pc od)) o2).
  split_and!.
  - done.
  - done.
  - cbn. change (permissions (manager w1)) with (permissionsOf w1).
    rewrite Hperm1. apply lookup_insert_eq.
  - cbn. rewrite Hobj3. apply lookup_insert_eq.
  - cbn. change (Permission.readwrite od) with (Permission.readwrite od).
    rewrite Hrw. by rewrite decide_True.
  - cbn. done.
Qed.

End HandleFiles.

Section GetFileHandle.
Import Utils Permission PermissionsManager DirectoryHandle.

(** X30.  Let a directory handle hold the descriptor registered at the path
    [dir] of a well-formed file system, [dir] being the slash-joined form
    of its segments, in a manager whose subscriptions go one level down.
    Let [name] be accepted by the default validator, the child path of
    [name] be neither registered nor known to the manager, the free space
    be not negative, and the readwrite state of [dir] be granted, or be
    prompt with a provider that answers granted.  Then
    [getFileHandle(name, { create: true })] returns (given fuel for the
    cascades) the handle of a new descriptor: it is valid and registered at
    the child path as an empty file, the entries registered before are
    kept, and [getState] of the child path returns granted for read and
    for readwrite. *)
Theorem getFileHandle_creates_the_file
    (ask : FileSystemPermissionMode -> FileSystem.t -> string
           -> PermissionState)
    (now : Z) (this : FileSystem.ref) (dir name : string) (w : World) :
  wellFormed (fileSystem w) -> managerOk w ->
  (exists rank, levelled rank w) ->
  FileSystem.registry (fileSystem w) !! dir = Some this ->
  FileSystem.isDirectory (fileSystem w) dir = true ->
  join (pathSegments dir) = dir ->
  DefaultEntryNameValidator.isValidName name = true ->
  FileSystem.exists_ (fileSystem w) (getChildPath dir name) = false ->
  permissionsOf w !! getChildPath dir name = None ->
  gt_num 0 (FileSystem.getFreeDiskSpace (fileSystem w)) = false ->
  fst (getState dir ModeReadwrite w) = Ok granted
  \/ (fst (getState dir ModeReadwrite w) = Ok prompt
      /\ ask ModeReadwrite (fileSystem w) dir = granted) ->
  exists fuel0, forall fuel, (fuel0 <= fuel)%nat ->
    exists r w',
      getFileHandle defaultValidator ask fuel now this name true w
      = (Ok r, w')
      /\ FileSystem.registry (fileSystem w') !! getChildPath dir name = Some r
      /\ FileSystem.isFile (fileSystem w') (getChildPath dir name) = true
      /\ FileSystem.isValidDescriptor (fileSystem w') r = true
      /\ FileSystem.getFileSize (fileSystem w') (getChildPath dir name)
         = Some 0
      /\ (forall p q, FileSystem.registry (fileSystem w) !! p = Some q ->
                      FileSystem.registry (fileSystem w') !! p = Some q)
      /\ getState (getChildPath dir name) ModeRead w' = (Ok granted, w')
      /\ getState (getChildPath dir name) ModeReadwrite w'
         = (Ok granted, w').
Proof.
  intros Hwf Hok Hlev Hthis _ Hnorm Hvalid Hnoex Hnoperm Hroom Hstate.
  set (child := getChildPath dir name) in *.
  destruct (wf_path _ Hwf dir this Hthis) as (d & Hd & Hpath).
  assert (Hfull : Handle.fullPathOf (fileSystem w) this = dir)
    by (unfold Handle.fullPathOf; by rewrite Hd).
  assert (Hvd : FileSystem.isValidDescriptor (fileSystem w) this = true).
  { unfold FileSystem.isValidDescriptor, FileSystem.getDescriptor.
    rewrite Hd, Hpath. by apply bool_decide_eq_true_2. }
  assert (Hexd : FileSystem.exists_ (fileSystem w) dir = true)
    by (apply bool_decide_eq_true_2; by eexists).
  destruct (getChildPath_facts dir name Hvalid) as (Hsegs & Hne & Hdirname).
  rewrite Hnorm in Hdirname. fold child in Hsegs, Hne, Hdirname.
  destruct (requestPermission_granted ask dir w Hok Hlev Hexd Hstate)
    as [fuel0 Hreq].
  exists (fuel0 `max` 3)%nat. intros fuel Hfuel.
  destruct (Hreq fuel ltac:(lia))
    as (w1 & pd & od & Hrun1 & Hok1 & Hfs1 & Hpd & Hod & Hrw & Hbound).
  destruct (createFile_in_directory now child (fileSystem w) Hwf Hnoex)
    as (fs' & Hcreate & Hwf' & Hreg' & Hheap' & Hdisk'); [| done |].
  { intros parent Hp _. rewrite Hdirname in Hp. by injection Hp as <-. }
  set (r := FileSystem.nextRef (fileSystem w)) in *.
  pose proof (proj1 (exists_false _ _) Hnoex) as Hnone.
  assert (Hdc : dir <> child) by (intros E; rewrite <- E in Hnone; congruence).
  assert (Hthisr : this <> r).
  { pose proof (registered_lt _ _ _ Hwf Hthis). unfold r. lia. }
  set (w2 := {| fileSystem := fs'; manager := manager w1 |}).
  assert (Hnoperm1 : permissionsOf w2 !! child = None).
  { destruct (permissionsOf w1 !! child) as [q |] eqn:E; [| done].
    destruct (Hbound child q E) as [Hold | Hlen]; [congruence |].
    rewrite Hsegs, length_app in Hlen. cbn in Hlen. lia. }
  destruct fuel as [| [| [| f]]]; [lia | lia | lia |].
  destruct (duplicate_to_new_child f dir child pd od w2)
    as (w3 & pc & oc & Hdup & Hfs3 & Hpc & Hoc & Hread & Hreadwrite);
    try done.
  { apply bool_decide_eq_true_2. cbn. rewrite Hreg'.
    rewrite lookup_insert_ne by done. by eexists. }
  { apply bool_decide_eq_true_2. cbn. rewrite Hreg', lookup_insert_eq.
    by eexists. }
  assert (Hval : validateEntryName defaultValidator name true false w
                 = (Ok tt, w)).
  { unfold validateEntryName, defaultValidator. by rewrite Hvalid. }
  assert (Hens : ensureCurrentEntryExists this w = (Ok tt, w)).
  { unfold ensureCurrentEntryExists.
    rewrite (bind_ok _ _ _ _ _ (get_eq w)). by rewrite Hvd. }
  assert (Hperm : ensurePermissionGranted ask (S (S (S f))) this
                    ModeReadwrite true w = (Ok tt, w1)).
  { unfold ensurePermissionGranted.
    assert (Hh : Handle.requestPermission ask (S (S (S f))) this
                   ModeReadwrite w = (Ok granted, w1)).
    { unfold Handle.requestPermission.
      rewrite (bind_ok _ _ _ _ _ (get_eq w)). by rewrite Hfull. }
    by rewrite (bind_ok _ _ _ _ _ Hh). }
  assert (Hprep : prepareHandlePath defaultValidator ask (S (S (S f))) this
                    name true true w = (Ok child, w1)).
  { unfold prepareHandlePath.
    rewrite (bind_ok _ _ _ _ _ Hval), (bind_ok _ _ _ _ _ Hens).
    rewrite (bind_ok _ _ _ _ _ Hperm).
    rewrite (bind_ok _ _ _ _ _ (get_eq w1)). cbv zeta.
    rewrite Hfs1, Hfull. fold child. cbn [negb andb orb].
    assert (Hnd : FileSystem.isDirectory (fileSystem w) child = false)
      by (unfold FileSystem.isDirectory; by rewrite Hnone).
    by rewrite Hnd. }
  assert (Hgfd : onFileSystem (FileSystem.getFileDescriptor now child true) w1
                 = (Ok (Some r), w2)).
  { unfold onFileSystem, zoom. rewrite Hfs1.
    assert (Hg : FileSystem.getFileDescriptor now child true (fileSystem w)
                 = (Ok (Some r), fs')).
    { unfold FileSystem.getFileDescriptor.
      rewrite (bind_ok _ _ _ _ _ (get_eq (fileSystem w))). rewrite Hnoex.
      by rewrite (bind_ok _ _ _ _ _ Hcreate). }
    by rewrite Hg. }
  assert (Hcfh : createFileHandle (S (S (S f))) this r w2 = (Ok r, w3)).
  { unfold createFileHandle. rewrite (bind_ok _ _ _ _ _ (get_eq w2)).
    cbv zeta.
    assert (Hp1 : Handle.fullPathOf (fileSystem w2) this = dir).
    { unfold Handle.fullPathOf. cbn. rewrite Hheap'.
      rewrite lookup_insert_ne by done. by rewrite Hd. }
    assert (Hp2 : Handle.fullPathOf (fileSystem w2) r = child).
    { unfold Handle.fullPathOf. cbn. by rewrite Hheap', lookup_insert_eq. }
    rewrite Hp1, Hp2. by rewrite (bind_ok _ _ _ _ _ Hdup). }
  exists r, w3. split.
  { unfold getFileHandle. rewrite (bind_ok _ _ _ _ _ Hprep).
    by rewrite (bind_ok _ _ _ _ _ Hgfd). }
  rewrite Hfs3. cbn [fileSystem w2].
  assert (Hexc3 : FileSystem.exists_ (fileSystem w3) child = true).
  { rewrite Hfs3. apply bool_decide_eq_true_2. cbn.
    rewrite Hreg', lookup_insert_eq. by eexists. }
  split_and!.
  - by rewrite Hreg', lookup_insert_eq.
  - unfold FileSystem.isFile.
    by rewrite Hreg', lookup_insert_eq, Hheap', lookup_insert_eq.
  - unfold FileSystem.isValidDescriptor, FileSystem.getDescriptor.
    rewrite Hheap', lookup_insert_eq. cbn.
    rewrite Hreg', lookup_insert_eq. by apply bool_decide_eq_true_2.
  - unfold FileSystem.getFileSize, FileSystem.getDescriptor.
    rewrite Hreg', lookup_insert_eq, Hheap', lookup_insert_eq.
    by rewrite Hdisk', lookup_insert_eq.
  - intros p q Hq. rewrite Hreg'. rewrite lookup_insert_ne; [done |].
    intros <-. congruence.
  - rewrite (getState_registered child pc oc ModeRead w3 Hexc3 Hpc Hoc).
    cbn [valueOf]. by rewrite Hread.
  - rewrite (getState_registered child pc oc ModeReadwrite w3 Hexc3 Hpc Hoc).
    cbn [valueOf]. by rewrite Hreadwrite.
Qed.

Lemma getFileHandle_creates_the_file_witness :
  exists fuel0, forall fuel, (fuel0 <= fuel)%nat ->
    exists r w',
      getFileHandle defaultValidator (fun _ _ _ => granted) fuel 7 1%nat "z"
        true (Scenario.managed Scenario.nested prompt prompt) = (Ok r, w')
      /\ FileSystem.registry (fileSystem w') !! "x/z" = Some r
      /\ FileSystem.isFile (fileSystem w') "x/z" = true
      /\ getState "x/z" ModeReadwrite w' = (Ok granted, w').
Proof.
  destruct (getFileHandle_creates_the_file (fun _ _ _ => granted) 7 1%nat
              "x" "z" (Scenario.managed Scenario.nested prompt prompt))
    as [fuel0 H].
  - apply nested_wellFormed.
  - apply new_managerOk.
  - exists (fun _ => 0%nat). apply new_levelled.
  - reflexivity.
  - reflexivity.
  - reflexivity.
  - reflexivity.
  - reflexivity.
  - reflexivity.
  - reflexivity.
  - right. split; reflexivity.
  - exists fuel0. intros fuel Hfuel.
    destruct (H fuel Hfuel)
      as (r & w' & Hrun & Hreg & Hfile & _ & _ & _ & _ & Hstate).
    exists r, w'. split_and!; done.
Defined.

End GetFileHandle.

(** ** PermissionsManager: its methods keep the subscriptions *)

Section SubscribersKept.
Import Permission.

Lemma subscribersKept_bind {A B} (m : M heap A) (k : A -> M heap B) :
  subscribersKept m -> (forall a, subscribersKept (k a)) ->
  subscribersKept (bind m k).
Proof.
  intros Hm Hk h. unfold bind. specialize (Hm h).
  destruct (m h) as [[a | e |] h1]; cbn [snd] in *; [| done | done].
  apply (sameSubscribers_trans h h1); [done | apply Hk].
Qed.

Lemma subscribersKept_ret {A} (a : A) : subscribersKept (ret a).
Proof. intros h. apply sameSubscribers_refl. Qed.

Lemma subscribersKept_when (b : bool) (m : M heap unit) :
  subscribersKept m -> subscribersKept (when b m).
Proof. destruct b; [done | intros _; apply subscribersKept_ret]. Qed.

Lemma subscribersKept_deref (p : ref) : subscribersKept (deref p).
Proof.
  intros h. unfold deref.
  destruct (objects h !! p); apply sameSubscribers_refl.
Qed.

Lemma subscribersKept_forEach {A} (f : A -> M heap unit) (l : list A) :
  (forall x, subscribersKept (f x)) -> subscribersKept (forEach f l).
Proof.
  intros Hf. induction l as [| x l IH]; [apply subscribersKept_ret |].
  cbn [forEach]. apply subscribersKept_bind; [apply Hf | by intros _].
Qed.

Lemma subscribersKept_get (p : ref) (mode : FileSystemPermissionMode) :
  subscribersKept (get p mode).
Proof.
  destruct mode; unfold get, getRead, getReadwrite;
    (apply subscribersKept_bind; [apply subscribersKept_deref |]);
    intros o; apply subscribersKept_ret.
Qed.

Lemma subscribersKept_exec (fuel : nat) (c : Call) :
  subscribersKept (exec fuel c).
Proof.
  revert c. induction fuel as [| fuel IH]; intros c;
    [intros h; apply sameSubscribers_refl |].
  destruct c as [p state | p state | p mode newState]; cbn [exec].
  - apply subscribersKept_bind; [apply (subscribersKept_get p ModeRead) |].
    intros old. apply subscribersKept_bind.
    { intros h. by apply sameSubscribers_alter. }
    intros _.
    apply subscribersKept_bind; [apply subscribersKept_when, IH |]. intros _.
    apply subscribersKept_when, IH.
  - apply subscribersKept_bind; [apply subscribersKept_when, IH |]. intros _.
    apply subscribersKept_bind;
      [apply (subscribersKept_get p ModeReadwrite) |].
    intros old. apply subscribersKept_bind.
    { intros h. by apply sameSubscribers_alter. }
    intros _. apply subscribersKept_when, IH.
  - apply subscribersKept_bind; [apply subscribersKept_deref |]. intros o.
    apply subscribersKept_forEach. intros [q | q | status]; [apply IH .. |].
    intros h. apply sameSubscribers_dispatch.
Qed.

Lemma subscribersKept_set (fuel : nat) (p : ref)
    (mode : FileSystemPermissionMode) (state : PermissionState) :
  subscribersKept (set fuel p mode state).
Proof. destruct mode; apply subscribersKept_exec. Qed.

Lemma keepsSubscribers_refl (h : heap) : keepsSubscribers h h.
Proof. intros q o Ho. by exists o. Qed.

Lemma keepsSubscribers_trans (h1 h2 h3 : heap) :
  keepsSubscribers h1 h2 -> keepsSubscribers h2 h3 ->
  keepsSubscribers h1 h3.
Proof.
  intros H12 H23 q o Ho.
  destruct (H12 q o Ho) as (o2 & Ho2 & Hsub2).
  destruct (H23 q o2 Ho2) as (o3 & Ho3 & Hsub3).
  exists o3. split; [done |]. intros mode cb Hcb. by apply Hsub3, Hsub2.
Qed.

Lemma sameSubscribers_keeps (h h' : heap) :
  sameSubscribers h h' -> keepsSubscribers h h'.
Proof.
  intros Hs q o Ho. specialize (Hs q). rewrite Ho in Hs.
  destruct (objects h' !! q) as [o' |]; [| done].
  cbn in Hs. injection Hs as H1 H2. exists o'. split; [done |].
  intros [] cb Hcb; cbn [subscribers] in *; congruence.
Qed.

End SubscribersKept.

(** ** PermissionsManager: its later states *)

Section LaterStates.
Import PermissionsManager.

Lemma extends_refl (w : World) : extends w w.
Proof. split; [done | apply keepsSubscribers_refl]. Qed.

Lemma extends_trans (w1 w2 w3 : World) :
  extends w1 w2 -> extends w2 w3 -> extends w1 w3.
Proof.
  intros [Hr12 Hs12] [Hr23 Hs23]. split.
  - intros path q Hq. by apply Hr23, Hr12.
  - by apply (keepsSubscribers_trans _ (storeOf w2)).
Qed.

Lemma levelled_sameSubscribers (rank : Permission.ref -> nat) (w : World)
    (h' : Permission.heap) :
  levelled rank w -> sameSubscribers (storeOf w) h' ->
  levelled rank (withStore h' w).
Proof.
  intros Hl Hs q o cb t Hq Hcb Ht. cbn in Hq.
  destruct (sameSubscribers_lookup _ _ q o Hs Hq) as (o0 & Ho0 & H1 & H2).
  apply (Hl q o0 cb t Ho0); [| done].
  unfold callbacksOf in *. by rewrite H1, H2.
Qed.

Lemma steady_bind {A B} (m : M World A) (k : A -> M World B) :
  steady m -> (forall a, steady (k a)) -> steady (bind m k).
Proof.
  intros Hm Hk w Hw. unfold bind. destruct (Hm w Hw) as [Hs He].
  destruct (m w) as [[a | e |] w1]; cbn [snd] in *; [| done | done].
  destruct (Hk a w1 Hs) as [Hs2 He2]. split; [done |].
  by apply (extends_trans w w1).
Qed.

Lemma steady_ret {A} (a : A) : steady (ret (S := World) a).
Proof. intros w Hw. split; [done | apply extends_refl]. Qed.

Lemma steady_get : steady (get (S := World)).
Proof. intros w Hw. split; [done | apply extends_refl]. Qed.

Lemma steady_onStore {A} (m : M Permission.heap A) :
  subscribersKept m -> nextRefKept m -> steady (onStore m).
Proof.
  intros Hs Hn w [Hok [rank Hl]]. rewrite onStore_eq. cbn [snd].
  split; [split |].
  - apply managerOk_set; [done | apply Hs | apply Hn].
  - exists rank. apply levelled_sameSubscribers; [done | apply Hs].
  - split; [done |]. cbn. apply sameSubscribers_keeps, Hs.
Qed.

Lemma nextRefKept_get (p : Permission.ref) (mode : FileSystemPermissionMode) :
  nextRefKept (Permission.get p mode).
Proof.
  destruct mode; unfold Permission.get, Permission.getRead,
    Permission.getReadwrite;
    (apply nextRefKept_bind; [apply nextRefKept_deref |]);
    intros o; apply nextRefKept_ret.
Qed.

(** [findOrCreatePermission] keeps the subscribers of the permissions
    that exist. *)
Lemma findOrCreate_keeps (fuel : nat) (path : string) (w w' : World)
    (r : Permission.ref) :
  managerOk w -> findOrCreatePermissionRec fuel path w = (Ok r, w') ->
  keepsSubscribers (storeOf w) (storeOf w').
Proof.
  revert path w w' r. induction fuel as [| fuel IH];
    intros path w w' r Hok; [done |].
  cbn [findOrCreatePermissionRec].
  rewrite (bind_ok _ _ _ _ _ (get_eq w)).
  fold (permissionsOf w).
  destruct (permissionsOf w !! path) as [q |] eqn:Hpath.
  { intros [= <- <-]. apply keepsSubscribers_refl. }
  set (literal := initial (manager w) (fileSystem w) path).
  destruct (new_eq (PermissionsManager.read literal)
              (PermissionsManager.readwrite literal) w)
    as (hnew & Hnew & Hobjnew & Hnextnew).
  rewrite (bind_ok _ _ _ _ _ Hnew).
  set (r0 := Permission.nextRef (storeOf w)) in *.
  set (leaf := {| Permission.read := PermissionsManager.read literal;
                  Permission.readwrite := PermissionsManager.readwrite literal;
                  Permission.subscribersRead := [];
                  Permission.subscribersReadwrite := [] |}) in *.
  set (w1 := withStore hnew w).
  assert (Hok1 : managerOk w1) by by apply (managerOk_leaf w hnew leaf).
  assert (Hstep1 : keepsSubscribers (storeOf w) (storeOf w1)).
  { intros q o Ho. exists o. split; [| done]. cbn. rewrite Hobjnew.
    rewrite lookup_insert_ne; [done |]. intros <-.
    pose proof (proj2 Hok r0 (mk_is_Some _ _ Ho)). unfold r0 in *. lia. }
  intros ([] & w3 & Hmid & Hrest)%bind_Ok_inv.
  rewrite (bind_ok _ _ _ _ _ (register_eq path r0 w3)) in Hrest.
  injection Hrest as <- <-.
  change (storeOf (registered path r0 w3)) with (storeOf w3).
  apply (keepsSubscribers_trans _ (storeOf w1)); [done |].
  destruct (Utils.nonEmpty path);
    [| injection Hmid as <-; apply keepsSubscribers_refl].
  destruct (Utils.dirname path) as [parentPath |] eqn:Hdir;
    [| injection Hmid as <-; apply keepsSubscribers_refl].
  apply bind_Ok_inv in Hmid as (pp & w2 & Hrec & Hsteps).
  apply (keepsSubscribers_trans _ (storeOf w2));
    [by apply (IH parentPath w1 w2 pp) |].
  destruct (findOrCreate_spec fuel parentPath w1 w2 pp Hok1 Hrec)
    as ((Hok2 & _ & _ & _ & _ & Hnewreg & Hsame) & Hpp & _).
  assert (Hunreg : forall p', permissionsOf w1 !! p' <> Some r0).
  { intros p' Hp'. destruct Hok as [Hreg Halloc].
    pose proof (Halloc r0 (Hreg p' r0 Hp')). unfold r0 in *. lia. }
  assert (Hr2 : Permission.objects (storeOf w2) !! r0 = Some leaf).
  { rewrite Hsame; [| cbn; rewrite Hnextnew; lia | done].
    cbn. rewrite Hobjnew. apply lookup_insert_eq. }
  destruct (proj1 Hok2 parentPath pp Hpp) as [po Hpo].
  assert (Hppr : pp <> r0).
  { intros ->. destruct (Hnewreg parentPath r0 Hpp) as [Hold | Hge].
    - by apply (Hunreg parentPath).
    - cbn in Hge. rewrite Hnextnew in Hge. lia. }
  destruct (inherit_steps w2 r0 pp leaf po Hr2 (conj eq_refl eq_refl)
              Hpo Hppr) as (h3 & Hrun & Hobj3 & _).
  rewrite Hrun in Hsteps. injection Hsteps as <-.
  intros q o Ho. cbn. rewrite Hobj3.
  destruct (decide (pp = q)) as [<- | Hq1].
  - rewrite lookup_insert_eq. eexists. split; [done |].
    assert (o = po) as -> by congruence.
    intros [] cb Hcb; cbn; apply elem_of_app; by left.
  - rewrite lookup_insert_ne by done.
    destruct (decide (r0 = q)) as [<- | Hq2].
    + rewrite lookup_insert_eq. eexists. split; [done |].
      assert (o = leaf) as -> by congruence.
      intros [] cb Hcb; cbn in *; by apply elem_of_nil in Hcb.
    + rewrite lookup_insert_ne by done. by exists o.
Qed.

Lemma steady_getPermission (path : string) : steady (getPermission path).
Proof.
  intros w [Hok Hlev].
  destruct (FileSystem.exists_ (fileSystem w) path) eqn:Hex.
  2:{ rewrite (getPermission_missing path w Hex). cbn [snd].
      split; [done | apply extends_refl]. }
  destruct (findOrCreate_total (S (length (Utils.pathSegments path))) path w
              Hok) as (r & w' & Hrun); [lia |].
  destruct (findOrCreate_spec _ path w w' r Hok Hrun)
    as (Hgrow & _ & _ & _ & Hlev').
  pose proof (findOrCreate_keeps _ path w w' r Hok Hrun) as Hkeeps.
  unfold getPermission.
  rewrite (bind_ok _ _ _ _ _ (ensureIsValidPath_ok path w Hex)).
  unfold findOrCreatePermission. rewrite Hrun. cbn [snd].
  split; [split; [apply Hgrow | by apply Hlev'] |].
  split; [apply Hgrow | done].
Qed.

(** Soundness looks at the registrations and the permissions only. *)
Lemma sound_same (w w' : World) :
  permissionsOf w' = permissionsOf w -> storeOf w' = storeOf w ->
  sound w -> sound w' /\ extends w w'.
Proof.
  intros Hp Hs [[Hreg Halloc] [rank Hl]].
  unfold sound, managerOk, levelled, extends. rewrite Hp, Hs.
  split; [split; [split |] |].
  - done.
  - done.
  - exists rank. intros q o cb t Hq Hcb Ht.
    destruct (Hl q o cb t Hq Hcb Ht) as [Hr [path Hpath]].
    split; [done |]. by exists path.
  - split; [done | apply keepsSubscribers_refl].
Qed.

Lemma steady_newStatus (permission : Permission.ref)
    (mode : FileSystemPermissionMode) :
  steady (newStatus permission mode).
Proof.
  intros w [[Hreg Halloc] [rank Hl]]. unfold newStatus.
  rewrite (bind_ok _ _ _ _ _ (get_eq w)). cbv zeta.
  set (id := nextStatus (manager w)).
  set (w1 := {| fileSystem := fileSystem w;
                manager := {| permissions := permissions (manager w);
                              store := store (manager w);
                              initial := initial (manager w);
                              nextStatus := S id |} |}).
  rewrite (bind_ok _ _ w w1 tt) by done.
  unfold bind. rewrite onStore_eq.
  change (storeOf w1) with (storeOf w).
  destruct (Permission.objects (storeOf w) !! permission) as [o |] eqn:Ho.
  2:{ assert (Hsub : Permission.subscribe permission mode
                       (Permission.DispatchChange id) (storeOf w)
                     = (Throw (TypeError "Cannot read properties of undefined"),
                        storeOf w)).
      { unfold Permission.subscribe, bind, Permission.deref. by rewrite Ho. }
      rewrite Hsub. cbn [fst snd].
      apply sound_same; [done | done |]. split; [done | by exists rank]. }
  rewrite (subscribe_eq permission o mode _ _ Ho). cbn [fst snd].
  set (o' := Permission.pushSubscriber mode (Permission.DispatchChange id) o).
  assert (Hlook : forall q,
            Permission.objects
              (Permission.setObjects <[permission := o']> (storeOf w)) !! q
            = if decide (permission = q) then Some o'
              else Permission.objects (storeOf w) !! q).
  { intros q. cbn. case_decide as Hq; [subst q; apply lookup_insert_eq |].
    by apply lookup_insert_ne. }
  assert (Hcbs : forall cb, cb ∈ callbacksOf o' ->
                   cb ∈ callbacksOf o \/ target cb = None).
  { intros cb. unfold callbacksOf, o', Permission.pushSubscriber.
    destruct mode;
      cbn [Permission.subscribersRead Permission.subscribersReadwrite];
      intros H; repeat (apply elem_of_app in H; destruct H as [H | H]);
      try (apply list_elem_of_singleton in H; rewrite H; by right);
      left; apply elem_of_app; auto. }
  split; [split; [split |] |].
  - intros path q Hq. cbn [storeOf withStore manager store]. rewrite Hlook.
    case_decide; [by eexists | by apply (Hreg path)].
  - intros q. cbn [storeOf withStore manager store]. rewrite Hlook. cbn.
    case_decide as Hq; [subst q; intros _; apply Halloc; by eexists |].
    apply Halloc.
  - exists rank. intros q x cb t. cbn [storeOf withStore manager store].
    rewrite Hlook. case_decide as Hq.
    + subst q. intros [= <-] Hcb Ht.
      destruct (Hcbs cb Hcb) as [Hold | Hnone]; [| congruence].
      by apply (Hl permission o cb t).
    + intros Hx Hcb Ht. by apply (Hl q x cb t).
  - split; [done |]. intros q x Hx. cbn [storeOf withStore manager store].
    rewrite Hlook. case_decide as Hq.
    + subst q. assert (x = o) as -> by congruence. exists o'.
      split; [done |]. intros m cb Hcb. unfold o'.
      destruct mode, m; cbn; try done; apply elem_of_app; by left.
    + by exists x.
Qed.

Lemma steady_getStatus (path : string) (mode : FileSystemPermissionMode) :
  steady (getStatus path mode).
Proof.
  apply steady_bind; [apply steady_getPermission |].
  intros permission. apply steady_newStatus.
Qed.

Lemma steady_getState (path : string) (mode : FileSystemPermissionMode) :
  steady (getState path mode).
Proof.
  apply steady_bind; [apply steady_getPermission |]. intros permission.
  apply steady_onStore; [apply subscribersKept_get | apply nextRefKept_get].
Qed.

Lemma steady_set (fuel : nat) (permission : Permission.ref)
    (mode : FileSystemPermissionMode) (state : PermissionState) :
  steady (onStore (Permission.set fuel permission mode state)).
Proof.
  apply steady_onStore; [apply subscribersKept_set | apply nextRefKept_set].
Qed.

Lemma steady_setState (fuel : nat) (path : string)
    (mode : FileSystemPermissionMode) (state : PermissionState) :
  steady (setState fuel path mode state).
Proof.
  apply steady_bind; [apply steady_getPermission |]. intros permission.
  apply steady_set.
Qed.

Lemma steady_duplicate (fuel : nat) (from to : string) :
  steady (duplicate fuel from to).
Proof.
  apply steady_bind; [apply steady_getPermission |]. intros source.
  apply steady_bind; [apply steady_getPermission |]. intros destination.
  apply steady_bind.
  { apply steady_onStore; [apply (subscribersKept_get source ModeRead)
                          | apply (nextRefKept_get source ModeRead)]. }
  intros sourceRead.
  apply steady_bind; [apply (steady_set fuel destination ModeRead) |].
  intros _. apply steady_bind.
  { apply steady_onStore; [apply (subscribersKept_get source ModeReadwrite)
                          | apply (nextRefKept_get source ModeReadwrite)]. }
  intros sourceReadwrite. apply (steady_set fuel destination ModeReadwrite).
Qed.

Lemma steady_requestPermission
    (promptPermission : FileSystemPermissionMode -> FileSystem.t -> string
                        -> PermissionState)
    (fuel : nat) (path : string) (mode : FileSystemPermissionMode) :
  steady (requestPermission promptPermission fuel path mode).
Proof.
  apply steady_bind; [apply steady_getPermission |]. intros permission.
  apply steady_bind.
  { apply steady_onStore; [apply subscribersKept_get | apply nextRefKept_get]. }
  intros current. case_bool_decide.
  - apply steady_bind; [apply steady_get |]. intros w.
    apply steady_bind; [apply steady_set |]. intros _. apply steady_ret.
  - apply steady_onStore; [apply subscribersKept_get | apply nextRefKept_get].
Qed.

Lemma steady_state (status : Status) : steady (state status).
Proof.
  unfold state. destruct (statusMode status).
  - apply steady_onStore;
      [apply (subscribersKept_get _ ModeRead)
      | apply (nextRefKept_get _ ModeRead)].
  - apply steady_onStore;
      [apply (subscribersKept_get _ ModeReadwrite)
      | apply (nextRefKept_get _ ModeReadwrite)].
Qed.

(** Whatever its user does with it, a sound manager stays sound, and
    keeps its registrations and subscribers. *)
Lemma after_steady (step : ManagerUse.Step) (w : World) :
  sound w ->
  sound (ManagerUse.after step w) /\ extends w (ManagerUse.after step w).
Proof.
  intros Hw. destruct step; cbn [ManagerUse.after].
  - by apply steady_getStatus.
  - by apply steady_getState.
  - by apply steady_setState.
  - by apply steady_duplicate.
  - by apply steady_requestPermission.
  - by apply steady_state.
  - by apply sound_same.
Qed.

Lemma afterAll_steady (steps : list ManagerUse.Step) (w : World) :
  sound w ->
  sound (ManagerUse.afterAll steps w)
  /\ extends w (ManagerUse.afterAll steps w).
Proof.
  revert w. induction steps as [| step steps IH]; intros w Hw.
  - split; [done | apply extends_refl].
  - cbn [ManagerUse.afterAll fold_left].
    destruct (after_steady step w Hw) as [Hs He].
    destruct (IH _ Hs) as [Hs' He']. split; [done |].
    by apply (extends_trans w (ManagerUse.after step w)).
Qed.

End LaterStates.

(** ** PermissionsManager: a new permission and its parent, later *)

Section InheritanceLater.
Import Permission PermissionsManager.

(** A changing [set] on a permission of a sound manager returns, with
    enough fuel, and reaches the permission whose setter is subscribed. *)
Lemma set_reaches_child (w : World) (pp r : ref) (po : obj)
    (mode : FileSystemPermissionMode) (state : PermissionState) :
  sound w -> objects (storeOf w) !! pp = Some po ->
  setterOf mode r ∈ subscribers mode po ->
  valueOf mode po <> state ->
  exists fuel0, forall fuel, (fuel0 <= fuel)%nat ->
    exists h', Permission.set fuel pp mode state (storeOf w) = (Ok tt, h')
               /\ holds r mode state h'.
Proof.
  intros [Hok [rank Hl]] Hpo Hin Hchange.
  assert (Hcb : setterOf mode r ∈ callbacksOf po).
  { unfold callbacksOf. apply elem_of_app.
    destruct mode; [by left | by right]. }
  assert (Ha : acyclic rank (storeOf w)) by by apply levelled_acyclic.
  destruct (levelled_closedBelow rank w Hok Hl) as [top Hclosed].
  exists (3 * (top - rank pp) + 3)%nat. intros fuel Hfuel.
  destruct (set_step rank top fuel pp po mode state
              (storeOf w) Ha Hclosed Hpo) as (h' & Hset & _); [lia |].
  exists h'. split; [done |].
  apply (set_reaches_subscriber rank r mode state fuel pp po (storeOf w) h');
    try done.
  - apply (levelled_firstLevel rank w _ pp po (setterOf mode r)); try done.
    by destruct mode.
  - destruct (Hl pp po (setterOf mode r) r Hpo Hcb) as [_ [p Hp]];
      [by destruct mode |].
    by apply (proj1 Hok p).
Qed.

(** C5, as the code has it.  Let [path] have no permission yet and have
    the parent path [parentPath], in a manager whose subscriptions go one
    level down (as in a new manager, and as after every
    [findOrCreatePermission]).  Then [findOrCreatePermission(path)]
    returns a new permission, registered for [path], and afterwards: the
    parent path is registered; the new permission's [readwrite] is the
    parent's; its [read] is the parent's if the parent does not hold
    [readwrite = granted] without [read = granted], and is granted
    otherwise; the two setters of the new permission are among the
    parent's subscribers, each for its mode; and a [set] on the parent
    that changes its value for a mode returns, with enough fuel, and
    leaves the new permission with the new state for that mode.  The same
    holds later: after whatever calls of [getStatus], [getState],
    [setState], [duplicate] and [requestPermission], reads of the state
    of a status and changes of the file system, the two paths have the
    permissions they had, the setters are still subscribed, and a [set]
    that changes the parent's value for a mode returns with any fuel above
    a bound and leaves the new permission with the new state.  In
    particular, with a default provider of any two values,
    [setState("", "readwrite", "granted")] followed by the first
    [getState("x/y", "readwrite")] returns granted. *)
Theorem permission_inheritance (w : World) (path parentPath : string) :
  managerOk w -> (exists rank, levelled rank w) ->
  permissionsOf w !! path = None ->
  Utils.nonEmpty path = true -> Utils.dirname path = Some parentPath ->
  (exists r w' pp co po,
     findOrCreatePermission path w = (Ok r, w')
     /\ managerOk w' /\ (exists rank, levelled rank w')
     /\ permissionsOf w' !! path = Some r
     /\ permissionsOf w' !! parentPath = Some pp
     /\ objects (storeOf w') !! r = Some co
     /\ objects (storeOf w') !! pp = Some po
     /\ Permission.readwrite co = Permission.readwrite po
     /\ (coupled po -> Permission.read co = Permission.read po)
     /\ (~ coupled po -> Permission.read co = granted)
     /\ (forall mode state,
          valueOf mode po <> state ->
          exists fuel h',
            Permission.set fuel pp mode state (storeOf w') = (Ok tt, h')
            /\ holds r mode state h')
     /\ (forall mode, setterOf mode r ∈ subscribers mode po)
     /\ forall steps,
          let w'' := ManagerUse.afterAll steps w' in
          permissionsOf w'' !! path = Some r
          /\ permissionsOf w'' !! parentPath = Some pp
          /\ exists po'',
               objects (storeOf w'') !! pp = Some po''
               /\ (forall mode, setterOf mode r ∈ subscribers mode po'')
               /\ forall mode state,
                    valueOf mode po'' <> state ->
                    exists fuel0, forall fuel, (fuel0 <= fuel)%nat ->
                      exists h',
                        Permission.set fuel pp mode state (storeOf w'')
                        = (Ok tt, h')
                        /\ holds r mode state h')
  /\ forall read readwrite,
       Scenario.firstAccessAfterGrant read readwrite = Ok granted.
Proof.
  intros Hok Hlev Hpath Hne Hdir. split.
  2:{ intros [] []; vm_compute; reflexivity. }
  destruct (findOrCreate_total (S (length (Utils.pathSegments path))) path w
              Hok) as (r & w' & Hrun); [lia |].
  destruct (findOrCreate_spec _ path w w' r Hok Hrun)
    as (Hgrow & Hreg & Hcreated & _ & Hlev').
  destruct (Hcreated Hpath) as [-> (co & Hco & Hleaf & Hparent)].
  destruct (Hparent parentPath Hne Hdir)
    as (pp & po & Hpp & Hpo & Hppr & Hrw & Hc & Hnc & Hsr & Hsrw).
  destruct (Hlev' Hlev) as [rank' Hl'].
  assert (Hok' : managerOk w') by apply Hgrow.
  assert (Hsound : sound w') by (split; [done | by exists rank']).
  assert (Hin : forall mode,
            setterOf mode (nextRef (storeOf w)) ∈ subscribers mode po)
    by (by intros []).
  exists (nextRef (storeOf w)), w', pp, co, po.
  split_and!; try done; [by exists rank' | |].
  - intros mode state Hchange.
    destruct (set_reaches_child w' pp _ po mode state Hsound Hpo (Hin mode)
                Hchange) as [fuel0 Hset].
    destruct (Hset fuel0) as (h' & Hrun' & Hholds); [lia |].
    by exists fuel0, h'.
  - intros steps w''.
    destruct (afterAll_steady steps w' Hsound) as [Hsound'' [Hkeep Hsubs]].
    fold w'' in Hsound'', Hkeep, Hsubs.
    destruct (Hsubs pp po Hpo) as (po'' & Hpo'' & Hmore).
    split_and!; [by apply Hkeep | by apply Hkeep |].
    exists po''. split_and!; [done | intros mode; by apply Hmore |].
    intros mode state Hchange.
    apply (set_reaches_child w'' pp _ po'' mode state Hsound'' Hpo'');
      [by apply Hmore | done].
Qed.

Lemma permission_inheritance_witness :
  managerOk (Scenario.managed Scenario.nested prompt prompt)
  /\ (exists r w' pp co po,
        findOrCreatePermission "x/y"
          (Scenario.managed Scenario.nested prompt prompt) = (Ok r, w')
        /\ permissionsOf w' !! "x" = Some pp
        /\ objects (storeOf w') !! r = Some co
        /\ objects (storeOf w') !! pp = Some po
        /\ Permission.readwrite co = Permission.readwrite po).
Proof.
  split; [apply new_managerOk |].
  destruct (permission_inheritance
              (Scenario.managed Scenario.nested prompt prompt) "x/y" "x")
    as [(r & w' & pp & co & po & H) _].
  - apply new_managerOk.
  - exists (fun _ => 0%nat). apply new_levelled.
  - reflexivity.
  - reflexivity.
  - reflexivity.
  - exists r, w', pp, co, po. tauto.
Defined.

End InheritanceLater.
